(** * HAL Project-Manager agent: a shallow embedding of the agent core

    Source files embedded here:
    - [src/utils/sandbox.ts]            (path sandbox)
    - [src/utils/redact.ts]             (diagnostics redactor)
    - [src/agents/projectManager.ts]    (readiness evaluator, ticket tools,
                                         context pack, fallback reply)

    JavaScript strings are sequences of UTF-16 code units; they are modelled
    as lists of [N].  Regular expressions of the source are written as
    values of a small regex syntax and run by a backtracking matcher that
    follows the ECMAScript priority order (greedy, lazy, lookahead). *)

From Stdlib Require Import Ascii String.
From Stdlib Require Import List NArith ZArith Lia Bool.
Import ListNotations.

Set Implicit Arguments.

(* ================================================================== *)
(** ** Code units and strings *)
(* ================================================================== *)

Module Js.

Abbreviation jchar := N (only parsing).
Abbreviation jstring := (list N) (only parsing).

(** An ASCII literal as a JavaScript string. *)
Fixpoint u (s : string) : jstring :=
  match s with
  | EmptyString => []
  | String c s' => N_of_ascii c :: u s'
  end.

Definition jstr_eqb (a b : jstring) : bool :=
  if list_eq_dec N.eq_dec a b then true else false.

Definition inRange (lo hi c : N) : bool := (lo <=? c)%N && (c <=? hi)%N.

Definition isDigit (c : jchar) : bool := inRange 48 57 c.
Definition isUpper (c : jchar) : bool := inRange 65 90 c.
Definition isLower (c : jchar) : bool := inRange 97 122 c.
Definition isAlpha (c : jchar) : bool := isUpper c || isLower c.
Definition isAlnum (c : jchar) : bool := isAlpha c || isDigit c.

(** ECMAScript LineTerminator: LF, CR, U+2028, U+2029. *)
Definition isLineTerminator (c : jchar) : bool :=
  N.eqb c 10 || N.eqb c 13 || N.eqb c 8232 || N.eqb c 8233.

(** ECMAScript WhiteSpace + LineTerminator: what [\s] matches and what
    [String.prototype.trim] strips. *)
Definition isWs (c : jchar) : bool :=
  inRange 9 13 c || N.eqb c 32 || N.eqb c 160 || N.eqb c 5760
  || inRange 8192 8202 c || N.eqb c 8232 || N.eqb c 8233 || N.eqb c 8239
  || N.eqb c 8287 || N.eqb c 12288 || N.eqb c 65279.

Fixpoint trimStart (s : jstring) : jstring :=
  match s with
  | c :: s' => if isWs c then trimStart s' else s
  | [] => []
  end.

Definition trimEnd (s : jstring) : jstring := rev (trimStart (rev s)).

(** [String.prototype.trim] *)
Definition trim (s : jstring) : jstring := trimEnd (trimStart s).

(** [toLowerCase] / [toUpperCase].  The ASCII letters are mapped exactly.
    Outside ASCII only the two code points whose lower case contains an
    ASCII letter are mapped (U+212A KELVIN SIGN to k, U+0130 to i followed
    by U+0307); every other code unit is left in place, which is all the
    callers below can observe: each of them next discards or splits on every
    non-ASCII unit. *)
Definition lowerChar (c : jchar) : jstring :=
  if isUpper c then [(c + 32)%N]
  else if N.eqb c 8490 then [107%N]
  else if N.eqb c 304 then [105%N; 775%N]
  else [c].

Definition toLowerCase (s : jstring) : jstring := flat_map lowerChar s.

Definition upperAscii (c : jchar) : jchar := if isLower c then (c - 32)%N else c.

(** [toUpperCase], used by the source only on strings of ASCII letters and
    digits. *)
Definition toUpperCase (s : jstring) : jstring := map upperAscii s.

(** [a.startsWith(p)] *)
Fixpoint startsWith (p s : jstring) : bool :=
  match p, s with
  | [], _ => true
  | pc :: p', c :: s' => N.eqb pc c && startsWith p' s'
  | _ :: _, [] => false
  end.

(** [s.includes(p)] *)
Fixpoint includes (p s : jstring) : bool :=
  startsWith p s ||
  match s with
  | [] => false
  | _ :: s' => includes p s'
  end.

(** [parts.join(sep)] *)
Fixpoint join (sep : jstring) (parts : list jstring) : jstring :=
  match parts with
  | [] => []
  | [p] => p
  | p :: rest => p ++ sep ++ join sep rest
  end.

(** [s.split(sep)] for a non-empty single-unit separator. *)
Fixpoint splitOn (sep : jchar) (cur : jstring) (s : jstring) : list jstring :=
  match s with
  | [] => [rev cur]
  | c :: s' => if N.eqb c sep then rev cur :: splitOn sep [] s'
               else splitOn sep (c :: cur) s'
  end.

(** Decimal digits of a natural number, most significant first. *)
Fixpoint digitsFuel (fuel : nat) (n : N) (acc : jstring) : jstring :=
  match fuel with
  | O => acc
  | S f =>
      let acc' := (48 + n mod 10)%N :: acc in
      if (n <? 10)%N then acc' else digitsFuel f (n / 10)%N acc'
  end.

Definition natToString (n : N) : jstring := digitsFuel (S (N.to_nat (N.log2 n))) n [].

(** Decimal digits of an integer, with a minus sign when it is negative. *)
Definition decimal (z : Z) : jstring :=
  match z with
  | Z0 => u "0"
  | Zpos p => natToString (Npos p)
  | Zneg p => 45%N :: natToString (Npos p)
  end.

(** *** Numbers

    A JavaScript number is an IEEE 754 double.  The numbers of this program
    are whole (ticket numbers, positions, counts), and a whole double is
    written as the integer it is: a number is a [Z].  What the format adds
    is rounding: from [2^53] on not every integer is a double, and a sum is
    the double nearest to the exact sum.  Magnitudes stay below [2^1024]:
    the sums of this program add at most 10 to a number, which never
    overflows. *)

Definition two53 : Z := 9007199254740992.

(** The double nearest to an integer: 53 significant bits, round to
    nearest, ties to the even significand. *)
Definition toDouble (z : Z) : Z :=
  let a := Z.abs z in
  if (a <? two53)%Z then z
  else
    let e := (Z.log2 a - 52)%Z in
    let q := Z.shiftr a e in
    let r := (a - Z.shiftl q e)%Z in
    let half := Z.shiftl 1 (e - 1) in
    let q' := if (r <? half)%Z then q
              else if (half <? r)%Z then (q + 1)%Z
              else if Z.even q then q else (q + 1)%Z in
    (Z.sgn z * Z.shiftl q' e)%Z.

(** [a + b] and [a - b] *)
Definition jsAdd (a b : Z) : Z := toDouble (a + b).
Definition jsSub (a b : Z) : Z := toDouble (a - b).

(** Among the multiples of [10^d], the one nearest to [a] that reads back
    as [a] (the one with the even digit when two are as near), if any. *)
Definition nearestAt (a d : Z) : option Z :=
  let p := (10 ^ d)%Z in
  let lo := (a / p * p)%Z in
  let hi := (lo + p)%Z in
  let okLo := (toDouble lo =? a)%Z in
  let okHi := (toDouble hi =? a)%Z in
  if okLo && okHi then
    Some (if (a - lo <? hi - a)%Z then lo
          else if (hi - a <? a - lo)%Z then hi
          else if Z.even (a / p) then lo else hi)
  else if okLo then Some lo
  else if okHi then Some hi
  else None.

(** The decimal with the fewest significant digits that reads back as the
    double [a]: [d] trailing places are tried first, then fewer. *)
Fixpoint shortestFrom (fuel : nat) (a d : Z) : Z :=
  match fuel with
  | O => a
  | S f =>
      match nearestAt a d with
      | Some y => y
      | None => shortestFrom f a (d - 1)
      end
  end.

Definition shortest (a : Z) : Z :=
  let n := length (decimal a) in
  shortestFrom n a (Z.of_nat n - 1).

Fixpoint dropZeros (revDigits : jstring) : jstring :=
  match revDigits with
  | c :: s => if N.eqb c 48 then dropZeros s else revDigits
  | [] => []
  end.

(** [String(n)] for a whole number: its decimal digits below [2^53]; from
    there on the digits of the shortest decimal that reads back as [n],
    written in full up to 21 digits and with an exponent beyond. *)
Definition numToString (z : Z) : jstring :=
  let a := Z.abs z in
  if (a <? two53)%Z then decimal z
  else
    let ds := decimal (shortest a) in
    let n := length ds in
    (if (z <? 0)%Z then [45%N] else [])
    ++ (if (n <=? 21)%nat then ds
        else
          match rev (dropZeros (rev ds)) with
          | c :: [] => c :: u "e+" ++ decimal (Z.of_nat (n - 1))
          | c :: rest => c :: 46%N :: rest ++ u "e+" ++ decimal (Z.of_nat (n - 1))
          | [] => ds
          end).

(** [s.padStart(n, '0')] *)
Definition padStart0 (n : nat) (s : jstring) : jstring :=
  repeat 48%N (n - length s) ++ s.

(** [parseInt(s, 10)] on a non-empty run of decimal digits. *)
Definition parseDigits (s : jstring) : Z :=
  fold_left (fun acc c => (acc * 10 + Z.of_N (c - 48))%Z) s 0%Z.

End Js.
Import Js.

(* ================================================================== *)
(** ** Regular expressions *)
(* ================================================================== *)

Module Regex.

(** The fragment of ECMAScript regular expressions the sources use. *)
Inductive re : Type :=
| Eps                              (* empty pattern *)
| Chr (p : jchar -> bool)          (* one code unit in a class *)
| Seq (a b : re)                   (* ab *)
| Alt (a b : re)                   (* a|b, left alternative first *)
| Star (greedy : bool) (a : re)    (* a* and a*? *)
| Grp (i : nat) (a : re)           (* capture group number i *)
| Look (positive : bool) (a : re)  (* (?=a) and (?!a) *)
| Bol (multiline : bool)           (* ^ *)
| Eol (multiline : bool).          (* $ *)

(** Matcher state: the input before the current position (reversed), the
    input from the current position on, and the captures made so far. *)
Record mstate := MState {
  before : jstring;
  rest : jstring;
  caps : list (nat * jstring)
}.

Definition consumed (st st' : mstate) : jstring :=
  firstn (length (rest st) - length (rest st')) (rest st).

(** The loop of a star: [ma] runs the starred pattern once, [k] is what
    follows the star, [n] bounds the number of iterations left. An iteration
    that consumes nothing is rejected, as in the ECMAScript RepeatMatcher. *)
Fixpoint starLoop {R : Type} (ma : mstate -> (mstate -> option R) -> option R)
    (greedy : bool) (k : mstate -> option R) (n : nat) (st : mstate) {struct n} : option R :=
  match n with
  | O => k st
  | S n' =>
      let again (_ : unit) :=
        ma st (fun st' =>
          if (length (rest st') <? length (rest st))%nat
          then starLoop ma greedy k n' st' else None) in
      if greedy then
        match again tt with
        | Some x => Some x
        | None => k st
        end
      else
        match k st with
        | Some x => Some x
        | None => again tt
        end
  end.

(** Backtracking matcher in continuation-passing style: [k] is the rest of
    the pattern; [None] makes the caller try its next alternative. *)
Fixpoint rmatch {R : Type} (r : re) (st : mstate) (k : mstate -> option R) {struct r}
  : option R :=
  match r with
  | Eps => k st
  | Chr p =>
      match rest st with
      | c :: s' => if p c then k (MState (c :: before st) s' (caps st)) else None
      | [] => None
      end
  | Seq a b => rmatch a st (fun st' => rmatch b st' k)
  | Alt a b =>
      match rmatch a st k with
      | Some x => Some x
      | None => rmatch b st k
      end
  | Star greedy a =>
      starLoop (fun st0 k0 => rmatch a st0 k0) greedy k (S (length (rest st))) st
  | Grp i a =>
      rmatch a st (fun st' =>
        k (MState (before st') (rest st') ((i, consumed st st') :: caps st')))
  | Look positive a =>
      match rmatch a st (fun _ => Some tt) with
      | Some _ => if positive then k st else None
      | None => if positive then None else k st
      end
  | Bol multiline =>
      match before st with
      | [] => k st
      | c :: _ => if multiline && isLineTerminator c then k st else None
      end
  | Eol multiline =>
      match rest st with
      | [] => k st
      | c :: _ => if multiline && isLineTerminator c then k st else None
      end
  end.

(** Derived forms. *)
Definition plus (greedy : bool) (a : re) : re := Seq a (Star greedy a).
Definition opt (a : re) : re := Alt a Eps.

Fixpoint seqs (l : list re) : re :=
  match l with
  | [] => Eps
  | [a] => a
  | a :: l' => Seq a (seqs l')
  end.

(** a{n} *)
Fixpoint times (n : nat) (a : re) : re :=
  match n with
  | O => Eps
  | S n' => Seq a (times n' a)
  end.

(** a{0,n}, greedy *)
Fixpoint upTo (n : nat) (a : re) : re :=
  match n with
  | O => Eps
  | S n' => opt (Seq a (upTo n' a))
  end.

(** a{lo,hi}, greedy *)
Definition range (lo hi : nat) (a : re) : re := Seq (times lo a) (upTo (hi - lo) a).

(** a{lo,}, greedy *)
Definition atLeast (lo : nat) (a : re) : re := Seq (times lo a) (Star true a).

Definition chr (c : jchar) : re := Chr (N.eqb c).

(** A literal string. *)
Definition lit (s : jstring) : re := seqs (map chr s).

(** Canonicalize of the [i] flag without the [u] flag, on ASCII. *)
Definition canon (c : jchar) : jchar := upperAscii c.

(** A literal string under the [i] flag; the literals of the sources are
    ASCII, and a non-ASCII unit never canonicalizes to an ASCII one. *)
Definition lit_i (s : jstring) : re :=
  seqs (map (fun c => Chr (fun d => N.eqb (canon c) (canon d))) s).

Definition ws : re := Chr isWs.                       (* \s *)
Definition digit : re := Chr isDigit.                 (* \d *)
Definition anyChar : re := Chr (fun _ => true).       (* [\s\S] *)
Definition dot : re := Chr (fun c => negb (isLineTerminator c)). (* . *)

(** Result of one successful match. *)
Record rmatchResult := RMatch {
  m_before : jstring;               (* input before the match *)
  m_text : jstring;                 (* the matched substring *)
  m_after : jstring;                (* input after the match *)
  m_caps : list (nat * jstring)     (* captures, latest first *)
}.

Definition group (i : nat) (m : rmatchResult) : option jstring :=
  match find (fun p => Nat.eqb (fst p) i) (m_caps m) with
  | Some p => Some (snd p)
  | None => None
  end.

(** One attempt at the current position. *)
Definition attempt (r : re) (pre s : jstring) : option rmatchResult :=
  rmatch r (MState pre s [])
    (fun st' => Some (RMatch (rev pre) (firstn (length s - length (rest st')) s)
                             (rest st') (caps st'))).

(** [RegExp.prototype.exec] from the position after [pre]: leftmost start
    position first. *)
Fixpoint search (r : re) (pre s : jstring) {struct s} : option rmatchResult :=
  match attempt r pre s with
  | Some m => Some m
  | None =>
      match s with
      | [] => None
      | c :: s' => search r (c :: pre) s'
      end
  end.

(** [re.exec(s)] / [s.match(re)] without the [g] flag. *)
Definition exec (r : re) (s : jstring) : option rmatchResult := search r [] s.

(** [re.test(s)] *)
Definition test (r : re) (s : jstring) : bool :=
  match exec r s with Some _ => true | None => false end.

(** All matches of a [g] regex, in order; after an empty match the search
    resumes one unit further. *)
Fixpoint matchesFrom (fuel : nat) (r : re) (pre s : jstring) : list rmatchResult :=
  match fuel with
  | O => []
  | S f =>
      match search r pre s with
      | None => []
      | Some m =>
          m :: match m_text m, m_after m with
               | [], [] => []
               | [], c :: t => matchesFrom f r (c :: rev (m_before m)) t
               | _ :: _, t => matchesFrom f r (rev (m_text m) ++ rev (m_before m)) t
               end
      end
  end.

Definition matchAll (r : re) (s : jstring) : list rmatchResult :=
  matchesFrom (S (length s)) r [] s.

(** [s.match(re)] with the [g] flag, [null] read as the empty list. *)
Definition matchG (r : re) (s : jstring) : list jstring := map m_text (matchAll r s).

(** GetSubstitution: expansion of [$$], [$&], [$`], [$'], [$n] and [$nn] in
    a replacement string, for a regex with [ngroups] capture groups. *)
Fixpoint expand (ngroups : nat) (m : rmatchResult) (tpl : jstring) : jstring :=
  match tpl with
  | [] => []
  | c :: t =>
      if negb (N.eqb c 36) then c :: expand ngroups m t
      else
        match t with
        | [] => [c]
        | d :: t' =>
            if N.eqb d 36 then 36%N :: expand ngroups m t'
            else if N.eqb d 38 then m_text m ++ expand ngroups m t'
            else if N.eqb d 96 then m_before m ++ expand ngroups m t'
            else if N.eqb d 39 then m_after m ++ expand ngroups m t'
            else if isDigit d then
              let one := N.to_nat (d - 48) in
              let single :=
                if (1 <=? one)%nat && (one <=? ngroups)%nat
                then match group one m with Some g => g | None => [] end
                       ++ expand ngroups m t'
                else c :: expand ngroups m t in
              match t' with
              | e :: t'' =>
                  if isDigit e then
                    let two := (10 * one + N.to_nat (e - 48))%nat in
                    if (1 <=? two)%nat && (two <=? ngroups)%nat
                    then match group two m with Some g => g | None => [] end
                           ++ expand ngroups m t''
                    else single
                  else single
              | [] => single
              end
            else c :: expand ngroups m t
        end
  end.

(** [s.replace(re, tpl)] without the [g] flag: the first match only. *)
Definition replaceFirst (ngroups : nat) (r : re) (tpl s : jstring) : jstring :=
  match exec r s with
  | None => s
  | Some m => m_before m ++ expand ngroups m tpl ++ m_after m
  end.

(** [s.replace(re, tpl)] with the [g] flag: the text before each match is
    copied, the match is replaced by the expanded template, and the scan
    resumes after the match (one unit further after an empty match, that
    unit being copied). *)
Fixpoint replaceFrom (fuel : nat) (ngroups : nat) (r : re) (tpl pre s : jstring) : jstring :=
  match fuel with
  | O => s
  | S f =>
      match search r pre s with
      | None => s
      | Some m =>
          skipn (length pre) (m_before m) ++ expand ngroups m tpl ++
          match m_text m, m_after m with
          | [], [] => []
          | [], c :: t => c :: replaceFrom f ngroups r tpl (c :: rev (m_before m)) t
          | _ :: _, t => replaceFrom f ngroups r tpl (rev (m_text m) ++ rev (m_before m)) t
          end
      end
  end.

Definition replaceAll (ngroups : nat) (r : re) (tpl s : jstring) : jstring :=
  replaceFrom (S (length s)) ngroups r tpl [] s.

(** [s.split(re)] for a regex without capture groups that never matches the
    empty string. *)
Fixpoint cut (pos : nat) (s : jstring) (ms : list rmatchResult) : list jstring :=
  match ms with
  | [] => [skipn pos s]
  | m :: ms' =>
      let start := length (m_before m) in
      firstn (start - pos) (skipn pos s) :: cut (start + length (m_text m)) s ms'
  end.

Definition splitRe (r : re) (s : jstring) : list jstring :=
  match s with
  | [] => if test r [] then [] else [[]]
  | _ => cut 0 s (matchAll r s)
  end.

End Regex.
Import Regex.

(* ================================================================== *)
(** ** Ticket text: slugs, prefixes, references, readiness *)
(* ================================================================== *)

Module Ticket.

Definition nl : jchar := 10%N.
Definition emDash : jchar := 8212%N.
Definition enDash : jchar := 8211%N.
Definition dquote : jchar := 34%N.

(** [x || fallback] on strings: the empty string is falsy. *)
Definition orElse (x fallback : jstring) : jstring :=
  match x with [] => fallback | _ => x end.

(** [slugFromTitle] *)
Definition slugFromTitle (title : jstring) : jstring :=
  let s := toLowerCase (trim title) in
  let s := replaceAll 0 (plus true ws) (u "-") s in                        (* /\s+/g *)
  let s := replaceAll 0 (Chr (fun c => negb (isLower c || isDigit c || N.eqb c 45))) [] s in
                                                                           (* /[^a-z0-9-]/g *)
  let s := replaceAll 0 (plus true (chr 45)) (u "-") s in                  (* /-+/g *)
  let s := replaceAll 0 (Alt (Seq (Bol false) (chr 45)) (Seq (chr 45) (Eol false))) [] s in
                                                                           (* /^-|-$/g *)
  orElse s (u "ticket").

(** Postgres/PostgREST error object: [{ code?, message? }]. *)
Record PgError := mkPgError {
  code : option jstring;
  message : option jstring
}.

(** [e?.message ?? ''] *)
Definition msgOrEmpty (e : PgError) : jstring :=
  match message e with Some m => m | None => [] end.

(** [`${e.message}`]: an absent message prints as [undefined]. *)
Definition msgText (e : PgError) : jstring :=
  match message e with Some m => m | None => u "undefined" end.

Definition codeIs (c : jstring) (e : PgError) : bool :=
  match code e with Some x => jstr_eqb x c | None => false end.

(** [isUnknownColumnError] *)
Definition isUnknownColumnError (e : PgError) : bool :=
  let msg := toLowerCase (msgOrEmpty e) in
  codeIs (u "42703") e || (includes (u "column") msg && includes (u "does not exist") msg).

(** [isUniqueViolation] on a non-null error. *)
Definition isUniqueViolation (e : PgError) : bool :=
  if codeIs (u "23505") e then true
  else
    let msg := toLowerCase (msgOrEmpty e) in
    includes (u "duplicate key") msg || includes (u "unique constraint") msg.

(** [arr.pop()] of a non-empty array. *)
Definition lastOr (d : jstring) (l : list jstring) : jstring := last l d.

Definition nonEmpty (s : jstring) : bool := match s with [] => false | _ => true end.

(** The scan of [repoHintPrefix] over the tokens, last token first. *)
Fixpoint pickToken (revTokens : list jstring) : option jstring :=
  match revTokens with
  | [] => None
  | t :: more =>
      if negb (existsb isLower t) then pickToken more                (* !/[a-z]/.test(t) *)
      else if (2 <=? length t)%nat && (length t <=? 6)%nat then Some (toUpperCase t)
      else pickToken more
  end.

(** [repoHintPrefix] *)
Definition repoHintPrefix (repoFullName : jstring) : jstring :=
  let repo := lastOr repoFullName (splitOn 47 [] repoFullName) in
  let tokens :=
    filter nonEmpty
      (splitRe (plus true (Chr (fun c => negb (isLower c || isDigit c)))) (toLowerCase repo)) in
  match pickToken (rev tokens) with
  | Some t => t
  | None =>
      let letters := toUpperCase (replaceAll 0 (Chr (fun c => negb (isAlpha c))) [] repo) in
      toUpperCase (orElse (firstn 4 letters) (u "PRJ"))
  end.

(** /(\d{1,4})(?!.*\d)/ *)
Definition TICKET_NUMBER_RE : re :=
  Seq (Grp 1 (range 1 4 digit)) (Look false (Seq (Star true dot) digit)).

(** [parseTicketNumber]; [None] is [null]. The parsed run has at most four
    digits, so the result is always finite. *)
Definition parseTicketNumber (ref : jstring) : option Z :=
  let s := trim ref in
  match s with
  | [] => None
  | _ =>
      match exec TICKET_NUMBER_RE s with
      | None => None
      | Some m =>
          match group 1 m with
          | Some d => Some (parseDigits d)
          | None => None
          end
      end
  end.

(** /^# T\s*$/gm for a heading text [T] *)
Definition h1Line (t : jstring) : re :=
  seqs [Bol true; lit (u "# " ++ t); Star true ws; Eol true].

(** [normalizeBodyForReady] *)
Definition normalizeBodyForReady (bodyMd : jstring) : jstring :=
  let replacements : list (re * jstring) :=
    [ (h1Line (u "Goal"), u "## Goal (one sentence)");
      (h1Line (u "Human-verifiable deliverable"), u "## Human-verifiable deliverable (UI-only)");
      (h1Line (u "Acceptance criteria"), u "## Acceptance criteria (UI-only)");
      (h1Line (u "Constraints"), u "## Constraints");
      (h1Line (u "Non-goals"), u "## Non-goals") ] in
  fold_left (fun out p => replaceAll 0 (fst p) (snd p) out) replacements (trim bodyMd).

(** The regex built by [sectionContent]: the title is escaped, so it stands
    for itself; flag [i].
    [##\s+TITLE\s*\n([\s\S]*?)(?=\n## |$)] *)
Definition sectionRe (sectionTitle : jstring) : re :=
  seqs [ lit (u "##"); plus true ws; lit_i sectionTitle; Star true ws; chr nl;
         Grp 1 (Star false anyChar);
         Look true (Alt (lit (nl :: u "## ")) (Eol false)) ].

(** [sectionContent] *)
Definition sectionContent (body sectionTitle : jstring) : jstring :=
  match exec (sectionRe sectionTitle) body with
  | Some m => trim (match group 1 m with Some g => g | None => [] end)
  | None => trim []
  end.

(** The title line: group 1 is [- \*\*Title\*\*:] with [\s*] after it,
    group 2 is [.+?], then [(?:\n|$)]. *)
Definition titleLineRegex : re :=
  seqs [ Grp 1 (Seq (lit (u "- **Title**:")) (Star true ws));
         Grp 2 (plus false dot);
         Alt (chr nl) (Eol false) ].

Definition isDash (c : jchar) : bool := N.eqb c emDash || N.eqb c enDash || N.eqb c 45.

(** An existing id prefix: [^(?:[A-Za-z0-9]{2,10}-)?\d{4}\s*D\s*] with [D] one of
    U+2014, U+2013 and the hyphen. *)
Definition idPrefixRe : re :=
  seqs [ Bol false; opt (Seq (range 2 10 (Chr isAlnum)) (chr 45)); times 4 digit;
         Star true ws; Chr isDash; Star true ws ].

(** [s.endsWith('\n')] *)
Definition endsWithNl (s : jstring) : bool :=
  match rev s with c :: _ => N.eqb c nl | [] => false end.

(** [normalizeTitleLineInBody] *)
Definition normalizeTitleLineInBody (bodyMd ticketId : jstring) : jstring :=
  if negb (nonEmpty bodyMd) || negb (nonEmpty ticketId) then bodyMd
  else
    let idPrefix := ticketId ++ [32%N; emDash; 32%N] in
    match exec titleLineRegex bodyMd with
    | None => bodyMd
    | Some m =>
        let prefix := match group 1 m with Some g => g | None => [] end in
        let titleValue := trim (match group 2 m with Some g => g | None => [] end) in
        let titleValue := replaceFirst 0 idPrefixRe [] titleValue in
        let normalizedTitle := idPrefix ++ titleValue in
        let normalizedLine :=
          prefix ++ normalizedTitle ++ (if endsWithNl (m_text m) then [nl] else []) in
        replaceFirst 2 titleLineRegex normalizedLine bodyMd
    end.

(** [A-Za-z0-9\s\-_] *)
Definition placeholderChar (c : jchar) : bool :=
  isAlnum c || isWs c || N.eqb c 45 || N.eqb c 95.

(** [PLACEHOLDER_RE] = /<[A-Za-z0-9\s\-_]+>/g *)
Definition PLACEHOLDER_RE : re :=
  seqs [chr 60; plus true (Chr placeholderChar); chr 62].

Record ChecklistResults := mkChecklist {
  goal : bool;
  deliverable : bool;
  acceptanceCriteria : bool;
  constraintsNonGoals : bool;
  noPlaceholders : bool
}.

Record ReadyCheckResult := mkReady {
  ready : bool;
  missingItems : list jstring;
  checklistResults : ChecklistResults
}.

(** /^<[^>]*>$/ *)
Definition wholeBracketRe : re :=
  seqs [Bol false; chr 60; Star true (Chr (fun c => negb (N.eqb c 62))); chr 62; Eol false].

(** /-\s*\[\s*\]/ *)
Definition checkboxRe : re :=
  seqs [chr 45; Star true ws; chr 91; Star true ws; chr 93].

Definition T_GOAL := u "Goal (one sentence)".
Definition T_DELIVERABLE := u "Human-verifiable deliverable (UI-only)".
Definition T_AC := u "Acceptance criteria (UI-only)".
Definition T_CONSTRAINTS := u "Constraints".
Definition T_NONGOALS := u "Non-goals".

(** [if (!ok) missingItems.push(msg)] *)
Definition pushUnless (ok : bool) (msg : jstring) (items : list jstring) : list jstring :=
  if ok then items else items ++ [msg].

(** [evaluateTicketReady] *)
Definition evaluateTicketReady (bodyMd : jstring) : ReadyCheckResult :=
  let body := trim bodyMd in
  let goal := sectionContent body T_GOAL in
  let deliverable := sectionContent body T_DELIVERABLE in
  let ac := sectionContent body T_AC in
  let constraints := sectionContent body T_CONSTRAINTS in
  let nonGoals := sectionContent body T_NONGOALS in
  let goalPlaceholders := matchG PLACEHOLDER_RE goal in
  let deliverablePlaceholders := matchG PLACEHOLDER_RE deliverable in
  let goalOk := (0 <? length goal)%nat && (length goalPlaceholders =? 0)%nat
                && negb (test wholeBracketRe (trim goal)) in
  let deliverableOk := (0 <? length deliverable)%nat && (length deliverablePlaceholders =? 0)%nat in
  let acOk := test checkboxRe ac in
  let constraintsOk := (0 <? length constraints)%nat in
  let nonGoalsOk := (0 <? length nonGoals)%nat in
  let placeholders := matchG PLACEHOLDER_RE body in
  let noPlaceholdersOk := (length placeholders =? 0)%nat in
  let missingItems : list jstring := [] in
  let missingItems := pushUnless goalOk (u "Goal (one sentence) missing or placeholder") missingItems in
  let missingItems := pushUnless deliverableOk (u "Human-verifiable deliverable missing or placeholder") missingItems in
  let missingItems := pushUnless acOk (u "Acceptance criteria checkboxes missing") missingItems in
  let missingItems := pushUnless constraintsOk (u "Constraints section missing or empty") missingItems in
  let missingItems := pushUnless nonGoalsOk (u "Non-goals section missing or empty") missingItems in
  let missingItems := pushUnless noPlaceholdersOk
                        (u "Unresolved placeholders: " ++ join (u ", ") placeholders) missingItems in
  mkReady (goalOk && deliverableOk && acOk && constraintsOk && nonGoalsOk && noPlaceholdersOk)
          missingItems
          (mkChecklist goalOk deliverableOk acOk (constraintsOk && nonGoalsOk) noPlaceholdersOk).

End Ticket.
Import Ticket.

(* ================================================================== *)
(** ** The backing store, at its interface *)
(* ================================================================== *)

(** The [tickets] table is an external collaborator. A row is what a query
    hands back: every column may be absent ([undefined] or [null]).  The
    number columns are whole, and a row holds their values as the client
    parsed them, as doubles. *)
Module Row.
Record t := mk {
  pk : option jstring;
  id : option jstring;
  display_id : option jstring;
  repo_full_name : option jstring;
  ticket_number : option Z;
  filename : option jstring;
  title : option jstring;
  body_md : option jstring;
  kanban_column_id : option jstring;
  kanban_position : option Z;
  kanban_moved_at : option jstring
}.
Definition empty : t := mk None None None None None None None None None None None.
End Row.

Module Store.

Inductive Col :=
| c_pk | c_id | c_display_id | c_repo_full_name | c_ticket_number | c_filename
| c_title | c_body_md | c_kanban_column_id | c_kanban_position | c_kanban_moved_at.

Inductive Value := VStr (s : jstring) | VNum (z : Z).

(** [from('tickets').select(cols).eq(..)...order(..)...limit(n)] *)
Record Query := mkQuery {
  q_select : list Col;
  q_eq : list (Col * Value);
  q_order : list (Col * bool);      (* column, ascending *)
  q_limit : option nat
}.

(** The [{ data, error }] pair a query resolves to. *)
Record Resp (A : Type) := mkResp {
  data : option A;
  error : option PgError
}.
Arguments mkResp {A}.
Arguments data {A}.
Arguments error {A}.

(** A call either returns or throws a message. *)
Inductive Outcome (A : Type) :=
| Returned (a : A)
| Thrown (msg : jstring).
Arguments Returned {A}.
Arguments Thrown {A}.

(** What the agent is given: the store client, the clock and the UUID
    source. Reads do not change the store; writes may. *)
Record Env := mkEnv {
  St : Type;
  selectRows : St -> Query -> Outcome (Resp (list Row.t));
  selectMaybeSingle : St -> Query -> Outcome (Resp Row.t);
  insertRow : St -> Row.t -> St * Outcome (option PgError);
  updateRows : St -> Row.t -> list (Col * Value) -> St * Outcome (option PgError);
  nowISO : nat -> jstring;          (* new Date().toISOString() *)
  randomUUID : nat -> jstring       (* crypto.randomUUID() *)
}.

(** Every call made on the store client, in order. *)
Inductive Access :=
| ASelect (q : Query)
| AMaybeSingle (q : Query)
| AInsert (row : Row.t)
| AUpdate (patch : Row.t) (filters : list (Col * Value)).

End Store.
Import Store.

(* ================================================================== *)
(** ** Tool results and the Tool Call Record *)
(* ================================================================== *)

Module Tool.

(** [{ success: false, error, detectedPlaceholders? }] *)
Record Failure := mkFailure {
  f_error : jstring;
  f_detectedPlaceholders : option (list jstring)
}.

(** A result type of the source: [{ success: true, ... } | { success: false, ... }]. *)
Inductive Result (A : Type) :=
| Ok (a : A)
| Fail (f : Failure).
Arguments Ok {A}.
Arguments Fail {A}.

Definition failWith {A} (msg : jstring) : Result A := Fail (mkFailure msg None).

Definition success {A} (r : Result A) : bool :=
  match r with Ok _ => true | Fail _ => false end.

Record CreateSuccess := mkCreateSuccess {
  cs_id : jstring;
  cs_display_id : jstring;
  cs_ticket_number : Z;
  cs_repo_full_name : jstring;
  cs_filename : jstring;
  cs_filePath : jstring;
  cs_retried : option bool;
  cs_attempts : option Z;
  cs_ready : bool;
  cs_missingItems : option (list jstring);
  cs_autoFixed : option bool;
  cs_movedToTodo : option bool;
  cs_moveError : option jstring
}.

Record FetchSuccess := mkFetchSuccess {
  fs_id : option jstring;
  fs_display_id : option jstring;
  fs_ticket_number : option Z;
  fs_repo_full_name : option jstring;
  fs_title : jstring;
  fs_body_md : jstring;
  fs_kanban_column_id : option jstring
}.

Record UpdateSuccess := mkUpdateSuccess {
  us_ticketId : jstring;
  us_ready : bool;
  us_missingItems : option (list jstring)
}.

Record MoveSuccess := mkMoveSuccess {
  ms_ticketId : jstring;
  ms_fromColumn : jstring;
  ms_toColumn : jstring
}.

Record MoveOtherSuccess := mkMoveOtherSuccess {
  mo_ticketId : jstring;
  mo_display_id : option jstring;
  mo_fromRepo : jstring;
  mo_toRepo : jstring;
  mo_fromColumn : jstring;
  mo_toColumn : jstring
}.

Record ListedTicket := mkListedTicket {
  lt_id : jstring;
  lt_title : jstring;
  lt_column : jstring
}.

Record ListSuccess := mkListSuccess {
  ls_column_id : jstring;
  ls_tickets : list ListedTicket;
  ls_count : Z
}.

Record ReposSuccess := mkReposSuccess {
  rs_repos : list jstring;          (* the [repo_full_name] of each entry *)
  rs_count : Z
}.

Record CreateInput := mkCreateInput { ci_title : jstring; ci_body_md : jstring }.
Record UpdateInput := mkUpdateInput { ui_ticket_id : jstring; ui_body_md : jstring }.
Record MoveOtherInput := mkMoveOtherInput {
  mi_ticket_id : jstring;
  mi_target_repo_full_name : jstring
}.

(** One entry of [toolCalls]: each site that pushes a record fixes the tool
    name and the shapes of input and output. *)
Inductive ToolCallRecord :=
| CallListDirectory (path : jstring) (output : jstring + list jstring)
| CallReadFile (path : jstring) (output : jstring + jstring)
| CallSearchFiles (pattern glob : jstring) (output : jstring + list (jstring * Z * jstring))
| CallCreateTicket (input : CreateInput) (output : Result CreateSuccess)
| CallFetchTicketContent (ticket_id : jstring) (output : Result FetchSuccess)
| CallEvaluateTicketReady (body_md : jstring) (output : ReadyCheckResult)
| CallUpdateTicketBody (input : UpdateInput) (output : Result UpdateSuccess)
| CallSyncTickets (output : Result (option jstring))
| CallKanbanMoveTicketToTodo (ticket_id : jstring) (output : Result MoveSuccess)
| CallListTicketsByColumn (column_id : jstring) (output : Result ListSuccess)
| CallListAvailableRepos (output : Result ReposSuccess)
| CallKanbanMoveTicketToOtherRepoTodo (input : MoveOtherInput) (output : Result MoveOtherSuccess).

Definition name (c : ToolCallRecord) : jstring :=
  match c with
  | CallListDirectory _ _ => u "list_directory"
  | CallReadFile _ _ => u "read_file"
  | CallSearchFiles _ _ _ => u "search_files"
  | CallCreateTicket _ _ => u "create_ticket"
  | CallFetchTicketContent _ _ => u "fetch_ticket_content"
  | CallEvaluateTicketReady _ _ => u "evaluate_ticket_ready"
  | CallUpdateTicketBody _ _ => u "update_ticket_body"
  | CallSyncTickets _ => u "sync_tickets"
  | CallKanbanMoveTicketToTodo _ _ => u "kanban_move_ticket_to_todo"
  | CallListTicketsByColumn _ _ => u "list_tickets_by_column"
  | CallListAvailableRepos _ => u "list_available_repos"
  | CallKanbanMoveTicketToOtherRepoTodo _ _ => u "kanban_move_ticket_to_other_repo_todo"
  end.

End Tool.
Import Tool.

(* ================================================================== *)
(** ** The store-backed tools of [runPmAgent] *)
(* ================================================================== *)

Definition COL_UNASSIGNED : jstring := u "col-unassigned".
Definition COL_TODO : jstring := u "col-todo".
Definition MAX_TOOL_ITERATIONS : nat := 10.
Definition MAX_CREATE_TICKET_RETRIES : nat := 10.
Definition CONVERSATION_RECENT_MAX_CHARS : Z := 12000.
Definition LEGACY_REPO : jstring := u "legacy/unknown".

(** [[...new Set(xs)]]: first occurrences, in order. *)
Fixpoint uniq (seen xs : list jstring) : list jstring :=
  match xs with
  | [] => []
  | x :: xs' =>
      if existsb (jstr_eqb x) seen then uniq seen xs'
      else x :: uniq (x :: seen) xs'
  end.

(** [parseInt(s, 10)]: leading white space, an optional sign, then the
    longest run of digits, read as the nearest double; [None] is [NaN].  (A
    run of more than 308 digits reads as [Infinity], which a [Z] does not
    hold; such ids are outside this model.) *)
Fixpoint takeDigits (s : jstring) : jstring :=
  match s with
  | c :: s' => if isDigit c then c :: takeDigits s' else []
  | [] => []
  end.

Definition parseInt10 (s : jstring) : option Z :=
  let s := trimStart s in
  let '(neg, s) :=
    match s with
    | c :: s' => if N.eqb c 45 then (true, s') else if N.eqb c 43 then (false, s') else (false, s)
    | [] => (false, s)
    end in
  match takeDigits s with
  | [] => None
  | ds => Some (toDouble (if neg then - parseDigits ds else parseDigits ds))
  end.

(** [rows.reduce((acc, r) => Math.max(acc, r.kanban_position ?? 0), 0)] *)
Definition maxPosition (rows : list Row.t) : Z :=
  fold_left (fun acc r => Z.max acc (match Row.kanban_position r with Some p => p | None => 0%Z end))
            rows 0%Z.

Definition orNil {A} (o : option (list A)) : list A :=
  match o with Some l => l | None => [] end.

Definition truthyStr (o : option jstring) : bool :=
  match o with Some (_ :: _) => true | _ => false end.

Section Tools.

Variable E : Env.

(** [config.projectId] *)
Variable projectId : option jstring.

(** What a tool's [execute] can read and change during one turn. *)
Record World := mkWorld {
  store : St E;
  accesses : list Access;             (* calls made on the store client *)
  toolCalls : list ToolCallRecord;    (* the turn's Tool Call Record *)
  ticks : nat                         (* clock and UUID draws so far *)
}.

(** An asynchronous computation of the source: it runs on the world and
    either returns or throws. *)
Definition M (A : Type) : Type := World -> World * Outcome A.

Definition ret {A} (a : A) : M A := fun w => (w, Returned a).

Definition bind {A B} (c : M A) (k : A -> M B) : M B :=
  fun w =>
    match c w with
    | (w', Returned a) => k a w'
    | (w', Thrown msg) => (w', Thrown msg)
    end.

(** [try { c } catch (err) { handler(err.message) }] *)
Definition tryCatch {A} (c : M A) (handler : jstring -> M A) : M A :=
  fun w =>
    match c w with
    | (w', Returned a) => (w', Returned a)
    | (w', Thrown msg) => handler msg w'
    end.

Notation "'let*' x ':=' c 'in' k" := (bind c (fun x => k))
  (at level 10, x pattern, c at level 200, k at level 200).

Definition logged (a : Access) (w : World) : World :=
  mkWorld (store w) (accesses w ++ [a]) (toolCalls w) (ticks w).

Definition select (q : Query) : M (Resp (list Row.t)) :=
  fun w => (logged (ASelect q) w, selectRows E (store w) q).

Definition maybeSingle (q : Query) : M (Resp Row.t) :=
  fun w => (logged (AMaybeSingle q) w, selectMaybeSingle E (store w) q).

Definition insert (row : Row.t) : M (option PgError) :=
  fun w =>
    let '(s', r) := insertRow E (store w) row in
    (mkWorld s' (accesses w ++ [AInsert row]) (toolCalls w) (ticks w), r).

Definition update (patch : Row.t) (filters : list (Col * Value)) : M (option PgError) :=
  fun w =>
    let '(s', r) := updateRows E (store w) patch filters in
    (mkWorld s' (accesses w ++ [AUpdate patch filters]) (toolCalls w) (ticks w), r).

Definition now : M jstring :=
  fun w => (mkWorld (store w) (accesses w) (toolCalls w) (S (ticks w)),
            Returned (nowISO E (ticks w))).

Definition uuid : M jstring :=
  fun w => (mkWorld (store w) (accesses w) (toolCalls w) (S (ticks w)),
            Returned (randomUUID E (ticks w))).

(** [toolCalls.push(c)] *)
Definition push (c : ToolCallRecord) : M unit :=
  fun w => (mkWorld (store w) (accesses w) (toolCalls w ++ [c]) (ticks w), Returned tt).

(** [typeof config.projectId === 'string' && config.projectId.trim()
     ? config.projectId.trim() : dflt] *)
Definition projectRepo (dflt : jstring) : jstring :=
  match projectId with
  | Some p => match trim p with [] => dflt | t => t end
  | None => dflt
  end.

(** The query for the highest position in To Do, optionally within a repo. *)
Definition todoTopQuery (repo : option jstring) : Query :=
  mkQuery [c_kanban_position]
          ((c_kanban_column_id, VStr COL_TODO) ::
           match repo with Some r => [(c_repo_full_name, VStr r)] | None => [] end)
          [(c_kanban_position, false)] (Some 1%nat).

Definition placeholderRejection (what tail : jstring) (found : list jstring) : Failure :=
  mkFailure (u "Ticket " ++ what ++ u " rejected: unresolved template placeholder tokens detected"
             ++ tail ++ u ". Detected placeholders: " ++ join (u ", ") found
             ++ u ". Replace all angle-bracket placeholders with concrete content before "
             ++ (if jstr_eqb what (u "creation") then u "creating" else u "updating")
             ++ u " the ticket.")
            (Some found).

(** [^[\s]*[-*+]\s+] with flag [m]: a bullet line. *)
Definition bulletRe : re :=
  seqs [Bol true; Star true ws;
        Chr (fun c => N.eqb c 45 || N.eqb c 42 || N.eqb c 43); plus true ws].

(** The same with the leading white space as group 1; flags [gm]. *)
Definition bulletCaptureRe : re :=
  seqs [Bol true; Grp 1 (Star true ws);
        Chr (fun c => N.eqb c 45 || N.eqb c 42 || N.eqb c 43); plus true ws].

(** The [acRegex] of the auto-fix: group 1 is the heading line, group 2 the
    section text, up to the next [\n## ] or the end; flag [i]. *)
Definition acRegex : re :=
  seqs [ Grp 1 (seqs [lit (u "##"); plus true ws; lit_i T_AC; Star true ws; chr nl]);
         Grp 2 (Star false anyChar);
         Look true (Alt (lit (nl :: u "## ")) (Eol false)) ].

(** Filter of the updates made by [create_ticket] on the row it inserted. *)
Definition createdRowFilter (repoFullName : jstring) (candidateNum : Z) (id : jstring)
  : list (Col * Value) :=
  if negb (jstr_eqb repoFullName LEGACY_REPO) && negb (candidateNum =? 0)%Z
  then [(c_repo_full_name, VStr repoFullName); (c_ticket_number, VNum candidateNum)]
  else [(c_id, VStr id)].

(** The readiness auto-fix of [create_ticket] (0095): returns the final
    body, its readiness and [autoFixed]. *)
Definition autoFix (repoFullName : jstring) (candidateNum : Z) (id normalizedBodyMd : jstring)
  : M (jstring * ReadyCheckResult * bool) :=
  let finalBodyMd := normalizedBodyMd in
  let readiness := evaluateTicketReady finalBodyMd in
  if ready readiness then ret (finalBodyMd, readiness, false)
  else
    let acSection := sectionContent finalBodyMd T_AC in
    if nonEmpty acSection && negb (test checkboxRe acSection) && test bulletRe acSection then
      let fixedAc := replaceAll 1 bulletCaptureRe (u "$1- [ ] ") acSection in
      match exec acRegex finalBodyMd with
      | None => ret (finalBodyMd, readiness, false)
      | Some _ =>
          let finalBodyMd := replaceFirst 2 acRegex (u "$1" ++ fixedAc ++ [nl]) finalBodyMd in
          let readiness := evaluateTicketReady finalBodyMd in
          if ready readiness then
            let* updateError :=
              update (Row.mk None None None None None None None (Some finalBodyMd) None None None)
                     (createdRowFilter repoFullName candidateNum id) in
            match updateError with
            | Some _ => ret (normalizedBodyMd, evaluateTicketReady normalizedBodyMd, false)
            | None => ret (finalBodyMd, readiness, true)
            end
          else ret (finalBodyMd, readiness, true)
      end
    else ret (finalBodyMd, readiness, false).

(** The auto-move of [create_ticket] (0083, 0095): returns [movedToTodo] and
    [moveError]. *)
Definition autoMove (repoFullName : jstring) (candidateNum : Z) (id : jstring)
  : M (bool * option jstring) :=
  tryCatch
    (let* todoR :=
       select (todoTopQuery (if jstr_eqb repoFullName LEGACY_REPO then None
                             else Some repoFullName)) in
     let* pos :=
       match error todoR with
       | Some e =>
           if isUnknownColumnError e then
             let* legacyTodo := select (todoTopQuery None) in
             match error legacyTodo with
             | Some le => ret (inl (u "Failed to fetch To Do position: " ++ msgText le))
             | None => ret (inr (jsAdd (maxPosition (orNil (data legacyTodo))) 1))
             end
           else ret (inl (u "Failed to fetch To Do position: " ++ msgText e))
       | None => ret (inr (jsAdd (maxPosition (orNil (data todoR))) 1))
       end in
     match pos with
     | inl moveError => ret (false, Some moveError)
     | inr nextTodoPosition =>
         let* now' := now in
         let* updateError :=
           update (Row.mk None None None None None None None None
                          (Some COL_TODO) (Some nextTodoPosition) (Some now'))
                  (createdRowFilter repoFullName candidateNum id) in
         match updateError with
         | Some e => ret (false, Some (u "Failed to move to To Do: " ++ msgText e))
         | None => ret (true, None)
         end
     end)
    (fun msg => ret (false, Some msg)).

(** [...(flag && { key: true })] *)
Definition flagField (b : bool) : option bool := if b then Some true else None.

(** The retry loop of [create_ticket]: [remaining] iterations are left and
    the next one is number [attempt]. *)
Fixpoint createAttempts (remaining : nat) (attempt : Z)
    (input : CreateInput) (bodyMdTrimmed repoFullName prefix slug now0 : jstring) (startNum : Z)
    (lastInsertError : option PgError) {struct remaining} : M (Result CreateSuccess) :=
  match remaining with
  | O =>
      ret (failWith
             (u "Could not reserve a ticket ID after "
              ++ numToString (Z.of_nat MAX_CREATE_TICKET_RETRIES)
              ++ u " attempts (id/filename collision). Last: "
              ++ match lastInsertError with
                 | Some e => match message e with Some m => m | None => u "unknown" end
                 | None => u "unknown"
                 end))
  | S remaining' =>
      let candidateNum := jsSub (jsAdd startNum attempt) 1 in
      let id := padStart0 4 (numToString candidateNum) in
      let displayId := prefix ++ u "-" ++ id in
      let filename := id ++ u "-" ++ slug ++ u ".md" in
      let filePath := u "supabase:tickets/" ++ displayId in
      let normalizedBodyMd := normalizeTitleLineInBody bodyMdTrimmed displayId in
      let normalizedPlaceholders := matchG PLACEHOLDER_RE normalizedBodyMd in
      if (0 <? length normalizedPlaceholders)%nat then
        ret (Fail (placeholderRejection (u "creation") (u " after normalization")
                                        (uniq [] normalizedPlaceholders)))
      else
        let* pk1 := uuid in
        let* r :=
          insert (Row.mk (Some pk1) (Some id) (Some displayId) (Some repoFullName)
                         (Some candidateNum) (Some filename) (Some (trim (ci_title input)))
                         (Some normalizedBodyMd) (Some COL_UNASSIGNED) (Some 0%Z) (Some now0)) in
        let* insertError :=
          match r with
          | Some e =>
              if isUnknownColumnError e then
                let* pk2 := uuid in
                insert (Row.mk (Some pk2) (Some id) None None None (Some filename)
                               (Some (id ++ [32%N; emDash; 32%N] ++ trim (ci_title input)))
                               (Some (normalizeTitleLineInBody bodyMdTrimmed id))
                               (Some COL_UNASSIGNED) (Some 0%Z) (Some now0))
              else ret r
          | None => ret r
          end in
        match insertError with
        | None =>
            let* fixed := autoFix repoFullName candidateNum id normalizedBodyMd in
            let '(finalBodyMd, readiness, autoFixed) := fixed in
            let* moved :=
              if ready readiness then autoMove repoFullName candidateNum id
              else ret (false, None) in
            let '(movedToTodo, moveError) := moved in
            ret (Ok (mkCreateSuccess id displayId candidateNum repoFullName filename filePath
                       (flagField (1 <? attempt)%Z)
                       (if (1 <? attempt)%Z then Some attempt else None)
                       (ready readiness)
                       (match missingItems readiness with [] => None | l => Some l end)
                       (flagField autoFixed)
                       (flagField movedToTodo)
                       (if truthyStr moveError then moveError else None)))
        | Some e =>
            if negb (isUniqueViolation e) then
              ret (failWith (u "Supabase insert: " ++ msgText e))
            else
              createAttempts remaining' (attempt + 1)%Z input bodyMdTrimmed repoFullName prefix
                             slug now0 startNum (Some e)
        end
  end.

(** The body of the [try] block of [create_ticket]. *)
Definition createTicketBody (input : CreateInput) : M (Result CreateSuccess) :=
  let bodyMdTrimmed := trim (ci_body_md input) in
  let placeholders := matchG PLACEHOLDER_RE bodyMdTrimmed in
  if (0 <? length placeholders)%nat then
    ret (Fail (placeholderRejection (u "creation") [] (uniq [] placeholders)))
  else
    let bodyMdTrimmed := normalizeBodyForReady bodyMdTrimmed in
    let repoFullName := projectRepo LEGACY_REPO in
    let prefix := repoHintPrefix repoFullName in
    let go (startNum : Z) : M (Result CreateSuccess) :=
      let slug := slugFromTitle (ci_title input) in
      let* now0 := now in
      createAttempts MAX_CREATE_TICKET_RETRIES 1 input bodyMdTrimmed repoFullName prefix
                     slug now0 startNum None in
    let* r :=
      select (mkQuery [c_ticket_number] [(c_repo_full_name, VStr repoFullName)]
                      [(c_ticket_number, false)] (Some 1%nat)) in
    match error r with
    | Some e =>
        if negb (isUnknownColumnError e) then
          ret (failWith (u "Supabase fetch max ticket_number: " ++ msgText e))
        else
          let* legacy := select (mkQuery [c_id] [] [(c_id, true)] None) in
          match error legacy with
          | Some fe => ret (failWith (u "Supabase fetch ids: " ++ msgText fe))
          | None =>
              let ids := map (fun r => match Row.id r with Some i => i | None => [] end)
                             (orNil (data legacy)) in
              let numericIds :=
                filter (fun n => (0 <=? n)%Z)
                       (map (fun id => match parseInt10 id with Some n => n | None => 0%Z end) ids) in
              go (match numericIds with
                  | [] => 1%Z
                  | n :: ns => jsAdd (fold_left Z.max ns n) 1
                  end)
          end
    | None =>
        let maxN := match orNil (data r) with
                    | row :: _ => Row.ticket_number row
                    | [] => None
                    end in
        go (match maxN with Some n => jsAdd n 1 | None => 1%Z end)
    end.

(** [create_ticket]'s [execute]: every path pushes one record and returns
    the same value. *)
Definition create_ticket (input : CreateInput) : M (Result CreateSuccess) :=
  let* out := tryCatch (createTicketBody input) (fun msg => ret (failWith msg)) in
  let* _ := push (CallCreateTicket input out) in
  ret out.

(** [String(ticketNumber ?? 0).padStart(4, '0')] *)
Definition normalizedIdOf (ticketNumber : option Z) : jstring :=
  padStart0 4 (numToString (match ticketNumber with Some n => n | None => 0%Z end)).

(** [!ticketNumber]: [null] and [0] are falsy. *)
Definition noTicketNumber (ticketNumber : option Z) : bool :=
  match ticketNumber with
  | None => true
  | Some n => (n =? 0)%Z
  end.

Definition couldNotParse (ticket_id : jstring) : jstring :=
  u "Could not parse ticket number from " ++ [dquote] ++ ticket_id ++ [dquote] ++ u ".".

Definition numberOf (ticketNumber : option Z) : Z :=
  match ticketNumber with Some n => n | None => 0%Z end.

Definition legacyRowQuery (cols : list Col) (normalizedId : jstring) : Query :=
  mkQuery cols [(c_id, VStr normalizedId)] [] None.

Definition scopedRowQuery (cols : list Col) (repoFullName : jstring) (ticketNumber : Z) : Query :=
  mkQuery cols [(c_repo_full_name, VStr repoFullName); (c_ticket_number, VNum ticketNumber)] [] None.

Definition strOr (o : option jstring) (d : jstring) : jstring :=
  match o with Some s => s | None => d end.

(** The body of the [try] block of [fetch_ticket_content]. *)
Definition fetchTicketContentBody (ticket_id : jstring) : M (Result FetchSuccess) :=
  let ticketNumber := parseTicketNumber ticket_id in
  let normalizedId := normalizedIdOf ticketNumber in
  if noTicketNumber ticketNumber then ret (failWith (couldNotParse ticket_id))
  else
    let notFound : M (Result FetchSuccess) :=
      ret (failWith (u "Ticket " ++ normalizedId
                     ++ u " not found in Supabase. Supabase-only mode requires Supabase connection.")) in
    let legacyCols := [c_id; c_title; c_body_md; c_kanban_column_id] in
    let legacyLookup : M (Result FetchSuccess) :=
      let* lr := maybeSingle (legacyRowQuery legacyCols normalizedId) in
      match error lr, data lr with
      | None, Some legacyRow =>
          ret (Ok (mkFetchSuccess (Row.id legacyRow) None None None
                     (strOr (Row.title legacyRow) []) (strOr (Row.body_md legacyRow) [])
                     (Row.kanban_column_id legacyRow)))
      | _, _ => notFound
      end in
    let repoFullName := projectRepo [] in
    if nonEmpty repoFullName then
      let* r := maybeSingle
                  (scopedRowQuery [c_id; c_display_id; c_ticket_number; c_repo_full_name;
                                   c_title; c_body_md; c_kanban_column_id]
                                  repoFullName (numberOf ticketNumber)) in
      match error r, data r with
      | None, Some row =>
          ret (Ok (mkFetchSuccess (Row.id row) (Row.display_id row) (Row.ticket_number row)
                     (Row.repo_full_name row) (strOr (Row.title row) [])
                     (strOr (Row.body_md row) []) (Row.kanban_column_id row)))
      | Some e, _ => if isUnknownColumnError e then legacyLookup else notFound
      | None, None => notFound
      end
    else legacyLookup.

Definition fetch_ticket_content (ticket_id : jstring) : M (Result FetchSuccess) :=
  let* out := tryCatch (fetchTicketContentBody ticket_id) (fun msg => ret (failWith msg)) in
  let* _ := push (CallFetchTicketContent ticket_id out) in
  ret out.

(** The row lookup shared by the update and move tools: repo-scoped when a
    project is connected, with the legacy lookup by id as fallback. *)
Definition lookupRow (scopedCols legacyCols : list Col) (repoFullName : jstring)
    (ticketNumber : Z) (normalizedId : jstring) : M (Resp Row.t) :=
  if nonEmpty repoFullName then
    let* r := maybeSingle (scopedRowQuery scopedCols repoFullName ticketNumber) in
    match error r with
    | Some e =>
        if isUnknownColumnError e then maybeSingle (legacyRowQuery legacyCols normalizedId)
        else ret r
    | None => ret r
    end
  else maybeSingle (legacyRowQuery legacyCols normalizedId).

(** [row.pk ? updateQ.eq('pk', row.pk) : updateQ.eq('id', normalizedId)] *)
Definition rowFilter (row : Row.t) (normalizedId : jstring) : list (Col * Value) :=
  match Row.pk row with
  | Some (c :: p) => [(c_pk, VStr (c :: p))]
  | _ => [(c_id, VStr normalizedId)]
  end.

(** The body of the [try] block of [update_ticket_body]. *)
Definition updateTicketBodyBody (input : UpdateInput) : M (Result UpdateSuccess) :=
  let ticketNumber := parseTicketNumber (ui_ticket_id input) in
  let normalizedId := normalizedIdOf ticketNumber in
  let repoFullName := projectRepo [] in
  let bodyMdTrimmed := trim (ui_body_md input) in
  let placeholders := matchG PLACEHOLDER_RE bodyMdTrimmed in
  if (0 <? length placeholders)%nat then
    ret (Fail (placeholderRejection (u "update") [] (uniq [] placeholders)))
  else
    let bodyMdTrimmed := normalizeBodyForReady bodyMdTrimmed in
    if noTicketNumber ticketNumber then ret (failWith (couldNotParse (ui_ticket_id input)))
    else
      let* r := lookupRow [c_pk; c_id; c_display_id] [c_id] repoFullName
                          (numberOf ticketNumber) normalizedId in
      match error r, data r with
      | Some fetchError, _ => ret (failWith (u "Supabase fetch: " ++ msgText fetchError))
      | None, None => ret (failWith (u "Ticket " ++ normalizedId ++ u " not found."))
      | None, Some row =>
          let displayId := strOr (Row.display_id row) normalizedId in
          let normalizedBodyMd := normalizeTitleLineInBody bodyMdTrimmed displayId in
          let normalizedPlaceholders := matchG PLACEHOLDER_RE normalizedBodyMd in
          if (0 <? length normalizedPlaceholders)%nat then
            ret (Fail (placeholderRejection (u "update") (u " after normalization")
                                            (uniq [] normalizedPlaceholders)))
          else
            let* updateError :=
              update (Row.mk None None None None None None None (Some normalizedBodyMd)
                             None None None)
                     (rowFilter row normalizedId) in
            match updateError with
            | Some e => ret (failWith (u "Supabase update: " ++ msgText e))
            | None =>
                let readiness := evaluateTicketReady normalizedBodyMd in
                ret (Ok (mkUpdateSuccess normalizedId (ready readiness)
                           (match missingItems readiness with [] => None | l => Some l end)))
            end
      end.

Definition update_ticket_body (input : UpdateInput) : M (Result UpdateSuccess) :=
  let* out := tryCatch (updateTicketBodyBody input) (fun msg => ret (failWith msg)) in
  let* _ := push (CallUpdateTicketBody input out) in
  ret out.

(** The rows of the highest To Do position: repo-scoped when [repo] is
    given, with the unscoped query as fallback on a legacy schema. *)
Definition todoRows (repo : option jstring) : M (jstring + list Row.t) :=
  match repo with
  | Some _ =>
      let* r := select (todoTopQuery repo) in
      match error r with
      | Some e =>
          if isUnknownColumnError e then
            let* legacy := select (todoTopQuery None) in
            match error legacy with
            | Some le => ret (inl (u "Supabase fetch: " ++ msgText le))
            | None => ret (inr (orNil (data legacy)))
            end
          else ret (inl (u "Supabase fetch: " ++ msgText e))
      | None => ret (inr (orNil (data r)))
      end
  | None =>
      let* legacy := select (todoTopQuery None) in
      match error legacy with
      | Some le => ret (inl (u "Supabase fetch: " ++ msgText le))
      | None => ret (inr (orNil (data legacy)))
      end
  end.

(** [currentCol === COL_UNASSIGNED || currentCol === null || currentCol === ''] *)
Definition inUnassigned (currentCol : option jstring) : bool :=
  match currentCol with
  | None => true
  | Some c => jstr_eqb c COL_UNASSIGNED || jstr_eqb c []
  end.

(** The body of the [try] block of [kanban_move_ticket_to_todo]. *)
Definition kanbanMoveTicketToTodoBody (ticket_id : jstring) : M (Result MoveSuccess) :=
  let ticketNumber := parseTicketNumber ticket_id in
  let normalizedId := normalizedIdOf ticketNumber in
  let repoFullName := projectRepo [] in
  if noTicketNumber ticketNumber then ret (failWith (couldNotParse ticket_id))
  else
    let* r := lookupRow [c_pk; c_id; c_kanban_column_id; c_kanban_position]
                        [c_id; c_kanban_column_id; c_kanban_position]
                        repoFullName (numberOf ticketNumber) normalizedId in
    match error r, data r with
    | Some fetchError, _ => ret (failWith (u "Supabase fetch: " ++ msgText fetchError))
    | None, None => ret (failWith (u "Ticket " ++ normalizedId ++ u " not found."))
    | None, Some row =>
        let currentCol := Row.kanban_column_id row in
        if negb (inUnassigned currentCol) then
          ret (failWith (u "Ticket is not in Unassigned (current column: "
                         ++ strOr currentCol (u "null")
                         ++ u "). Only tickets in Unassigned can be moved to To Do."))
        else
          let* rows := todoRows (if nonEmpty repoFullName then Some repoFullName else None) in
          match rows with
          | inl err => ret (failWith err)
          | inr todo =>
              let maxPos := maxPosition todo in
              let newPosition := jsAdd maxPos 1 in
              let* now' := now in
              let* updateError :=
                update (Row.mk None None None None None None None None
                               (Some COL_TODO) (Some newPosition) (Some now'))
                       (rowFilter row normalizedId) in
              match updateError with
              | Some e => ret (failWith (u "Supabase update: " ++ msgText e))
              | None => ret (Ok (mkMoveSuccess normalizedId COL_UNASSIGNED COL_TODO))
              end
          end
    end.

Definition kanban_move_ticket_to_todo (ticket_id : jstring) : M (Result MoveSuccess) :=
  let* out := tryCatch (kanbanMoveTicketToTodoBody ticket_id) (fun msg => ret (failWith msg)) in
  let* _ := push (CallKanbanMoveTicketToTodo ticket_id out) in
  ret out.

(** The body of the [try] block of [kanban_move_ticket_to_other_repo_todo]. *)
Definition kanbanMoveTicketToOtherRepoTodoBody (input : MoveOtherInput)
  : M (Result MoveOtherSuccess) :=
  let ticketNumber := parseTicketNumber (mi_ticket_id input) in
  let normalizedId := normalizedIdOf ticketNumber in
  let targetRepo := trim (mi_target_repo_full_name input) in
  let sourceRepoFullName := projectRepo [] in
  if noTicketNumber ticketNumber then ret (failWith (couldNotParse (mi_ticket_id input)))
  else if negb (nonEmpty targetRepo) || negb (includes (u "/") targetRepo) then
    ret (failWith (u "Invalid target repository format. Expected "
                   ++ [dquote] ++ u "owner/repo" ++ [dquote] ++ u ", got "
                   ++ [dquote] ++ targetRepo ++ [dquote] ++ u "."))
  else
    let* r := lookupRow [c_pk; c_id; c_display_id; c_ticket_number; c_repo_full_name;
                         c_kanban_column_id; c_kanban_position; c_body_md]
                        (if nonEmpty sourceRepoFullName
                         then [c_id; c_kanban_column_id; c_kanban_position; c_body_md]
                         else [c_id; c_kanban_column_id; c_kanban_position;
                               c_repo_full_name; c_body_md])
                        sourceRepoFullName (numberOf ticketNumber) normalizedId in
    match error r, data r with
    | Some fetchError, _ => ret (failWith (u "Supabase fetch: " ++ msgText fetchError))
    | None, None => ret (failWith (u "Ticket " ++ mi_ticket_id input ++ u " not found."))
    | None, Some row =>
        let currentCol := strOr (Row.kanban_column_id row) COL_UNASSIGNED in
        let currentRepo := strOr (Row.repo_full_name row) LEGACY_REPO in
        let* targetRepoCheck :=
          select (mkQuery [c_repo_full_name] [(c_repo_full_name, VStr targetRepo)] []
                          (Some 1%nat)) in
        match (match error targetRepoCheck with
               | Some e => if isUnknownColumnError e then None else Some e
               | None => None
               end) with
        | Some e => ret (failWith (u "Failed to validate target repository: " ++ msgText e))
        | None =>
            (* targetRepoExists is true on both remaining branches *)
            let* maxTicketQuery :=
              select (mkQuery [c_ticket_number] [(c_repo_full_name, VStr targetRepo)]
                              [(c_ticket_number, false)] (Some 1%nat)) in
            let next : Result Z :=
              match error maxTicketQuery, data maxTicketQuery with
              | None, Some (top :: _) =>
                  match Row.ticket_number top with
                  | Some maxN => Ok (jsAdd maxN 1)
                  | None => Ok (numberOf ticketNumber)
                  end
              | Some e, _ =>
                  if negb (isUnknownColumnError e)
                  then failWith (u "Failed to calculate next ticket number: " ++ msgText e)
                  else Ok (numberOf ticketNumber)
              | None, _ => Ok (numberOf ticketNumber)
              end in
            match next with
            | Fail f => ret (Fail f)
            | Ok nextTicketNumber =>
                let* rows := todoRows (Some targetRepo) in
                match rows with
                | inl err => ret (failWith err)
                | inr todo =>
                    let nextTodoPosition := jsAdd (maxPosition todo) 1 in
                    let targetPrefix := repoHintPrefix targetRepo in
                    let newDisplayId :=
                      targetPrefix ++ u "-" ++ padStart0 4 (numToString nextTicketNumber) in
                    let* now' := now in
                    let updateData :=
                      Row.mk None None (Some newDisplayId) (Some targetRepo)
                             (Some nextTicketNumber) None None
                             (match Row.body_md row with
                              | Some (c :: b) =>
                                  Some (normalizeTitleLineInBody (c :: b) newDisplayId)
                              | _ => None
                              end)
                             (Some COL_TODO) (Some nextTodoPosition) (Some now') in
                    let* updateError := update updateData (rowFilter row normalizedId) in
                    match updateError with
                    | Some e => ret (failWith (u "Supabase update: " ++ msgText e))
                    | None =>
                        ret (Ok (mkMoveOtherSuccess normalizedId (Some newDisplayId)
                                   currentRepo targetRepo currentCol COL_TODO))
                    end
                end
            end
        end
    end.

Definition kanban_move_ticket_to_other_repo_todo (input : MoveOtherInput)
  : M (Result MoveOtherSuccess) :=
  let* out := tryCatch (kanbanMoveTicketToOtherRepoTodoBody input)
                       (fun msg => ret (failWith msg)) in
  let* _ := push (CallKanbanMoveTicketToOtherRepoTodo input out) in
  ret out.

End Tools.

(* ================================================================== *)
(** ** Path sandbox ([src/utils/sandbox.ts]) *)
(* ================================================================== *)

(** Node's [path] module, POSIX flavour, as documented: [resolve] walks
    its arguments from the right until it has an absolute path (falling back
    on the working directory), then drops empty and [.] segments and lets
    each [..] cancel the segment before it; [relative] strips the common
    leading segments of the two resolved paths and climbs with [..] out of
    what is left of the first. *)
Module Path.

Definition slash : jchar := 47%N.

(** [path.isAbsolute] *)
Definition isAbsolute (p : jstring) : bool :=
  match p with
  | c :: _ => N.eqb c slash
  | [] => false
  end.

(** [normalizeString] with [allowAboveRoot = false], on segments; [acc] is
    the reversed list of segments kept so far. *)
Fixpoint normalizeSegments (acc : list jstring) (segs : list jstring) : list jstring :=
  match segs with
  | [] => rev acc
  | s :: more =>
      if jstr_eqb s [] || jstr_eqb s (u ".") then normalizeSegments acc more
      else if jstr_eqb s (u "..") then normalizeSegments (tl acc) more
      else normalizeSegments (s :: acc) more
  end.

(** The right-to-left scan of [resolve]: [revArgs] is the argument list
    reversed; the working directory is the argument of index -1. *)
Fixpoint gather (cwd : jstring) (revArgs : list jstring) (resolvedPath : jstring) : jstring :=
  match revArgs with
  | [] => cwd ++ [slash] ++ resolvedPath
  | p :: more =>
      match p with
      | [] => gather cwd more resolvedPath
      | c :: _ =>
          let resolvedPath := p ++ [slash] ++ resolvedPath in
          if N.eqb c slash then resolvedPath else gather cwd more resolvedPath
      end
  end.

(** The segments of the path [resolve] returns. *)
Definition resolveSegments (cwd : jstring) (args : list jstring) : list jstring :=
  normalizeSegments [] (splitOn slash [] (gather cwd (rev args) [])).

(** [path.resolve(...args)], for an absolute working directory. *)
Definition resolve (cwd : jstring) (args : list jstring) : jstring :=
  slash :: join [slash] (resolveSegments cwd args).

Fixpoint stripCommon (a b : list jstring) : list jstring * list jstring :=
  match a, b with
  | x :: a', y :: b' => if jstr_eqb x y then stripCommon a' b' else (a, b)
  | _, _ => (a, b)
  end.

(** [path.relative(from, to)] *)
Definition relative (cwd from to : jstring) : jstring :=
  if jstr_eqb from to then []
  else
    let '(up, down) := stripCommon (resolveSegments cwd [from]) (resolveSegments cwd [to]) in
    join [slash] (map (fun _ => u "..") up ++ down).

End Path.

(** [sandboxPath]; [cwd] is [process.cwd()], [None] is [null]. *)
Definition sandboxPath (cwd repoRoot relativeOrAbsolute : jstring) : option jstring :=
  let absolute := Path.resolve cwd [repoRoot; orElse relativeOrAbsolute (u ".")] in
  let repoResolved := Path.resolve cwd [repoRoot] in
  let relative := Path.relative cwd repoResolved absolute in
  if startsWith (u "..") relative || Path.isAbsolute relative then None
  else Some absolute.

(* ================================================================== *)
(** ** Redactor ([src/utils/redact.ts]) *)
(* ================================================================== *)

Module Redact.

(** A structured value, as [JSON.parse] produces it. An object is the list
    of its entries in enumeration order. Numbers pass through unchanged. *)
#[warnings="-register-all"]
Inductive json :=
| JNull
| JBool (b : bool)
| JNum (z : Z)
| JStr (s : jstring)
| JArr (items : list json)
| JObj (entries : list (jstring * json)).

(** [a-zA-Z0-9_-] *)
Definition keyChar (c : jchar) : bool := isAlnum c || N.eqb c 95 || N.eqb c 45.
(** [a-zA-Z0-9-] *)
Definition hostChar (c : jchar) : bool := isAlnum c || N.eqb c 45.

(** /sk-[a-zA-Z0-9_-]{20,}/g *)
Definition OPENAI_KEY_PATTERN : re := Seq (lit (u "sk-")) (atLeast 20 (Chr keyChar)).

(** /eyJ[a-zA-Z0-9_-]+\.[a-zA-Z0-9_-]+\.[a-zA-Z0-9_-]+/g *)
Definition JWT_PATTERN : re :=
  seqs [lit (u "eyJ"); plus true (Chr keyChar); chr 46; plus true (Chr keyChar); chr 46;
        plus true (Chr keyChar)].

(** [SUPABASE_URL_PATTERN], flags [gi]: [https://], an optional host label
    [[a-zA-Z0-9-]+\.], [supabase.co], then any number of path parts
    [/[a-zA-Z0-9_-]*]. Its two groups are never read, the replacement being a
    constant. *)
Definition SUPABASE_URL_PATTERN : re :=
  seqs [lit_i (u "https://"); opt (Seq (plus true (Chr hostChar)) (chr 46));
        lit_i (u "supabase.co"); Star true (Seq (chr 47) (Star true (Chr keyChar)))].

Definition sepOpt : re := opt (Chr (fun c => N.eqb c 95 || N.eqb c 45)).   (* [_-]? *)

Definition alts (l : list re) : re := fold_right Alt (Chr (fun _ => false)) l.

(** /^(api[_-]?key|apikey|authorization|secret|password|token|supabase[_-]?(anon|service)[_-]?key)$/i *)
Definition SENSITIVE_KEYS : re :=
  seqs [ Bol false;
         alts [ seqs [lit_i (u "api"); sepOpt; lit_i (u "key")];
                lit_i (u "apikey");
                lit_i (u "authorization");
                lit_i (u "secret");
                lit_i (u "password");
                lit_i (u "token");
                seqs [lit_i (u "supabase"); sepOpt;
                      Alt (lit_i (u "anon")) (lit_i (u "service")); sepOpt; lit_i (u "key")] ];
         Eol false ].

Definition REDACTED : jstring := u "[REDACTED]".

(** [redactString] *)
Definition redactString (value : jstring) : jstring :=
  replaceAll 0 SUPABASE_URL_PATTERN REDACTED
    (replaceAll 0 JWT_PATTERN REDACTED
       (replaceAll 0 OPENAI_KEY_PATTERN REDACTED value)).

(** [key && typeof value === 'string' && SENSITIVE_KEYS.test(key)] *)
Definition sensitiveString (value : json) (key : option jstring) : bool :=
  match key, value with
  | Some (c :: k), JStr _ => test SENSITIVE_KEYS (c :: k)
  | _, _ => false
  end.

(** [out[k] = v] on a fresh object literal creates an own property for every
    key but [__proto__], which goes to the prototype setter instead. *)
Definition ownKey (k : jstring) : bool := negb (jstr_eqb k (u "__proto__")).

(** [redactValue] *)
Fixpoint redactValue (value : json) (key : option jstring) {struct value} : json :=
  if sensitiveString value key then JStr REDACTED
  else
    match value with
    | JStr s => JStr (redactString s)
    | JArr items => JArr (map (fun v => redactValue v None) items)
    | JObj entries =>
        JObj ((fix each (es : list (jstring * json)) : list (jstring * json) :=
                 match es with
                 | [] => []
                 | (k, v) :: es' =>
                     if ownKey k then (k, redactValue v (Some k)) :: each es' else each es'
                 end) entries)
    | other => other
    end.

(** [redact] *)
Definition redact (obj : json) : json := redactValue obj None.

End Redact.

(* ================================================================== *)
(** ** Context pack: the conversation section *)
(* ================================================================== *)

Module Context.

Inductive Role := user | assistant.

Record ConversationTurn := mkTurn {
  role : Role;
  content : jstring
}.

Definition roleText (r : Role) : jstring :=
  match r with user => u "user" | assistant => u "assistant" end.

Definition len (s : jstring) : Z := Z.of_nat (length s).

(** [(t.role?.length ?? 0) + (t.content?.length ?? 0) + 12] *)
Definition lineLen (t : ConversationTurn) : Z := len (roleText (role t)) + len (content t) + 12.

(** The loop of [recentTurnsWithinCharBudget], newest turn first:
    [older] holds the turns not yet visited, newest first. *)
Fixpoint takeRecent (older : list ConversationTurn) (maxChars len : Z)
    (recent : list ConversationTurn) : list ConversationTurn :=
  match older with
  | [] => recent
  | t :: more =>
      if (len + lineLen t >? maxChars)%Z && (0 <? length recent)%nat then recent
      else takeRecent more maxChars (len + lineLen t) (t :: recent)      (* unshift *)
  end.

(** [recentTurnsWithinCharBudget]: the pair [(recent, omitted)]. *)
Definition recentTurnsWithinCharBudget (turns : list ConversationTurn) (maxChars : Z)
  : list ConversationTurn * Z :=
  match turns with
  | [] => ([], 0%Z)
  | _ =>
      let recent := takeRecent (rev turns) maxChars 0 [] in
      (recent, Z.of_nat (length turns) - Z.of_nat (length recent))%Z
  end.

(** Digits with a comma before each group of three, counted from the right:
    what [toLocaleString()] gives for a non-negative integer when the
    locale of the process is en-US. *)
Fixpoint groupThousands (revDigits : jstring) : jstring :=
  match revDigits with
  | a :: b :: c :: (d :: _) as more => a :: b :: c :: 44%N :: groupThousands more
  | _ => revDigits
  end.

Definition enUS (z : Z) : jstring := rev (groupThousands (rev (numToString z))).

Definition header : jstring := u "## Conversation so far".

(** [`**${t.role}**: ${t.content}`] *)
Definition renderTurn (t : ConversationTurn) : jstring :=
  u "**" ++ roleText (role t) ++ u "**: " ++ content t.

(** The part of [PmAgentConfig] the conversation section reads. *)
Record Config := mkConfig {
  conversationHistory : option (list ConversationTurn);
  conversationContextPack : option jstring
}.

Section Locale.

(** [n.toLocaleString()], called without a locale: the text is that of the
    locale the process runs in. *)
Variable toLocaleString : Z -> jstring.

Definition omittedNote : jstring :=
  [nl] ++ u "(older messages omitted; showing recent conversation within "
  ++ toLocaleString CONVERSATION_RECENT_MAX_CHARS ++ u " characters)" ++ [nl; nl].

(** The conversation section of [buildContextPack], if one is pushed. *)
Definition conversationSection (config : Config) : option jstring :=
  match conversationContextPack config with
  | Some pack =>
      if nonEmpty pack && negb (jstr_eqb (trim pack) []) then
        Some (header ++ [nl; nl] ++ trim pack)
      else
        match conversationHistory config with
        | Some (t :: h) =>
            let '(recent, omitted) :=
              recentTurnsWithinCharBudget (t :: h) CONVERSATION_RECENT_MAX_CHARS in
            let truncNote := if (0 <? omitted)%Z then omittedNote else [nl; nl] in
            Some (header ++ truncNote ++ join [nl; nl] (map renderTurn recent))
        | _ => None
        end
  | None =>
      match conversationHistory config with
      | Some (t :: h) =>
          let '(recent, omitted) :=
            recentTurnsWithinCharBudget (t :: h) CONVERSATION_RECENT_MAX_CHARS in
          let truncNote := if (0 <? omitted)%Z then omittedNote else [nl; nl] in
          Some (header ++ truncNote ++ join [nl; nl] (map renderTurn recent))
      | _ => None
      end
  end.

End Locale.

End Context.

(* ================================================================== *)
(** ** The fallback reply of [runPmAgent] *)
(* ================================================================== *)

Module Fallback.

Definition backtick : jchar := 96%N.

(** The predicates of the successive [toolCalls.find(...)] calls. *)
Definition isCreateRejected (c : ToolCallRecord) : bool :=
  match c with
  | CallCreateTicket _ (Fail f) =>
      match f_detectedPlaceholders f with Some _ => true | None => false end
  | _ => false
  end.

Definition isUpdateRejected (c : ToolCallRecord) : bool :=
  match c with
  | CallUpdateTicketBody _ (Fail f) =>
      match f_detectedPlaceholders f with Some _ => true | None => false end
  | _ => false
  end.

Definition isCreateOk (c : ToolCallRecord) : bool :=
  match c with CallCreateTicket _ (Ok _) => true | _ => false end.

Definition isMoveOk (c : ToolCallRecord) : bool :=
  match c with CallKanbanMoveTicketToTodo _ (Ok _) => true | _ => false end.

Definition isUpdateOk (c : ToolCallRecord) : bool :=
  match c with CallUpdateTicketBody _ (Ok _) => true | _ => false end.

Definition isSyncOk (c : ToolCallRecord) : bool :=
  match c with CallSyncTickets (Ok _) => true | _ => false end.

Definition isListOk (c : ToolCallRecord) : bool :=
  match c with CallListTicketsByColumn _ (Ok _) => true | _ => false end.

Definition isReposOk (c : ToolCallRecord) : bool :=
  match c with CallListAvailableRepos (Ok _) => true | _ => false end.

Definition isMoveOtherOk (c : ToolCallRecord) : bool :=
  match c with CallKanbanMoveTicketToOtherRepoTodo _ (Ok _) => true | _ => false end.

Definition rejectedReply (what : jstring) (f : Failure) : jstring :=
  u "**Ticket " ++ what ++ u " rejected:** " ++ f_error f
  ++ match f_detectedPlaceholders f with
     | Some (p :: ps) => [nl; nl] ++ u "**Detected placeholders:** " ++ join (u ", ") (p :: ps)
     | _ => []
     end
  ++ [nl; nl]
  ++ u "Please replace all angle-bracket placeholders with concrete content and try again. Check Diagnostics for details.".

Definition createdReply (out : CreateSuccess) : jstring :=
  u "I created ticket **" ++ cs_id out ++ u "** at " ++ [backtick] ++ cs_filePath out
  ++ [backtick]
  ++ u ". It should appear in the Kanban board under Unassigned (sync may run automatically)."
  ++ match cs_ready out, cs_missingItems out with
     | false, Some (m :: ms) =>
         u " The ticket is not yet ready for To Do: " ++ join (u "; ") (m :: ms)
         ++ u ". Update the ticket or ask me to move it once it passes the Ready-to-start checklist."
     | _, _ => []
     end.

Definition movedReply (out : MoveSuccess) : jstring :=
  u "I moved ticket **" ++ ms_ticketId out ++ u "** from " ++ ms_fromColumn out ++ u " to **"
  ++ ms_toColumn out ++ u "**. It should now appear under To Do on the Kanban board.".

Definition updatedReply (out : UpdateSuccess) : jstring :=
  u "I updated the body of ticket **" ++ us_ticketId out
  ++ u "** in Supabase. The Kanban UI will reflect the change within ~10 seconds."
  ++ match us_ready out, us_missingItems out with
     | false, Some (m :: ms) =>
         u " Note: the ticket may still not pass readiness: " ++ join (u "; ") (m :: ms) ++ u "."
     | _, _ => []
     end.

Definition syncedReply : jstring :=
  u "I ran sync-tickets. docs/tickets/*.md now match Supabase (Supabase is the source of truth).".

Definition listedReply (out : ListSuccess) : jstring :=
  if (ls_count out =? 0)%Z then
    u "No tickets found in column **" ++ ls_column_id out ++ u "**."
  else
    u "Tickets in **" ++ ls_column_id out ++ u "** (" ++ numToString (ls_count out) ++ u "):"
    ++ [nl; nl]
    ++ join [nl] (map (fun t => u "- **" ++ lt_id t ++ u "** " ++ [emDash] ++ u " " ++ lt_title t)
                      (ls_tickets out)).

Definition reposReply (out : ReposSuccess) : jstring :=
  if (rs_count out =? 0)%Z then u "No repositories found in the database."
  else
    u "Available repositories (" ++ numToString (rs_count out) ++ u "):" ++ [nl; nl]
    ++ join [nl] (map (fun r => u "- **" ++ r ++ u "**") (rs_repos out)).

Definition movedOtherReply (out : MoveOtherSuccess) : jstring :=
  u "I moved ticket **" ++ strOr (mo_display_id out) (mo_ticketId out) ++ u "** from **"
  ++ mo_fromRepo out ++ u "** (" ++ mo_fromColumn out ++ u ") to **" ++ mo_toRepo out
  ++ u "** (" ++ mo_toColumn out
  ++ u "). The ticket is now in the To Do column of the target repository.".

(** What the matching record of each kind is turned into. *)
Definition describe (c : ToolCallRecord) : jstring :=
  match c with
  | CallCreateTicket _ (Fail f) => rejectedReply (u "creation") f
  | CallUpdateTicketBody _ (Fail f) => rejectedReply (u "update") f
  | CallCreateTicket _ (Ok out) => createdReply out
  | CallKanbanMoveTicketToTodo _ (Ok out) => movedReply out
  | CallUpdateTicketBody _ (Ok out) => updatedReply out
  | CallSyncTickets (Ok _) => syncedReply
  | CallListTicketsByColumn _ (Ok out) => listedReply out
  | CallListAvailableRepos (Ok out) => reposReply out
  | CallKanbanMoveTicketToOtherRepoTodo _ (Ok out) => movedOtherReply out
  | _ => []
  end.

(** The chain of nested [if ... else] blocks: the first kind, in this
    order, for which [find] returns a record decides the reply. *)
Definition chain : list (ToolCallRecord -> bool) :=
  [ isCreateRejected; isUpdateRejected; isCreateOk; isMoveOk; isUpdateOk; isSyncOk;
    isListOk; isReposOk; isMoveOtherOk ].

Fixpoint firstFound (kinds : list (ToolCallRecord -> bool)) (toolCalls : list ToolCallRecord)
  : option ToolCallRecord :=
  match kinds with
  | [] => None
  | p :: more =>
      match find p toolCalls with
      | Some c => Some c
      | None => firstFound more toolCalls
      end
  end.

(** The reply [runPmAgent] returns on the success path: [text] is
    [result.text ?? '']. *)
Definition finalReply (text : jstring) (toolCalls : list ToolCallRecord) : jstring :=
  match trim text with
  | _ :: _ => text
  | [] =>
      match firstFound chain toolCalls with
      | Some c => describe c
      | None => text
      end
  end.

End Fallback.

(* ================================================================== *)
(** ** An in-memory [tickets] table *)
(* ================================================================== *)

(** A concrete store for running the tools: rows in insertion order, the
    new schema (no unknown-column errors), uniqueness of the legacy [id]
    and of the pair (repository, ticket number). *)
Module Mem.

Definition optEqb (a b : option jstring) : bool :=
  match a, b with
  | Some x, Some y => jstr_eqb x y
  | _, _ => false
  end.

Definition optZEqb (a b : option Z) : bool :=
  match a, b with
  | Some x, Some y => (x =? y)%Z
  | _, _ => false
  end.

Definition holds (row : Row.t) (f : Col * Value) : bool :=
  match f with
  | (c_pk, VStr s) => optEqb (Row.pk row) (Some s)
  | (c_id, VStr s) => optEqb (Row.id row) (Some s)
  | (c_display_id, VStr s) => optEqb (Row.display_id row) (Some s)
  | (c_repo_full_name, VStr s) => optEqb (Row.repo_full_name row) (Some s)
  | (c_filename, VStr s) => optEqb (Row.filename row) (Some s)
  | (c_title, VStr s) => optEqb (Row.title row) (Some s)
  | (c_body_md, VStr s) => optEqb (Row.body_md row) (Some s)
  | (c_kanban_column_id, VStr s) => optEqb (Row.kanban_column_id row) (Some s)
  | (c_kanban_moved_at, VStr s) => optEqb (Row.kanban_moved_at row) (Some s)
  | (c_ticket_number, VNum z) => optZEqb (Row.ticket_number row) (Some z)
  | (c_kanban_position, VNum z) => optZEqb (Row.kanban_position row) (Some z)
  | _ => false
  end.

Definition matching (filters : list (Col * Value)) (row : Row.t) : bool :=
  forallb (holds row) filters.

(** Sort key of a row for a numeric column; text columns keep table order. *)
Definition key (c : Col) (row : Row.t) : option Z :=
  match c with
  | c_ticket_number => Row.ticket_number row
  | c_kanban_position => Row.kanban_position row
  | _ => Some 0%Z
  end.

(** [a] goes before [b]: Postgres puts nulls last ascending, first descending. *)
Definition goesBefore (c : Col) (ascending : bool) (a b : Row.t) : bool :=
  match key c a, key c b with
  | Some x, Some y => if ascending then (x <=? y)%Z else (y <=? x)%Z
  | None, Some _ => negb ascending
  | Some _, None => ascending
  | None, None => true
  end.

Fixpoint insertSorted (c : Col) (ascending : bool) (x : Row.t) (l : list Row.t) : list Row.t :=
  match l with
  | [] => [x]
  | y :: l' => if goesBefore c ascending x y then x :: l else y :: insertSorted c ascending x l'
  end.

Definition sortBy (order : list (Col * bool)) (rows : list Row.t) : list Row.t :=
  match order with
  | (c, ascending) :: _ => fold_right (insertSorted c ascending) [] rows
  | [] => rows
  end.

Definition has (cols : list Col) (c : Col) : bool :=
  existsb (fun d => match c, d with
                    | c_pk, c_pk | c_id, c_id | c_display_id, c_display_id
                    | c_repo_full_name, c_repo_full_name | c_ticket_number, c_ticket_number
                    | c_filename, c_filename | c_title, c_title | c_body_md, c_body_md
                    | c_kanban_column_id, c_kanban_column_id
                    | c_kanban_position, c_kanban_position
                    | c_kanban_moved_at, c_kanban_moved_at => true
                    | _, _ => false
                    end) cols.

Definition pick {A} (cols : list Col) (c : Col) (v : option A) : option A :=
  if has cols c then v else None.

Definition project (cols : list Col) (r : Row.t) : Row.t :=
  Row.mk (pick cols c_pk (Row.pk r)) (pick cols c_id (Row.id r))
         (pick cols c_display_id (Row.display_id r))
         (pick cols c_repo_full_name (Row.repo_full_name r))
         (pick cols c_ticket_number (Row.ticket_number r))
         (pick cols c_filename (Row.filename r)) (pick cols c_title (Row.title r))
         (pick cols c_body_md (Row.body_md r))
         (pick cols c_kanban_column_id (Row.kanban_column_id r))
         (pick cols c_kanban_position (Row.kanban_position r))
         (pick cols c_kanban_moved_at (Row.kanban_moved_at r)).

Definition run (table : list Row.t) (q : Query) : list Row.t :=
  let rows := sortBy (q_order q) (filter (matching (q_eq q)) table) in
  let rows := match q_limit q with Some n => firstn n rows | None => rows end in
  map (project (q_select q)) rows.

Definition selectRows (table : list Row.t) (q : Query) : Outcome (Resp (list Row.t)) :=
  Returned (mkResp (Some (run table q)) None).

Definition selectMaybeSingle (table : list Row.t) (q : Query) : Outcome (Resp Row.t) :=
  match run table q with
  | [] => Returned (mkResp None None)
  | [r] => Returned (mkResp (Some r) None)
  | _ => Returned (mkResp None
                     (Some (mkPgError (Some (u "PGRST116"))
                                      (Some (u "JSON object requested, multiple rows returned")))))
  end.

Definition clashes (x y : Row.t) : bool :=
  optEqb (Row.id x) (Row.id y)
  || (optEqb (Row.repo_full_name x) (Row.repo_full_name y)
      && optZEqb (Row.ticket_number x) (Row.ticket_number y)).

Definition duplicateKey : PgError :=
  mkPgError (Some (u "23505")) (Some (u "duplicate key value violates unique constraint")).

Definition insertRow (table : list Row.t) (row : Row.t) : list Row.t * Outcome (option PgError) :=
  if existsb (clashes row) table then (table, Returned (Some duplicateKey))
  else (table ++ [row], Returned None).

Definition over {A} (new old : option A) : option A :=
  match new with Some _ => new | None => old end.

Definition patched (patch r : Row.t) : Row.t :=
  Row.mk (over (Row.pk patch) (Row.pk r)) (over (Row.id patch) (Row.id r))
         (over (Row.display_id patch) (Row.display_id r))
         (over (Row.repo_full_name patch) (Row.repo_full_name r))
         (over (Row.ticket_number patch) (Row.ticket_number r))
         (over (Row.filename patch) (Row.filename r)) (over (Row.title patch) (Row.title r))
         (over (Row.body_md patch) (Row.body_md r))
         (over (Row.kanban_column_id patch) (Row.kanban_column_id r))
         (over (Row.kanban_position patch) (Row.kanban_position r))
         (over (Row.kanban_moved_at patch) (Row.kanban_moved_at r)).

Definition updateRows (table : list Row.t) (patch : Row.t) (filters : list (Col * Value))
  : list Row.t * Outcome (option PgError) :=
  (map (fun r => if matching filters r then patched patch r else r) table, Returned None).

Definition env : Env :=
  mkEnv selectRows selectMaybeSingle insertRow updateRows
        (fun n => u "2026-01-01T00:00:0" ++ decimal (Z.of_nat n) ++ u ".000Z")
        (fun n => u "00000000-0000-4000-8000-00000000000" ++ decimal (Z.of_nat n)).

Definition world (table : list Row.t) : World env := mkWorld env table [] [] 0.

End Mem.

Definition sampleBody : jstring := u
"## Ticket

- **ID**: (auto)
- **Title**: Fix login

## Goal (one sentence)

Users can log in again.

## Human-verifiable deliverable (UI-only)

The login page accepts a valid password.

## Acceptance criteria (UI-only)

- [ ] Works

## Constraints

Keep the current layout.

## Non-goals

No redesign.".

(* ================================================================== *)
(** ** The repository listing and the check of the Unassigned column *)
(* ================================================================== *)

(** The order of [Array.prototype.sort] without a comparator: strings are
    compared code unit by code unit. *)
Fixpoint jstr_ltb (a b : jstring) : bool :=
  match a, b with
  | _, [] => false
  | [], _ :: _ => true
  | x :: a', y :: b' =>
      if (x <? y)%N then true else if (y <? x)%N then false else jstr_ltb a' b'
  end.

Fixpoint insertStr (x : jstring) (l : list jstring) : list jstring :=
  match l with
  | [] => [x]
  | y :: l' => if jstr_ltb y x then y :: insertStr x l' else x :: y :: l'
  end.

(** [strings.sort()] *)
Definition sortStrings (l : list jstring) : list jstring := fold_right insertStr [] l.

(** The result of [checkUnassignedTickets]: [{ moved, notReady, error? }];
    an id is [display_id ?? id] of a row. *)
Record NotReadyEntry := mkNotReadyEntry {
  nr_id : option jstring;
  nr_title : option jstring;
  nr_missingItems : list jstring
}.

Record CheckUnassignedResult := mkCheckUnassignedResult {
  cu_moved : list (option jstring);
  cu_notReady : list NotReadyEntry;
  cu_error : option jstring
}.

(** [groups.set(repo, (groups.get(repo) ?? []).concat(row))] on a [Map]:
    keys keep the order of their first insertion. *)
Fixpoint addToGroup (repo : jstring) (row : Row.t) (groups : list (jstring * list Row.t))
    : list (jstring * list Row.t) :=
  match groups with
  | [] => [(repo, [row])]
  | (k, arr) :: rest =>
      if jstr_eqb k repo then (k, arr ++ [row]) :: rest
      else (k, arr) :: addToGroup repo row rest
  end.

(** The grouping loop of [checkUnassignedTickets]. *)
Definition groupByRepo (unassigned : list Row.t) : list (jstring * list Row.t) :=
  fold_left (fun groups row => addToGroup (strOr (Row.repo_full_name row) LEGACY_REPO) row groups)
            unassigned [].

(** [displayId ?? id] *)
Definition shownId (row : Row.t) : option jstring :=
  match Row.display_id row with
  | Some d => Some d
  | None => Row.id row
  end.

(** [row.pk ? updateQ.eq('pk', row.pk) : updateQ.eq('id', id)]; the client
    writes the [id] of a row that has none as the text [null]. *)
Definition rowKey (row : Row.t) : list (Col * Value) :=
  match Row.pk row with
  | Some (c :: p) => [(c_pk, VStr (c :: p))]
  | _ => [(c_id, VStr (strOr (Row.id row) (u "null")))]
  end.

(** [{ kanban_column_id: COL_TODO, kanban_position, kanban_moved_at }] *)
Definition todoPatch (position : Z) (movedAt : jstring) : Row.t :=
  Row.mk None None None None None None None None (Some COL_TODO) (Some position) (Some movedAt).

Section Checks.

Variable E : Env.

Notation "'let*' x ':=' c 'in' k" := (bind c (fun x => k))
  (at level 10, x pattern, c at level 200, k at level 200).

(** [from('tickets').select('repo_full_name')] *)
Definition reposQuery : Query := mkQuery [c_repo_full_name] [] [] None.

(** The loop that fills [repoSet]: the trimmed name of every row whose
    [repo_full_name] is a string that is not blank, first occurrences in
    order. *)
Definition repoNames (rows : list Row.t) : list jstring :=
  uniq []
    (flat_map (fun row =>
                 match Row.repo_full_name row with
                 | Some repo =>
                     if truthyStr (Some repo) && nonEmpty (trim repo) then [trim repo] else []
                 | None => []
                 end) rows).

(** The body of the [try] block of [list_available_repos]. *)
Definition listAvailableReposBody : M E (Result ReposSuccess) :=
  let* r := select reposQuery in
  match error r with
  | Some e =>
      if isUnknownColumnError e then ret (Ok (mkReposSuccess [] 0%Z))
      else ret (failWith (u "Supabase fetch: " ++ msgText e))
  | None =>
      let repos := sortStrings (repoNames (orNil (data r))) in
      ret (Ok (mkReposSuccess repos (Z.of_nat (length repos))))
  end.

Definition list_available_repos : M E (Result ReposSuccess) :=
  let* out := tryCatch listAvailableReposBody (fun msg => ret (failWith msg)) in
  let* _ := push (CallListAvailableRepos out) in
  ret out.

(** The first query of [checkUnassignedTickets] and its legacy form. *)
Definition allTicketsQuery : Query :=
  mkQuery [c_pk; c_id; c_display_id; c_repo_full_name; c_ticket_number; c_title; c_body_md;
           c_kanban_column_id]
          [] [(c_repo_full_name, true); (c_ticket_number, true)] None.

Definition allTicketsLegacyQuery : Query :=
  mkQuery [c_id; c_title; c_body_md; c_kanban_column_id] [] [(c_id, true)] None.

(** The next free position of To Do for the group of [repo]: an error
    message, or one past the highest position. *)
Definition nextTodoPosition (repo : jstring) (rowsInRepo : list Row.t) : M E (jstring + Z) :=
  match rowsInRepo with
  | [] =>
      fun w => (w, Thrown (u "Cannot read properties of undefined (reading 'repo_full_name')"))
  | first :: _ =>
      let hasRepoCol := match Row.repo_full_name first with Some _ => true | None => false end in
      let* todoR := select (todoTopQuery (if hasRepoCol then Some repo else None)) in
      match error todoR with
      | Some e =>
          if isUnknownColumnError e then
            let* legacyTodo := select (todoTopQuery None) in
            match error legacyTodo with
            | Some le => ret (inl (u "Supabase fetch: " ++ msgText le))
            | None => ret (inr (jsAdd (maxPosition (orNil (data legacyTodo))) 1))
            end
          else ret (inl (u "Supabase fetch: " ++ msgText e))
      | None => ret (inr (jsAdd (maxPosition (orNil (data todoR))) 1))
      end
  end.

(** The loop over the rows of one group: a ready row is updated at the
    next position, which is then advanced whether or not the update went
    through; a row that is not ready is reported. *)
Fixpoint moveReady (now0 : jstring) (rowsInRepo : list Row.t) (nextPosition : Z)
    (moved : list (option jstring)) (notReady : list NotReadyEntry)
    : M E (Z * list (option jstring) * list NotReadyEntry) :=
  match rowsInRepo with
  | [] => ret (nextPosition, moved, notReady)
  | row :: rest =>
      let result := evaluateTicketReady (strOr (Row.body_md row) []) in
      if ready result then
        let* updError := update (todoPatch nextPosition now0) (rowKey row) in
        moveReady now0 rest (jsAdd nextPosition 1)
                  (match updError with None => moved ++ [shownId row] | Some _ => moved end)
                  notReady
      else
        moveReady now0 rest nextPosition moved
                  (notReady ++ [mkNotReadyEntry (shownId row) (Row.title row) (missingItems result)])
  end.

(** The loop over the groups. *)
Fixpoint eachGroup (now0 : jstring) (groups : list (jstring * list Row.t))
    (moved : list (option jstring)) (notReady : list NotReadyEntry)
    : M E CheckUnassignedResult :=
  match groups with
  | [] => ret (mkCheckUnassignedResult moved notReady None)
  | (repo, rowsInRepo) :: rest =>
      let* next := nextTodoPosition repo rowsInRepo in
      match next with
      | inl msg => ret (mkCheckUnassignedResult [] [] (Some msg))
      | inr nextPosition =>
          let* done := moveReady now0 rowsInRepo nextPosition moved notReady in
          let '(_, moved', notReady') := done in
          eachGroup now0 rest moved' notReady'
      end
  end.

(** The body of the [try] block of [checkUnassignedTickets]. *)
Definition checkUnassignedBody : M E CheckUnassignedResult :=
  let* r := select allTicketsQuery in
  let* fetched :=
    match error r with
    | Some e =>
        if isUnknownColumnError e then
          let* legacy := select allTicketsLegacyQuery in
          ret (data legacy, error legacy)
        else ret (data r, error r)
    | None => ret (data r, error r)
    end in
  let '(rows, fetchError) := fetched in
  match fetchError with
  | Some e => ret (mkCheckUnassignedResult [] [] (Some (u "Supabase fetch: " ++ msgText e)))
  | None =>
      let unassigned :=
        filter (fun row => inUnassigned (Row.kanban_column_id row)) (orNil rows) in
      let* now0 := @now E in
      eachGroup now0 (groupByRepo unassigned) [] []
  end.

Definition checkUnassignedTickets : M E CheckUnassignedResult :=
  tryCatch checkUnassignedBody (fun msg => ret (mkCheckUnassignedResult [] [] (Some msg))).

End Checks.

(* ================================================================== *)
(** ** The sync script ([scripts/sync-tickets.js]) *)
(* ================================================================== *)

Module SyncScript.

(** /^(\d{4})/ *)
Definition TICKET_ID_RE : re := Seq (Bol false) (Grp 1 (times 4 digit)).

(** [extractTicketId]: [None] is [null]. *)
Definition extractTicketId (filename : jstring) : option jstring :=
  match exec TICKET_ID_RE filename with
  | Some m => group 1 m
  | None => None
  end.

End SyncScript.

(* ================================================================== *)
(** ** The QA artifact tool ([src/agents/qaTools.ts]) *)
(* ================================================================== *)

Module QaTools.
Import Redact.

Record QaToolsConfig := mkQaToolsConfig {
  halApiUrl : option jstring;
  supabaseUrl : option jstring;
  supabaseAnonKey : option jstring
}.

(** A [POST] with a JSON body: the URL and the object whose JSON text is
    sent, as its entries in order (all its values are strings). *)
Record Request := mkRequest {
  rq_url : jstring;
  rq_body : list (jstring * jstring)
}.

(** What [fetch] resolves to, as far as the tool reads it; [response.json()]
    may throw. *)
Record Response := mkResponse {
  rs_ok : bool;
  rs_status : Z;
  rs_statusText : jstring;
  rs_json : Outcome json
}.

Record QaArtifactInput := mkQaArtifactInput {
  qa_ticket_id : jstring;
  qa_title : jstring;
  qa_body_md : jstring
}.

(** [{ success: true, ticketId, artifact_id, action, message }] or
    [{ success: false, error }]. *)
Inductive QaResult :=
| QaOk (ticketId : jstring) (artifact_id : option json) (action : json) (message : jstring)
| QaFail (error : jstring).

Definition qaSuccess (r : QaResult) : bool :=
  match r with QaOk _ _ _ _ => true | QaFail _ => false end.

(** Truthiness of a parsed value. *)
Definition truthy (v : json) : bool :=
  match v with
  | JNull => false
  | JBool b => b
  | JNum z => negb (z =? 0)%Z
  | JStr s => nonEmpty s
  | JArr _ | JObj _ => true
  end.

Fixpoint entryOf (key : jstring) (entries : list (jstring * json)) : option json :=
  match entries with
  | [] => None
  | (k, v) :: rest => if jstr_eqb k key then Some v else entryOf key rest
  end.

(** [v.key] for one of the keys the tool reads, on a value that is not
    null: only an object can have it. *)
Definition field (key : jstring) (v : json) : option json :=
  match v with
  | JObj entries => entryOf key entries
  | _ => None
  end.

(** [v.key] is present and truthy. *)
Definition truthyField (key : jstring) (v : json) : bool :=
  match field key v with Some x => truthy x | None => false end.

Section Tool.

(** [String(n)] for the numbers of a response body. *)
Variable numberText : Z -> jstring.

(** [`${v}`] *)
Fixpoint toText (v : json) : jstring :=
  match v with
  | JNull => u "null"
  | JBool true => u "true"
  | JBool false => u "false"
  | JNum z => numberText z
  | JStr s => s
  | JArr items =>
      join (u ",") (map (fun x => match x with JNull => [] | _ => toText x end) items)
  | JObj _ => u "[object Object]"
  end.

(** [config.halApiUrl || 'http://localhost:5173'] *)
Definition apiUrl (config : QaToolsConfig) : jstring :=
  match halApiUrl config with
  | Some (c :: url) => c :: url
  | _ => u "http://localhost:5173"
  end.

Definition credentials (config : QaToolsConfig) : list (jstring * jstring) :=
  (match supabaseUrl config with
   | Some (c :: url) => [(u "supabaseUrl", c :: url)]
   | _ => []
   end)
  ++ match supabaseAnonKey config with
     | Some (c :: key) => [(u "supabaseAnonKey", c :: key)]
     | _ => []
     end.

(** The outer [catch]. *)
Definition unavailable (errorMessage : jstring) : QaResult :=
  QaFail (u "Failed to insert QA artifact: " ++ errorMessage
          ++ u ". This may indicate a network error or that the HAL API endpoint is unavailable.").

(** [insert_qa_artifact]'s [execute]: the requests made, in order, and the
    result. *)
Definition insert_qa_artifact (config : QaToolsConfig) (fetch : Request -> Outcome Response)
    (input : QaArtifactInput) : list Request * QaResult :=
  if negb (nonEmpty (qa_body_md input)) || negb (nonEmpty (trim (qa_body_md input))) then
    ([], QaFail (u "QA report body_md cannot be empty. The report must contain substantive content."))
  else
    let trimmedBody := toLowerCase (trim (qa_body_md input)) in
    if jstr_eqb trimmedBody (u "placeholder") || jstr_eqb trimmedBody (u "todo")
       || jstr_eqb trimmedBody (u "tbd") then
      ([], QaFail (u "QA report body_md must contain substantive content, not a placeholder. Please provide the actual QA report text."))
    else
      let requestBody :=
        [(u "ticketId", qa_ticket_id input); (u "title", qa_title input);
         (u "body_md", qa_body_md input)] ++ credentials config in
      let request := mkRequest (apiUrl config ++ u "/api/artifacts/insert-qa") requestBody in
      ([request],
       match fetch request with
       | Thrown msg => unavailable msg
       | Returned response =>
           if negb (rs_ok response) then
             let statusMessage :=
               u "HTTP " ++ numToString (rs_status response) ++ u ": " ++ rs_statusText response in
             let errorMessage :=
               match rs_json response with
               | Returned errorResult =>
                   match field (u "error") errorResult with
                   | Some e => if truthy e then toText e else statusMessage
                   | None => statusMessage
                   end
               | Thrown _ => statusMessage
               end in
             QaFail (u "Failed to insert QA artifact: " ++ errorMessage
                     ++ u ". The HAL API rejected the artifact. Please check that the content is substantive and the ticket ID is valid.")
           else
             match rs_json response with
             | Thrown msg => unavailable msg
             | Returned JNull =>
                 unavailable (u "Cannot read properties of null (reading 'success')")
             | Returned result =>
                 if negb (truthyField (u "success") result) then
                   let errorMsg :=
                     match field (u "error") result with
                     | Some e => if truthy e then toText e else u "Failed to insert QA artifact"
                     | None => u "Failed to insert QA artifact"
                     end in
                   QaFail (u "QA artifact insertion failed: " ++ errorMsg
                           ++ u ". The HAL API rejected the artifact. Please ensure the content is substantive and the ticket ID is correct.")
                 else
                   let artifact_id := field (u "artifact_id") result in
                   let action :=
                     match field (u "action") result with
                     | Some a =>
                         if truthy a then a
                         else if match artifact_id with Some i => truthy i | None => false end
                              then JStr (u "updated") else JStr (u "inserted")
                     | None =>
                         if match artifact_id with Some i => truthy i | None => false end
                         then JStr (u "updated") else JStr (u "inserted")
                     end in
                   let updated :=
                     match field (u "action") result with
                     | Some (JStr a) => jstr_eqb a (u "updated")
                     | _ => false
                     end in
                   QaOk (qa_ticket_id input) artifact_id action
                        ((if updated then u "QA artifact updated successfully for ticket "
                          else u "QA artifact created successfully for ticket ")
                         ++ qa_ticket_id input)
             end
       end).

End Tool.

End QaTools.

Unset Implicit Arguments.

(* ================================================================== *)
(** ** Vocabulary of the statements *)
(* ================================================================== *)

(** A placeholder token: an angle bracket pair around one or more letters,
    digits, white space, hyphens or underscores. *)
Definition isToken (t : jstring) : Prop :=
  exists w, t = 60%N :: w ++ [62%N] /\ w <> [] /\ forallb placeholderChar w = true.

Definition containsToken (s : jstring) : Prop :=
  exists a t b, s = a ++ t ++ b /\ isToken t.

Definition noDigit (s : jstring) : bool := forallb (fun c => negb (isDigit c)) s.
Definition allDigits (s : jstring) : bool := forallb isDigit s.
Definition singleLine (s : jstring) : bool := forallb (fun c => negb (isLineTerminator c)) s.

(** The last unit of [s], if any, is no digit. *)
Definition endsWithoutDigit (s : jstring) : bool :=
  match rev s with
  | c :: _ => negb (isDigit c)
  | [] => true
  end.

(** A digit lies ahead on the current line. *)
Fixpoint digitAhead (s : jstring) : bool :=
  match s with
  | [] => false
  | c :: s' => isDigit c || (negb (isLineTerminator c) && digitAhead s')
  end.

(** [d] is the last run of digits of [s], cut to its last four, and no line
    break comes before it. *)
Definition lastDigitsAre (s d : jstring) : Prop :=
  exists a t, s = a ++ d ++ t /\ singleLine a = true /\ allDigits d = true
              /\ (1 <= length d <= 4)%nat /\ noDigit t = true
              /\ (length d = 4%nat \/ endsWithoutDigit a = true).

(** What the reference [ref] stands for, read off its text: nothing when it
    has no digit, else the number written by its last digits. *)
Definition refersTo (ref : jstring) (n : option Z) : Prop :=
  (noDigit ref = true /\ n = None)
  \/ (exists d, lastDigitsAre (trim ref) d /\ n = Some (parseDigits d)).

(** The world after [toolCalls.push(c)]. *)
Definition pushed {E : Env} (w : World E) (c : ToolCallRecord) : World E :=
  mkWorld E (store w) (accesses w) (toolCalls w ++ [c]) (ticks w).

(** A store client that answers every call without an error and never
    throws. *)
Definition healthy (E : Env) : Prop :=
  (forall s q, exists rows, selectRows E s q = Returned (mkResp (Some rows) None))
  /\ (forall s patch filters, exists s', updateRows E s patch filters = (s', Returned None)).

(** The accesses that write. *)
Definition isWrite (a : Access) : bool :=
  match a with
  | AInsert _ | AUpdate _ _ => true
  | ASelect _ | AMaybeSingle _ => false
  end.

(** The body of the lookahead of [TICKET_NUMBER_RE]: [.*\d]. *)
Definition lookDigit : re := Seq (Star true dot) digit.

(** What a computation leaves alone when it only reads the store. *)
Definition onlyReads {E} (w w' : World E) : Prop :=
  store w' = store w /\ toolCalls w' = toolCalls w /\ ticks w' = ticks w
  /\ filter isWrite (accesses w') = filter isWrite (accesses w).

(** The columns the move tools select when they look a ticket up. *)
Definition todoCols : list Col := [c_pk; c_id; c_kanban_column_id; c_kanban_position].
Definition todoLegacyCols : list Col := [c_id; c_kanban_column_id; c_kanban_position].

Definition notInUnassigned (currentCol : option jstring) : jstring :=
  u "Ticket is not in Unassigned (current column: " ++ strOr currentCol (u "null")
  ++ u "). Only tickets in Unassigned can be moved to To Do.".

Definition otherCols : list Col :=
  [c_pk; c_id; c_display_id; c_ticket_number; c_repo_full_name;
   c_kanban_column_id; c_kanban_position; c_body_md].

Definition otherLegacyCols (sourceRepoFullName : jstring) : list Col :=
  if nonEmpty sourceRepoFullName
  then [c_id; c_kanban_column_id; c_kanban_position; c_body_md]
  else [c_id; c_kanban_column_id; c_kanban_position; c_repo_full_name; c_body_md].

(** [st'] is [st] moved forward over some input [x]. *)
Definition ext (st st' : mstate) : Prop :=
  exists x, rest st = x ++ rest st' /\ before st' = rev x ++ before st.

(** A matcher calls its continuation only on states further along the
    same input. *)
Definition forward {R} (ma : mstate -> (mstate -> option R) -> option R) : Prop :=
  forall st k res, ma st k = Some res -> exists st', ext st st' /\ k st' = Some res.

(** The estimated length of a list of turns: the sum of their [lineLen]. *)
Definition sumLen (l : list Context.ConversationTurn) : Z :=
  fold_right (fun t acc => (Context.lineLen t + acc)%Z) 0%Z l.

(** The kinds of outcome the fallback reply can describe. *)
Inductive OutcomeKind :=
| RejectedCreation | RejectedUpdate | Created | MovedToTodo | BodyUpdated
| Synced | ColumnListed | ReposListed | MovedToOtherRepo.

(** The place of a kind in the order in which the kinds are looked for. *)
Definition rank (k : OutcomeKind) : nat :=
  match k with
  | RejectedCreation => 1
  | RejectedUpdate => 2
  | Created => 3
  | MovedToTodo => 4
  | BodyUpdated => 5
  | Synced => 6
  | ColumnListed => 7
  | ReposListed => 8
  | MovedToOtherRepo => 9
  end.

(** The kind of outcome a record shows, if any: a rejection is a failure of
    [create_ticket] or [update_ticket_body] that lists detected
    placeholders, the other kinds are successes of their tools. *)
Definition kindOf (c : ToolCallRecord) : option OutcomeKind :=
  match c with
  | CallCreateTicket _ (Fail f) =>
      match f_detectedPlaceholders f with Some _ => Some RejectedCreation | None => None end
  | CallUpdateTicketBody _ (Fail f) =>
      match f_detectedPlaceholders f with Some _ => Some RejectedUpdate | None => None end
  | CallCreateTicket _ (Ok _) => Some Created
  | CallKanbanMoveTicketToTodo _ (Ok _) => Some MovedToTodo
  | CallUpdateTicketBody _ (Ok _) => Some BodyUpdated
  | CallSyncTickets (Ok _) => Some Synced
  | CallListTicketsByColumn _ (Ok _) => Some ColumnListed
  | CallListAvailableRepos (Ok _) => Some ReposListed
  | CallKanbanMoveTicketToOtherRepoTodo _ (Ok _) => Some MovedToOtherRepo
  | _ => None
  end.

(** The text of the conversation section for the turns [recent], with or
    without the note; [budget] is the text of the number 12000. *)
Definition sectionText (budget : jstring) (noted : bool)
    (recent : list Context.ConversationTurn) : jstring :=
  u "## Conversation so far"
  ++ (if noted
      then [nl] ++ u "(older messages omitted; showing recent conversation within "
           ++ budget ++ u " characters)" ++ [nl; nl]
      else [nl; nl])
  ++ join [nl; nl] (map Context.renderTurn recent).

(** [sk-] followed by the characters of [key]. *)
Definition K25 (key : jstring) : jstring := u "sk-" ++ key.

(** [k] occurs in [s]. *)
Definition Substr (k s : jstring) : Prop := exists x y, s = x ++ k ++ y.

Definition redactedWord : jstring := u "REDACTED".

(** A way down a structured value: by object key or by array index. *)
Inductive step := SKey (k : jstring) | SIndex (i : nat).

Fixpoint lookupKey (k : jstring) (entries : list (jstring * Redact.json)) : option Redact.json :=
  match entries with
  | [] => None
  | (k', v) :: more => if jstr_eqb k' k then Some v else lookupKey k more
  end.

(** The value found by following [path] in [v]. *)
Fixpoint valueAt (path : list step) (v : Redact.json) : option Redact.json :=
  match path with
  | [] => Some v
  | SKey k :: p =>
      match v with
      | Redact.JObj es => match lookupKey k es with Some v' => valueAt p v' | None => None end
      | _ => None
      end
  | SIndex i :: p =>
      match v with
      | Redact.JArr items => match nth_error items i with Some v' => valueAt p v' | None => None end
      | _ => None
      end
  end.

(** The key under which the value at the end of [path] sits, if it sits in
    an object. *)
Definition lastKey (path : list step) : option jstring :=
  match rev path with
  | SKey k :: _ => Some k
  | _ => None
  end.

(** The value at the end of [path] sits under a reserved secret name. *)
Definition underSecretName (path : list step) : bool :=
  match lastKey path with
  | Some (c :: k) => test Redact.SENSITIVE_KEYS (c :: k)
  | _ => false
  end.

(** No step of [path] goes through a [__proto__] key. *)
Definition noProto (path : list step) : bool :=
  forallb (fun st => match st with SKey k => Redact.ownKey k | SIndex _ => true end) path.

(** The entries of a redacted object. *)
Fixpoint redactEntries (es : list (jstring * Redact.json)) : list (jstring * Redact.json) :=
  match es with
  | [] => []
  | (k, v) :: es' =>
      if Redact.ownKey k then (k, Redact.redactValue v (Some k)) :: redactEntries es'
      else redactEntries es'
  end.

(** An unchecked checkbox: a hyphen, a left bracket and a right bracket with
    nothing but white space between them. *)
Definition containsCheckbox (s : jstring) : Prop :=
  exists a ws1 ws2 b,
    s = a ++ 45%N :: ws1 ++ 91%N :: ws2 ++ 93%N :: b
    /\ forallb isWs ws1 = true /\ forallb isWs ws2 = true.

(** The whole string is one pair of angle brackets around anything that has
    no closing bracket. *)
Definition isBracketed (s : jstring) : Prop :=
  exists w, s = 60%N :: w ++ [62%N] /\ forallb (fun c => negb (N.eqb c 62)) w = true.

(** Readiness as the checklist describes it, for given section titles: the
    first two sections must hold text free of placeholders, the third a
    checkbox, the last two some text, and the whole body no placeholder. *)
Definition populated (s : jstring) : bool := (0 <? length s)%nat.
Definition placeholderFree (s : jstring) : bool :=
  (length (matchG PLACEHOLDER_RE s) =? 0)%nat.

Definition readyWith (tGoal tDeliverable tAc tConstraints tNonGoals bodyMd : jstring) : bool :=
  let body := trim bodyMd in
  let sec := sectionContent body in
  populated (sec tGoal) && placeholderFree (sec tGoal)
  && populated (sec tDeliverable) && placeholderFree (sec tDeliverable)
  && test checkboxRe (sec tAc)
  && populated (sec tConstraints) && populated (sec tNonGoals)
  && placeholderFree body.

(** The same under the short headings. *)
Definition readyAsDescribed : jstring -> bool :=
  readyWith (u "Goal") (u "Human-verifiable deliverable") (u "Acceptance criteria")
            (u "Constraints") (u "Non-goals").

(** A body under the short headings. *)
Definition shortHeadings : jstring := u
"## Goal

Users can log in again.

## Human-verifiable deliverable

The login page accepts a valid password.

## Acceptance criteria

- [ ] Works

## Constraints

Keep the current layout.

## Non-goals

No redesign.".

(** A body under the full headings whose goal is one bracket pair that is
    no placeholder token. *)
Definition bracketedGoal : jstring := u
"## Goal (one sentence)

<to be decided.>

## Human-verifiable deliverable (UI-only)

The login page accepts a valid password.

## Acceptance criteria (UI-only)

- [ ] Works

## Constraints

Keep the current layout.

## Non-goals

No redesign.".

(** [a] is a prefix of [b], segment by segment. *)
Fixpoint segPrefix (a b : list jstring) : bool :=
  match a, b with
  | [], _ => true
  | x :: a', y :: b' => jstr_eqb x y && segPrefix a' b'
  | _ :: _, [] => false
  end.

(** The candidate, resolved against the root, lies in the root: the segments
    of the resolved root are the first segments of the resolved candidate. *)
Definition insideRoot (cwd repoRoot relativeOrAbsolute : jstring) : bool :=
  segPrefix (Path.resolveSegments cwd [repoRoot])
            (Path.resolveSegments cwd [repoRoot; orElse relativeOrAbsolute (u ".")]).

(** The segments of the resolved candidate below the resolved root. *)
Definition below (cwd repoRoot relativeOrAbsolute : jstring) : list jstring :=
  skipn (length (Path.resolveSegments cwd [repoRoot]))
        (Path.resolveSegments cwd [repoRoot; orElse relativeOrAbsolute (u ".")]).

(** The first of the segments [segs] begins with two dots. *)
Definition dotted (segs : list jstring) : bool :=
  match segs with
  | s :: _ => startsWith (u "..") s
  | [] => false
  end.

Definition noSlash (s : jstring) : bool :=
  forallb (fun c => negb (N.eqb c Path.slash)) s.

(** A segment as [resolve] leaves it: not empty, not a dot, not two dots,
    and with no slash. *)
Definition plainSegment (s : jstring) : bool :=
  negb (jstr_eqb s []) && negb (jstr_eqb s (u ".")) && negb (jstr_eqb s (u ".."))
  && noSlash s.

(** The query [create_ticket] makes for the highest ticket number of a
    repository. *)
Definition topNumberQuery (repoFullName : jstring) : Query :=
  mkQuery [c_ticket_number] [(c_repo_full_name, VStr repoFullName)]
          [(c_ticket_number, false)] (Some 1%nat).

(** One past the ticket number of the first row, or 1 when there is none. *)
Definition nextNumber (rows : list Row.t) : Z :=
  match rows with
  | row :: _ => match Row.ticket_number row with Some n => (n + 1)%Z | None => 1%Z end
  | [] => 1%Z
  end.

Definition idOf (n : Z) : jstring := padStart0 4 (numToString n).

Definition displayIdOf (repoFullName : jstring) (n : Z) : jstring :=
  repoHintPrefix repoFullName ++ u "-" ++ idOf n.

(** The ticket numbers of the rows the tool tried to insert, in order. *)
Definition insertedNumbers (l : list Access) : list Z :=
  flat_map (fun a => match a with
                     | AInsert row => match Row.ticket_number row with
                                      | Some n => [n]
                                      | None => []
                                      end
                     | _ => []
                     end) l.

(** A row that carries the candidate number [n] for the repository. *)
Definition candidateRow (repoFullName : jstring) (n : Z) (row : Row.t) : Prop :=
  Row.id row = Some (idOf n)
  /\ Row.repo_full_name row = Some repoFullName
  /\ Row.ticket_number row = Some n.

(** In the state [s] the store refuses the candidate [n] with the uniqueness
    violation [e] and stays as it is. *)
Definition rejectsAt (E : Env) (s : St E) (repoFullName : jstring) (n : Z) (e : PgError)
  : Prop :=
  isUniqueViolation e = true /\ isUnknownColumnError e = false
  /\ forall row, candidateRow repoFullName n row -> insertRow E s row = (s, Returned (Some e)).

(** In the state [s] the store takes the candidate [n]. *)
Definition acceptsAt (E : Env) (s : St E) (repoFullName : jstring) (n : Z) : Prop :=
  forall row, candidateRow repoFullName n row ->
              exists s', insertRow E s row = (s', Returned None).

(** The body the tool stores for the candidate [n]. *)
Definition storedBody (body_md repoFullName : jstring) (n : Z) : jstring :=
  normalizeTitleLineInBody (normalizeBodyForReady (trim body_md)) (displayIdOf repoFullName n).

(** The error text after the last attempt. *)
Definition exhausted (last : jstring) : jstring :=
  u "Could not reserve a ticket ID after 10 attempts (id/filename collision). Last: " ++ last.

(** The candidate of one attempt: [startNum + attempt - 1], in doubles. *)
Definition candidateAt (startNum attempt : Z) : Z := jsSub (jsAdd startNum attempt) 1.

(** The candidates of [count] attempts in a row, from attempt [attempt] on. *)
Definition triedFrom (startNum attempt : Z) (count : nat) : list Z :=
  map (fun j => candidateAt startNum (attempt + Z.of_nat j)) (seq 0 count).

(** The candidates [first], [first + 1], ... , [count] of them. *)
Definition candidates (first : Z) (count : nat) : list Z :=
  map (fun j => (first + Z.of_nat j)%Z) (seq 0 count).

(** [lastInsertError?.message ?? 'unknown'] *)
Definition lastMessage (last : option PgError) : jstring :=
  match last with
  | Some e => match message e with Some m => m | None => u "unknown" end
  | None => u "unknown"
  end.

(** The error kept after [k] refusals with the errors [errs 0], [errs 1], ... *)
Definition lastOf (k : nat) (last : option PgError) (errs : nat -> PgError) : option PgError :=
  match k with
  | O => last
  | S j => Some (errs j)
  end.

(** The row [create_ticket] inserts for the candidate [cand]: [nb] is the
    body after the heading normalisation, [pk] the fresh key and [now0] the
    time of the call. *)
Definition newRow (input : CreateInput) (nb repoFullName prefix slug now0 : jstring)
    (cand : Z) (pk : jstring) : Row.t :=
  Row.mk (Some pk) (Some (idOf cand)) (Some (prefix ++ u "-" ++ idOf cand)) (Some repoFullName)
         (Some cand) (Some (idOf cand ++ u "-" ++ slug ++ u ".md"))
         (Some (trim (ci_title input)))
         (Some (normalizeTitleLineInBody nb (prefix ++ u "-" ++ idOf cand)))
         (Some COL_UNASSIGNED) (Some 0%Z) (Some now0).

(** The first candidate [create_ticket] tries after the store has answered
    its query for the highest number with [rows]: one past that number,
    as doubles add (exactly one past it below [2^53]). *)
Definition firstCandidate (rows : list Row.t) : Z :=
  candidateAt (toDouble (nextNumber rows)) 1.

(** The position of a row, 0 when it has none. *)
Definition positionOf (row : Row.t) : Z :=
  match Row.kanban_position row with Some p => p | None => 0%Z end.

(** [m] is the highest position among [rows], or 0 when no row lies above
    0. *)
Definition highest (rows : list Row.t) (m : Z) : Prop :=
  (m = 0%Z \/ exists row, In row rows /\ positionOf row = m)
  /\ (0 <= m)%Z
  /\ Forall (fun row => (positionOf row <= m)%Z) rows.

(** The patch that moves a row to To Do. *)
Definition toTodo (position : Z) (movedAt : jstring) : Row.t :=
  Row.mk None None None None None None None None (Some COL_TODO) (Some position) (Some movedAt).

(** The query for the highest position in To Do that [create_ticket] makes. *)
Definition todoQueryFor (repoFullName : jstring) : Query :=
  todoTopQuery (if jstr_eqb repoFullName LEGACY_REPO then None else Some repoFullName).

(** Sample data: a row of another repository that holds the legacy id of
    the number [n], and a request to create a ticket. *)
Definition heldElsewhere (n : Z) : Row.t :=
  Row.mk (Some (u "pk-" ++ idOf n)) (Some (idOf n)) (Some (u "API-" ++ idOf n))
         (Some (u "acme/api")) (Some n) (Some (idOf n ++ u "-setup.md")) (Some (u "Setup"))
         (Some (u "Set up.")) (Some COL_UNASSIGNED) (Some 0%Z)
         (Some (u "2026-01-01T00:00:00.000Z")).

Definition fixLogin : CreateInput := mkCreateInput (u "Fix login") sampleBody.

(** Sample data: a ticket of the repository [acme/web] with the number [n],
    in the column [col] at the position [pos]; and the tickets 7, 12 and 3,
    of which 7 and 3 are in To Do at the positions 4 and 9. *)
Definition webTicket (n : Z) (col : jstring) (pos : Z) : Row.t :=
  Row.mk (Some (u "pk-" ++ idOf n)) (Some (idOf n)) (Some (u "WEB-" ++ idOf n))
         (Some (u "acme/web")) (Some n) (Some (idOf n ++ u "-task.md")) (Some (u "Task"))
         (Some (u "A task.")) (Some col) (Some pos) (Some (u "2026-01-01T00:00:00.000Z")).

Definition webTickets : list Row.t :=
  [webTicket 7 COL_TODO 4; webTicket 12 (u "col-qa") 3; webTicket 3 COL_TODO 9].

(** Sample data for the runs below. *)
Definition templateBody : jstring := u
"## Goal (one sentence)

<what we want to achieve>

## Acceptance criteria (UI-only)

- [ ] <AC 1>".

Definition qaTicket : Row.t :=
  Row.mk (Some (u "pk-12")) (Some (u "0012")) (Some (u "WEB-0012")) (Some (u "acme/web"))
         (Some 12%Z) (Some (u "0012-fix-login.md")) (Some (u "Fix login")) (Some sampleBody)
         (Some (u "col-qa")) (Some 3%Z) (Some (u "2026-01-01T00:00:00.000Z")).

Definition threeTurns : list Context.ConversationTurn :=
  [ Context.mkTurn Context.user (repeat 97%N (N.to_nat 7000));
    Context.mkTurn Context.assistant (repeat 98%N (N.to_nat 7000));
    Context.mkTurn Context.user (u "and now?") ].

Definition longTurn : list Context.ConversationTurn :=
  [Context.mkTurn Context.user (repeat 97%N (N.to_nat 12000))].

Definition createdFirst : ToolCallRecord :=
  CallCreateTicket (mkCreateInput (u "Fix login") sampleBody)
    (Ok (mkCreateSuccess (u "0007") (u "WEB-0007") 7 (u "acme/web") (u "0007-fix-login.md")
           (u "supabase:tickets/WEB-0007") None None true None None (Some true) None)).

Definition movedLater : ToolCallRecord :=
  CallKanbanMoveTicketToTodo (u "0003")
    (Ok (mkMoveSuccess (u "0003") COL_UNASSIGNED COL_TODO)).

Definition rejectedUpdate : ToolCallRecord :=
  CallUpdateTicketBody (mkUpdateInput (u "0003") templateBody)
    (Fail (mkFailure (u "Ticket update rejected: unresolved template placeholder tokens detected.")
                     (Some [u "<AC 1>"]))).

Definition capturedRequest : Redact.json :=
  Redact.JObj
    [ (u "model", Redact.JStr (u "gpt-4o"));
      (u "headers",
       Redact.JObj [ (u "Authorization", Redact.JStr (u "Bearer abc"));
                     (u "note", Redact.JStr (u "key sk-abcdefghijklmnopqrstuvwxy end")) ]);
      (u "input", Redact.JArr [Redact.JStr (u "hello")]) ].

Definition tokenObject : Redact.json :=
  Redact.JObj [ (u "token", Redact.JObj [ (u "access", Redact.JStr (u "abc")) ]) ].

(** The write calls among the calls made on the store client. *)
Definition writes (l : list Access) : list Access := filter isWrite l.

(** The patch that sets the body only. *)
Definition bodyPatch (body : jstring) : Row.t :=
  Row.mk None None None None None None None (Some body) None None None.

(** A computation that only reads the store, whatever the store answers. *)
Definition reader {E A} (c : M E A) : Prop := forall w, onlyReads w (fst (c w)).

(** A patch that moves a row to To Do, at a position of at least 1. *)
Definition movesToTodo (patch : Row.t) : Prop :=
  Row.kanban_column_id patch = Some COL_TODO
  /\ exists pos, Row.kanban_position patch = Some pos /\ (1 <= pos)%Z.

(** The characters of a slug: lower-case letters, digits and the hyphen. *)
Definition slugChar (c : jchar) : bool := isLower c || isDigit c || N.eqb c 45.

(** The characters of a repository prefix: upper-case letters and digits. *)
Definition prefixChar (c : jchar) : bool := isUpper c || isDigit c.

(** Strictly ascending in the order of code units. *)
Fixpoint ascending (l : list jstring) : Prop :=
  match l with
  | [] => True
  | x :: l' => Forall (fun y => jstr_ltb x y = true) l' /\ ascending l'
  end.

(** [name] is the trimmed repository name of a row the store hands out, in
    the state of [w], for the query of [list_available_repos]. *)
Definition listedUnder {E} (w : World E) (name : jstring) : Prop :=
  exists resp rows row repo,
    selectRows E (store w) reposQuery = Returned resp
    /\ error resp = None /\ data resp = Some rows
    /\ In row rows /\ Row.repo_full_name row = Some repo /\ trim repo = name.

(** What [checkUnassignedTickets] looks at in a row. *)
Definition unassignedRow (row : Row.t) : bool := inUnassigned (Row.kanban_column_id row).

Definition readyRow (row : Row.t) : bool :=
  ready (evaluateTicketReady (strOr (Row.body_md row) [])).

(** The report of a row that is not ready. *)
Definition reportOf (row : Row.t) : NotReadyEntry :=
  mkNotReadyEntry (shownId row) (Row.title row)
                  (missingItems (evaluateTicketReady (strOr (Row.body_md row) []))).

(** [row] is among the rows the store hands out, in the state of [w], for
    the ticket query of [checkUnassignedTickets] or its legacy form. *)
Definition readFrom {E} (w : World E) (row : Row.t) : Prop :=
  exists q resp rows,
    (q = allTicketsQuery \/ q = allTicketsLegacyQuery)
    /\ selectRows E (store w) q = Returned resp /\ data resp = Some rows /\ In row rows.

(** Rows paired with the positions a counter gives them that starts at
    [start] and is increased by 1 after each row, in doubles. *)
Fixpoint numbered (start : Z) (rows : list Row.t) : list (Row.t * Z) :=
  match rows with
  | [] => []
  | row :: rest => (row, start) :: numbered (jsAdd start 1) rest
  end.

(** Rows paired with the consecutive integers from [start]. *)
Fixpoint consecutive (start : Z) (rows : list Row.t) : list (Row.t * Z) :=
  match rows with
  | [] => []
  | row :: rest => (row, start) :: consecutive (start + 1) rest
  end.

(** The updates that move the rows to To Do at the positions paired with
    them. *)
Definition moves (movedAt : jstring) (ups : list (Row.t * Z)) : list Access :=
  map (fun rp => AUpdate (todoPatch (snd rp) movedAt) (rowKey (fst rp))) ups.

(** The rows of a run, with their positions: [(start, rows)]. *)
Definition segmentMoves (sg : Z * list Row.t) : list (Row.t * Z) := numbered (fst sg) (snd sg).

Definition repoOf (row : Row.t) : jstring := strOr (Row.repo_full_name row) LEGACY_REPO.

(** [rows] are the rows the store hands out without an error, in the state
    of [w], for the ticket query of [checkUnassignedTickets] or its legacy
    form. *)
Definition ticketsRead {E} (w : World E) (rows : list Row.t) : Prop :=
  exists q resp,
    (q = allTicketsQuery \/ q = allTicketsLegacyQuery)
    /\ selectRows E (store w) q = Returned resp /\ error resp = None
    /\ orNil (data resp) = rows.

(** A row the check may move: read from the store, in Unassigned (or in no
    column) and ready. *)
Definition movable {E} (w : World E) (row : Row.t) : Prop :=
  readFrom w row /\ unassignedRow row = true /\ readyRow row = true.

(** Every Unassigned row of the tickets read was dealt with: the ready
    ones were updated, one update each, and the others reported, one report
    each. *)
Definition allChecked {E} (w w1 : World E) (res : CheckUnassignedResult) : Prop :=
  exists rows,
    ticketsRead w rows
    /\ (forall row, In row rows -> unassignedRow row = true -> readyRow row = true ->
          exists p, (1 <= p)%Z
                    /\ In (AUpdate (todoPatch p (nowISO E (ticks w))) (rowKey row)) (accesses w1))
    /\ (forall row, In row rows -> unassignedRow row = true -> readyRow row = false ->
          In (reportOf row) (cu_notReady res))
    /\ length (cu_notReady res)
       = length (filter (fun row => unassignedRow row && negb (readyRow row)) rows)
    /\ length (writes (accesses w1))
       = (length (writes (accesses w))
          + length (filter (fun row => unassignedRow row && readyRow row) rows))%nat.

(** A ready ticket that waits in Unassigned. *)
Definition waitingTicket : Row.t :=
  Row.mk (Some (u "pk-13")) (Some (u "0013")) (Some (u "WEB-0013")) (Some (u "acme/web"))
         (Some 13%Z) (Some (u "0013-fix-login.md")) (Some (u "Fix login")) (Some sampleBody)
         (Some COL_UNASSIGNED) (Some 0%Z) (Some (u "2026-01-01T00:00:00.000Z")).

(** What a successful result of [create_ticket] says about the ticket
    created for [input] in the repository [repoFullName]. *)
Definition createdAs (repoFullName : jstring) (input : CreateInput) (cs : CreateSuccess) : Prop :=
  cs_id cs = idOf (cs_ticket_number cs)
  /\ cs_display_id cs = displayIdOf repoFullName (cs_ticket_number cs)
  /\ cs_filename cs = cs_id cs ++ u "-" ++ slugFromTitle (ci_title input) ++ u ".md"
  /\ cs_filePath cs = u "supabase:tickets/" ++ cs_display_id cs
  /\ cs_repo_full_name cs = repoFullName.

(** The flags of a successful result agree with each other. *)
Definition flagsAgree (cs : CreateSuccess) : Prop :=
  (cs_ready cs = true <-> cs_missingItems cs = None)
  /\ (cs_movedToTodo cs = Some true -> cs_ready cs = true)
  /\ match cs_attempts cs with
     | None => cs_retried cs = None
     | Some a => cs_retried cs = Some true /\ (2 <= a <= Z.of_nat MAX_CREATE_TICKET_RETRIES)%Z
     end.

(** [row] is the row of the ticket that [cs] describes, as inserted. *)
Definition rowOfCreated (cs : CreateSuccess) (row : Row.t) : Prop :=
  Row.id row = Some (cs_id cs) /\ Row.filename row = Some (cs_filename cs)
  /\ Row.kanban_column_id row = Some COL_UNASSIGNED /\ Row.kanban_position row = Some 0%Z.

(** A string that holds none of the marks the redaction patterns start
    with (the scheme separator stands for the URL pattern). *)
Definition plainString (s : jstring) : bool :=
  negb (includes (u "sk-") s) && negb (includes (u "eyJ") s) && negb (includes (u "://") s).

(** A value with nothing to redact: every string in it is plain, no string
    sits under a reserved key name, and no key is [__proto__]. *)
Fixpoint plainValue (v : Redact.json) : bool :=
  match v with
  | Redact.JStr s => plainString s
  | Redact.JArr items => forallb plainValue items
  | Redact.JObj entries =>
      forallb (fun kv => Redact.ownKey (fst kv)
                         && negb (Redact.sensitiveString (snd kv) (Some (fst kv)))
                         && plainValue (snd kv)) entries
  | _ => true
  end.

Definition statusReport : Redact.json :=
  Redact.JObj [ (u "model", Redact.JStr (u "gpt-4o"));
                (u "steps", Redact.JArr [Redact.JNum 3; Redact.JStr (u "done")]) ].

(** A report body the QA artifact tool refuses: white space only, or one of
    the stub words once trimmed and lower-cased. *)
Definition blankBody (body : jstring) : bool := forallb isWs body.

Definition stubBody (body : jstring) : bool :=
  existsb (jstr_eqb (toLowerCase (trim body))) [u "placeholder"; u "todo"; u "tbd"].

(** An update of the row [create_ticket] made for number [n]: it sets the
    body only, or it moves the row to To Do. *)
Definition ownUpdate (repoFullName : jstring) (n : Z) (a : Access) : Prop :=
  exists patch,
    a = AUpdate patch (createdRowFilter repoFullName n (idOf n))
    /\ ((exists body, patch = bodyPatch body) \/ movesToTodo patch).

(** No two hyphens in a row. *)
Fixpoint noDoubleHyphen (s : jstring) : bool :=
  match s with
  | a :: t => negb (N.eqb a 45 && match t with b :: _ => N.eqb b 45 | [] => false end)
              && noDoubleHyphen t
  | [] => true
  end.

(** [hd]/[last] do not rest on a hyphen. *)
Definition startsPlain (s : jstring) : bool :=
  match s with c :: _ => negb (N.eqb c 45) | [] => true end.

Definition endsPlain (s : jstring) : bool := startsPlain (rev s).

(* ================================================================== *)
(** * Facts about the string and regex layer *)
(* ================================================================== *)

Lemma jstr_eqb_eq (a b : jstring) : jstr_eqb a b = true <-> a = b.
Proof. unfold jstr_eqb. destruct (list_eq_dec N.eq_dec a b); split; congruence. Qed.

Lemma jstr_eqb_refl (a : jstring) : jstr_eqb a a = true.
Proof. now apply jstr_eqb_eq. Qed.

Module RegexFacts.

Lemma ext_refl st : ext st st.
Proof. exists []. split; reflexivity. Qed.

Lemma ext_trans st1 st2 st3 : ext st1 st2 -> ext st2 st3 -> ext st1 st3.
Proof.
  intros [x [Hx Bx]] [y [Hy By]]. exists (x ++ y). split.
  - rewrite Hx, Hy. now rewrite app_assoc.
  - rewrite By, Bx, rev_app_distr. now rewrite app_assoc.
Qed.

Lemma starLoop_forward {R} (ma : mstate -> (mstate -> option R) -> option R) greedy k :
  forward ma ->
  forall n st res, starLoop ma greedy k n st = Some res ->
                   exists st', ext st st' /\ k st' = Some res.
Proof.
  intros Hma. induction n as [|n IH]; intros st res H; simpl in H.
  - exists st. split; [apply ext_refl | exact H].
  - assert (Hagain : forall res0,
      ma st (fun st' => if (length (rest st') <? length (rest st))%nat
                        then starLoop ma greedy k n st' else None) = Some res0 ->
      exists st', ext st st' /\ k st' = Some res0).
    { intros res0 H0. apply Hma in H0. destruct H0 as [st1 [E1 H1]].
      destruct (length (rest st1) <? length (rest st))%nat; [|discriminate].
      apply IH in H1. destruct H1 as [st2 [E2 H2]].
      exists st2. split; [eapply ext_trans; eauto | exact H2]. }
    destruct greedy.
    + destruct (ma st _) eqn:Ha.
      * inversion H; subst. now apply Hagain.
      * exists st. split; [apply ext_refl | exact H].
    + destruct (k st) eqn:Hk.
      * inversion H; subst. exists st. split; [apply ext_refl | exact Hk].
      * now apply Hagain.
Qed.

Lemma rmatch_forward {R} (r : re) : forward (fun st (k : mstate -> option R) => rmatch r st k).
Proof.
  revert R. induction r; intros R st k res H; cbn [rmatch] in H.
  - exists st. split; [apply ext_refl | exact H].
  - destruct (rest st) as [|c s'] eqn:Hr; [discriminate|].
    destruct (p c); [|discriminate].
    eexists. split; [|exact H]. exists [c]. simpl. split; [exact Hr | reflexivity].
  - apply IHr1 in H. destruct H as [st1 [E1 H1]].
    apply IHr2 in H1. destruct H1 as [st2 [E2 H2]].
    exists st2. split; [eapply ext_trans; eauto | exact H2].
  - destruct (rmatch r1 st k) eqn:H1.
    + inversion H; subst. now apply IHr1 in H1.
    + now apply IHr2 in H.
  - eapply starLoop_forward in H; [exact H|]. apply IHr.
  - apply IHr in H. destruct H as [st1 [E1 H1]].
    eexists. split; [|exact H1]. exact E1.
  - destruct (rmatch r st (fun _ => Some tt)); destruct positive; try discriminate;
      (exists st; split; [apply ext_refl | exact H]).
  - destruct (before st) as [|c b].
    + exists st. split; [apply ext_refl | exact H].
    + destruct (multiline && isLineTerminator c); [|discriminate].
      exists st. split; [apply ext_refl | exact H].
  - destruct (rest st) as [|c b].
    + exists st. split; [apply ext_refl | exact H].
    + destruct (multiline && isLineTerminator c); [|discriminate].
      exists st. split; [apply ext_refl | exact H].
Qed.

(** A successful attempt splits the input into the match and what follows. *)
Lemma attempt_split r pre s m :
  attempt r pre s = Some m ->
  s = m_text m ++ m_after m /\ m_before m = rev pre.
Proof.
  unfold attempt. intros H. apply rmatch_forward in H.
  destruct H as [st' [[x [Hx _]] H]]. simpl in Hx. inversion H; subst; simpl.
  split; [|reflexivity].
  rewrite length_app, Nat.add_sub, firstn_app, Nat.sub_diag, firstn_all. simpl.
  now rewrite app_nil_r.
Qed.

(** [search] returns the leftmost position at which an attempt succeeds. *)
Lemma search_some r : forall s pre m,
  search r pre s = Some m ->
  exists g, s = g ++ m_text m ++ m_after m /\ m_before m = rev pre ++ g
            /\ attempt r (rev g ++ pre) (m_text m ++ m_after m) = Some m
            /\ forall g1 g2, g = g1 ++ g2 -> g2 <> [] ->
                 attempt r (rev g1 ++ pre) (g2 ++ m_text m ++ m_after m) = None.
Proof.
  induction s as [|c s IH]; intros pre m H; simpl in H.
  - destruct (attempt r pre []) eqn:Ha; [|discriminate]. inversion H; subst.
    destruct (attempt_split _ _ _ _ Ha) as [Hs Hb].
    exists []. simpl. rewrite app_nil_r. repeat split; auto.
    + now rewrite <- Hs.
    + intros g1 g2 Hg Hne. destruct g1; destruct g2; simpl in Hg; congruence.
  - destruct (attempt r pre (c :: s)) eqn:Ha.
    + inversion H; subst. destruct (attempt_split _ _ _ _ Ha) as [Hs Hb].
      exists []. simpl. rewrite app_nil_r. repeat split; auto.
      * now rewrite <- Hs.
      * intros g1 g2 Hg Hne. destruct g1; destruct g2; simpl in Hg; congruence.
    + apply IH in H. destruct H as [g [Hs [Hb [Hat Hnone]]]].
      exists (c :: g). simpl. repeat split.
      * now rewrite Hs.
      * rewrite Hb. simpl. now rewrite <- app_assoc.
      * now rewrite <- app_assoc.
      * intros g1 g2 Hg Hne. destruct g1 as [|c1 g1]; simpl in *.
        -- subst g2. simpl. now rewrite <- Hs.
        -- inversion Hg; subst. rewrite <- app_assoc. simpl. now apply Hnone.
Qed.

Lemma search_none r : forall s pre,
  search r pre s = None ->
  forall g1 g2, s = g1 ++ g2 -> attempt r (rev g1 ++ pre) g2 = None.
Proof.
  induction s as [|c s IH]; intros pre H g1 g2 Hs; simpl in H.
  - destruct g1; destruct g2; try discriminate. simpl.
    now destruct (attempt r pre []).
  - destruct (attempt r pre (c :: s)) eqn:Ha; [discriminate|].
    destruct g1 as [|c1 g1]; simpl in *.
    + now subst.
    + inversion Hs; subst. rewrite <- app_assoc. simpl. now apply IH.
Qed.

(** If an attempt succeeds somewhere, the search finds a match. *)
Lemma search_finds r : forall g pre t,
  attempt r (rev g ++ pre) t <> None -> search r pre (g ++ t) <> None.
Proof.
  induction g as [|c g IH]; intros pre t H; simpl in *.
  - destruct t; simpl; destruct (attempt r pre _); congruence.
  - destruct (attempt r pre (c :: g ++ t)); [congruence|].
    apply IH. now rewrite <- app_assoc in H.
Qed.

Lemma matchG_nonempty r s : search r [] s <> None -> matchG r s <> [].
Proof.
  unfold matchG, matchAll. simpl. destruct (search r [] s); simpl; [discriminate | congruence].
Qed.

Lemma matchG_empty r s : matchG r s = [] <-> search r [] s = None.
Proof.
  unfold matchG, matchAll. simpl. destruct (search r [] s); simpl; split; intros H;
    try discriminate; reflexivity.
Qed.

(** A greedy star over one class runs to the end of the run of that class
    when what follows the star accepts there. *)
Lemma star_greedy_run {R} (p : jchar -> bool) (k : mstate -> option R) tail cps res :
  match tail with [] => True | c :: _ => p c = false end ->
  forall run bef n,
    forallb p run = true -> (length run < n)%nat ->
    k (MState (rev run ++ bef) tail cps) = Some res ->
    starLoop (fun st0 k0 => rmatch (Chr p) st0 k0) true k n (MState bef (run ++ tail) cps)
    = Some res.
Proof.
  intros Htail. induction run as [|c run IH]; intros bef n Hall Hn Hk.
  - destruct n; [lia|]. simpl in *.
    destruct tail as [|c t]; simpl; [exact Hk|]. rewrite Htail. exact Hk.
  - destruct n; [simpl in Hn; lia|]. simpl in Hall. apply andb_true_iff in Hall.
    destruct Hall as [Hc Hall]. cbn [starLoop rmatch rest app before caps]. rewrite Hc.
    cbn [rest length]. replace (length (run ++ tail) <? S (length (run ++ tail)))%nat with true
      by (symmetry; apply Nat.ltb_lt; lia).
    rewrite IH; auto.
    + simpl in Hn. lia.
    + simpl in Hk. now rewrite <- app_assoc in Hk.
Qed.

(** [times n] of a class consumes [n] units of that class. *)
Lemma times_run {R} (p : jchar -> bool) (k : mstate -> option R) :
  forall run bef tail cps,
    forallb p run = true ->
    rmatch (times (length run) (Chr p)) (MState bef (run ++ tail) cps) k
    = k (MState (rev run ++ bef) tail cps).
Proof.
  induction run as [|c run IH]; intros bef tail cps Hall; simpl in *.
  - reflexivity.
  - apply andb_true_iff in Hall. destruct Hall as [Hc Hall]. rewrite Hc.
    rewrite IH; auto. now rewrite <- app_assoc.
Qed.

(** A literal consumes itself. *)
Lemma lit_run {R} (k : mstate -> option R) :
  forall l bef tail cps,
    rmatch (lit l) (MState bef (l ++ tail) cps) k = k (MState (rev l ++ bef) tail cps).
Proof.
  unfold lit. induction l as [|c l IH]; intros bef tail cps; [reflexivity|].
  destruct l as [|d l].
  - simpl. now rewrite N.eqb_refl.
  - change (seqs (map chr (c :: d :: l))) with (Seq (chr c) (seqs (map chr (d :: l)))).
    cbn -[seqs map rev]. rewrite N.eqb_refl.
    change (d :: l ++ tail) with ((d :: l) ++ tail). rewrite IH.
    f_equal. f_equal. simpl. now rewrite <- !app_assoc.
Qed.

(** The equations the proofs below compute with. *)
Lemma rmatch_seq {R} a b st (k : mstate -> option R) :
  rmatch (Seq a b) st k = rmatch a st (fun st' => rmatch b st' k).
Proof. reflexivity. Qed.

Lemma rmatch_chr {R} p bef c s cps (k : mstate -> option R) :
  rmatch (Chr p) (MState bef (c :: s) cps) k
  = if p c then k (MState (c :: bef) s cps) else None.
Proof. reflexivity. Qed.

Lemma rmatch_alt {R} a b st (k : mstate -> option R) :
  rmatch (Alt a b) st k
  = match rmatch a st k with Some x => Some x | None => rmatch b st k end.
Proof. reflexivity. Qed.

Lemma rmatch_eps {R} st (k : mstate -> option R) : rmatch Eps st k = k st.
Proof. reflexivity. Qed.

Lemma rmatch_grp {R} i a st (k : mstate -> option R) :
  rmatch (Grp i a) st k
  = rmatch a st (fun st' => k (MState (before st') (rest st') ((i, consumed st st') :: caps st'))).
Proof. reflexivity. Qed.

Lemma rmatch_look {R} positive a st (k : mstate -> option R) :
  rmatch (Look positive a) st k
  = match rmatch a st (fun _ => Some tt) with
    | Some _ => if positive then k st else None
    | None => if positive then None else k st
    end.
Proof. reflexivity. Qed.

Lemma rmatch_chr_nil {R} p bef cps (k : mstate -> option R) :
  rmatch (Chr p) (MState bef [] cps) k = None.
Proof. reflexivity. Qed.

Lemma rmatch_star_run {R} (p : jchar -> bool) (k : mstate -> option R) run tail bef cps res :
  match tail with [] => True | c :: _ => p c = false end ->
  forallb p run = true ->
  k (MState (rev run ++ bef) tail cps) = Some res ->
  rmatch (Star true (Chr p)) (MState bef (run ++ tail) cps) k = Some res.
Proof.
  intros Htail Hall Hk.
  refine (star_greedy_run p k tail cps res Htail run bef _ Hall _ Hk).
  simpl. rewrite length_app. lia.
Qed.

End RegexFacts.

(** ** Doubles *)

Module DoubleFacts.

Local Open Scope Z_scope.

Lemma two53_pow : two53 = 2 ^ 53.
Proof. reflexivity. Qed.

(** Below [2^53] every integer is a double. *)
Lemma toDouble_small z : Z.abs z < two53 -> toDouble z = z.
Proof. intros H. unfold toDouble. apply Z.ltb_lt in H. now rewrite H. Qed.

Lemma jsAdd_small a b : Z.abs (a + b) < two53 -> jsAdd a b = a + b.
Proof. apply toDouble_small. Qed.

Lemma jsSub_small a b : Z.abs (a - b) < two53 -> jsSub a b = a - b.
Proof. apply toDouble_small. Qed.

(** Rounding keeps a number that is at least 1 at least 1. *)
Lemma toDouble_pos z : 1 <= z -> 1 <= toDouble z.
Proof.
  intros Hz. unfold toDouble. destruct (Z.abs z <? two53) eqn:Hs; [exact Hz|].
  apply Z.ltb_ge in Hs. rewrite Z.abs_eq in * by lia. rewrite Z.sgn_pos by lia.
  rewrite Z.mul_1_l. set (e := Z.log2 z - 52).
  assert (H53 : 53 <= Z.log2 z) by (apply Z.log2_le_pow2; [lia | now rewrite <- two53_pow]).
  assert (He : 0 <= e) by (unfold e; lia).
  assert (Hq : 1 <= Z.shiftr z e).
  { rewrite Z.shiftr_div_pow2 by exact He.
    apply Z.div_le_lower_bound; [apply Z.pow_pos_nonneg; lia|]. rewrite Z.mul_1_r.
    transitivity (2 ^ Z.log2 z); [apply Z.pow_le_mono_r; unfold e; lia|].
    apply Z.log2_spec. lia. }
  set (q := Z.shiftr z e) in *.
  assert (Hp : 1 <= 2 ^ e) by (pose proof (Z.pow_pos_nonneg 2 e); lia).
  assert (Hq' : forall q', q <= q' -> 1 <= Z.shiftl q' e).
  { intros q' Hle. rewrite Z.shiftl_mul_pow2 by exact He. nia. }
  destruct (_ <? _); [apply Hq'; lia|].
  destruct (_ <? _); [apply Hq'; lia|].
  destruct (Z.even q); apply Hq'; lia.
Qed.

Lemma jsAdd_pos a : 0 <= a -> 1 <= jsAdd a 1.
Proof. intros H. apply toDouble_pos. lia. Qed.

End DoubleFacts.

(** Linear arithmetic with the bound [2^53] written out. *)
Ltac lia53 := unfold two53 in *; lia.

(** ** Placeholder tokens *)

Module PlaceholderFacts.
Import RegexFacts.

Lemma attempt_token pre w b :
  w <> [] -> forallb placeholderChar w = true ->
  attempt PLACEHOLDER_RE pre (60%N :: w ++ 62%N :: b) <> None.
Proof.
  intros Hne Hall. destruct w as [|c w]; [congruence|].
  simpl in Hall. apply andb_true_iff in Hall. destruct Hall as [Hc Hall].
  unfold attempt.
  change PLACEHOLDER_RE
    with (Seq (chr 60) (Seq (Seq (Chr placeholderChar) (Star true (Chr placeholderChar)))
                            (chr 62))).
  rewrite rmatch_seq. unfold chr at 1. simpl app. rewrite rmatch_chr.
  change (60 =? 60)%N with true. cbv iota.
  rewrite !rmatch_seq, rmatch_chr, Hc.
  erewrite rmatch_star_run; [discriminate | reflexivity | exact Hall | ].
  unfold chr. rewrite rmatch_chr. change (62 =? 62)%N with true. cbv iota. reflexivity.
Qed.

Lemma trimStart_keeps a c b :
  isWs c = false -> trimStart (a ++ c :: b) = trimStart a ++ c :: b.
Proof.
  intros Hc. induction a as [|x a IH]; simpl.
  - now rewrite Hc.
  - destruct (isWs x); [exact IH | reflexivity].
Qed.

Lemma trim_keeps a c mid d b :
  isWs c = false -> isWs d = false ->
  exists a' b', trim (a ++ c :: mid ++ d :: b) = a' ++ c :: mid ++ d :: b'.
Proof.
  intros Hc Hd. unfold trim, trimEnd. rewrite trimStart_keeps by exact Hc.
  set (a' := trimStart a). exists a', (rev (trimStart (rev b))).
  assert (E1 : rev (a' ++ c :: mid ++ d :: b) = rev b ++ d :: rev (a' ++ c :: mid)).
  { replace (a' ++ c :: mid ++ d :: b) with ((a' ++ c :: mid) ++ d :: b)
      by (rewrite <- app_assoc; reflexivity).
    rewrite rev_app_distr. simpl. now rewrite <- app_assoc. }
  rewrite E1, (trimStart_keeps _ _ _ Hd), rev_app_distr. simpl.
  rewrite rev_involutive, <- !app_assoc. reflexivity.
Qed.

(** Trimming keeps every placeholder token, and a string that holds a token
    has a match of [PLACEHOLDER_RE]. *)
Lemma token_detected s : containsToken s -> matchG PLACEHOLDER_RE (trim s) <> [].
Proof.
  intros [a [t [b [Hs [w [Ht [Hne Hall]]]]]]]. subst s t.
  destruct (trim_keeps a 60%N w 62%N b eq_refl eq_refl) as [a' [b' Htrim]].
  cbn [app]. rewrite <- app_assoc. cbn [app]. rewrite Htrim. apply matchG_nonempty.
  rewrite <- (rev_involutive a').
  apply search_finds. rewrite app_nil_r. now apply attempt_token.
Qed.

End PlaceholderFacts.

(** ** The first check of the writing tools *)

Module ToolFacts.
Import RegexFacts PlaceholderFacts.

Lemma uniq_nonempty xs : xs <> [] -> uniq [] xs <> [].
Proof. destruct xs; [congruence | simpl; discriminate]. Qed.

Lemma create_ticket_rejects E projectId (input : CreateInput) (w : World E) :
  matchG PLACEHOLDER_RE (trim (ci_body_md input)) <> [] ->
  let f := placeholderRejection (u "creation") []
             (uniq [] (matchG PLACEHOLDER_RE (trim (ci_body_md input)))) in
  create_ticket projectId input w
  = (mkWorld E (store w) (accesses w) (toolCalls w ++ [CallCreateTicket input (Fail f)])
             (ticks w),
     Returned (Fail f)).
Proof.
  intros Hne f. unfold create_ticket, bind, tryCatch, createTicketBody.
  destruct (matchG PLACEHOLDER_RE (trim (ci_body_md input))) as [|x xs] eqn:Hm;
    [congruence|].
  reflexivity.
Qed.

Lemma update_ticket_body_rejects E projectId (input : UpdateInput) (w : World E) :
  matchG PLACEHOLDER_RE (trim (ui_body_md input)) <> [] ->
  let f := placeholderRejection (u "update") []
             (uniq [] (matchG PLACEHOLDER_RE (trim (ui_body_md input)))) in
  update_ticket_body projectId input w
  = (mkWorld E (store w) (accesses w) (toolCalls w ++ [CallUpdateTicketBody input (Fail f)])
             (ticks w),
     Returned (Fail f)).
Proof.
  intros Hne f. unfold update_ticket_body, bind, tryCatch, updateTicketBodyBody.
  destruct (matchG PLACEHOLDER_RE (trim (ui_body_md input))) as [|x xs] eqn:Hm;
    [congruence|].
  reflexivity.
Qed.

End ToolFacts.

(** ** Ticket references *)

Module TicketRefFacts.
Import RegexFacts.

(** The body of the negative lookahead of [TICKET_NUMBER_RE] succeeds exactly
    when a digit lies ahead on the line. *)
Lemma look_digit : forall x bef cps,
  rmatch lookDigit (MState bef x cps) (fun _ => Some tt)
  = if digitAhead x then Some tt else None.
Proof.
  unfold lookDigit. induction x as [|c x IH]; intros bef cps.
  - reflexivity.
  - rewrite rmatch_seq.
    change (rmatch (Star true dot) (MState bef (c :: x) cps)
              (fun st' => rmatch digit st' (fun _ => Some tt)))
      with (match rmatch dot (MState bef (c :: x) cps)
                    (fun st' => if (length (rest st') <? length (c :: x))%nat
                                then starLoop (fun st0 k0 => rmatch dot st0 k0) true
                                       (fun st' => rmatch digit st' (fun _ => Some tt))
                                       (length (c :: x)) st'
                                else None)
            with
            | Some r => Some r
            | None => rmatch digit (MState bef (c :: x) cps) (fun _ => Some tt)
            end).
    unfold dot at 1. rewrite rmatch_chr. unfold digit at 2. rewrite rmatch_chr.
    cbn [digitAhead]. destruct (isLineTerminator c) eqn:Hlt; cbn [negb andb].
    + rewrite orb_false_r. now destruct (isDigit c).
    + cbn [rest]. replace (length x <? length (c :: x))%nat with true
        by (symmetry; apply Nat.ltb_lt; simpl; lia).
      change (starLoop (fun st0 k0 => rmatch dot st0 k0) true
                (fun st' => rmatch digit st' (fun _ => Some tt))
                (length (c :: x)) (MState (c :: bef) x cps))
        with (rmatch (Seq (Star true dot) digit) (MState (c :: bef) x cps) (fun _ => Some tt)).
      rewrite IH. destruct (digitAhead x); [now rewrite orb_true_r|].
      rewrite orb_false_r. now destruct (isDigit c).
Qed.


Lemma look_not_digit {R} bef x cps (final : mstate -> option R) :
  rmatch (Look false lookDigit) (MState bef x cps) final
  = if digitAhead x then None else final (MState bef x cps).
Proof.
  rewrite rmatch_look, look_digit. now destruct (digitAhead x).
Qed.

(** [\d{0,n}] fails when what follows it fails after every run of at most
    [n] digits. *)
Lemma upTo_fail {R} (K : mstate -> option R) : forall n bef r cps,
  (forall p rem, r = p ++ rem -> (length p <= n)%nat -> allDigits p = true ->
                 K (MState (rev p ++ bef) rem cps) = None) ->
  rmatch (upTo n digit) (MState bef r cps) K = None.
Proof.
  induction n as [|n IH]; intros bef r cps H.
  - apply (H [] r); auto.
  - change (upTo (S n) digit) with (Alt (Seq digit (upTo n digit)) Eps).
    cbn [rmatch]. fold (@rmatch R).
    assert (H0 : K (MState bef r cps) = None) by (apply (H [] r); auto; simpl; lia).
    destruct r as [|c r]; [exact H0|].
    unfold digit at 1. rewrite rmatch_chr. destruct (isDigit c) eqn:Hc; [|exact H0].
    rewrite IH; [exact H0|].
    intros p rem Hr Hlen Hd. specialize (H (c :: p) rem).
    simpl in H. rewrite <- app_assoc in H. apply H.
    + now rewrite Hr.
    + lia.
    + unfold allDigits in *. simpl. now rewrite Hc.
Qed.

(** [\d{0,n}] takes the whole run of digits when that is accepted. *)
Lemma upTo_take {R} (K : mstate -> option R) res : forall n p bef rem cps,
  allDigits p = true -> (length p <= n)%nat ->
  (length p = n \/ match rem with c :: _ => isDigit c = false | [] => True end) ->
  K (MState (rev p ++ bef) rem cps) = Some res ->
  rmatch (upTo n digit) (MState bef (p ++ rem) cps) K = Some res.
Proof.
  induction n as [|n IH]; intros p bef rem cps Hd Hlen Hend HK.
  - destruct p; [exact HK | simpl in Hlen; lia].
  - change (upTo (S n) digit) with (Alt (Seq digit (upTo n digit)) Eps).
    cbn [rmatch]. fold (@rmatch R).
    destruct p as [|c p].
    + cbn [app rev length] in *. destruct Hend as [Hend|Hend]; [discriminate|].
      destruct rem as [|c rem]; [exact HK|].
      unfold digit at 1. rewrite rmatch_chr, Hend. exact HK.
    + unfold allDigits in Hd. simpl in Hd. apply andb_true_iff in Hd. destruct Hd as [Hc Hd].
      simpl app. unfold digit at 1. rewrite rmatch_chr, Hc.
      rewrite (IH p); auto.
      * simpl in Hlen. lia.
      * destruct Hend as [Hend|Hend]; [left; simpl in Hend; lia | now right].
      * simpl in HK. now rewrite <- app_assoc in HK.
Qed.

Lemma consumed_run bef p rem cps bef' cps' :
  consumed (MState bef (p ++ rem) cps) (MState bef' rem cps') = p.
Proof.
  unfold consumed. cbn [rest]. rewrite length_app, Nat.add_sub, firstn_app, Nat.sub_diag.
  rewrite firstn_all. simpl. apply app_nil_r.
Qed.

(** No attempt succeeds where every run of one to four digits leaves a digit
    ahead on the line. *)
Lemma attempt_ref_fail pre r :
  (forall p rem, r = p ++ rem -> (1 <= length p <= 4)%nat -> allDigits p = true ->
                 digitAhead rem = true) ->
  attempt TICKET_NUMBER_RE pre r = None.
Proof.
  intros H. unfold attempt, TICKET_NUMBER_RE.
  rewrite rmatch_seq, rmatch_grp.
  change (range 1 4 digit) with (Seq (Seq digit Eps) (upTo 3 digit)).
  rewrite !rmatch_seq. destruct r as [|c r]; [reflexivity|].
  unfold digit at 1. rewrite rmatch_chr. destruct (isDigit c) eqn:Hc; [|reflexivity].
  rewrite rmatch_eps.
  apply upTo_fail. intros p rem Hr Hlen Hd.
  cbn [before rest caps]. fold lookDigit.
  rewrite (look_not_digit (rev p ++ [c] ++ pre) rem).
  rewrite (H (c :: p) rem); auto.
  - simpl. now rewrite Hr.
  - simpl. lia.
  - unfold allDigits in *. simpl. now rewrite Hc.
Qed.

(** An attempt at a run of one to four digits with no digit ahead on the
    line after it captures the run. *)
Lemma attempt_ref_ok pre d t :
  allDigits d = true -> (1 <= length d <= 4)%nat -> digitAhead t = false ->
  attempt TICKET_NUMBER_RE pre (d ++ t) = Some (RMatch (rev pre) d t [(1%nat, d)]).
Proof.
  intros Hd Hlen Ht. unfold attempt, TICKET_NUMBER_RE.
  rewrite rmatch_seq, rmatch_grp.
  change (range 1 4 digit) with (Seq (Seq digit Eps) (upTo 3 digit)).
  rewrite !rmatch_seq. destruct d as [|c d]; [simpl in Hlen; lia|].
  unfold allDigits in Hd. simpl in Hd. apply andb_true_iff in Hd. destruct Hd as [Hc Hd].
  simpl app. unfold digit at 1. rewrite rmatch_chr, Hc.
  rewrite rmatch_eps.
  apply upTo_take; auto.
  - simpl in Hlen. lia.
  - right. destruct t as [|x t]; [exact I|]. simpl in Ht.
    apply orb_false_iff in Ht. tauto.
  - cbn [before rest caps]. fold lookDigit.
    rewrite (look_not_digit (rev d ++ [c] ++ pre) t), Ht.
    cbn [rest caps].
    change (c :: d ++ t) with ((c :: d) ++ t).
    rewrite consumed_run.
    rewrite length_app, Nat.add_sub, firstn_app, Nat.sub_diag, firstn_all.
    simpl. now rewrite app_nil_r.
Qed.

Lemma digitAhead_reach l c y :
  singleLine l = true -> isDigit c = true -> digitAhead (l ++ c :: y) = true.
Proof.
  intros Hl Hc. induction l as [|x l IH]; simpl.
  - now rewrite Hc.
  - unfold singleLine in Hl. simpl in Hl. apply andb_true_iff in Hl. destruct Hl as [Hx Hl].
    rewrite Hx, IH by exact Hl. simpl. apply orb_true_r.
Qed.

Lemma noDigit_ahead t : noDigit t = true -> digitAhead t = false.
Proof.
  induction t as [|c t IH]; intros H; [reflexivity|]. unfold noDigit in H. simpl in H.
  apply andb_true_iff in H. destruct H as [Hc Ht]. simpl. rewrite (IH Ht).
  destruct (isDigit c); [discriminate|]. simpl. apply andb_false_r.
Qed.

Lemma forallb_app_l {A} (f : A -> bool) x y : forallb f (x ++ y) = true -> forallb f x = true.
Proof. rewrite forallb_app. intros H. apply andb_true_iff in H. tauto. Qed.

Lemma forallb_app_r {A} (f : A -> bool) x y : forallb f (x ++ y) = true -> forallb f y = true.
Proof. rewrite forallb_app. intros H. apply andb_true_iff in H. tauto. Qed.

(** The search skips a stretch of input on which every attempt fails. *)
Lemma search_skip r : forall a pre tail,
  (forall g1 g2, a = g1 ++ g2 -> g2 <> [] -> attempt r (rev g1 ++ pre) (g2 ++ tail) = None) ->
  search r pre (a ++ tail) = search r (rev a ++ pre) tail.
Proof.
  induction a as [|c a IH]; intros pre tail H; [reflexivity|].
  simpl app. cbn [search].
  assert (H1 : attempt r pre (c :: a ++ tail) = None)
    by (apply (H [] (c :: a) eq_refl); discriminate).
  rewrite H1, IH.
  - simpl. now rewrite <- app_assoc.
  - intros g1 g2 Ha Hne. specialize (H (c :: g1) g2). simpl in H.
    rewrite <- app_assoc in H. apply H; [now rewrite Ha | exact Hne].
Qed.

Lemma search_hit r pre s m : attempt r pre s = Some m -> search r pre s = Some m.
Proof. intros H. destruct s; simpl; now rewrite H. Qed.

Lemma search_miss r : forall s pre,
  (forall g1 g2, s = g1 ++ g2 -> attempt r (rev g1 ++ pre) g2 = None) ->
  search r pre s = None.
Proof.
  induction s as [|c s IH]; intros pre H.
  - simpl. pose proof (H [] [] eq_refl) as H1. simpl in H1. now rewrite H1.
  - cbn [search]. pose proof (H [] (c :: s) eq_refl) as H1. simpl in H1. rewrite H1. apply IH.
    intros g1 g2 Hs. specialize (H (c :: g1) g2). simpl in H.
    rewrite <- app_assoc in H. apply H. now rewrite Hs.
Qed.

(** The reference regex on one line: the match is the last run of digits,
    cut to its last four. *)
Lemma exec_last_run a d t :
  singleLine a = true -> allDigits d = true -> (1 <= length d <= 4)%nat ->
  noDigit t = true -> (length d = 4%nat \/ endsWithoutDigit a = true) ->
  exec TICKET_NUMBER_RE (a ++ d ++ t) = Some (RMatch a d t [(1%nat, d)]).
Proof.
  intros Ha Hd Hlen Ht Hend. unfold exec.
  rewrite search_skip.
  - rewrite app_nil_r. erewrite search_hit; [|apply attempt_ref_ok; auto using noDigit_ahead].
    now rewrite rev_involutive.
  - intros g1 g2 Hsplit Hne. apply attempt_ref_fail.
    intros p rem Hr Hp Hpd.
    destruct d as [|d0 d']; [simpl in Hlen; lia|].
    assert (Hd0 : isDigit d0 = true).
    { unfold allDigits in Hd. simpl in Hd. apply andb_true_iff in Hd. tauto. }
    apply app_eq_app in Hr. destruct Hr as [l [[Hg Hrem]|[Hpp Hrem]]].
    + (* the run ends inside [a] *)
      subst rem. change (l ++ (d0 :: d') ++ t) with (l ++ d0 :: (d' ++ t)).
      apply digitAhead_reach; auto.
      subst a. apply forallb_app_r in Ha. rewrite Hg in Ha.
      now apply forallb_app_r in Ha.
    + (* the run reaches into [d] *)
      subst p. assert (Hg2 : allDigits g2 = true) by (now apply forallb_app_l in Hpd).
      assert (Hlast : endsWithoutDigit a = false).
      { subst a. unfold endsWithoutDigit. rewrite rev_app_distr.
        destruct (rev g2) as [|x rg] eqn:Hrev.
        - apply (f_equal (@rev N)) in Hrev. rewrite rev_involutive in Hrev. now subst g2.
        - simpl. assert (Hin : In x g2) by (apply in_rev; rewrite Hrev; now left).
          unfold allDigits in Hg2. rewrite forallb_forall in Hg2. now rewrite (Hg2 x Hin). }
      destruct Hend as [Hend|Hend]; [|congruence].
      assert (Hl : (length l < length (d0 :: d'))%nat).
      { rewrite length_app in Hp. destruct g2; [congruence|]. simpl in Hp. lia. }
      apply app_eq_app in Hrem.
      destruct Hrem as [l' [[Hdd Hrem]|[Hll Hrem]]].
      * subst rem. destruct l' as [|y l'].
        -- rewrite app_nil_r in Hdd. rewrite Hdd in Hl. lia.
        -- simpl. assert (Hy : isDigit y = true).
           { unfold allDigits in Hd. rewrite Hdd in Hd. apply forallb_app_r in Hd.
             simpl in Hd. apply andb_true_iff in Hd. tauto. }
           now rewrite Hy.
      * rewrite Hll, length_app in Hl. lia.
Qed.

Lemma exec_no_digit s : noDigit s = true -> exec TICKET_NUMBER_RE s = None.
Proof.
  intros H. unfold exec. apply search_miss. intros g1 g2 Hs.
  apply attempt_ref_fail. intros p rem Hg Hp Hpd. exfalso.
  subst s g2. apply forallb_app_r in H. apply forallb_app_l in H.
  destruct p as [|c p]; [simpl in Hp; lia|].
  unfold allDigits in Hpd. simpl in *. apply andb_true_iff in H. apply andb_true_iff in Hpd.
  destruct H as [H _]. destruct Hpd as [Hc _]. rewrite Hc in H. discriminate.
Qed.

Lemma trimStart_suffix s : exists x, s = x ++ trimStart s.
Proof.
  induction s as [|c s [x IH]]; [now exists []|]. simpl. destruct (isWs c).
  - exists (c :: x). simpl. now rewrite <- IH.
  - now exists [].
Qed.

Lemma trim_infix s : exists x y, s = x ++ trim s ++ y.
Proof.
  unfold trim, trimEnd. destruct (trimStart_suffix s) as [x Hx].
  destruct (trimStart_suffix (rev (trimStart s))) as [y Hy].
  exists x, (rev y). rewrite <- rev_app_distr, <- Hy, rev_involutive. exact Hx.
Qed.

Lemma noDigit_trim s : noDigit s = true -> noDigit (trim s) = true.
Proof.
  intros H. destruct (trim_infix s) as [x [y Hs]]. rewrite Hs in H.
  apply forallb_app_r in H. now apply forallb_app_l in H.
Qed.

Lemma parse_no_digit ref : noDigit ref = true -> parseTicketNumber ref = None.
Proof.
  intros H. unfold parseTicketNumber. destruct (trim ref) eqn:Ht; [reflexivity|].
  rewrite <- Ht. rewrite exec_no_digit; [reflexivity | now apply noDigit_trim].
Qed.

Lemma parse_last_run ref a d t :
  trim ref = a ++ d ++ t ->
  singleLine a = true -> allDigits d = true -> (1 <= length d <= 4)%nat ->
  noDigit t = true -> (length d = 4%nat \/ endsWithoutDigit a = true) ->
  parseTicketNumber ref = Some (parseDigits d).
Proof.
  intros Hs Ha Hd Hlen Ht Hend. unfold parseTicketNumber. rewrite Hs.
  rewrite exec_last_run by assumption. cbn [group m_caps find fst snd Nat.eqb].
  destruct (a ++ d ++ t) eqn:He; [|reflexivity].
  apply app_eq_nil in He. destruct He as [_ He]. apply app_eq_nil in He.
  destruct He as [He _]. subst d. simpl in Hlen. lia.
Qed.

End TicketRefFacts.

(** ** Tool runs *)

Module MonadFacts.

Lemma wrapped_returned {E A} (body : M E (Result A)) (rec : Result A -> ToolCallRecord)
    (w w1 : World E) (out : Result A) :
  body w = (w1, Returned out) ->
  bind (tryCatch body (fun msg => ret (failWith msg)))
       (fun out => bind (push (rec out)) (fun _ => ret out)) w
  = (pushed w1 (rec out), Returned out).
Proof. intros H. unfold bind, tryCatch. now rewrite H. Qed.

Lemma wrapped_thrown {E A} (body : M E (Result A)) (rec : Result A -> ToolCallRecord)
    (w w1 : World E) (msg : jstring) :
  body w = (w1, Thrown msg) ->
  bind (tryCatch body (fun msg => ret (failWith msg)))
       (fun out => bind (push (rec out)) (fun _ => ret out)) w
  = (pushed w1 (rec (failWith msg)), Returned (failWith msg)).
Proof. intros H. unfold bind, tryCatch. now rewrite H. Qed.

Lemma onlyReads_refl {E} (w : World E) : onlyReads w w.
Proof. repeat split. Qed.

Lemma onlyReads_logged {E} (w w' : World E) a :
  onlyReads w w' -> isWrite a = false -> onlyReads w (logged a w').
Proof.
  intros [H1 [H2 [H3 H4]]] Ha. repeat split; simpl; auto.
  rewrite filter_app. simpl. rewrite Ha. now rewrite app_nil_r.
Qed.

Lemma wrapped_ok_inv {E A} (body : M E (Result A)) (rec : Result A -> ToolCallRecord)
    (w w' : World E) (a : A) :
  bind (tryCatch body (fun msg => ret (failWith msg)))
       (fun out => bind (push (rec out)) (fun _ => ret out)) w
  = (w', Returned (Ok a)) ->
  exists w1, body w = (w1, Returned (Ok a)).
Proof.
  unfold bind, tryCatch. destruct (body w) as [w1 [out|msg]]; simpl; intros H.
  - inversion H; subst. now exists w1.
  - inversion H.
Qed.

(** The row lookup only reads. *)
Lemma lookupRow_reads {E} sc lc repo n id (w : World E) :
  onlyReads w (fst (lookupRow sc lc repo n id w)).
Proof.
  unfold lookupRow. destruct (nonEmpty repo).
  - unfold bind, maybeSingle.
    destruct (selectMaybeSingle E (store w) (scopedRowQuery sc repo n)) as [r|msg] eqn:H1.
    + destruct (error r) as [e|].
      * destruct (isUnknownColumnError e); simpl;
          repeat apply onlyReads_logged; auto using onlyReads_refl.
      * simpl. apply onlyReads_logged; auto using onlyReads_refl.
    + simpl. apply onlyReads_logged; auto using onlyReads_refl.
  - unfold maybeSingle. simpl. apply onlyReads_logged; auto using onlyReads_refl.
Qed.

End MonadFacts.

Lemma mem_healthy : healthy Mem.env.
Proof.
  split.
  - intros s q. eexists. reflexivity.
  - intros s patch filters. eexists. reflexivity.
Qed.

(** ** The move tools *)

Module MoveFacts.
Import MonadFacts.

Lemma move_body_rejects {E} projectId ticket_id (w w1 : World E) row :
  noTicketNumber (parseTicketNumber ticket_id) = false ->
  lookupRow todoCols todoLegacyCols (projectRepo projectId [])
            (numberOf (parseTicketNumber ticket_id)) (normalizedIdOf (parseTicketNumber ticket_id)) w
  = (w1, Returned (mkResp (Some row) None)) ->
  inUnassigned (Row.kanban_column_id row) = false ->
  kanbanMoveTicketToTodoBody projectId ticket_id w
  = (w1, Returned (failWith (notInUnassigned (Row.kanban_column_id row)))).
Proof.
  intros Hn Hl Hc. unfold kanbanMoveTicketToTodoBody. rewrite Hn.
  unfold bind at 1. unfold todoCols, todoLegacyCols in Hl. rewrite Hl.
  cbn [error data]. rewrite Hc. reflexivity.
Qed.

Lemma move_body_ok_inv {E} projectId ticket_id (w w' : World E) ms :
  kanbanMoveTicketToTodoBody projectId ticket_id w = (w', Returned (Ok ms)) ->
  exists w1 row,
    lookupRow todoCols todoLegacyCols (projectRepo projectId [])
              (numberOf (parseTicketNumber ticket_id))
              (normalizedIdOf (parseTicketNumber ticket_id)) w
    = (w1, Returned (mkResp (Some row) None))
    /\ inUnassigned (Row.kanban_column_id row) = true.
Proof.
  unfold kanbanMoveTicketToTodoBody, todoCols, todoLegacyCols.
  destruct (noTicketNumber (parseTicketNumber ticket_id)); [discriminate|].
  unfold bind at 1.
  destruct (lookupRow _ _ _ _ _ w) as [w1 [r|msg]]; [|discriminate].
  destruct r as [[row|] [e|]]; cbn [error data]; try discriminate.
  destruct (inUnassigned (Row.kanban_column_id row)) eqn:Hc; [|discriminate].
  intros _. now exists w1, row.
Qed.


Ltac answer Hsel :=
  match goal with
  | |- context [selectRows ?E ?s ?q] =>
      let rows := fresh "rows" in
      let Hq := fresh "Hq" in
      destruct (Hsel s q) as [rows Hq]; rewrite Hq; cbn [error data orNil store logged]
  end.

Lemma other_body_ok {E} projectId input (w w1 : World E) row :
  healthy E ->
  noTicketNumber (parseTicketNumber (mi_ticket_id input)) = false ->
  nonEmpty (trim (mi_target_repo_full_name input)) = true ->
  includes (u "/") (trim (mi_target_repo_full_name input)) = true ->
  lookupRow otherCols (otherLegacyCols (projectRepo projectId [])) (projectRepo projectId [])
            (numberOf (parseTicketNumber (mi_ticket_id input)))
            (normalizedIdOf (parseTicketNumber (mi_ticket_id input))) w
  = (w1, Returned (mkResp (Some row) None)) ->
  exists w' mo patch filters,
    kanbanMoveTicketToOtherRepoTodoBody projectId input w = (w', Returned (Ok mo))
    /\ mo_fromColumn mo = strOr (Row.kanban_column_id row) COL_UNASSIGNED
    /\ mo_toColumn mo = COL_TODO
    /\ mo_toRepo mo = trim (mi_target_repo_full_name input)
    /\ last (accesses w') (ASelect (todoTopQuery None)) = AUpdate patch filters
    /\ Row.kanban_column_id patch = Some COL_TODO
    /\ Row.repo_full_name patch = Some (trim (mi_target_repo_full_name input))
    /\ filters = rowFilter row (normalizedIdOf (parseTicketNumber (mi_ticket_id input))).
Proof.
  intros [Hsel Hupd] Hn Hne Hinc Hl.
  unfold kanbanMoveTicketToOtherRepoTodoBody. rewrite Hn, Hne, Hinc. cbn [negb orb].
  unfold bind at 1. unfold otherCols, otherLegacyCols in Hl. rewrite Hl. cbn [error data].
  unfold bind at 1. unfold select at 1. answer Hsel.
  unfold bind at 1. unfold select at 1. answer Hsel.
  assert (Hnext : exists nn : Z,
            match rows0 with
            | top :: _ => match Row.ticket_number top with
                          | Some maxN => Ok (jsAdd maxN 1)
                          | None => Ok (numberOf (parseTicketNumber (mi_ticket_id input)))
                          end
            | [] => Ok (numberOf (parseTicketNumber (mi_ticket_id input)))
            end = Ok nn).
  { destruct rows0 as [|top ?]; [eauto|]. destruct (Row.ticket_number top); eauto. }
  destruct Hnext as [nn Hnn]. rewrite Hnn.
  unfold bind at 1. unfold todoRows. unfold bind at 1. unfold select at 1. answer Hsel.
  unfold ret at 1. unfold bind at 1. unfold now at 1. cbn [store accesses toolCalls ticks].
  unfold bind at 1. unfold update at 1. cbn [store accesses toolCalls ticks].
  match goal with
  | |- context [updateRows ?E ?s ?p ?f] => destruct (Hupd s p f) as [s' Hu]; rewrite Hu
  end.
  cbn [ret]. unfold ret.
  do 4 eexists. split; [reflexivity|].
  cbn [mo_fromColumn mo_toColumn mo_toRepo accesses].
  repeat split; rewrite ?last_last; reflexivity.
Qed.

End MoveFacts.

(** ** References that cannot be parsed *)

Module RejectFacts.
Import MonadFacts.

Lemma fetch_unparsable {E} projectId ref (w : World E) :
  noTicketNumber (parseTicketNumber ref) = true ->
  fetch_ticket_content projectId ref w
  = (pushed w (CallFetchTicketContent ref (failWith (couldNotParse ref))),
     Returned (failWith (couldNotParse ref))).
Proof.
  intros H. unfold fetch_ticket_content. apply wrapped_returned.
  unfold fetchTicketContentBody. now rewrite H.
Qed.

Lemma move_unparsable {E} projectId ref (w : World E) :
  noTicketNumber (parseTicketNumber ref) = true ->
  kanban_move_ticket_to_todo projectId ref w
  = (pushed w (CallKanbanMoveTicketToTodo ref (failWith (couldNotParse ref))),
     Returned (failWith (couldNotParse ref))).
Proof.
  intros H. unfold kanban_move_ticket_to_todo. apply wrapped_returned.
  unfold kanbanMoveTicketToTodoBody. now rewrite H.
Qed.

Lemma move_other_unparsable {E} projectId input (w : World E) :
  noTicketNumber (parseTicketNumber (mi_ticket_id input)) = true ->
  kanban_move_ticket_to_other_repo_todo projectId input w
  = (pushed w (CallKanbanMoveTicketToOtherRepoTodo input
                 (failWith (couldNotParse (mi_ticket_id input)))),
     Returned (failWith (couldNotParse (mi_ticket_id input)))).
Proof.
  intros H. unfold kanban_move_ticket_to_other_repo_todo. apply wrapped_returned.
  unfold kanbanMoveTicketToOtherRepoTodoBody. now rewrite H.
Qed.

Lemma update_unparsable {E} projectId input (w : World E) :
  noTicketNumber (parseTicketNumber (ui_ticket_id input)) = true ->
  matchG PLACEHOLDER_RE (trim (ui_body_md input)) = [] ->
  update_ticket_body projectId input w
  = (pushed w (CallUpdateTicketBody input (failWith (couldNotParse (ui_ticket_id input)))),
     Returned (failWith (couldNotParse (ui_ticket_id input)))).
Proof.
  intros H Hb. unfold update_ticket_body. apply wrapped_returned.
  unfold updateTicketBodyBody. now rewrite Hb, H.
Qed.

Lemma refersTo_parse ref n : refersTo ref n -> parseTicketNumber ref = n.
Proof.
  intros [[Hnd Hn]|[d [[a [t [Hs [Ha [Hd [Hlen [Ht Hend]]]]]]] Hn]]]; subst n.
  - now apply TicketRefFacts.parse_no_digit.
  - eapply TicketRefFacts.parse_last_run; eauto.
Qed.

End RejectFacts.

(** ** The conversation section *)

Module ContextFacts.
Import Context.

Lemma lineLen_pos t : (12 <= lineLen t)%Z.
Proof. unfold lineLen, len. lia. Qed.

(** The loop takes turns off the front of [older] for as long as the budget
    allows, and always takes one when it starts with nothing. *)
Lemma takeRecent_spec maxChars : forall older l recent,
  l = sumLen recent ->
  (recent = [] \/ (sumLen recent <= maxChars)%Z \/ length recent = 1%nat) ->
  exists taken rest,
    older = taken ++ rest
    /\ takeRecent older maxChars l recent = rev taken ++ recent
    /\ (rev taken ++ recent = [] \/ (sumLen (rev taken ++ recent) <= maxChars)%Z
        \/ length (rev taken ++ recent) = 1%nat)
    /\ (forall d rest', rest = d :: rest' ->
          (sumLen (rev taken ++ recent) + lineLen d > maxChars)%Z
          /\ rev taken ++ recent <> []).
Proof.
  induction older as [|t older IH]; intros l recent Hl Hinv.
  - exists [], []. simpl. split; [reflexivity|]. split; [reflexivity|]. split; [exact Hinv|].
    intros d rest' H. discriminate.
  - simpl. destruct ((l + lineLen t >? maxChars)%Z && (0 <? length recent)%nat) eqn:Hc.
    + exists [], (t :: older). simpl. split; [reflexivity|]. split; [reflexivity|].
      split; [exact Hinv|].
      intros d rest' H. inversion H; subst.
      apply andb_true_iff in Hc. destruct Hc as [H1 H2].
      apply Z.gtb_lt in H1. apply Nat.ltb_lt in H2. split; [lia|].
      destruct recent; [simpl in H2; lia | discriminate].
    + destruct (IH (l + lineLen t)%Z (t :: recent)) as [taken [rest [Ho [Ht [Hi Hm]]]]].
      * simpl. lia.
      * apply andb_false_iff in Hc. destruct Hc as [Hc|Hc].
        -- right. left. simpl. rewrite Z.gtb_ltb, Z.ltb_ge in Hc. lia.
        -- rewrite Nat.ltb_ge in Hc. destruct recent; [|simpl in Hc; lia].
           right. right. reflexivity.
      * exists (t :: taken), rest. simpl. rewrite <- !app_assoc. simpl.
        split; [now rewrite Ho|]. split; [exact Ht|]. split; [exact Hi | exact Hm].
Qed.

Lemma join_render_len : forall recent,
  (len (join [nl; nl] (map renderTurn recent)) <= sumLen recent)%Z.
Proof.
  assert (Hr : forall t, (len (renderTurn t) + 6 = lineLen t)%Z).
  { intros t. unfold renderTurn, lineLen, len. rewrite !length_app. simpl length. lia. }
  induction recent as [|t recent IH]; [simpl; unfold len; simpl; lia|].
  destruct recent as [|t2 recent].
  - simpl. specialize (Hr t). lia.
  - change (map renderTurn (t :: t2 :: recent))
      with (renderTurn t :: map renderTurn (t2 :: recent)).
    change (join [nl; nl] (renderTurn t :: map renderTurn (t2 :: recent)))
      with (renderTurn t ++ [nl; nl] ++ join [nl; nl] (map renderTurn (t2 :: recent))).
    unfold len in *. rewrite !length_app. simpl length at 2.
    specialize (Hr t). unfold len in Hr.
    change (sumLen (t :: t2 :: recent)) with (lineLen t + sumLen (t2 :: recent))%Z. lia.
Qed.

End ContextFacts.

(** ** The fallback reply *)

Module FallbackFacts.
Import Fallback.

Lemma find_first {A} (p : A -> bool) l1 c l2 :
  p c = true -> (forall x, In x l1 -> p x = false) -> find p (l1 ++ c :: l2) = Some c.
Proof.
  intros Hc Hl. induction l1 as [|x l1 IH]; simpl.
  - now rewrite Hc.
  - rewrite (Hl x) by now left. apply IH. intros y Hy. apply Hl. now right.
Qed.

Lemma find_absent {A} (p : A -> bool) l :
  (forall x, In x l -> p x = false) -> find p l = None.
Proof.
  intros Hl. induction l as [|x l IH]; simpl; [reflexivity|].
  rewrite (Hl x) by now left. apply IH. intros y Hy. apply Hl. now right.
Qed.

Lemma firstFound_skip (earlier later : list (ToolCallRecord -> bool)) toolCalls :
  (forall p, In p earlier -> forall c, In c toolCalls -> p c = false) ->
  firstFound (earlier ++ later) toolCalls = firstFound later toolCalls.
Proof.
  intros H. induction earlier as [|p earlier IH]; simpl; [reflexivity|].
  rewrite find_absent.
  - apply IH. intros q Hq. apply H. now right.
  - intros c Hc. apply (H p); [now left | exact Hc].
Qed.

(** The test the chain makes for a kind. *)
Definition testOf (k : OutcomeKind) : ToolCallRecord -> bool :=
  match k with
  | RejectedCreation => isCreateRejected
  | RejectedUpdate => isUpdateRejected
  | Created => isCreateOk
  | MovedToTodo => isMoveOk
  | BodyUpdated => isUpdateOk
  | Synced => isSyncOk
  | ColumnListed => isListOk
  | ReposListed => isReposOk
  | MovedToOtherRepo => isMoveOtherOk
  end.

Definition kinds : list OutcomeKind :=
  [ RejectedCreation; RejectedUpdate; Created; MovedToTodo; BodyUpdated; Synced;
    ColumnListed; ReposListed; MovedToOtherRepo ].

Lemma testOf_kind k c : testOf k c = true <-> kindOf c = Some k.
Proof.
  destruct c as [? ?|? ?|? ? ?|? [?|f]|? ?|? ?|? [?|f]|[?|?]|? [?|?]|? [?|?]|[?|?]|? [?|?]];
    try destruct (f_detectedPlaceholders f) eqn:Hd;
    destruct k; cbn; try rewrite Hd; split; intros H; try reflexivity; discriminate H.
Qed.

(** The chain is the list of the tests in the order of the ranks. *)
Lemma chain_split k :
  chain = map testOf (filter (fun k' => (rank k' <? rank k)%nat) kinds)
          ++ testOf k :: map testOf (filter (fun k' => (rank k <? rank k')%nat) kinds).
Proof. destruct k; reflexivity. Qed.

Lemma chain_kinds : chain = map testOf kinds.
Proof. reflexivity. Qed.

(** With no record of a kind looked for earlier, the earliest record of the
    kind [k] decides. *)
Lemma firstFound_kind toolCalls l1 c l2 k :
  toolCalls = l1 ++ c :: l2 ->
  kindOf c = Some k ->
  (forall x, In x l1 -> kindOf x <> Some k) ->
  (forall x k', In x toolCalls -> kindOf x = Some k' -> (rank k <= rank k')%nat) ->
  firstFound chain toolCalls = Some c.
Proof.
  intros Hcalls Hc Hl1 Hrank.
  rewrite (chain_split k), firstFound_skip.
  - cbn [firstFound]. rewrite Hcalls, find_first; [reflexivity | now apply testOf_kind |].
    intros x Hx. destruct (testOf k x) eqn:Ht; [|reflexivity].
    apply testOf_kind in Ht. now apply Hl1 in Hx.
  - intros p Hp x Hx. apply in_map_iff in Hp. destruct Hp as [k' [<- Hk']].
    apply filter_In in Hk'. destruct Hk' as [_ Hlt]. apply Nat.ltb_lt in Hlt.
    destruct (testOf k' x) eqn:Ht; [|reflexivity].
    apply testOf_kind in Ht. specialize (Hrank x k' Hx Ht). lia.
Qed.

Lemma firstFound_none toolCalls :
  (forall x, In x toolCalls -> kindOf x = None) -> firstFound chain toolCalls = None.
Proof.
  intros Hnone. rewrite <- (app_nil_r chain), firstFound_skip; [reflexivity|].
  intros p Hp x Hx. rewrite chain_kinds in Hp. apply in_map_iff in Hp.
  destruct Hp as [k [<- _]]. destruct (testOf k x) eqn:Ht; [|reflexivity].
  apply testOf_kind in Ht. rewrite (Hnone x Hx) in Ht. discriminate Ht.
Qed.

End FallbackFacts.

(** ** Redaction *)

Module RedactFacts.
Import RegexFacts.

Lemma expand_plain n m : forall tpl, forallb (fun c => negb (N.eqb c 36)) tpl = true ->
  expand n m tpl = tpl.
Proof.
  induction tpl as [|c t IH]; intros H; [reflexivity|].
  simpl in H. apply andb_true_iff in H. destruct H as [Hc Ht].
  simpl. rewrite Hc. now rewrite IH.
Qed.

Lemma split_at_char k x c y :
  k <> [] -> ~ In c k -> Substr k (x ++ c :: y) -> Substr k x \/ Substr k y.
Proof.
  intros Hk Hc [a [b H]]. apply app_eq_app in H.
  destruct H as [l [[Hx Hkb]|[Ha Hcy]]].
  - symmetry in Hkb. apply app_eq_app in Hkb.
    destruct Hkb as [l' [[Hl Hb]|[Hkk Hcy]]].
    + left. exists a, l'. now rewrite Hx, Hl.
    + destruct l' as [|c' l'].
      * left. exists a, []. rewrite Hx. rewrite app_nil_r in Hkk. subst. now rewrite app_nil_r.
      * simpl in Hcy. inversion Hcy; subst. exfalso. apply Hc. apply in_or_app. right. now left.
  - destruct l as [|c' l].
    + simpl in Hcy. destruct k as [|k0 k]; [congruence|]. simpl in Hcy. inversion Hcy; subst.
      exfalso. apply Hc. now left.
    + simpl in Hcy. inversion Hcy; subst. right. now exists l, b.
Qed.

Lemma Substr_app_r k s t : Substr k s -> Substr k (s ++ t).
Proof. intros [x [y H]]. exists x, (y ++ t). rewrite H. now rewrite <- !app_assoc. Qed.

Lemma Substr_app_l k s t : Substr k s -> Substr k (t ++ s).
Proof. intros [x [y H]]. exists (t ++ x), y. rewrite H. now rewrite <- !app_assoc. Qed.

Lemma Substr_nil k : k <> [] -> ~ Substr k [].
Proof.
  intros Hk [x [y H]]. symmetry in H. apply app_eq_nil in H. destruct H as [_ H].
  apply app_eq_nil in H. tauto.
Qed.

Lemma skipn_rev_app (pre g : jstring) : skipn (length pre) (rev pre ++ g) = g.
Proof.
  rewrite skipn_app, length_rev, Nat.sub_diag. simpl.
  rewrite skipn_all2 by (rewrite length_rev; lia). reflexivity.
Qed.

Lemma REDACTED_eq : Redact.REDACTED = 91%N :: redactedWord ++ [93%N].
Proof. reflexivity. Qed.

(** A replacement by the placeholder brings in no occurrence of a string
    that has no bracket and does not occur within the placeholder's word. *)
Lemma replaceFrom_brings_nothing r k :
  k <> [] -> ~ In 91%N k -> ~ In 93%N k -> ~ Substr k redactedWord ->
  forall fuel pre s p,
    Substr k (p ++ replaceFrom fuel 0 r Redact.REDACTED pre s) -> Substr k (p ++ s).
Proof.
  intros Hk H91 H93 Hword. induction fuel as [|f IH]; intros pre s p H; [exact H|].
  cbn [replaceFrom] in H. destruct (search r pre s) as [m|] eqn:Hs; [|exact H].
  destruct (search_some _ _ _ _ Hs) as [g [Hsplit [Hb _]]].
  rewrite Hb, skipn_rev_app in H.
  rewrite expand_plain in H by reflexivity.
  rewrite REDACTED_eq in H.
  set (tailOut := match m_text m with
                  | [] => match m_after m with
                          | [] => []
                          | c :: t => c :: replaceFrom f 0 r (91%N :: redactedWord ++ [93%N])
                                             (c :: rev (rev pre ++ g)) t
                          end
                  | _ :: _ => replaceFrom f 0 r (91%N :: redactedWord ++ [93%N])
                                (rev (m_text m) ++ rev (rev pre ++ g)) (m_after m)
                  end) in *.
  assert (Htail : Substr k tailOut -> Substr k (m_text m ++ m_after m)).
  { subst tailOut. rewrite <- REDACTED_eq. destruct (m_text m) as [|c0 mt].
    - destruct (m_after m) as [|c t]; [intros Hn; now apply Substr_nil in Hn|].
      intros Hn. apply (IH _ _ [c]) in Hn. exact Hn.
    - intros Hn. apply (IH _ _ []) in Hn. simpl in Hn. now apply Substr_app_l. }
  replace (p ++ g ++ (91%N :: redactedWord ++ [93%N]) ++ tailOut)
    with ((p ++ g) ++ 91%N :: (redactedWord ++ 93%N :: tailOut)) in H
    by (rewrite <- ?app_assoc; cbn [app]; rewrite <- ?app_assoc; cbn [app]; reflexivity).
  apply split_at_char in H; auto. destruct H as [H|H].
  - rewrite Hsplit, app_assoc. now apply Substr_app_r.
  - apply split_at_char in H; auto. destruct H as [H|H]; [contradiction|].
    rewrite Hsplit. apply Substr_app_l. apply Substr_app_l. now apply Htail.
Qed.

Lemma lit_inv {R} (k : mstate -> option R) res : forall l bef s cps,
  rmatch (lit l) (MState bef s cps) k = Some res ->
  exists tail, s = l ++ tail /\ k (MState (rev l ++ bef) tail cps) = Some res.
Proof.
  unfold lit. induction l as [|c l IH]; intros bef s cps H.
  - exists s. split; [reflexivity | exact H].
  - destruct l as [|d l].
    + cbn [map seqs] in H. unfold chr in H. destruct s as [|x s]; [discriminate|].
      rewrite rmatch_chr in H. destruct (N.eqb c x) eqn:Hx; [|discriminate].
      apply N.eqb_eq in Hx. subst x. exists s. split; [reflexivity | exact H].
    + change (seqs (map chr (c :: d :: l))) with (Seq (chr c) (seqs (map chr (d :: l)))) in H.
      rewrite rmatch_seq in H. unfold chr at 1 in H. destruct s as [|x s]; [discriminate|].
      rewrite rmatch_chr in H. destruct (N.eqb c x) eqn:Hx; [|discriminate].
      apply N.eqb_eq in Hx. subst x. apply IH in H. destruct H as [tail [Hs Hk]].
      exists tail. split; [now rewrite Hs|].
      simpl. simpl in Hk. now rewrite <- !app_assoc in *.
Qed.

(** A greedy star cannot fail when what follows it never fails. *)
Lemma star_greedy_total {R} a (k : mstate -> option R) st :
  (forall st', k st' <> None) -> rmatch (Star true a) st k <> None.
Proof.
  intros Hk. cbn [rmatch]. cbn [starLoop].
  match goal with |- match ?x with _ => _ end <> None => destruct x end;
    [discriminate | apply Hk].
Qed.

Lemma alnum_keyChar key : forallb isAlnum key = true -> forallb Redact.keyChar key = true.
Proof.
  intros H. rewrite forallb_forall in *. intros c Hc. unfold Redact.keyChar.
  now rewrite (H c Hc).
Qed.

(** The key pattern matches at an occurrence of [sk-] and 25 key characters. *)
Lemma attempt_openai_key pre key y :
  length key = 25%nat -> forallb isAlnum key = true ->
  attempt Redact.OPENAI_KEY_PATTERN pre (K25 key ++ y) <> None.
Proof.
  intros Hlen Hal. apply alnum_keyChar in Hal.
  unfold attempt, Redact.OPENAI_KEY_PATTERN, atLeast, K25.
  rewrite rmatch_seq, <- app_assoc, lit_run, rmatch_seq.
  rewrite <- (firstn_skipn 20 key), <- app_assoc.
  replace 20%nat with (length (firstn 20 key)) at 1 by (rewrite length_firstn; lia).
  rewrite times_run.
  - apply star_greedy_total. discriminate.
  - rewrite <- (firstn_skipn 20 key) in Hal. rewrite forallb_app in Hal.
    apply andb_true_iff in Hal. tauto.
Qed.

Lemma openai_match_nonempty pre s m :
  attempt Redact.OPENAI_KEY_PATTERN pre s = Some m -> m_text m <> [].
Proof.
  intros H. destruct (attempt_split _ _ _ _ H) as [Hs _].
  unfold attempt, Redact.OPENAI_KEY_PATTERN in H. rewrite rmatch_seq in H.
  apply lit_inv in H. destruct H as [tail [Hs2 H]].
  apply rmatch_forward in H. destruct H as [st' [[x [Hx _]] Hf]].
  inversion Hf; subst m. cbn [m_text m_after rest] in *.
  intros Hnil. rewrite Hnil in Hs. simpl in Hs. rewrite Hs2 in Hs. rewrite Hx in Hs.
  apply (f_equal (@length N)) in Hs. rewrite !length_app in Hs. simpl in Hs. lia.
Qed.

Lemma K25_plain key :
  forallb isAlnum key = true ->
  K25 key <> [] /\ ~ In 91%N (K25 key) /\ ~ In 93%N (K25 key) /\ ~ Substr (K25 key) redactedWord.
Proof.
  intros Hal. rewrite forallb_forall in Hal. unfold K25. repeat split.
  - discriminate.
  - simpl. intros [H|[H|[H|H]]]; try discriminate. apply Hal in H. discriminate.
  - simpl. intros [H|[H|[H|H]]]; try discriminate. apply Hal in H. discriminate.
  - intros [x [y H]]. assert (Hin : In 115%N redactedWord).
    { rewrite H. apply in_or_app. right. now left. }
    simpl in Hin. intuition discriminate.
Qed.

(** After the key pattern has been replaced, no [sk-] followed by 25
    alphanumeric characters is left. *)
Lemma openai_all_replaced key :
  length key = 25%nat -> forallb isAlnum key = true ->
  forall fuel pre s, (length s < fuel)%nat ->
    ~ Substr (K25 key) (replaceFrom fuel 0 Redact.OPENAI_KEY_PATTERN Redact.REDACTED pre s).
Proof.
  intros Hlen Hal. destruct (K25_plain key Hal) as [Hk [H91 [H93 Hword]]].
  induction fuel as [|f IH]; intros pre s Hf H; [lia|].
  cbn [replaceFrom] in H.
  destruct (search Redact.OPENAI_KEY_PATTERN pre s) as [m|] eqn:Hs.
  - destruct (search_some _ _ _ _ Hs) as [g [Hsplit [Hb [Hat Hnone]]]].
    pose proof (openai_match_nonempty _ _ _ Hat) as Hne.
    rewrite Hb, skipn_rev_app in H. rewrite expand_plain in H by reflexivity.
    destruct (m_text m) as [|c0 mt] eqn:Hmt; [congruence|].
    rewrite REDACTED_eq in H.
    replace (g ++ (91%N :: redactedWord ++ [93%N]) ++
             replaceFrom f 0 Redact.OPENAI_KEY_PATTERN (91%N :: redactedWord ++ [93%N])
               (rev (c0 :: mt) ++ rev (rev pre ++ g)) (m_after m))
      with (g ++ 91%N :: (redactedWord ++ 93%N ::
             replaceFrom f 0 Redact.OPENAI_KEY_PATTERN (91%N :: redactedWord ++ [93%N])
               (rev (c0 :: mt) ++ rev (rev pre ++ g)) (m_after m))) in H
      by (cbn [app]; rewrite <- ?app_assoc; cbn [app]; reflexivity).
    apply split_at_char in H; auto. destruct H as [H|H].
    + destruct H as [x [y Hg]].
      assert (Hn : attempt Redact.OPENAI_KEY_PATTERN (rev x ++ pre)
                     ((K25 key ++ y) ++ (c0 :: mt) ++ m_after m) = None)
        by (apply Hnone; [exact Hg | unfold K25; discriminate]).
      rewrite <- app_assoc in Hn. revert Hn. apply attempt_openai_key; assumption.
    + apply split_at_char in H; auto. destruct H as [H|H]; [contradiction|].
      rewrite <- REDACTED_eq in H. apply IH in H; [exact H|].
      rewrite Hsplit, !length_app in Hf. simpl in Hf. lia.
  - destruct H as [x [y Hxy]].
    pose proof (search_none _ _ _ Hs x (K25 key ++ y) Hxy) as Hn.
    now apply (attempt_openai_key (rev x ++ pre) key y) in Hn.
Qed.

(** [redactString] leaves no [sk-] followed by 25 alphanumeric characters. *)
Lemma redactString_no_key key s :
  length key = 25%nat -> forallb isAlnum key = true ->
  ~ Substr (K25 key) (Redact.redactString s).
Proof.
  intros Hlen Hal H. destruct (K25_plain key Hal) as [Hk [H91 [H93 Hword]]].
  unfold Redact.redactString, replaceAll in H.
  apply (replaceFrom_brings_nothing _ _ Hk H91 H93 Hword _ _ _ []) in H. cbn [app] in H.
  apply (replaceFrom_brings_nothing _ _ Hk H91 H93 Hword _ _ _ []) in H. cbn [app] in H.
  revert H. apply openai_all_replaced; auto.
Qed.

Lemma redactValue_obj es key :
  Redact.redactValue (Redact.JObj es) key = Redact.JObj (redactEntries es).
Proof.
  assert (Hs : Redact.sensitiveString (Redact.JObj es) key = false)
    by (destruct key as [[|? ?]|]; reflexivity).
  cbn [Redact.redactValue]. rewrite Hs. reflexivity.
Qed.

Lemma redactValue_arr items key :
  Redact.redactValue (Redact.JArr items) key
  = Redact.JArr (map (fun v => Redact.redactValue v None) items).
Proof.
  assert (Hs : Redact.sensitiveString (Redact.JArr items) key = false)
    by (destruct key as [[|? ?]|]; reflexivity).
  cbn [Redact.redactValue]. now rewrite Hs.
Qed.

Lemma lookupKey_redacted k : Redact.ownKey k = true -> forall es,
  lookupKey k (redactEntries es)
  = option_map (fun v => Redact.redactValue v (Some k)) (lookupKey k es).
Proof.
  intros Hk. induction es as [|[k' v] es IH]; [reflexivity|].
  cbn [redactEntries lookupKey]. destruct (jstr_eqb k' k) eqn:He.
  - apply jstr_eqb_eq in He. subst k'. rewrite Hk. cbn [lookupKey].
    now rewrite jstr_eqb_refl.
  - destruct (Redact.ownKey k'); [cbn [lookupKey]; now rewrite He | exact IH].
Qed.

(** Following a path commutes with redaction: the value found in the
    redacted tree is the redaction of the value found in the input, under
    the key of the last step. *)
Lemma valueAt_redacted : forall path v key0,
  noProto path = true ->
  valueAt path (Redact.redactValue v key0)
  = match path with
    | [] => Some (Redact.redactValue v key0)
    | _ => option_map (fun v' => Redact.redactValue v' (lastKey path)) (valueAt path v)
    end.
Proof.
  induction path as [|st path IH]; intros v key0 Hp; [reflexivity|].
  cbn [noProto forallb] in Hp. apply andb_true_iff in Hp. destruct Hp as [Hst Hp].
  assert (Hlast : forall st0, path <> [] -> lastKey (st0 :: path) = lastKey path).
  { intros st0 Hne. unfold lastKey. simpl. destruct (rev path) as [|x xs] eqn:Hr.
    - apply (f_equal (@rev step)) in Hr. rewrite rev_involutive in Hr. now subst path.
    - reflexivity. }
  destruct st as [k|i].
  - destruct v; try (destruct key0 as [[|? ?]|]; cbn [Redact.redactValue Redact.sensitiveString valueAt];
                     try reflexivity; now destruct (test Redact.SENSITIVE_KEYS _)).
    rewrite redactValue_obj. cbn [valueAt]. rewrite lookupKey_redacted by exact Hst.
    destruct (lookupKey k entries) as [v'|]; [|reflexivity]. cbn [option_map].
    rewrite IH by exact Hp. destruct path as [|st2 path]; [reflexivity|].
    now rewrite Hlast by discriminate.
  - destruct v; try (destruct key0 as [[|? ?]|]; cbn [Redact.redactValue Redact.sensitiveString valueAt];
                     try reflexivity; now destruct (test Redact.SENSITIVE_KEYS _)).
    rewrite redactValue_arr. cbn [valueAt]. rewrite nth_error_map.
    destruct (nth_error items i) as [v'|]; [|reflexivity]. cbn [option_map].
    rewrite IH by exact Hp. destruct path as [|st2 path]; [reflexivity|].
    now rewrite Hlast by discriminate.
Qed.

Lemma REDACTED_no_key key : forallb isAlnum key = true -> ~ Substr (K25 key) Redact.REDACTED.
Proof.
  intros Hal [x [y H]]. assert (Hin : In 115%N Redact.REDACTED).
  { rewrite H. apply in_or_app. right. now left. }
  simpl in Hin. intuition discriminate.
Qed.

End RedactFacts.

(** ** Readiness *)

Module ReadyFacts.
Import RegexFacts.

Lemma starLoop_class_inv {R} (p : jchar -> bool) greedy (k : mstate -> option R) res :
  forall n bef s cps,
    starLoop (fun st0 k0 => rmatch (Chr p) st0 k0) greedy k n (MState bef s cps) = Some res ->
    exists run tail, s = run ++ tail /\ forallb p run = true
                     /\ k (MState (rev run ++ bef) tail cps) = Some res.
Proof.
  induction n as [|n IH]; intros bef s cps H.
  - exists [], s. repeat split. exact H.
  - cbn [starLoop] in H.
    assert (Hagain :
      rmatch (Chr p) (MState bef s cps)
        (fun st' => if (length (rest st') <? length (rest (MState bef s cps)))%nat
                    then starLoop (fun st0 k0 => rmatch (Chr p) st0 k0) greedy k n st'
                    else None) = Some res ->
      exists run tail, s = run ++ tail /\ forallb p run = true
                       /\ k (MState (rev run ++ bef) tail cps) = Some res).
    { intros Ha. destruct s as [|c s]; [discriminate|]. rewrite rmatch_chr in Ha.
      destruct (p c) eqn:Hc; [|discriminate]. cbn [rest] in Ha.
      destruct (length s <? length (c :: s))%nat; [|discriminate].
      apply IH in Ha. destruct Ha as [run [tail [Hs [Hr Hk]]]].
      exists (c :: run), tail. split; [simpl; now rewrite Hs|].
      split; [simpl; now rewrite Hc|]. simpl. now rewrite <- app_assoc. }
    destruct greedy.
    + destruct (rmatch (Chr p) _ _) eqn:Ha.
      * inversion H; subst. now apply Hagain.
      * exists [], s. repeat split. exact H.
    + destruct (k (MState bef s cps)) eqn:Hk.
      * inversion H; subst. exists [], s. repeat split. exact Hk.
      * now apply Hagain.
Qed.

Lemma star_class_inv {R} (p : jchar -> bool) greedy (k : mstate -> option R) res bef s cps :
  rmatch (Star greedy (Chr p)) (MState bef s cps) k = Some res ->
  exists run tail, s = run ++ tail /\ forallb p run = true
                   /\ k (MState (rev run ++ bef) tail cps) = Some res.
Proof. intros H. cbn [rmatch] in H. now apply starLoop_class_inv in H. Qed.

Lemma chr_inv {R} c (k : mstate -> option R) res bef s cps :
  rmatch (chr c) (MState bef s cps) k = Some res ->
  exists t, s = c :: t /\ k (MState (c :: bef) t cps) = Some res.
Proof.
  unfold chr. intros H. destruct s as [|x s]; [discriminate|]. rewrite rmatch_chr in H.
  destruct (N.eqb c x) eqn:Hx; [|discriminate]. apply N.eqb_eq in Hx. subst x. now exists s.
Qed.

Lemma rmatch_bol {R} st (k : mstate -> option R) :
  rmatch (Bol false) st k = match before st with [] => k st | _ :: _ => None end.
Proof. simpl. now destruct (before st). Qed.

Lemma rmatch_eol {R} st (k : mstate -> option R) :
  rmatch (Eol false) st k = match rest st with [] => k st | _ :: _ => None end.
Proof. simpl. now destruct (rest st). Qed.

Lemma class_inv {R} p (k : mstate -> option R) res bef s cps :
  rmatch (Chr p) (MState bef s cps) k = Some res ->
  exists c t, s = c :: t /\ p c = true /\ k (MState (c :: bef) t cps) = Some res.
Proof.
  intros H. destruct s as [|x s]; [discriminate|]. rewrite rmatch_chr in H.
  destruct (p x) eqn:Hx; [|discriminate]. now exists x, s.
Qed.

(** What [PLACEHOLDER_RE] matches is a placeholder token. *)
Lemma attempt_token_inv pre s m :
  attempt PLACEHOLDER_RE pre s = Some m -> isToken (m_text m).
Proof.
  intros H. destruct (attempt_split _ _ _ _ H) as [Hs _].
  unfold attempt in H.
  change PLACEHOLDER_RE
    with (Seq (chr 60) (Seq (Seq (Chr placeholderChar) (Star true (Chr placeholderChar)))
                            (chr 62))) in H.
  rewrite rmatch_seq in H. apply chr_inv in H. destruct H as [s1 [Hs1 H]].
  rewrite !rmatch_seq in H. apply class_inv in H. destruct H as [c [s2 [Hs2 [Hc H]]]].
  apply star_class_inv in H. destruct H as [run [tail [Hs3 [Hrun H]]]].
  apply chr_inv in H. destruct H as [t [Ht H]]. inversion H; subst m. cbn [m_text m_after rest] in *.
  exists (c :: run). split.
  - apply (app_inv_tail t). rewrite <- Hs. subst. simpl. now rewrite <- !app_assoc.
  - split; [discriminate|]. simpl. now rewrite Hc.
Qed.

(** [PLACEHOLDER_RE] finds a match exactly in the strings that hold a token. *)
Lemma no_match_iff_no_token s : matchG PLACEHOLDER_RE s = [] <-> ~ containsToken s.
Proof.
  rewrite matchG_empty. split.
  - intros Hn [a [t [b [Hs [w [Ht [Hne Hall]]]]]]]. subst s t.
    pose proof (search_none _ _ _ Hn a ((60%N :: w ++ [62%N]) ++ b) eq_refl) as Ha.
    simpl in Ha. rewrite <- app_assoc in Ha. simpl in Ha.
    now apply (PlaceholderFacts.attempt_token (rev a ++ []) w b) in Ha.
  - intros Hn. destruct (search PLACEHOLDER_RE [] s) as [m|] eqn:Hs; [|reflexivity].
    exfalso. apply Hn. destruct (search_some _ _ _ _ Hs) as [g [Hsplit [_ [Hat _]]]].
    exists g, (m_text m), (m_after m). split; [exact Hsplit|].
    now apply attempt_token_inv in Hat.
Qed.

Lemma test_true_iff r s : test r s = true <-> search r [] s <> None.
Proof. unfold test, exec. destruct (search r [] s); split; congruence. Qed.

(** [checkboxRe] finds a match exactly in the strings that hold a checkbox. *)
Lemma checkbox_iff s : test checkboxRe s = true <-> containsCheckbox s.
Proof.
  rewrite test_true_iff.
  change checkboxRe
    with (Seq (chr 45) (Seq (Star true (Chr isWs))
                            (Seq (chr 91) (Seq (Star true (Chr isWs)) (chr 93))))).
  split.
  - intros H. destruct (search _ [] s) as [m|] eqn:Hs; [|congruence].
    destruct (search_some _ _ _ _ Hs) as [g [Hsplit [_ [Hat _]]]].
    unfold attempt in Hat. rewrite rmatch_seq in Hat.
    apply chr_inv in Hat. destruct Hat as [s1 [Hs1 Hat]].
    rewrite rmatch_seq in Hat. apply star_class_inv in Hat.
    destruct Hat as [ws1 [t1 [Hs2 [Hw1 Hat]]]].
    rewrite rmatch_seq in Hat. apply chr_inv in Hat. destruct Hat as [s3 [Hs3 Hat]].
    rewrite rmatch_seq in Hat. apply star_class_inv in Hat.
    destruct Hat as [ws2 [t2 [Hs4 [Hw2 Hat]]]].
    apply chr_inv in Hat. destruct Hat as [b [Hb _]].
    exists g, ws1, ws2, b. split; [|split; assumption].
    rewrite Hsplit, Hs1, Hs2, Hs3, Hs4, Hb. reflexivity.
  - intros [a [ws1 [ws2 [b [Hs [Hw1 Hw2]]]]]]. subst s.
    rewrite <- (rev_involutive a). apply search_finds.
    unfold attempt. rewrite rmatch_seq. unfold chr at 1. rewrite rmatch_chr.
    change (45 =? 45)%N with true. cbv iota. rewrite rmatch_seq.
    erewrite rmatch_star_run; [discriminate | reflexivity | exact Hw1 |].
    rewrite rmatch_seq. unfold chr at 1. rewrite rmatch_chr.
    change (91 =? 91)%N with true. cbv iota. rewrite rmatch_seq.
    erewrite rmatch_star_run; [reflexivity | reflexivity | exact Hw2 |].
    unfold chr. rewrite rmatch_chr. change (93 =? 93)%N with true. cbv iota. reflexivity.
Qed.

(** [wholeBracketRe] accepts exactly the strings that are one bracket pair. *)
Lemma bracketed_iff s : test wholeBracketRe s = true <-> isBracketed s.
Proof.
  rewrite test_true_iff.
  change wholeBracketRe
    with (Seq (Bol false)
            (Seq (chr 60) (Seq (Star true (Chr (fun c => negb (N.eqb c 62))))
                               (Seq (chr 62) (Eol false))))).
  split.
  - intros H. destruct (search _ [] s) as [m|] eqn:Hs; [|congruence].
    destruct (search_some _ _ _ _ Hs) as [g [Hsplit [_ [Hat _]]]].
    unfold attempt in Hat. rewrite rmatch_seq, rmatch_bol in Hat. cbn [before] in Hat.
    rewrite app_nil_r in Hat. destruct (rev g) as [|x rg] eqn:Hg; [|discriminate].
    apply (f_equal (@rev N)) in Hg. rewrite rev_involutive in Hg. simpl in Hg. subst g.
    simpl in Hsplit. revert Hat. rewrite <- Hsplit. intros Hat.
    rewrite rmatch_seq in Hat. apply chr_inv in Hat. destruct Hat as [s1 [Hs1 Hat]].
    rewrite rmatch_seq in Hat. apply star_class_inv in Hat.
    destruct Hat as [w [t1 [Hs2 [Hw Hat]]]].
    rewrite rmatch_seq in Hat. apply chr_inv in Hat. destruct Hat as [t2 [Ht2 Hat]].
    rewrite rmatch_eol in Hat. cbn [rest] in Hat. destruct t2 as [|y t2]; [|discriminate].
    exists w. split; [|exact Hw]. now rewrite Hs1, Hs2, Ht2.
  - intros [w [Hs Hw]]. subst s.
    change (60%N :: w ++ [62%N]) with ([] ++ 60%N :: w ++ [62%N]).
    change (@nil N) with (rev (@nil N)) at 1.
    apply search_finds. unfold attempt. rewrite rmatch_seq, rmatch_bol. cbn [before rev app].
    rewrite rmatch_seq. unfold chr at 1. rewrite rmatch_chr.
    change (60 =? 60)%N with true. cbv iota. rewrite rmatch_seq.
    erewrite rmatch_star_run; [discriminate | reflexivity | exact Hw |].
    rewrite rmatch_seq. unfold chr. rewrite rmatch_chr.
    change (62 =? 62)%N with true. cbv iota. rewrite rmatch_eol. reflexivity.
Qed.

Lemma trimStart_idem s : trimStart (trimStart s) = trimStart s.
Proof.
  induction s as [|c s IH]; [reflexivity|]. simpl. destruct (isWs c) eqn:Hc; [exact IH|].
  simpl. now rewrite Hc.
Qed.

Lemma trimEnd_idem s : trimEnd (trimEnd s) = trimEnd s.
Proof. unfold trimEnd. now rewrite rev_involutive, trimStart_idem. Qed.

Lemma trimStart_trimEnd s : trimStart (trimEnd (trimStart s)) = trimEnd (trimStart s).
Proof.
  destruct (trimStart s) as [|c x] eqn:Hx; [reflexivity|].
  assert (Hc : isWs c = false).
  { pose proof (trimStart_idem s) as Hi. rewrite Hx in Hi. simpl in Hi.
    destruct (isWs c) eqn:Hc; [|reflexivity].
    exfalso. destruct (TicketRefFacts.trimStart_suffix x) as [y Hy].
    rewrite Hi in Hy. apply (f_equal (@length N)) in Hy.
    rewrite length_app in Hy. simpl in Hy. lia. }
  unfold trimEnd. simpl rev.
  rewrite (PlaceholderFacts.trimStart_keeps (rev x) c [] Hc), rev_app_distr. simpl.
  now rewrite Hc.
Qed.

Lemma trim_idem s : trim (trim s) = trim s.
Proof. unfold trim. now rewrite trimStart_trimEnd, trimEnd_idem. Qed.

Lemma sectionContent_trimmed body t : trim (sectionContent body t) = sectionContent body t.
Proof. unfold sectionContent. destruct (exec _ _); apply trim_idem. Qed.

Lemma token_trim s : containsToken (trim s) <-> containsToken s.
Proof.
  split.
  - intros [a [t [b [Hs Ht]]]]. destruct (TicketRefFacts.trim_infix s) as [x [y Hxy]].
    exists (x ++ a), t, (b ++ y). split; [|exact Ht].
    rewrite Hxy at 1. rewrite Hs, <- !app_assoc. reflexivity.
  - intros H. apply PlaceholderFacts.token_detected in H.
    destruct (search PLACEHOLDER_RE [] (trim s)) as [m|] eqn:Hs.
    + destruct (search_some _ _ _ _ Hs) as [g [Hsplit [_ [Hat _]]]].
      exists g, (m_text m), (m_after m). split; [exact Hsplit|].
      now apply attempt_token_inv in Hat.
    + apply matchG_empty in Hs. congruence.
Qed.

Lemma nonempty_iff (s : jstring) : (0 <? length s)%nat = true <-> s <> [].
Proof. destruct s; simpl; split; intros H; try congruence; try reflexivity; discriminate. Qed.

Lemma no_placeholder_iff s :
  (length (matchG PLACEHOLDER_RE s) =? 0)%nat = true <-> ~ containsToken s.
Proof.
  rewrite <- no_match_iff_no_token. destruct (matchG PLACEHOLDER_RE s); simpl; split;
    intros H; try reflexivity; discriminate.
Qed.

Lemma not_bracketed_iff s : negb (test wholeBracketRe s) = true <-> ~ isBracketed s.
Proof.
  rewrite <- bracketed_iff. destruct (test wholeBracketRe s); simpl; split; intros H;
    try reflexivity; try discriminate; congruence.
Qed.

(** A body that is ready holds no placeholder token. *)
Lemma ready_no_placeholder body :
  ready (evaluateTicketReady body) = true -> matchG PLACEHOLDER_RE body = [].
Proof.
  unfold evaluateTicketReady. cbn [ready]. rewrite !andb_true_iff.
  intros [_ H]. apply no_placeholder_iff in H. rewrite token_trim in H.
  now apply no_match_iff_no_token.
Qed.

End ReadyFacts.

(** ** Ticket creation *)

Module CreateFacts.

Lemma insertedNumbers_app a b :
  insertedNumbers (a ++ b) = insertedNumbers a ++ insertedNumbers b.
Proof. unfold insertedNumbers. apply flat_map_app. Qed.

Lemma maxPosition_from acc rows :
  (acc <= fold_left (fun a r => Z.max a (match Row.kanban_position r with
                                         | Some p => p
                                         | None => 0%Z
                                         end)) rows acc)%Z.
Proof.
  revert acc. induction rows as [|r rows IH]; intros acc; [simpl; lia|].
  simpl. etransitivity; [|apply IH]. lia.
Qed.

(** The next position in To Do is at least 1. *)
Lemma maxPosition_nonneg rows : (0 <= maxPosition rows)%Z.
Proof. apply maxPosition_from. Qed.

Lemma fold_max_highest rows : forall acc,
  let m := fold_left (fun a r => Z.max a (match Row.kanban_position r with
                                          | Some p => p
                                          | None => 0%Z
                                          end)) rows acc in
  (m = acc \/ exists row, In row rows /\ positionOf row = m)
  /\ Forall (fun row => (positionOf row <= m)%Z) rows.
Proof.
  induction rows as [|r rows IH]; intros acc; cbv zeta; cbn [fold_left].
  - split; [now left | constructor].
  - specialize (IH (Z.max acc (positionOf r))). cbv zeta in IH.
    fold (positionOf r). destruct IH as [Hm Hall]. split.
    + destruct Hm as [Hm | [row [Hin Hrow]]].
      * rewrite Hm.
        destruct (Z.max_spec acc (positionOf r)) as [[_ He] | [_ He]].
        -- right. exists r. split; [now left | now symmetry].
        -- now left.
      * right. exists row. split; [now right | exact Hrow].
    + constructor; [|exact Hall].
      pose proof (maxPosition_from (Z.max acc (positionOf r)) rows) as Hle.
      unfold positionOf at 2 in Hle. fold (positionOf r) in Hle.
      unfold positionOf in *. lia.
Qed.

(** The maximum the tool folds is the highest position, however it is
    described. *)
Lemma highest_maxPosition rows m : highest rows m -> maxPosition rows = m.
Proof.
  intros [Hm [H0 Hall]]. pose proof (maxPosition_nonneg rows) as Hn.
  destruct (fold_max_highest rows 0) as [HM HMall]. fold (maxPosition rows) in HM, HMall.
  rewrite Forall_forall in Hall, HMall.
  apply Z.le_antisymm.
  - destruct HM as [-> | [row [Hin Hrow]]]; [exact H0|]. rewrite <- Hrow. now apply Hall.
  - destruct Hm as [-> | [row [Hin Hrow]]]; [exact Hn|]. rewrite <- Hrow. now apply HMall.
Qed.

(** Below [2^53] the candidate of attempt [a] is [s + a - 1]. *)
Lemma candidateAt_small s a :
  (Z.abs s + 10 < two53)%Z -> (1 <= a <= 10)%Z -> candidateAt s a = (s + a - 1)%Z.
Proof.
  intros Hs Ha. unfold candidateAt.
  rewrite DoubleFacts.jsAdd_small by lia53. apply DoubleFacts.jsSub_small. lia53.
Qed.

Section Run.
Variable E : Env.
Hypothesis Hh : healthy E.

(** The auto-fix returns, and inserts nothing. *)
Lemma autoFix_total repo n id nb (w : World E) :
  exists w' r, autoFix repo n id nb w = (w', Returned r)
    /\ toolCalls w' = toolCalls w
    /\ insertedNumbers (accesses w') = insertedNumbers (accesses w).
Proof.
  unfold autoFix.
  destruct (ready (evaluateTicketReady nb)); [eexists _, _; repeat split|].
  destruct (nonEmpty _ && _ && _); [|eexists _, _; repeat split].
  destruct (exec acRegex nb); [|eexists _, _; repeat split].
  destruct (ready _); [|eexists _, _; repeat split].
  unfold bind, update. destruct Hh as [_ Hu].
  match goal with |- context [updateRows E ?s ?p ?f] => destruct (Hu s p f) as [s' Hs'] end.
  rewrite Hs'. eexists _, _. split; [reflexivity|]. split; [reflexivity|].
  cbn [accesses]. rewrite insertedNumbers_app. simpl. now rewrite app_nil_r.
Qed.

(** A body that is ready needs no fix. *)
Lemma autoFix_ready repo n id nb (w : World E) :
  ready (evaluateTicketReady nb) = true ->
  autoFix repo n id nb w = (w, Returned (nb, evaluateTicketReady nb, false)).
Proof. intros H. unfold autoFix. now rewrite H. Qed.

(** The auto-move asks for the top of To Do and moves the row one past it. *)
Lemma autoMove_healthy repo n id (w : World E) :
  let q := todoTopQuery (if jstr_eqb repo LEGACY_REPO then None else Some repo) in
  exists rows s',
    selectRows E (store w) q = Returned (mkResp (Some rows) None)
    /\ autoMove repo n id w
       = (mkWorld E s'
            (accesses w ++
             [ASelect q;
              AUpdate (Row.mk None None None None None None None None (Some COL_TODO)
                              (Some (jsAdd (maxPosition rows) 1)) (Some (nowISO E (ticks w))))
                      (createdRowFilter repo n id)])
            (toolCalls w) (S (ticks w)),
          Returned (true, None)).
Proof.
  intros q. destruct Hh as [Hs Hu]. destruct (Hs (store w) q) as [rows Hrows].
  destruct (Hu (store w)
              (Row.mk None None None None None None None None (Some COL_TODO)
                      (Some (jsAdd (maxPosition rows) 1)) (Some (nowISO E (ticks w))))
              (createdRowFilter repo n id)) as [s' Hs'].
  exists rows, s'. split; [exact Hrows|].
  unfold autoMove, tryCatch, bind, select, now, update, ret, logged. fold q.
  cbn [store accesses toolCalls ticks]. rewrite Hrows. cbn [error data orNil].
  cbn [store accesses toolCalls ticks]. rewrite Hs'.
  rewrite <- app_assoc. reflexivity.
Qed.

Variables (input : CreateInput) (nb repo prefix slug now0 : jstring) (startNum : Z).

Abbreviation rowOf := (newRow input nb repo prefix slug now0).

Lemma rowOf_candidate cand pk : candidateRow repo cand (rowOf cand pk).
Proof. repeat split. Qed.

(** An attempt the store refuses for uniqueness goes on to the next one. *)
Lemma attempt_rejected rem att last e (w : World E) :
  let cand := candidateAt startNum att in
  matchG PLACEHOLDER_RE (normalizeTitleLineInBody nb (prefix ++ u "-" ++ idOf cand)) = [] ->
  rejectsAt E (store w) repo cand e ->
  createAttempts (S rem) att input nb repo prefix slug now0 startNum last w
  = createAttempts rem (att + 1) input nb repo prefix slug now0 startNum (Some e)
      (mkWorld E (store w) (accesses w ++ [AInsert (rowOf cand (randomUUID E (ticks w)))])
               (toolCalls w) (S (ticks w))).
Proof.
  intros cand Hnorm [Hu [Hc Hins]].
  cbn [createAttempts]. fold (candidateAt startNum att). fold cand. fold (idOf cand). rewrite Hnorm.
  cbn [length Nat.ltb Nat.leb].
  unfold bind at 1. unfold uuid. unfold bind at 1. unfold insert.
  cbn [store accesses toolCalls ticks].
  fold (rowOf cand (randomUUID E (ticks w))).
  rewrite (Hins _ (rowOf_candidate cand _)).
  unfold bind at 1. rewrite Hc. unfold ret at 1. rewrite Hu. cbn [negb]. reflexivity.
Qed.

(** An attempt the store takes ends the loop with a success. *)
Lemma attempt_accepted rem att last (w : World E) :
  let cand := candidateAt startNum att in
  matchG PLACEHOLDER_RE (normalizeTitleLineInBody nb (prefix ++ u "-" ++ idOf cand)) = [] ->
  acceptsAt E (store w) repo cand ->
  exists w' cs,
    createAttempts (S rem) att input nb repo prefix slug now0 startNum last w
    = (w', Returned (Ok cs))
    /\ cs_ticket_number cs = cand
    /\ cs_retried cs = flagField (1 <? att)%Z
    /\ cs_attempts cs = (if (1 <? att)%Z then Some att else None)
    /\ toolCalls w' = toolCalls w
    /\ insertedNumbers (accesses w') = insertedNumbers (accesses w) ++ [cand].
Proof.
  intros cand Hnorm Hacc.
  cbn [createAttempts]. fold (candidateAt startNum att). fold cand. fold (idOf cand). rewrite Hnorm.
  cbn [length Nat.ltb Nat.leb].
  unfold bind at 1. unfold uuid. unfold bind at 1. unfold insert.
  cbn [store accesses toolCalls ticks].
  fold (rowOf cand (randomUUID E (ticks w))).
  destruct (Hacc _ (rowOf_candidate cand (randomUUID E (ticks w)))) as [s1 Hs1].
  rewrite Hs1. unfold bind at 1. unfold ret at 1. unfold bind at 1.
  match goal with |- context [autoFix repo cand ?i ?b ?w0] =>
    destruct (autoFix_total repo cand i b w0) as [w1 [[[fb rd] af] [Hf [Ht1 Hi1]]]]
  end.
  rewrite Hf. unfold bind at 1.
  assert (Hins : insertedNumbers (accesses w1) = insertedNumbers (accesses w) ++ [cand]).
  { rewrite Hi1. cbn [accesses]. rewrite insertedNumbers_app. reflexivity. }
  destruct (ready rd) eqn:Hr.
  - match goal with |- context [autoMove repo cand ?i ?w0] =>
      destruct (autoMove_healthy repo cand i w0) as [rows [s2 [_ Hm]]]
    end.
    rewrite Hm. unfold ret. eexists _, _. split; [reflexivity|].
    cbn [cs_ticket_number cs_retried cs_attempts toolCalls accesses].
    repeat split; try assumption.
    rewrite insertedNumbers_app, Hins. simpl. now rewrite app_nil_r.
  - unfold ret. eexists _, _. split; [reflexivity|].
    cbn [cs_ticket_number cs_retried cs_attempts toolCalls accesses].
    repeat split; assumption.
Qed.

(** The same for a body that is ready as stored: the row goes to To Do, one
    past the highest position the store reports. *)
Lemma attempt_accepted_ready rem att last (w : World E) :
  let cand := candidateAt startNum att in
  let body := normalizeTitleLineInBody nb (prefix ++ u "-" ++ idOf cand) in
  let row := rowOf cand (randomUUID E (ticks w)) in
  let q := todoTopQuery (if jstr_eqb repo LEGACY_REPO then None else Some repo) in
  matchG PLACEHOLDER_RE body = [] ->
  ready (evaluateTicketReady body) = true ->
  acceptsAt E (store w) repo cand ->
  exists s1 rows s2 cs,
    insertRow E (store w) row = (s1, Returned None)
    /\ selectRows E s1 q = Returned (mkResp (Some rows) None)
    /\ createAttempts (S rem) att input nb repo prefix slug now0 startNum last w
       = (mkWorld E s2
            (accesses w ++
             [AInsert row; ASelect q;
              AUpdate (Row.mk None None None None None None None None (Some COL_TODO)
                              (Some (jsAdd (maxPosition rows) 1))
                              (Some (nowISO E (S (ticks w)))))
                      (createdRowFilter repo cand (idOf cand))])
            (toolCalls w) (S (S (ticks w))),
          Returned (Ok cs))
    /\ cs_ticket_number cs = cand
    /\ cs_ready cs = true
    /\ cs_movedToTodo cs = Some true
    /\ cs_moveError cs = None.
Proof.
  intros cand body row q Hnorm Hready Hacc.
  destruct (Hacc _ (rowOf_candidate cand (randomUUID E (ticks w)))) as [s1 Hs1].
  destruct (autoMove_healthy repo cand (idOf cand)
              (mkWorld E s1 (accesses w ++ [AInsert row]) (toolCalls w) (S (ticks w))))
    as [rows [s2 [Hsel Hm]]].
  cbn [store accesses toolCalls ticks] in Hsel, Hm. fold q in Hsel, Hm.
  exists s1, rows, s2.
  exists (mkCreateSuccess (idOf cand) (prefix ++ u "-" ++ idOf cand) cand repo
            (idOf cand ++ u "-" ++ slug ++ u ".md")
            (u "supabase:tickets/" ++ prefix ++ u "-" ++ idOf cand)
            (flagField (1 <? att)%Z) (if (1 <? att)%Z then Some att else None)
            true
            (match missingItems (evaluateTicketReady body) with [] => None | l => Some l end)
            None (Some true) None).
  split; [exact Hs1|]. split; [exact Hsel|]. split; [|repeat split].
  subst body row.
  cbn [createAttempts]. fold (candidateAt startNum att). fold cand. fold (idOf cand). rewrite Hnorm.
  cbn [length Nat.ltb Nat.leb].
  unfold bind at 1. unfold uuid. unfold bind at 1. unfold insert.
  cbn [store accesses toolCalls ticks].
  fold (rowOf cand (randomUUID E (ticks w))).
  rewrite Hs1. unfold bind at 1. unfold ret at 1. unfold bind at 1.
  rewrite (autoFix_ready _ _ _ _ _ Hready). unfold bind at 1. cbv beta iota.
  rewrite Hready, Hm. unfold ret. rewrite <- app_assoc. reflexivity.
Qed.

Lemma exhausted_text last :
  u "Could not reserve a ticket ID after "
  ++ numToString (Z.of_nat MAX_CREATE_TICKET_RETRIES)
  ++ u " attempts (id/filename collision). Last: " ++ lastMessage last
  = exhausted (lastMessage last).
Proof. reflexivity. Qed.

(** The candidates tried from attempt [att] on, [count] of them. *)
Lemma triedFrom_S att count :
  triedFrom startNum att (S count)
  = candidateAt startNum att :: triedFrom startNum (att + 1) count.
Proof.
  unfold triedFrom. cbn [seq map]. rewrite <- seq_shift, map_map. f_equal.
  - now rewrite Z.add_0_r.
  - apply map_ext. intros j. f_equal. lia.
Qed.

(** The loop, after [k] candidates refused in a row: it ends with the next
    candidate taken, or with no attempt left. *)
Lemma attempts_run k :
  forall rem att last (w : World E) (errs : nat -> PgError),
    (k <= rem)%nat ->
    (forall j, (j < k)%nat ->
               rejectsAt E (store w) repo (candidateAt startNum (att + Z.of_nat j)) (errs j)) ->
    (forall j, (j <= k)%nat -> (j < rem)%nat ->
               matchG PLACEHOLDER_RE
                 (normalizeTitleLineInBody nb
                    (prefix ++ u "-" ++ idOf (candidateAt startNum (att + Z.of_nat j)))) = []) ->
    ((k < rem)%nat -> acceptsAt E (store w) repo (candidateAt startNum (att + Z.of_nat k))) ->
    exists w' out,
      createAttempts rem att input nb repo prefix slug now0 startNum last w
      = (w', Returned out)
      /\ toolCalls w' = toolCalls w
      /\ insertedNumbers (accesses w')
         = insertedNumbers (accesses w) ++ triedFrom startNum att (Nat.min (S k) rem)
      /\ ((k < rem)%nat ->
          exists cs, out = Ok cs
            /\ cs_ticket_number cs = candidateAt startNum (att + Z.of_nat k)
            /\ cs_retried cs = flagField (1 <? att + Z.of_nat k)%Z
            /\ cs_attempts cs
               = (if (1 <? att + Z.of_nat k)%Z then Some (att + Z.of_nat k)%Z else None))
      /\ (k = rem -> out = failWith (exhausted (lastMessage (lastOf k last errs)))).
Proof.
  induction k as [|k IH]; intros rem att last w errs Hle Hrej Hnorm Hacc.
  - destruct rem as [|rem].
    + eexists _, _. split; [reflexivity|]. split; [reflexivity|].
      split; [simpl; now rewrite app_nil_r|]. split; [lia|].
      intros _. unfold failWith. now rewrite <- exhausted_text.
    + assert (H0 : (att + Z.of_nat 0 = att)%Z) by (simpl; lia).
      specialize (Hnorm 0%nat ltac:(lia) ltac:(lia)). specialize (Hacc ltac:(lia)).
      rewrite H0 in Hnorm, Hacc.
      destruct (attempt_accepted rem att last w Hnorm Hacc)
        as [w' [cs [Hrun [Hn [Hr [Ha [Ht Hi]]]]]]].
      exists w', (Ok cs). split; [exact Hrun|]. split; [exact Ht|].
      split; [rewrite Hi; unfold triedFrom; simpl; now rewrite Z.add_0_r|].
      split; [|lia]. intros _. exists cs. rewrite H0. repeat split; assumption.
  - destruct rem as [|rem]; [lia|].
    assert (H0 : (att + Z.of_nat 0 = att)%Z) by (simpl; lia).
    pose proof (Hrej 0%nat ltac:(lia)) as Hr0. pose proof (Hnorm 0%nat ltac:(lia) ltac:(lia)) as Hn0.
    rewrite H0 in Hr0, Hn0.
    rewrite (attempt_rejected rem att last (errs 0%nat) w Hn0 Hr0).
    set (w1 := mkWorld E (store w) _ (toolCalls w) (S (ticks w))).
    assert (Hshift : forall j, (att + 1 + Z.of_nat j = att + Z.of_nat (S j))%Z) by (intros; lia).
    destruct (IH rem (att + 1)%Z (Some (errs 0%nat)) w1 (fun j => errs (S j)))
      as [w' [out [Hrun [Ht [Hi [Hok Hex]]]]]].
    + lia.
    + intros j Hj. rewrite Hshift. apply Hrej. lia.
    + intros j Hj1 Hj2. rewrite Hshift. apply Hnorm; lia.
    + intros Hk. rewrite Hshift. apply Hacc. lia.
    + exists w', out. split; [exact Hrun|]. split; [exact Ht|]. split.
      * rewrite Hi. subst w1. cbn [accesses]. rewrite insertedNumbers_app.
        cbn [Nat.min]. rewrite triedFrom_S, <- app_assoc. reflexivity.
      * split.
        -- intros Hk. destruct (Hok ltac:(lia)) as [cs [Ho [Hn [Hr Ha]]]].
           exists cs. rewrite Hshift in Hn, Hr, Ha.
           repeat split; assumption.
        -- intros Hk. rewrite Hex by lia. destruct k; reflexivity.
Qed.

End Run.

(** [create_ticket] on a body that passes the first check, when the store
    answers the query for the highest number: what is left is the loop. *)
Lemma create_ticket_run (E : Env) projectId input (w : World E) rows0 :
  let repo := projectRepo projectId LEGACY_REPO in
  matchG PLACEHOLDER_RE (trim (ci_body_md input)) = [] ->
  selectRows E (store w) (topNumberQuery repo) = Returned (mkResp (Some rows0) None) ->
  create_ticket projectId input w
  = match createAttempts MAX_CREATE_TICKET_RETRIES 1 input
            (normalizeBodyForReady (trim (ci_body_md input))) repo (repoHintPrefix repo)
            (slugFromTitle (ci_title input)) (nowISO E (ticks w)) (toDouble (nextNumber rows0)) None
            (mkWorld E (store w) (accesses w ++ [ASelect (topNumberQuery repo)])
                     (toolCalls w) (S (ticks w)))
    with
    | (w', Returned out) => (pushed w' (CallCreateTicket input out), Returned out)
    | (w', Thrown msg) =>
        (pushed w' (CallCreateTicket input (failWith msg)), Returned (failWith msg))
    end.
Proof.
  intros repo Hpre Hsel.
  unfold create_ticket, createTicketBody. rewrite Hpre. cbn [length Nat.ltb Nat.leb].
  fold repo. fold (topNumberQuery repo).
  unfold bind at 1. unfold tryCatch. unfold bind at 1. unfold select at 1.
  rewrite Hsel. cbn [error data orNil]. unfold logged. unfold bind at 1. unfold now at 1.
  cbn [store accesses toolCalls ticks].
  replace (match match rows0 with
                 | [] => None
                 | row :: _ => Row.ticket_number row
                 end with
           | Some n => jsAdd n 1
           | None => 1%Z
           end) with (toDouble (nextNumber rows0))
    by (destruct rows0 as [|row ?]; [reflexivity|];
        cbn [nextNumber]; destruct (Row.ticket_number row); reflexivity).
  destruct (createAttempts _ _ _ _ _ _ _ _ _ _ _) as [w' [out|msg]]; reflexivity.
Qed.

End CreateFacts.

(** ** Paths *)

Module PathFacts.
Import Path.

Lemma forallb_rev {A} (p : A -> bool) l : forallb p (rev l) = forallb p l.
Proof.
  induction l as [|x l IH]; [reflexivity|]. simpl.
  rewrite forallb_app, IH. simpl. rewrite andb_true_r. apply andb_comm.
Qed.

Lemma splitOn_noSlash s : forall cur,
  noSlash cur = true -> forallb noSlash (splitOn slash cur s) = true.
Proof.
  induction s as [|c s IH]; intros cur Hcur.
  - simpl. unfold noSlash in *. now rewrite forallb_rev, Hcur.
  - simpl. destruct (N.eqb c slash) eqn:Hc.
    + simpl. unfold noSlash at 1. rewrite forallb_rev. fold (noSlash cur).
      rewrite Hcur. now apply IH.
    + apply IH. simpl. now rewrite Hc.
Qed.

Lemma normalize_plainSegment segs : forall acc,
  forallb plainSegment acc = true -> forallb noSlash segs = true ->
  forallb plainSegment (normalizeSegments acc segs) = true.
Proof.
  induction segs as [|s segs IH]; intros acc Hacc Hsegs.
  - simpl. now rewrite forallb_rev.
  - simpl in Hsegs. apply andb_true_iff in Hsegs. destruct Hsegs as [Hs Hsegs].
    cbn [normalizeSegments].
    destruct (jstr_eqb s []) eqn:H1; [now apply IH|].
    destruct (jstr_eqb s (u ".")) eqn:H2; [now apply IH|]. cbn [orb].
    destruct (jstr_eqb s (u "..")) eqn:H3.
    + apply IH; [|exact Hsegs]. destruct acc; [reflexivity|].
      simpl in Hacc. apply andb_true_iff in Hacc. now destruct Hacc.
    + apply IH; [|exact Hsegs]. simpl. rewrite Hacc, andb_true_r.
      unfold plainSegment. now rewrite H1, H2, H3, Hs.
Qed.

Lemma resolveSegments_plainSegment cwd args : forallb plainSegment (resolveSegments cwd args) = true.
Proof.
  unfold resolveSegments. apply normalize_plainSegment; [reflexivity|].
  now apply splitOn_noSlash.
Qed.

Lemma splitOn_seg s : forall cur rest,
  noSlash s = true ->
  splitOn slash cur (s ++ slash :: rest) = (rev cur ++ s) :: splitOn slash [] rest.
Proof.
  induction s as [|c s IH]; intros cur rest Hs.
  - simpl. now rewrite app_nil_r.
  - simpl in Hs. apply andb_true_iff in Hs. destruct Hs as [Hc Hs].
    apply negb_true_iff in Hc. simpl. rewrite Hc, IH by exact Hs.
    simpl. now rewrite <- app_assoc.
Qed.

Lemma join_slash s segs :
  join [slash] (s :: segs) ++ [slash] = concat (map (fun x => x ++ [slash]) (s :: segs)).
Proof.
  revert s. induction segs as [|t segs IH]; intros s.
  - simpl. now rewrite app_nil_r.
  - change (join [slash] (s :: t :: segs)) with (s ++ [slash] ++ join [slash] (t :: segs)).
    rewrite <- !app_assoc, IH. simpl. now rewrite <- (app_assoc s [slash]).
Qed.

Lemma splitOn_concat segs :
  forallb noSlash segs = true ->
  splitOn slash [] (concat (map (fun x => x ++ [slash]) segs)) = segs ++ [[]].
Proof.
  induction segs as [|s segs IH]; intros H; [reflexivity|].
  simpl in H. apply andb_true_iff in H. destruct H as [Hs H].
  simpl. rewrite <- app_assoc. simpl. rewrite splitOn_seg by exact Hs.
  simpl. now rewrite IH.
Qed.

Lemma normalize_kept segs : forall acc,
  forallb plainSegment segs = true -> normalizeSegments acc (segs ++ [[]]) = rev acc ++ segs.
Proof.
  induction segs as [|s segs IH]; intros acc H.
  - simpl. now rewrite app_nil_r.
  - simpl in H. apply andb_true_iff in H. destruct H as [Hs H].
    unfold plainSegment in Hs. rewrite !andb_true_iff, !negb_true_iff in Hs.
    destruct Hs as [[[H1 H2] H3] _].
    cbn [app normalizeSegments]. rewrite H1, H2, H3. cbn [orb].
    rewrite IH by exact H. simpl. now rewrite <- app_assoc.
Qed.

Lemma plainSegment_noSlash segs : forallb plainSegment segs = true -> forallb noSlash segs = true.
Proof.
  induction segs as [|s segs IH]; [reflexivity|]. simpl. rewrite !andb_true_iff.
  intros [Hs H]. split; [|now apply IH]. unfold plainSegment in Hs.
  rewrite !andb_true_iff in Hs. now destruct Hs.
Qed.

(** Resolving a resolved path again gives the same segments. *)
Lemma resolve_again cwd segs :
  forallb plainSegment segs = true ->
  resolveSegments cwd [slash :: join [slash] segs] = segs.
Proof.
  intros H. unfold resolveSegments. cbn [rev app gather]. rewrite N.eqb_refl.
  destruct segs as [|s segs]; [reflexivity|].
  cbn [app].
  rewrite join_slash. cbn [splitOn]. rewrite N.eqb_refl.
  rewrite splitOn_concat by now apply plainSegment_noSlash.
  cbn [rev normalizeSegments]. change (jstr_eqb [] []) with true. cbn [orb].
  now rewrite normalize_kept.
Qed.

Lemma stripCommon_spec a : forall b,
  let '(up, down) := stripCommon a b in
  (segPrefix a b = true -> up = [] /\ down = skipn (length a) b)
  /\ (segPrefix a b = false -> up <> []).
Proof.
  induction a as [|x a IH]; intros b.
  - simpl. split; [now split | discriminate].
  - destruct b as [|y b].
    + simpl. split; [discriminate | discriminate].
    + simpl. destruct (jstr_eqb x y) eqn:Hxy.
      * specialize (IH b). destruct (stripCommon a b) as [up down]. exact IH.
      * simpl. split; [discriminate | discriminate].
Qed.

Lemma segPrefix_refl a : segPrefix a a = true.
Proof. induction a as [|x a IH]; [reflexivity|]. simpl. now rewrite jstr_eqb_refl. Qed.

Lemma startsWith_dots_join d ds :
  plainSegment d = true ->
  startsWith (u "..") (join [slash] (d :: ds)) = startsWith (u "..") d
  /\ isAbsolute (join [slash] (d :: ds)) = false.
Proof.
  intros Hd. unfold plainSegment in Hd. rewrite !andb_true_iff, !negb_true_iff in Hd.
  destruct Hd as [[[H1 H2] H3] H4].
  destruct d as [|c d]; [discriminate|].
  simpl in H4. apply andb_true_iff in H4. destruct H4 as [Hc _].
  apply negb_true_iff in Hc.
  assert (Hj : exists t, join [slash] ((c :: d) :: ds) = (c :: d) ++ t).
  { destruct ds; [exists []; simpl; now rewrite app_nil_r | eexists; reflexivity]. }
  destruct Hj as [t Hj]. rewrite Hj. split; [|simpl; exact Hc].
  change (u "..") with [46%N; 46%N]. change (u ".") with [46%N] in H2.
  destruct d as [|c2 d]; cbn [startsWith app].
  - destruct (N.eqb 46 c) eqn:E; [|reflexivity].
    apply N.eqb_eq in E. subst c. discriminate.
  - reflexivity.
Qed.

Lemma startsWith_dots_up (up : list jstring) down x :
  startsWith (u "..") (join [slash] (map (fun _ => u "..") (x :: up) ++ down)) = true.
Proof.
  cbn [map app]. destruct (map (fun _ => u "..") up ++ down); reflexivity.
Qed.

End PathFacts.

(** ** Ticket numbers *)

Module NumberFacts.
Import RegexFacts.

(** [a{0,n}] for a character class takes a run of at most [n] units of the
    class. *)
Lemma upTo_inv {R} (p : jchar -> bool) (K : mstate -> option R) res : forall n bef s cps,
  rmatch (upTo n (Chr p)) (MState bef s cps) K = Some res ->
  exists run tail, s = run ++ tail /\ forallb p run = true /\ (length run <= n)%nat
                   /\ K (MState (rev run ++ bef) tail cps) = Some res.
Proof.
  induction n as [|n IH]; intros bef s cps H.
  - exists [], s. repeat split; auto.
  - change (upTo (S n) (Chr p)) with (Alt (Seq (Chr p) (upTo n (Chr p))) Eps) in H.
    rewrite rmatch_alt in H.
    destruct (rmatch (Seq (Chr p) (upTo n (Chr p))) (MState bef s cps) K) as [x|] eqn:H1.
    + inversion H; subst x. rewrite rmatch_seq in H1.
      apply ReadyFacts.class_inv in H1. destruct H1 as [c [t [Hs [Hc H1]]]].
      apply IH in H1. destruct H1 as [run [tail [Ht [Hr [Hl Hk]]]]].
      exists (c :: run), tail. split; [now rewrite Hs, Ht|].
      split; [simpl; now rewrite Hc|]. split; [simpl; lia|].
      simpl. now rewrite <- app_assoc.
    + rewrite rmatch_eps in H. exists [], s. repeat split; auto. simpl. lia.
Qed.

Lemma parseDigits_from d : forall acc,
  allDigits d = true -> (0 <= acc)%Z ->
  (acc * 10 ^ Z.of_nat (length d)
   <= fold_left (fun a c => (a * 10 + Z.of_N (c - 48))%Z) d acc
   <= acc * 10 ^ Z.of_nat (length d) + 10 ^ Z.of_nat (length d) - 1)%Z.
Proof.
  induction d as [|c d IH]; intros acc Hd Hacc.
  - simpl. lia.
  - simpl in Hd. apply andb_true_iff in Hd. destruct Hd as [Hc Hd].
    unfold isDigit, inRange in Hc. apply andb_true_iff in Hc. destruct Hc as [H1 H2].
    apply N.leb_le in H1, H2.
    assert (Hv : (0 <= Z.of_N (c - 48) <= 9)%Z) by lia.
    cbn [fold_left length]. specialize (IH (acc * 10 + Z.of_N (c - 48))%Z Hd ltac:(lia)).
    rewrite Nat2Z.inj_succ, Z.pow_succ_r by lia.
    assert (Hp : (0 < 10 ^ Z.of_nat (length d))%Z) by (apply Z.pow_pos_nonneg; lia).
    nia.
Qed.

(** What [TICKET_NUMBER_RE] captures is one to four digits. *)
Lemma ticket_number_capture s m :
  exec TICKET_NUMBER_RE s = Some m ->
  exists d, group 1 m = Some d /\ allDigits d = true /\ (1 <= length d <= 4)%nat.
Proof.
  unfold exec. intros H. destruct (search_some _ _ _ _ H) as [g [_ [_ [Hat _]]]].
  unfold attempt, TICKET_NUMBER_RE in Hat.
  rewrite rmatch_seq, rmatch_grp in Hat.
  change (range 1 4 digit) with (Seq (Seq (Chr isDigit) Eps) (upTo 3 (Chr isDigit))) in Hat.
  rewrite !rmatch_seq in Hat.
  apply ReadyFacts.class_inv in Hat. destruct Hat as [c [t [Hs [Hc Hat]]]].
  rewrite rmatch_eps in Hat. apply upTo_inv in Hat.
  destruct Hat as [run [tail [Ht [Hr [Hl Hat]]]]].
  cbn [before rest caps] in Hat.
  fold lookDigit in Hat. rewrite TicketRefFacts.look_not_digit in Hat.
  destruct (digitAhead tail); [discriminate|].
  injection Hat as Hm. rewrite <- Hm. unfold group. cbn [m_caps find fst snd Nat.eqb].
  exists (c :: run). split.
  - f_equal. rewrite Hs, Ht.
    apply (TicketRefFacts.consumed_run _ (c :: run) tail).
  - split; [simpl; now rewrite Hc|]. simpl. lia.
Qed.

End NumberFacts.

(** ** The shape of redacted values *)

Module RedactShape.

Lemma redactEntries_keys es :
  map fst (redactEntries es) = filter Redact.ownKey (map fst es).
Proof.
  induction es as [|[k v] es IH]; [reflexivity|].
  cbn [redactEntries map filter fst]. destruct (Redact.ownKey k); cbn [map fst]; now rewrite IH.
Qed.

End RedactShape.

(** ** Reads and writes of the tools *)

Module WriteFacts.

Lemma wrapped_total {E A} (body : M E (Result A)) (rec : Result A -> ToolCallRecord)
    (w : World E) :
  exists w1 out,
    bind (tryCatch body (fun msg => ret (failWith msg)))
         (fun out => bind (push (rec out)) (fun _ => ret out)) w
    = (pushed w1 (rec out), Returned out)
    /\ (body w = (w1, Returned out)
        \/ exists msg, body w = (w1, Thrown msg) /\ out = failWith msg).
Proof.
  destruct (body w) as [w1 [out|msg]] eqn:Hb.
  - exists w1, out. split; [now apply MonadFacts.wrapped_returned | now left].
  - exists w1, (failWith msg). split; [now apply MonadFacts.wrapped_thrown|].
    right. now exists msg.
Qed.

Lemma onlyReads_trans {E} (w1 w2 w3 : World E) :
  onlyReads w1 w2 -> onlyReads w2 w3 -> onlyReads w1 w3.
Proof.
  intros [A1 [A2 [A3 A4]]] [B1 [B2 [B3 B4]]]. repeat split; congruence.
Qed.

Lemma select_reads {E} q (w : World E) : onlyReads w (fst (select q w)).
Proof. apply MonadFacts.onlyReads_logged; [apply MonadFacts.onlyReads_refl | reflexivity]. Qed.

Lemma maybeSingle_reads {E} q (w : World E) : onlyReads w (fst (maybeSingle q w)).
Proof. apply MonadFacts.onlyReads_logged; [apply MonadFacts.onlyReads_refl | reflexivity]. Qed.

(** The query for the top of To Do only reads. *)
Lemma todoRows_reads {E} repo (w : World E) : onlyReads w (fst (todoRows repo w)).
Proof.
  unfold todoRows. destruct repo as [r|].
  - unfold bind. pose proof (select_reads (todoTopQuery (Some r)) w) as H1.
    destruct (select (todoTopQuery (Some r)) w) as [w1 [resp|msg]]; [|exact H1].
    cbn [fst] in H1. destruct (error resp) as [e|]; [|exact H1].
    destruct (isUnknownColumnError e); [|exact H1].
    pose proof (select_reads (todoTopQuery None) w1) as H2.
    destruct (select (todoTopQuery None) w1) as [w2 [resp2|msg2]];
      cbn [fst] in H2; [|eapply onlyReads_trans; eauto].
    destruct (error resp2); cbn [fst ret]; eapply onlyReads_trans; eauto.
  - unfold bind. pose proof (select_reads (todoTopQuery None) w) as H1.
    destruct (select (todoTopQuery None) w) as [w1 [resp|msg]]; [|exact H1].
    cbn [fst] in H1. destruct (error resp); exact H1.
Qed.

(** What one [update] does to the world. *)
Lemma update_step {E} patch filters (w w1 : World E) o :
  update patch filters w = (w1, o) ->
  toolCalls w1 = toolCalls w /\ ticks w1 = ticks w
  /\ writes (accesses w1) = writes (accesses w) ++ [AUpdate patch filters].
Proof.
  unfold update. destruct (updateRows E (store w) patch filters) as [s' r].
  intros H. inversion H; subst. cbn [toolCalls ticks accesses].
  repeat split. unfold writes. rewrite filter_app. reflexivity.
Qed.

Lemma now_step {E} (w : World E) :
  now w = (mkWorld E (store w) (accesses w) (toolCalls w) (S (ticks w)),
           Returned (nowISO E (ticks w))).
Proof. reflexivity. Qed.

Lemma reader_ret {E A} (a : A) : reader (ret (E:=E) a).
Proof. intros w. apply MonadFacts.onlyReads_refl. Qed.

Lemma reader_select {E} q : reader (select (E:=E) q).
Proof. intros w. apply select_reads. Qed.

Lemma reader_maybeSingle {E} q : reader (maybeSingle (E:=E) q).
Proof. intros w. apply maybeSingle_reads. Qed.

Lemma reader_bind {E A B} (c : M E A) (k : A -> M E B) :
  reader c -> (forall a, reader (k a)) -> reader (bind c k).
Proof.
  intros Hc Hk w. unfold bind. specialize (Hc w).
  destruct (c w) as [w1 [a|msg]]; cbn [fst] in *; [|exact Hc].
  eapply onlyReads_trans; [exact Hc | apply Hk].
Qed.

Lemma reader_lookupRow {E} sc lc repo n id : reader (lookupRow (E:=E) sc lc repo n id).
Proof. intros w. apply MonadFacts.lookupRow_reads. Qed.

Lemma reader_todoRows {E} repo : reader (todoRows (E:=E) repo).
Proof. intros w. apply todoRows_reads. Qed.

Ltac readers :=
  repeat match goal with
         | |- reader (ret _) => apply reader_ret
         | |- reader (select _) => apply reader_select
         | |- reader (maybeSingle _) => apply reader_maybeSingle
         | |- reader (lookupRow _ _ _ _ _) => apply reader_lookupRow
         | |- reader (todoRows _) => apply reader_todoRows
         | |- reader (bind _ _) => apply reader_bind; [|intros ?]
         | |- reader (if ?c then _ else _) => destruct c
         | |- reader (match ?x with _ => _ end) => destruct x
         end.

(** [fetch_ticket_content]'s body only reads. *)
Lemma fetch_body_reads {E} projectId ref : reader (fetchTicketContentBody (E:=E) projectId ref).
Proof. unfold fetchTicketContentBody. cbv zeta. readers. Qed.

Lemma reads_writes {E} (w w1 : World E) :
  onlyReads w w1 -> writes (accesses w1) = writes (accesses w) /\ toolCalls w1 = toolCalls w.
Proof. intros [_ [H2 [_ H4]]]. split; assumption. Qed.

(** What the body of [update_ticket_body] does: it writes at most once, the
    body only, and a body it has checked. *)
Lemma update_body_writes {E} projectId input (w w1 : World E) o :
  updateTicketBodyBody projectId input w = (w1, o) ->
  toolCalls w1 = toolCalls w
  /\ ((writes (accesses w1) = writes (accesses w) /\ forall us, o <> Returned (Ok us))
      \/ exists body filters,
           writes (accesses w1) = writes (accesses w) ++ [AUpdate (bodyPatch body) filters]
           /\ matchG PLACEHOLDER_RE body = []
           /\ forall us, o = Returned (Ok us) ->
                         us_ready us = ready (evaluateTicketReady body)
                         /\ ((missingItems (evaluateTicketReady body) = []
                              /\ us_missingItems us = None)
                             \/ (missingItems (evaluateTicketReady body) <> []
                                 /\ us_missingItems us
                                    = Some (missingItems (evaluateTicketReady body))))).
Proof.
  unfold updateTicketBodyBody. cbv zeta.
  destruct (0 <? length (matchG PLACEHOLDER_RE (trim (ui_body_md input))))%nat.
  { intros H. unfold ret in H. apply pair_equal_spec in H. destruct H as [H1 H2]. subst w1 o. split; [reflexivity|]. left.
    split; [reflexivity|]. intros us Hus. discriminate Hus. }
  destruct (noTicketNumber (parseTicketNumber (ui_ticket_id input))).
  { intros H. unfold ret in H. apply pair_equal_spec in H. destruct H as [H1 H2]. subst w1 o. split; [reflexivity|]. left.
    split; [reflexivity|]. intros us Hus. discriminate Hus. }
  unfold bind at 1.
  match goal with |- context [lookupRow ?a ?b ?c ?d ?e w] =>
    pose proof (MonadFacts.lookupRow_reads a b c d e w) as Hr;
    destruct (lookupRow a b c d e w) as [w2 [r|msg]]
  end; cbn [fst] in Hr; apply reads_writes in Hr; destruct Hr as [Hw Ht].
  2:{ intros H. unfold ret in H. apply pair_equal_spec in H. destruct H as [H1 H2]. subst w1 o. split; [exact Ht|]. left. split; [exact Hw|].
      intros us Hus. discriminate Hus. }
  destruct (error r) as [fe|].
  { intros H. unfold ret in H. apply pair_equal_spec in H. destruct H as [H1 H2]. subst w1 o. split; [exact Ht|]. left. split; [exact Hw|].
    intros us Hus. discriminate Hus. }
  destruct (data r) as [row|].
  2:{ intros H. unfold ret in H. apply pair_equal_spec in H. destruct H as [H1 H2]. subst w1 o. split; [exact Ht|]. left. split; [exact Hw|].
      intros us Hus. discriminate Hus. }
  match goal with |- context [matchG PLACEHOLDER_RE ?b] =>
    destruct (matchG PLACEHOLDER_RE b) as [|x xs] eqn:Hph
  end; cbn [length Nat.ltb Nat.leb].
  2:{ intros H. unfold ret in H. apply pair_equal_spec in H. destruct H as [H1 H2]. subst w1 o. split; [exact Ht|]. left. split; [exact Hw|].
      intros us Hus. discriminate Hus. }
  unfold bind at 1.
  match goal with |- context [update ?p ?f w2] =>
    pose proof (update_step p f w2) as Hu; destruct (update p f w2) as [w3 [e|msg]]
  end; destruct (Hu _ _ eq_refl) as [Ht3 [_ Hw3]]; clear Hu;
    rewrite Ht in Ht3; rewrite Hw in Hw3.
  - destruct e as [e|]; intros H; unfold ret in H; apply pair_equal_spec in H; destruct H as [H1 H2]; subst w1 o.
    + split; [exact Ht3|]. right. eexists _, _. split; [exact Hw3|]. split; [exact Hph|].
      intros us Hus. discriminate Hus.
    + split; [exact Ht3|]. right. eexists _, _. split; [exact Hw3|]. split; [exact Hph|].
      intros us Hus. assert (Hus' : forall A (x y : A), Returned (Ok x) = Returned (Ok y) -> x = y)
        by (intros A x y Hxy; congruence).
      apply Hus' in Hus. subst us. cbn [us_ready us_missingItems].
      split; [reflexivity|].
      destruct (missingItems _); [left; now split | right; split; [discriminate | reflexivity]].
  - intros H. unfold ret in H. apply pair_equal_spec in H. destruct H as [H1 H2]. subst w1 o. split; [exact Ht3|]. right.
    eexists _, _. split; [exact Hw3|]. split; [exact Hph|].
    intros us Hus. discriminate Hus.
Qed.

Lemma bind_reader {E A B} (c : M E A) (k : A -> M E B) (w w1 : World E) o :
  reader c -> bind c k w = (w1, o) ->
  exists w2, writes (accesses w2) = writes (accesses w) /\ toolCalls w2 = toolCalls w
             /\ ((exists a, k a w2 = (w1, o)) \/ (w1 = w2 /\ exists msg, o = Thrown msg)).
Proof.
  intros Hc. unfold bind. specialize (Hc w). destruct (c w) as [w2 [a|msg]]; cbn [fst] in Hc;
    apply reads_writes in Hc; destruct Hc as [Hw Ht]; intros H; exists w2;
    (split; [exact Hw|]); (split; [exact Ht|]).
  - left. now exists a.
  - right. apply pair_equal_spec in H. destruct H as [H1 H2]. split; [now symmetry|].
    exists msg. now symmetry.
Qed.

Lemma maxPosition_pos rows : (1 <= jsAdd (maxPosition rows) 1)%Z.
Proof. apply DoubleFacts.jsAdd_pos, CreateFacts.maxPosition_nonneg. Qed.

(** A computation that ends with one update of the given patch, after reads
    only. *)
Lemma ends_with_update {E A} patch filters (k : option PgError -> M E (Result A))
    (w w1 : World E) o :
  (forall e w0, exists out, k e w0 = (w0, Returned out)) ->
  bind (update patch filters) k w = (w1, o) ->
  toolCalls w1 = toolCalls w
  /\ writes (accesses w1) = writes (accesses w) ++ [AUpdate patch filters].
Proof.
  intros Hk. unfold bind.
  pose proof (update_step patch filters w) as Hu.
  destruct (update patch filters w) as [w3 [e|msg]];
    destruct (Hu _ _ eq_refl) as [Ht3 [_ Hw3]]; clear Hu.
  - destruct (Hk e w3) as [out Hout]. rewrite Hout. intros H.
    apply pair_equal_spec in H. destruct H as [H1 _]. subst w1. now split.
  - intros H. apply pair_equal_spec in H. destruct H as [H1 _]. subst w1. now split.
Qed.

Ltac stop_here Ht Hw :=
  let H := fresh "H" in
  let H1 := fresh "H" in
  let H2 := fresh "H" in
  intros H; unfold ret in H; apply pair_equal_spec in H; destruct H as [H1 H2];
  rewrite <- H1, <- H2;
  split; [exact Ht|]; left; split; [exact Hw|]; intros ? Hx; discriminate Hx.

(** [kanban_move_ticket_to_todo]'s body writes at most once, a move to To Do. *)
Lemma move_body_writes {E} projectId ticket_id (w w1 : World E) o :
  kanbanMoveTicketToTodoBody projectId ticket_id w = (w1, o) ->
  toolCalls w1 = toolCalls w
  /\ ((writes (accesses w1) = writes (accesses w) /\ forall x, o <> Returned (Ok x))
      \/ exists patch filters,
           writes (accesses w1) = writes (accesses w) ++ [AUpdate patch filters]
           /\ movesToTodo patch).
Proof.
  unfold kanbanMoveTicketToTodoBody. cbv zeta.
  destruct (noTicketNumber (parseTicketNumber ticket_id)).
  { stop_here (@eq_refl _ (toolCalls w)) (@eq_refl _ (writes (accesses w))). }
  intros H. apply bind_reader in H; [|apply reader_lookupRow].
  destruct H as [w2 [Hw [Ht [[r H]|[H1 [msg H2]]]]]].
  2:{ rewrite H1, H2. split; [exact Ht|]. left. split; [exact Hw|].
      intros x Hx. discriminate Hx. }
  revert H. destruct (error r) as [fe|]; [stop_here Ht Hw|].
  destruct (data r) as [row|]; [|stop_here Ht Hw].
  destruct (negb (inUnassigned (Row.kanban_column_id row))); [stop_here Ht Hw|].
  intros H. apply bind_reader in H; [|apply reader_todoRows].
  destruct H as [w3 [Hw3 [Ht3 [[rows H]|[H1 [msg H2]]]]]];
    rewrite Hw in Hw3; rewrite Ht in Ht3.
  2:{ rewrite H1, H2. split; [exact Ht3|]. left. split; [exact Hw3|].
      intros x Hx. discriminate Hx. }
  revert H. destruct rows as [err|todo]; [stop_here Ht3 Hw3|].
  unfold bind at 1. rewrite now_step. intros H.
  apply ends_with_update in H.
  - cbn [toolCalls accesses] in H. destruct H as [H1 H2]. split; [congruence|]. right.
    eexists _, _. split; [rewrite H2, Hw3; reflexivity|].
    split; [reflexivity|]. eexists. split; [reflexivity | apply maxPosition_pos].
  - intros e w0. destruct e; eexists; reflexivity.
Qed.

(** The same for [kanban_move_ticket_to_other_repo_todo]. *)
Lemma move_other_body_writes {E} projectId input (w w1 : World E) o :
  kanbanMoveTicketToOtherRepoTodoBody projectId input w = (w1, o) ->
  toolCalls w1 = toolCalls w
  /\ ((writes (accesses w1) = writes (accesses w) /\ forall x, o <> Returned (Ok x))
      \/ exists patch filters,
           writes (accesses w1) = writes (accesses w) ++ [AUpdate patch filters]
           /\ movesToTodo patch
           /\ Row.repo_full_name patch = Some (trim (mi_target_repo_full_name input))
           /\ exists n, Row.ticket_number patch = Some n
                /\ Row.display_id patch
                   = Some (displayIdOf (trim (mi_target_repo_full_name input)) n)).
Proof.
  unfold kanbanMoveTicketToOtherRepoTodoBody. cbv zeta.
  destruct (noTicketNumber (parseTicketNumber (mi_ticket_id input))).
  { stop_here (@eq_refl _ (toolCalls w)) (@eq_refl _ (writes (accesses w))). }
  destruct (negb (nonEmpty (trim (mi_target_repo_full_name input)))
            || negb (includes (u "/") (trim (mi_target_repo_full_name input)))).
  { stop_here (@eq_refl _ (toolCalls w)) (@eq_refl _ (writes (accesses w))). }
  intros H. apply bind_reader in H; [|apply reader_lookupRow].
  destruct H as [w2 [Hw [Ht [[r H]|[H1 [msg H2]]]]]].
  2:{ rewrite H1, H2. split; [exact Ht|]. left. split; [exact Hw|].
      intros x Hx. discriminate Hx. }
  revert H. destruct (error r) as [fe|]; [stop_here Ht Hw|].
  destruct (data r) as [row|]; [|stop_here Ht Hw].
  intros H. apply bind_reader in H; [|apply reader_select].
  destruct H as [w3 [Hw3 [Ht3 [[chk H]|[H1 [msg H2]]]]]];
    rewrite Hw in Hw3; rewrite Ht in Ht3.
  2:{ rewrite H1, H2. split; [exact Ht3|]. left. split; [exact Hw3|].
      intros x Hx. discriminate Hx. }
  revert H.
  destruct (match error chk with
            | Some e => if isUnknownColumnError e then None else Some e
            | None => None
            end); [stop_here Ht3 Hw3|].
  intros H. apply bind_reader in H; [|apply reader_select].
  destruct H as [w4 [Hw4 [Ht4 [[mx H]|[H1 [msg H2]]]]]];
    rewrite Hw3 in Hw4; rewrite Ht3 in Ht4.
  2:{ rewrite H1, H2. split; [exact Ht4|]. left. split; [exact Hw4|].
      intros x Hx. discriminate Hx. }
  revert H.
  match goal with |- (match ?nx with Ok _ => _ | Fail _ => _ end) w4 = _ -> _ =>
    destruct nx as [nextN|f]
  end; [|stop_here Ht4 Hw4].
  intros H. apply bind_reader in H; [|apply reader_todoRows].
  destruct H as [w5 [Hw5 [Ht5 [[rows H]|[H1 [msg H2]]]]]];
    rewrite Hw4 in Hw5; rewrite Ht4 in Ht5.
  2:{ rewrite H1, H2. split; [exact Ht5|]. left. split; [exact Hw5|].
      intros x Hx. discriminate Hx. }
  revert H. destruct rows as [err|todo]; [stop_here Ht5 Hw5|].
  unfold bind at 1. rewrite now_step. intros H.
  apply ends_with_update in H.
  - cbn [toolCalls accesses] in H. destruct H as [H1 H2]. split; [congruence|]. right.
    eexists _, _. split; [rewrite H2, Hw5; reflexivity|].
    split; [|split; [reflexivity|]].
    + split; [reflexivity|]. eexists. split; [reflexivity | apply maxPosition_pos].
    + exists nextN. split; reflexivity.
  - intros e w0. destruct e; eexists; reflexivity.
Qed.

End WriteFacts.

(** ** Replacing a character class *)

Module ReplaceFacts.
Import RegexFacts.

Lemma forallb_filter {A} (p : A -> bool) l : forallb p (filter p l) = true.
Proof.
  induction l as [|x l IH]; [reflexivity|]. simpl. destruct (p x) eqn:Hx; [|exact IH].
  simpl. now rewrite Hx.
Qed.

Lemma forallb_filter_impl {A} (p q : A -> bool) l :
  (forall x, q x = true -> p x = true) -> forallb p (filter q l) = true.
Proof.
  intros H. induction l as [|x l IH]; [reflexivity|]. simpl.
  destruct (q x) eqn:Hx; [|exact IH]. simpl. now rewrite (H x Hx).
Qed.

Lemma filter_all {A} (p : A -> bool) l : forallb p l = true -> filter p l = l.
Proof.
  induction l as [|x l IH]; [reflexivity|]. simpl. intros H.
  apply andb_true_iff in H. destruct H as [Hx H]. rewrite Hx. now rewrite IH.
Qed.

(** A global replacement by a template without [$] builds its result from
    units of the input and of the template. *)
Lemma replaceFrom_forall (P : jchar -> bool) r tpl :
  forallb (fun c => negb (N.eqb c 36)) tpl = true -> forallb P tpl = true ->
  forall fuel pre s, forallb P s = true -> forallb P (replaceFrom fuel 0 r tpl pre s) = true.
Proof.
  intros Hplain Htpl. induction fuel as [|f IH]; intros pre s Hs; [exact Hs|].
  cbn [replaceFrom]. destruct (search r pre s) as [m|] eqn:Hm; [|exact Hs].
  destruct (search_some _ _ _ _ Hm) as [g [Hsplit [Hb _]]].
  rewrite Hb, RedactFacts.skipn_rev_app, (RedactFacts.expand_plain _ _ _ Hplain).
  rewrite Hsplit in Hs. rewrite !forallb_app in Hs.
  apply andb_true_iff in Hs. destruct Hs as [Hg Hs].
  apply andb_true_iff in Hs. destruct Hs as [Ht Ha].
  rewrite !forallb_app, Hg, Htpl. cbn [andb].
  destruct (m_text m) as [|c t]; [|now apply IH].
  destruct (m_after m) as [|c t]; [reflexivity|].
  simpl in Ha. apply andb_true_iff in Ha. destruct Ha as [Hc Ha].
  simpl. rewrite Hc. now apply IH.
Qed.

Lemma replaceAll_forall (P : jchar -> bool) r tpl s :
  forallb (fun c => negb (N.eqb c 36)) tpl = true -> forallb P tpl = true ->
  forallb P s = true -> forallb P (replaceAll 0 r tpl s) = true.
Proof. intros. unfold replaceAll. now apply replaceFrom_forall. Qed.

Lemma attempt_class q pre c t :
  attempt (Chr q) pre (c :: t)
  = if q c then Some (RMatch (rev pre) [c] t []) else None.
Proof.
  unfold attempt. rewrite rmatch_chr. destruct (q c); [|reflexivity].
  cbn [rest caps length]. replace (S (length t) - length t)%nat with 1%nat by lia.
  reflexivity.
Qed.

Lemma attempt_class_nil q pre : attempt (Chr q) pre [] = None.
Proof. reflexivity. Qed.

(** Deleting every match of a character class is filtering. *)
Lemma replaceFrom_class q : forall fuel pre s,
  (length s < fuel)%nat ->
  replaceFrom fuel 0 (Chr q) [] pre s = filter (fun c => negb (q c)) s.
Proof.
  induction fuel as [|f IH]; intros pre s Hf; [lia|].
  cbn [replaceFrom]. destruct (search (Chr q) pre s) as [m|] eqn:Hm.
  - destruct (search_some _ _ _ _ Hm) as [g [Hsplit [Hb [Hat Hnone]]]].
    rewrite Hb, RedactFacts.skipn_rev_app. cbn [expand app].
    assert (Hg : forallb (fun c => negb (q c)) g = true).
    { apply forallb_forall. intros x Hx. apply in_split in Hx.
      destruct Hx as [g1 [g2 Hx]]. specialize (Hnone g1 (x :: g2) Hx ltac:(discriminate)).
      cbn [app] in Hnone. rewrite attempt_class in Hnone. now destruct (q x). }
    destruct (m_text m ++ m_after m) as [|c t] eqn:Hta;
      [rewrite attempt_class_nil in Hat; discriminate|].
    rewrite attempt_class in Hat. destruct (q c) eqn:Hc; [|discriminate].
    injection Hat as Hm'. subst m. cbn [m_text m_after] in *.
    rewrite Hsplit, filter_app, (filter_all _ _ Hg). cbn [app filter]. rewrite Hc.
    cbn [negb]. f_equal. apply IH.
    rewrite Hsplit, length_app in Hf. simpl in Hf. lia.
  - symmetry. apply filter_all. apply forallb_forall. intros x Hx. apply in_split in Hx.
    destruct Hx as [g1 [g2 Hx]]. pose proof (search_none _ _ _ Hm g1 (x :: g2) Hx) as Hn.
    rewrite attempt_class in Hn. now destruct (q x).
Qed.

Lemma replaceAll_class q s :
  replaceAll 0 (Chr q) [] s = filter (fun c => negb (q c)) s.
Proof. unfold replaceAll. apply replaceFrom_class. lia. Qed.

End ReplaceFacts.

(** ** Repository prefixes *)

Module PrefixFacts.
Import RegexFacts.

(** An attempt of [q+] succeeds exactly on a first unit of the class, and
    then takes at least that unit. *)
Lemma attempt_plus_class q pre s :
  match s with
  | c :: _ =>
      if q c then exists m, attempt (plus true (Chr q)) pre s = Some m /\ m_text m <> []
      else attempt (plus true (Chr q)) pre s = None
  | [] => attempt (plus true (Chr q)) pre s = None
  end.
Proof.
  destruct s as [|c t]; [reflexivity|]. unfold attempt, plus.
  rewrite rmatch_seq, rmatch_chr. destruct (q c) eqn:Hc; [|reflexivity].
  match goal with |- exists m, ?x = Some m /\ _ => destruct x as [m|] eqn:Hm end.
  - exists m. split; [reflexivity|].
    pose proof Hm as Hf. apply rmatch_forward in Hf.
    destruct Hf as [st' [[x [Hx _]] Hk]]. cbn [rest] in Hx.
    remember (length (c :: t) - length (rest st'))%nat as n eqn:Hn in Hk.
    assert (Hn' : n = S (length x)).
    { rewrite Hn, Hx. change (length (c :: x ++ rest st')) with (S (length (x ++ rest st'))).
      rewrite length_app. lia. }
    injection Hk as Hk. rewrite <- Hk, Hn'. discriminate.
  - exfalso. revert Hm. apply RedactFacts.star_greedy_total. discriminate.
Qed.

(** The pieces between the matches of [q+] hold no unit of the class. *)
Lemma cut_gaps q s0 : forall fuel pre s,
  (length s < fuel)%nat -> s0 = rev pre ++ s ->
  Forall (fun piece => forallb (fun c => negb (q c)) piece = true)
         (cut (length pre) s0 (matchesFrom fuel (plus true (Chr q)) pre s)).
Proof.
  induction fuel as [|f IH]; intros pre s Hf Hs0; [lia|].
  cbn [matchesFrom]. destruct (search (plus true (Chr q)) pre s) as [m|] eqn:Hm.
  - destruct (search_some _ _ _ _ Hm) as [g [Hsplit [Hb [Hat Hnone]]]].
    assert (Hg : forallb (fun c => negb (q c)) g = true).
    { apply forallb_forall. intros x Hx. apply in_split in Hx.
      destruct Hx as [g1 [g2 Hx]]. specialize (Hnone g1 (x :: g2) Hx ltac:(discriminate)).
      cbn [app] in Hnone.
      pose proof (attempt_plus_class q (rev g1 ++ pre) (x :: g2 ++ m_text m ++ m_after m))
        as Ha.
      cbv beta iota in Ha. destruct (q x); [|reflexivity].
      destruct Ha as [m' [Ha _]]. congruence. }
    assert (Htext : m_text m <> []).
    { pose proof (attempt_plus_class q (rev g ++ pre) (m_text m ++ m_after m)) as Ha.
      destruct (m_text m ++ m_after m) as [|c t]; [congruence|].
      destruct (q c); [|congruence]. destruct Ha as [m' [Ha Hne]].
      rewrite Hat in Ha. injection Ha as Ha. now subst m'. }
    cbn [cut]. constructor.
    + rewrite Hs0, RedactFacts.skipn_rev_app, Hb, length_app, length_rev, Hsplit.
      replace (length pre + length g - length pre)%nat with (length g) by lia.
      rewrite firstn_app, Nat.sub_diag, firstn_all. cbn [firstn]. now rewrite app_nil_r.
    + destruct (m_text m) as [|c t] eqn:Ht; [congruence|]. rewrite <- Ht.
      replace (length (m_before m) + length (m_text m))%nat
        with (length (rev (m_text m) ++ rev (m_before m)))
        by (rewrite length_app, !length_rev; lia).
      apply IH.
      * rewrite Hsplit, !length_app in Hf. simpl in Hf. lia.
      * rewrite rev_app_distr, !rev_involutive, Hb, Hs0, Hsplit, Ht, <- !app_assoc. reflexivity.
  - cbn [cut]. constructor; [|constructor].
    rewrite Hs0, RedactFacts.skipn_rev_app.
    apply forallb_forall. intros x Hx. apply in_split in Hx.
    destruct Hx as [g1 [g2 Hx]]. pose proof (search_none _ _ _ Hm g1 (x :: g2) Hx) as Hn.
    pose proof (attempt_plus_class q (rev g1 ++ pre) (x :: g2)) as Ha.
    cbv beta iota in Ha. destruct (q x); [|reflexivity].
    destruct Ha as [m' [Ha _]]. congruence.
Qed.

Lemma splitRe_gaps q s :
  Forall (fun piece => forallb (fun c => negb (q c)) piece = true)
         (splitRe (plus true (Chr q)) s).
Proof.
  unfold splitRe. destruct s as [|c t].
  - destruct (test _ _); repeat constructor.
  - unfold matchAll. apply (cut_gaps q (c :: t) (S (length (c :: t))) [] (c :: t)); auto.
Qed.

Lemma forallb_map_comp {A B} (p : B -> bool) (f : A -> B) l :
  forallb p (map f l) = forallb (fun x => p (f x)) l.
Proof. induction l as [|x l IH]; [reflexivity|]. cbn [map forallb]. now rewrite IH. Qed.

Lemma pickToken_spec l t' :
  pickToken l = Some t' ->
  exists t, In t l /\ t' = toUpperCase t /\ (2 <= length t <= 6)%nat.
Proof.
  induction l as [|t l IH]; [discriminate|]. cbn [pickToken].
  destruct (negb (existsb isLower t)).
  - intros H. destruct (IH H) as [x [Hx Hr]]. exists x. split; [now right | exact Hr].
  - destruct ((2 <=? length t)%nat && (length t <=? 6)%nat) eqn:Hl.
    + intros H. injection H as H. exists t. split; [now left|]. split; [now symmetry|].
      apply andb_true_iff in Hl. destruct Hl as [H1 H2].
      apply Nat.leb_le in H1, H2. lia.
    + intros H. destruct (IH H) as [x [Hx Hr]]. exists x. split; [now right | exact Hr].
Qed.

Lemma upper_of_lower_digit c :
  isLower c || isDigit c = true -> prefixChar (upperAscii c) = true.
Proof.
  unfold prefixChar, upperAscii. destruct (isLower c) eqn:Hl.
  - intros _. unfold isLower, isUpper, inRange in *. apply andb_true_iff in Hl.
    destruct Hl as [H1 H2]. apply N.leb_le in H1, H2.
    replace ((65 <=? c - 32)%N && (c - 32 <=? 90)%N) with true; [reflexivity|].
    symmetry. apply andb_true_iff. split; apply N.leb_le; lia.
  - cbn [orb]. intros Hd. rewrite Hd. apply orb_true_r.
Qed.

Lemma upper_of_alpha c : isAlpha c = true -> isUpper (upperAscii c) = true.
Proof.
  unfold isAlpha, upperAscii. destruct (isLower c) eqn:Hl.
  - intros _. unfold isLower, isUpper, inRange in *. apply andb_true_iff in Hl.
    destruct Hl as [H1 H2]. apply N.leb_le in H1, H2.
    apply andb_true_iff. split; apply N.leb_le; lia.
  - now rewrite orb_false_r.
Qed.

Lemma upper_of_upper c : isUpper c = true -> isUpper (upperAscii c) = true.
Proof.
  intros H. unfold upperAscii. destruct (isLower c) eqn:Hl; [|exact H].
  unfold isLower, isUpper, inRange in *. apply andb_true_iff in Hl, H.
  destruct Hl as [H1 H2]. destruct H as [H3 H4]. apply N.leb_le in H1, H2, H3, H4. lia.
Qed.

End PrefixFacts.

(** ** Sorted repository names *)

Module SortFacts.

Lemma ltb_irrefl a : jstr_ltb a a = false.
Proof.
  induction a as [|x a IH]; [reflexivity|]. cbn [jstr_ltb].
  now rewrite N.ltb_irrefl.
Qed.

Lemma ltb_trans : forall a b c,
  jstr_ltb a b = true -> jstr_ltb b c = true -> jstr_ltb a c = true.
Proof.
  induction a as [|x a IH]; intros [|y b] [|z c]; cbn [jstr_ltb]; try congruence.
  destruct (N.ltb_spec x y), (N.ltb_spec y x), (N.ltb_spec y z), (N.ltb_spec z y),
           (N.ltb_spec x z), (N.ltb_spec z x); try congruence; try lia.
  apply IH.
Qed.

Lemma ltb_total : forall a b, jstr_ltb a b = false -> a <> b -> jstr_ltb b a = true.
Proof.
  induction a as [|x a IH]; intros [|y b]; cbn [jstr_ltb]; try congruence.
  destruct (N.ltb_spec x y), (N.ltb_spec y x); try congruence; try lia.
  intros Hlt Hne. apply IH; [exact Hlt|]. intros ->.
  apply Hne. f_equal. lia.
Qed.

Lemma insertStr_in x a l : In a (insertStr x l) <-> a = x \/ In a l.
Proof.
  induction l as [|y l IH]; cbn [insertStr].
  - simpl. intuition.
  - destruct (jstr_ltb y x); simpl in *; rewrite ?IH; intuition.
Qed.

Lemma insertStr_length x l : length (insertStr x l) = S (length l).
Proof.
  induction l as [|y l IH]; cbn [insertStr]; [reflexivity|].
  destruct (jstr_ltb y x); simpl; now rewrite ?IH.
Qed.

Lemma insertStr_ascending x l :
  ascending l -> ~ In x l -> ascending (insertStr x l).
Proof.
  induction l as [|y l IH]; cbn [insertStr ascending]; intros Ha Hn.
  - split; [constructor | exact I].
  - destruct Ha as [Hy Ha]. destruct (jstr_ltb y x) eqn:Hyx; cbn [ascending].
    + split.
      * apply Forall_forall. intros z Hz. apply insertStr_in in Hz.
        destruct Hz as [-> | Hz]; [exact Hyx|].
        rewrite Forall_forall in Hy. now apply Hy.
      * apply IH; [exact Ha|]. intros Hin. apply Hn. now right.
    + assert (Hxy : jstr_ltb x y = true).
      { apply ltb_total; [exact Hyx|]. intros ->. apply Hn. now left. }
      split; [|split; [exact Hy | exact Ha]].
      constructor; [exact Hxy|].
      rewrite Forall_forall in *. intros z Hz. eapply ltb_trans; [exact Hxy | now apply Hy].
Qed.

Lemma sortStrings_in a l : In a (sortStrings l) <-> In a l.
Proof.
  induction l as [|x l IH]; cbn [sortStrings fold_right]; [tauto|].
  rewrite insertStr_in. fold (sortStrings l). rewrite IH. simpl. intuition.
Qed.

Lemma sortStrings_ascending l : NoDup l -> ascending (sortStrings l).
Proof.
  induction 1 as [|x l Hx Hl IH]; cbn [sortStrings fold_right]; [exact I|].
  apply insertStr_ascending; [exact IH|]. fold (sortStrings l). now rewrite sortStrings_in.
Qed.

Lemma ascending_NoDup l : ascending l -> NoDup l.
Proof.
  induction l as [|x l IH]; cbn [ascending]; [constructor|].
  intros [Hx Hl]. constructor; [|now apply IH].
  intros Hin. rewrite Forall_forall in Hx. specialize (Hx x Hin).
  now rewrite ltb_irrefl in Hx.
Qed.

Lemma uniq_in a : forall xs seen, In a (uniq seen xs) <-> In a xs /\ ~ In a seen.
Proof.
  induction xs as [|x xs IH]; intros seen; cbn [uniq]; [simpl; tauto|].
  destruct (existsb (jstr_eqb x) seen) eqn:Hs.
  - rewrite IH. apply existsb_exists in Hs. destruct Hs as [y [Hy Hxy]].
    apply jstr_eqb_eq in Hxy. subst y. simpl. split.
    + intros [H1 H2]. split; [now right | exact H2].
    + intros [[-> | H1] H2]; [contradiction | now split].
  - assert (Hn : ~ In x seen).
    { intros Hin. assert (existsb (jstr_eqb x) seen = true); [|congruence].
      apply existsb_exists. exists x. split; [exact Hin | apply jstr_eqb_refl]. }
    simpl. rewrite IH. simpl. split.
    + intros [-> | [H1 H2]]; [split; [now left | exact Hn]|].
      split; [now right | tauto].
    + intros [[-> | H1] H2]; [now left|].
      destruct (list_eq_dec N.eq_dec x a) as [-> | Hne]; [now left|].
      right. split; [exact H1|]. intros [Hx | Hx]; [now apply Hne | now apply H2].
Qed.

Lemma uniq_NoDup : forall xs seen, NoDup (uniq seen xs).
Proof.
  induction xs as [|x xs IH]; intros seen; cbn [uniq]; [constructor|].
  destruct (existsb (jstr_eqb x) seen); [apply IH|].
  constructor; [|apply IH]. rewrite uniq_in. intros [_ H]. apply H. now left.
Qed.

(** The names [list_available_repos] collects from the rows. *)
Lemma repoNames_in name rows :
  In name (repoNames rows) <->
  name <> [] /\ exists row repo, In row rows /\ Row.repo_full_name row = Some repo
                                 /\ trim repo = name.
Proof.
  unfold repoNames. rewrite uniq_in, in_flat_map. split.
  - intros [[row [Hrow Hin]] _]. destruct (Row.repo_full_name row) as [repo|] eqn:Hr;
      [|contradiction].
    destruct (truthyStr (Some repo) && nonEmpty (trim repo)) eqn:Hc; [|contradiction].
    destruct Hin as [Hin | []]. apply andb_true_iff in Hc. destruct Hc as [_ Hc].
    split; [|now exists row, repo].
    rewrite <- Hin. now destruct (trim repo).
  - intros [Hne [row [repo [Hrow [Hr Ht]]]]]. split; [|tauto].
    exists row. split; [exact Hrow|]. rewrite Hr.
    assert (Hc : truthyStr (Some repo) && nonEmpty (trim repo) = true).
    { apply andb_true_iff. split.
      - destruct repo as [|c r]; [|reflexivity]. now subst name.
      - rewrite Ht. now destruct name. }
    rewrite Hc. now left.
Qed.

End SortFacts.

(** ** The check of the Unassigned column *)

Module CheckFacts.

Local Opaque evaluateTicketReady.

Lemma addToGroup_in repo row groups g x :
  In g (addToGroup repo row groups) -> In x (snd g) ->
  (x = row /\ fst g = repo) \/ exists g0, In g0 groups /\ fst g0 = fst g /\ In x (snd g0).
Proof.
  induction groups as [|[k arr] rest IH]; cbn [addToGroup].
  - intros [<- | []] [<- | []]. now left.
  - destruct (jstr_eqb k repo) eqn:Hk.
    + apply jstr_eqb_eq in Hk. subst k. intros [<- | Hg] Hx.
      * cbn [snd fst] in *. apply in_app_or in Hx. destruct Hx as [Hx | [<- | []]].
        -- right. exists (repo, arr). repeat split; [now left | exact Hx].
        -- now left.
      * right. exists g. repeat split; [now right | exact Hx].
    + intros [<- | Hg] Hx.
      * right. exists (k, arr). repeat split; [now left | exact Hx].
      * destruct (IH Hg Hx) as [H | [g0 [H0 [H1 H2]]]]; [now left|].
        right. exists g0. repeat split; [now right | exact H1 | exact H2].
Qed.

Lemma groups_from : forall rows groups g x,
  In g (fold_left (fun groups row => addToGroup (repoOf row) row groups) rows groups) ->
  In x (snd g) ->
  (In x rows /\ repoOf x = fst g) \/ exists g0, In g0 groups /\ fst g0 = fst g /\ In x (snd g0).
Proof.
  induction rows as [|row rows IH]; intros groups g x Hg Hx; cbn [fold_left] in Hg.
  - right. now exists g.
  - destruct (IH _ _ _ Hg Hx) as [[H1 H2] | [g0 [H0 [H1 H2]]]].
    + left. split; [now right | exact H2].
    + destruct (addToGroup_in _ _ _ _ _ H0 H2) as [[-> Hr] | [g1 [Hg1 [Hf Hx1]]]].
      * left. split; [now left | congruence].
      * right. exists g1. repeat split; [exact Hg1 | congruence | exact Hx1].
Qed.

(** Every row of a group was among the rows grouped and has the group's
    repository. *)
Lemma groupByRepo_in rows g x :
  In g (groupByRepo rows) -> In x (snd g) -> In x rows /\ repoOf x = fst g.
Proof.
  intros Hg Hx. destruct (groups_from rows [] g x Hg Hx) as [H | [g0 [[] _]]]. exact H.
Qed.

Lemma writes_app a b : writes (a ++ b) = writes a ++ writes b.
Proof. unfold writes. apply filter_app. Qed.

Lemma bind_run {E A B} (c : M E A) (k : A -> M E B) (w : World E) :
  bind c k w = match c w with
               | (w', Returned a) => k a w'
               | (w', Thrown msg) => (w', Thrown msg)
               end.
Proof. reflexivity. Qed.

Section Run.
Variable E : Env.

(** The loop over one group: the rows updated are the first ready rows of
    the group, at consecutive positions; when the loop ends, all of them
    were, and the rows that are not ready are reported in order. *)
Lemma moveReady_run now0 : forall rows next moved notReady (w : World E),
  exists k,
    let r := moveReady now0 rows next moved notReady w in
    toolCalls (fst r) = toolCalls w
    /\ writes (accesses (fst r))
       = writes (accesses w) ++ moves now0 (numbered next (firstn k (filter readyRow rows)))
    /\ match snd r with
       | Returned (next', moved', notReady') =>
           firstn k (filter readyRow rows) = filter readyRow rows
           /\ (exists sub, moved' = moved ++ sub
                           /\ incl sub (map shownId (filter readyRow rows)))
           /\ notReady' = notReady ++ map reportOf (filter (fun row => negb (readyRow row)) rows)
       | Thrown _ => True
       end.
Proof.
  induction rows as [|row rest IH]; intros next moved notReady w.
  - exists 0%nat. cbn. repeat split; try now rewrite app_nil_r.
    exists []. split; [now rewrite app_nil_r | intros x []].
  - cbn [moveReady filter].
    change (ready (evaluateTicketReady (strOr (Row.body_md row) []))) with (readyRow row).
    change (missingItems (evaluateTicketReady (strOr (Row.body_md row) [])))
      with (nr_missingItems (reportOf row)).
    destruct (readyRow row) eqn:Hr; cbn [negb].
    + unfold bind.
      destruct (update (todoPatch next now0) (rowKey row) w) as [w' [err|msg]] eqn:Hu;
        destruct (WriteFacts.update_step _ _ _ _ _ Hu) as [Ht [_ Hw]].
      * destruct (IH (jsAdd next 1)
                     (match err with None => moved ++ [shownId row] | Some _ => moved end)
                     notReady w') as [k Hk].
        exists (S k). cbv zeta in Hk |- *. destruct Hk as [Ht' [Hw' Ho]].
        split; [congruence|]. split.
        -- rewrite Hw', Hw. cbn [firstn numbered moves map fst snd].
           rewrite <- app_assoc. reflexivity.
        -- destruct (snd (moveReady now0 rest (jsAdd next 1) _ notReady w'))
             as [[[next' moved'] notReady']|]; [|exact I].
           destruct Ho as [Hall [[sub [Hsub Hincl]] Hnr]]. split; [|split].
           ++ cbn [firstn]. now rewrite Hall.
           ++ destruct err.
              ** exists sub. split; [exact Hsub|]. intros x Hx. right. now apply Hincl.
              ** exists (shownId row :: sub). split.
                 --- rewrite Hsub, <- app_assoc. reflexivity.
                 --- intros x [<- | Hx]; [now left | right; now apply Hincl].
           ++ exact Hnr.
      * exists 1%nat. cbv zeta. cbn [fst snd]. split; [exact Ht|]. split; [|exact I].
        rewrite Hw. cbn [firstn numbered moves map fst snd]. reflexivity.
    + destruct (IH next moved
                   (notReady ++ [mkNotReadyEntry (shownId row) (Row.title row)
                                                 (nr_missingItems (reportOf row))]) w)
        as [k Hk].
      exists k. cbv zeta in Hk |- *. destruct Hk as [Ht' [Hw' Ho]].
      split; [exact Ht'|]. split; [exact Hw'|].
      destruct (snd (moveReady now0 rest next moved _ w)) as [[[next' moved'] notReady']|];
        [|exact I].
      destruct Ho as [Hall [Hsub Hnr]]. split; [exact Hall|]. split; [exact Hsub|].
      rewrite Hnr, <- app_assoc. reflexivity.
Qed.

Lemma reader_nextTodoPosition repo rows : reader (nextTodoPosition (E:=E) repo rows).
Proof.
  unfold nextTodoPosition. destruct rows as [|first rest].
  - intros w. apply MonadFacts.onlyReads_refl.
  - cbv zeta. apply WriteFacts.reader_bind; [apply WriteFacts.reader_select|].
    intros todoR. destruct (error todoR) as [e|]; [|apply WriteFacts.reader_ret].
    destruct (isUnknownColumnError e); [|apply WriteFacts.reader_ret].
    apply WriteFacts.reader_bind; [apply WriteFacts.reader_select|].
    intros legacy. destruct (error legacy); apply WriteFacts.reader_ret.
Qed.

Lemma nextTodoPosition_pos repo rows (w w1 : World E) n :
  nextTodoPosition repo rows w = (w1, Returned (inr n)) -> (1 <= n)%Z.
Proof.
  unfold nextTodoPosition. destruct rows as [|first rest]; [discriminate|].
  cbv zeta. unfold bind, select, ret.
  destruct (selectRows E (store w) _) as [todoR|]; [|discriminate].
  destruct (error todoR) as [e|].
  - destruct (isUnknownColumnError e); [|discriminate].
    destruct (selectRows E _ _) as [legacy|]; [|discriminate].
    destruct (error legacy); [discriminate|].
    intros H. injection H as _ H. subst n. apply WriteFacts.maxPosition_pos.
  - intros H. injection H as _ H. subst n. apply WriteFacts.maxPosition_pos.
Qed.

(** What one run over the groups leaves behind. *)
Definition groupsDone (groups : list (jstring * list Row.t))
    (moved : list (option jstring)) (notReady : list NotReadyEntry)
    (segments : list (Z * list Row.t)) (res : CheckUnassignedResult) : Prop :=
  (cu_error res = None
   /\ map snd segments = map (fun g => filter readyRow (snd g)) groups
   /\ (exists sub, cu_moved res = moved ++ sub
         /\ forall m, In m sub ->
              exists g row, In g groups /\ In row (snd g) /\ readyRow row = true
                            /\ m = shownId row)
   /\ cu_notReady res
      = notReady ++ flat_map (fun g => map reportOf
                                (filter (fun row => negb (readyRow row)) (snd g))) groups)
  \/ (cu_error res <> None /\ cu_moved res = [] /\ cu_notReady res = []).

Lemma eachGroup_run now0 : forall groups moved notReady (w : World E),
  let r := eachGroup now0 groups moved notReady w in
  toolCalls (fst r) = toolCalls w
  /\ exists segments,
       writes (accesses (fst r))
       = writes (accesses w) ++ moves now0 (flat_map segmentMoves segments)
       /\ Forall (fun sg => (1 <= fst sg)%Z
                            /\ exists g, In g groups
                                         /\ incl (snd sg) (filter readyRow (snd g))) segments
       /\ match snd r with
          | Returned res => groupsDone groups moved notReady segments res
          | Thrown _ => True
          end.
Proof.
  induction groups as [|[repo rowsInRepo] rest IH]; intros moved notReady w; cbv zeta.
  - cbn [eachGroup]. unfold ret. cbn [fst snd]. split; [reflexivity|].
    exists []. split; [cbn; now rewrite app_nil_r|]. split; [constructor|].
    left. cbn. repeat split; try now rewrite app_nil_r.
    exists []. split; [now rewrite app_nil_r | intros m []].
  - cbn [eachGroup]. rewrite bind_run.
    pose proof (reader_nextTodoPosition repo rowsInRepo w) as Hread.
    destruct (nextTodoPosition repo rowsInRepo w) as [w2 [[msg|n]|msg]] eqn:Hn;
      cbn [fst] in Hread; apply WriteFacts.reads_writes in Hread; destruct Hread as [Hw2 Ht2].
    + unfold ret. cbn [fst snd]. split; [exact Ht2|].
      exists []. split; [cbn [flat_map moves map]; rewrite app_nil_r; exact Hw2|].
      split; [constructor|].
      right. cbn. repeat split. discriminate.
    + apply nextTodoPosition_pos in Hn.
      rewrite bind_run.
      destruct (moveReady_run now0 rowsInRepo n moved notReady w2) as [k Hk].
      cbv zeta in Hk.
      destruct (moveReady now0 rowsInRepo n moved notReady w2) as [w3 [[[next' moved'] nr']|msg]];
        cbn [fst snd] in Hk; destruct Hk as [Ht3 [Hw3 Ho]].
      * destruct Ho as [Hall [[sub [Hsub Hincl]] Hnr]].
        destruct (IH moved' nr' w3) as [Ht4 [segments [Hw4 [Hsegs Hres]]]].
        split; [congruence|].
        exists ((n, filter readyRow rowsInRepo) :: segments). split; [|split].
        -- rewrite Hw4, Hw3, Hw2, Hall. cbn [flat_map]. unfold segmentMoves at 2.
           cbn [fst snd]. unfold moves. rewrite map_app, <- app_assoc. reflexivity.
        -- constructor.
           ++ cbn [fst snd]. split; [exact Hn|]. exists (repo, rowsInRepo).
              split; [now left | intros x Hx; exact Hx].
           ++ eapply Forall_impl; [|exact Hsegs]. cbv beta.
              intros sg [H1 [g [Hg Hi]]]. split; [exact H1|]. exists g. split; [now right | exact Hi].
        -- destruct (snd (eachGroup now0 rest moved' nr' w3)) as [res|]; [|exact I].
           destruct Hres as [[He [Hmap [[sub' [Hm Hsub']] Hnr']]] | Herr]; [left | now right].
           split; [exact He|]. split; [cbn [map snd]; now rewrite Hmap|]. split.
           ++ exists (sub ++ sub'). split; [rewrite Hm, Hsub, <- app_assoc; reflexivity|].
              intros m Hm'. apply in_app_or in Hm'. destruct Hm' as [Hm' | Hm'].
              ** apply Hincl in Hm'. apply in_map_iff in Hm'. destruct Hm' as [row [Hrow Hin]].
                 apply filter_In in Hin. destruct Hin as [Hin Hr].
                 exists (repo, rowsInRepo), row. repeat split; [now left | exact Hin | exact Hr | now symmetry].
              ** destruct (Hsub' m Hm') as [g [row [Hg [Hrow [Hr Hs]]]]].
                 exists g, row. repeat split; [now right | exact Hrow | exact Hr | exact Hs].
           ++ rewrite Hnr', Hnr. cbn [flat_map snd]. rewrite <- app_assoc. reflexivity.
      * cbn [fst snd]. split; [congruence|].
        exists [(n, firstn k (filter readyRow rowsInRepo))]. split; [|split; [|exact I]].
        -- rewrite Hw3, Hw2. cbn [flat_map]. unfold segmentMoves. cbn [fst snd].
           now rewrite app_nil_r.
        -- constructor; [|constructor]. cbn [fst snd]. split; [exact Hn|].
           exists (repo, rowsInRepo). split; [now left|].
           intros x Hx. cbn [snd]. rewrite <- (firstn_skipn k (filter readyRow rowsInRepo)).
           apply in_or_app. now left.
    + cbn [fst snd]. split; [exact Ht2|].
      exists []. split; [cbn [flat_map moves map]; rewrite app_nil_r; exact Hw2|].
      split; [constructor | exact I].
Qed.

(** All the rows grouped are in the groups: counted through any test. *)
Lemma addToGroup_count (p : Row.t -> bool) repo row : forall groups,
  length (flat_map (fun g => filter p (snd g)) (addToGroup repo row groups))
  = (length (flat_map (fun g => filter p (snd g)) groups) + (if p row then 1 else 0))%nat.
Proof.
  induction groups as [|[k arr] rest IH]; cbn [addToGroup flat_map snd].
  - rewrite app_nil_r. cbn [filter]. now destruct (p row).
  - destruct (jstr_eqb k repo); cbn [flat_map snd]; rewrite !length_app.
    + rewrite filter_app, length_app. cbn [filter]. destruct (p row); cbn [length]; lia.
    + rewrite IH. lia.
Qed.

Lemma groups_count (p : Row.t -> bool) : forall rows groups,
  length (flat_map (fun g => filter p (snd g))
            (fold_left (fun groups row => addToGroup (repoOf row) row groups) rows groups))
  = (length (flat_map (fun g => filter p (snd g)) groups) + length (filter p rows))%nat.
Proof.
  induction rows as [|row rows IH]; intros groups; cbn [fold_left filter].
  - cbn. lia.
  - rewrite IH, addToGroup_count. destruct (p row); cbn [length]; lia.
Qed.

Lemma groupByRepo_count (p : Row.t -> bool) rows :
  length (flat_map (fun g => filter p (snd g)) (groupByRepo rows)) = length (filter p rows).
Proof. unfold groupByRepo. change (fun groups row => addToGroup (strOr (Row.repo_full_name row) LEGACY_REPO) row groups) with (fun groups row => addToGroup (repoOf row) row groups). now rewrite groups_count. Qed.

Lemma addToGroup_has repo row : forall groups,
  (exists g, In g (addToGroup repo row groups) /\ In row (snd g))
  /\ forall g0 x, In g0 groups -> In x (snd g0) ->
       exists g, In g (addToGroup repo row groups) /\ In x (snd g).
Proof.
  induction groups as [|[k arr] rest [IH1 IH2]]; cbn [addToGroup].
  - split; [|intros g0 x []]. exists (repo, [row]). split; now left.
  - destruct (jstr_eqb k repo).
    + split.
      * exists (k, arr ++ [row]). split; [now left|]. cbn [snd]. apply in_or_app. right. now left.
      * intros g0 x [<- | Hg] Hx.
        -- exists (k, arr ++ [row]). split; [now left|]. cbn [snd] in *. apply in_or_app. now left.
        -- exists g0. split; [now right | exact Hx].
    + split.
      * destruct IH1 as [g [Hg Hr]]. exists g. split; [now right | exact Hr].
      * intros g0 x [<- | Hg] Hx.
        -- exists (k, arr). split; [now left | exact Hx].
        -- destruct (IH2 g0 x Hg Hx) as [g [Hg' Hx']]. exists g. split; [now right | exact Hx'].
Qed.

Lemma groups_have : forall rows groups,
  (forall x, In x rows ->
     exists g, In g (fold_left (fun groups row => addToGroup (repoOf row) row groups) rows groups)
               /\ In x (snd g))
  /\ (forall g0 x, In g0 groups -> In x (snd g0) ->
     exists g, In g (fold_left (fun groups row => addToGroup (repoOf row) row groups) rows groups)
               /\ In x (snd g)).
Proof.
  induction rows as [|row rows IH]; intros groups; cbn [fold_left].
  - split; [intros x [] | intros g0 x Hg Hx; now exists g0].
  - destruct (IH (addToGroup (repoOf row) row groups)) as [IH1 IH2].
    destruct (addToGroup_has (repoOf row) row groups) as [[g [Hg Hr]] Hold]. split.
    + intros x [<- | Hx]; [now apply (IH2 g) | now apply IH1].
    + intros g0 x Hg0 Hx. destruct (Hold g0 x Hg0 Hx) as [g1 [Hg1 Hx1]]. now apply (IH2 g1).
Qed.

Lemma groupByRepo_has rows x :
  In x rows -> exists g, In g (groupByRepo rows) /\ In x (snd g).
Proof. intros Hx. now apply (groups_have rows []). Qed.

(** What a run of the body of [checkUnassignedTickets] leaves behind. *)
Definition bodyPost (w : World E) (r : World E * Outcome CheckUnassignedResult) : Prop :=
  toolCalls (fst r) = toolCalls w
  /\ exists segments,
       writes (accesses (fst r))
       = writes (accesses w) ++ moves (nowISO E (ticks w)) (flat_map segmentMoves segments)
       /\ Forall (fun sg => (1 <= fst sg)%Z
                            /\ exists repo, Forall (fun row => movable w row /\ repoOf row = repo)
                                                   (snd sg)) segments
       /\ match snd r with
          | Returned res =>
              (exists rows, ticketsRead w rows
                 /\ groupsDone (groupByRepo (filter unassignedRow rows)) [] [] segments res)
              \/ (cu_error res <> None /\ cu_moved res = [] /\ cu_notReady res = [])
          | Thrown _ => True
          end.

Lemma post_quiet (w w1 : World E) o :
  writes (accesses w1) = writes (accesses w) -> toolCalls w1 = toolCalls w ->
  match o with
  | Returned res => cu_error res <> None /\ cu_moved res = [] /\ cu_notReady res = []
  | Thrown _ => True
  end ->
  bodyPost w (w1, o).
Proof.
  intros Hw Ht Ho. split; [exact Ht|]. exists []. cbn [fst snd flat_map moves map].
  rewrite app_nil_r. split; [exact Hw|]. split; [constructor|].
  destruct o; [now right | exact I].
Qed.

Lemma post_main (w w0 : World E) q resp :
  (q = allTicketsQuery \/ q = allTicketsLegacyQuery) ->
  selectRows E (store w) q = Returned resp -> error resp = None ->
  writes (accesses w0) = writes (accesses w) -> toolCalls w0 = toolCalls w ->
  ticks w0 = ticks w ->
  bodyPost w (bind (@now E)
                   (fun now0 => eachGroup now0
                                  (groupByRepo (filter unassignedRow (orNil (data resp)))) [] [])
                   w0).
Proof.
  intros Hq Hsel He Hw Ht Hk. rewrite bind_run, WriteFacts.now_step, Hk.
  set (w' := mkWorld E (store w0) (accesses w0) (toolCalls w0) (S (ticks w))).
  destruct (eachGroup_run (nowISO E (ticks w))
              (groupByRepo (filter unassignedRow (orNil (data resp)))) [] [] w')
    as [Ht' [segments [Hw' [Hsegs Hres]]]].
  split; [subst w'; cbn [toolCalls] in Ht'; congruence|].
  exists segments. split; [rewrite Hw'; subst w'; cbn [accesses]; now rewrite Hw|].
  split.
  - eapply Forall_impl; [|exact Hsegs]. cbv beta.
    intros sg [H1 [g [Hg Hi]]]. split; [exact H1|]. exists (fst g).
    apply Forall_forall. intros row Hrow. apply Hi in Hrow.
    apply filter_In in Hrow. destruct Hrow as [Hrow Hr].
    destruct (groupByRepo_in _ _ _ Hg Hrow) as [Hin Hrepo].
    apply filter_In in Hin. destruct Hin as [Hin Hu].
    split; [|exact Hrepo]. split; [|split; [exact Hu | exact Hr]].
    destruct (data resp) as [rows|] eqn:Hd; [|contradiction].
    now exists q, resp, rows.
  - destruct (snd (eachGroup _ _ _ _ w')) as [res|]; [|exact I].
    left. exists (orNil (data resp)). split; [now exists q, resp | exact Hres].
Qed.

Lemma body_run (w : World E) : bodyPost w (checkUnassignedBody w).
Proof.
  unfold checkUnassignedBody. rewrite bind_run. unfold select at 1.
  assert (Hlog : forall q (w0 : World E),
             writes (accesses (logged (ASelect q) w0)) = writes (accesses w0)).
  { intros q w0. cbn [logged accesses]. rewrite writes_app. cbn. now rewrite app_nil_r. }
  destruct (selectRows E (store w) allTicketsQuery) as [r|msg] eqn:Hs1.
  - assert (Hmain : error r = None ->
                    bodyPost w (bind (@now E)
                      (fun now0 => eachGroup now0
                         (groupByRepo (filter unassignedRow (orNil (data r)))) [] [])
                      (logged (ASelect allTicketsQuery) w))).
    { intros He. apply (post_main w _ allTicketsQuery r); auto. }
    destruct (error r) as [e|] eqn:He.
    + destruct (isUnknownColumnError e).
      * rewrite bind_run, bind_run. unfold select at 1. cbn [store logged].
        destruct (selectRows E (store w) allTicketsLegacyQuery) as [legacy|msg] eqn:Hs2.
        -- unfold ret at 1. destruct (error legacy) as [le|] eqn:Hle.
           ++ unfold ret. apply post_quiet; [now rewrite !Hlog | reflexivity|].
              cbn. repeat split. discriminate.
           ++ apply (post_main w _ allTicketsLegacyQuery legacy); auto.
              now rewrite !Hlog.
        -- apply post_quiet; [now rewrite !Hlog | reflexivity | exact I].
      * rewrite bind_run. unfold ret. apply post_quiet; [now rewrite Hlog | reflexivity|].
        cbn. repeat split. discriminate.
    + rewrite bind_run. unfold ret at 1. now apply Hmain.
  - apply post_quiet; [now rewrite Hlog | reflexivity | exact I].
Qed.

End Run.

Lemma numbered_has row : forall rows start,
  (1 <= start)%Z ->
  In row rows -> exists p, (1 <= p)%Z /\ In (row, p) (numbered start rows).
Proof.
  induction rows as [|r rows IH]; intros start Hs; [intros []|]. cbn [numbered].
  intros [-> | Hin].
  - exists start. split; [exact Hs | now left].
  - destruct (IH (jsAdd start 1) ltac:(apply DoubleFacts.jsAdd_pos; lia) Hin)
      as [p [Hp Hin']].
    exists p. split; [exact Hp | now right].
Qed.

(** Below [2^53] the counter gives consecutive integers. *)
Lemma numbered_consecutive rows : forall start,
  (1 <= start)%Z -> (start + Z.of_nat (length rows) < two53)%Z ->
  numbered start rows = consecutive start rows.
Proof.
  induction rows as [|r rows IH]; intros start Hs Hb; [reflexivity|].
  cbn [numbered consecutive]. cbn [length] in Hb.
  rewrite DoubleFacts.jsAdd_small by lia53. f_equal. apply IH; lia53.
Qed.

Lemma numbered_length rows : forall start, length (numbered start rows) = length rows.
Proof. induction rows as [|r rows IH]; intros start; cbn [numbered length]; [|rewrite IH]; reflexivity. Qed.

Lemma segments_length segments :
  length (flat_map segmentMoves segments) = length (concat (map snd segments)).
Proof.
  induction segments as [|sg segments IH]; [reflexivity|].
  cbn [flat_map map concat]. rewrite !length_app, IH. unfold segmentMoves.
  now rewrite numbered_length.
Qed.

Lemma concat_filtered {A B} (f : A -> list B) l :
  concat (map f l) = flat_map f l.
Proof. induction l as [|x l IH]; [reflexivity|]. cbn. now rewrite IH. Qed.

Lemma filter_filter {A} (p q : A -> bool) l :
  filter q (filter p l) = filter (fun x => p x && q x) l.
Proof.
  induction l as [|x l IH]; [reflexivity|]. cbn [filter].
  destruct (p x); cbn [filter andb]; [destruct (q x)|]; now rewrite IH.
Qed.

Lemma flat_map_length_map {A B C} (f : A -> list B) (h : B -> C) l :
  length (flat_map (fun x => map h (f x)) l) = length (flat_map f l).
Proof.
  induction l as [|x l IH]; [reflexivity|]. cbn [flat_map].
  now rewrite !length_app, length_map, IH.
Qed.

End CheckFacts.

(** ** Successful creations *)

Module CreatedFacts.

Local Opaque evaluateTicketReady normalizeTitleLineInBody.

Lemma ready_missing body :
  ready (evaluateTicketReady body) = true <-> missingItems (evaluateTicketReady body) = [].
Proof.
  Local Transparent evaluateTicketReady.
  unfold evaluateTicketReady. cbv zeta. cbn [ready missingItems].
  destruct ((0 <? length (sectionContent (trim body) T_GOAL))%nat
            && (length (matchG PLACEHOLDER_RE (sectionContent (trim body) T_GOAL)) =? 0)%nat
            && negb (test wholeBracketRe (trim (sectionContent (trim body) T_GOAL))));
    destruct ((0 <? length (sectionContent (trim body) T_DELIVERABLE))%nat
              && (length (matchG PLACEHOLDER_RE (sectionContent (trim body) T_DELIVERABLE))
                  =? 0)%nat);
    destruct (test checkboxRe (sectionContent (trim body) T_AC));
    destruct (0 <? length (sectionContent (trim body) T_CONSTRAINTS))%nat;
    destruct (0 <? length (sectionContent (trim body) T_NONGOALS))%nat;
    destruct (length (matchG PLACEHOLDER_RE (trim body)) =? 0)%nat;
    cbn [pushUnless app andb]; split; intros H; try reflexivity; discriminate H.
  Local Opaque evaluateTicketReady.
Qed.

Lemma ret_inv {E A} (a b : A) (w w1 : World E) :
  ret a w = (w1, Returned b) -> w1 = w /\ a = b.
Proof.
  unfold ret. intros H. apply pair_equal_spec in H. destruct H as [H1 H2].
  split; [now symmetry|]. now injection H2.
Qed.

Lemma bind_inv {E A B} (c : M E A) (k : A -> M E B) (w w1 : World E) b :
  bind c k w = (w1, Returned b) ->
  exists w' a, c w = (w', Returned a) /\ k a w' = (w1, Returned b).
Proof.
  unfold bind. destruct (c w) as [w' [a|msg]]; intros H.
  - now exists w', a.
  - apply pair_equal_spec in H. destruct H as [_ H]. discriminate H.
Qed.

(** A computation after which every call made before is still on record. *)
Definition growing {E A} (c : M E A) : Prop :=
  forall w, exists l, accesses (fst (c w)) = accesses w ++ l.

Lemma growing_ret {E A} (a : A) : growing (ret (E:=E) a).
Proof. intros w. exists []. cbn. now rewrite app_nil_r. Qed.

Lemma growing_select {E} q : growing (select (E:=E) q).
Proof. intros w. now exists [ASelect q]. Qed.

Lemma growing_now {E} : growing (@now E).
Proof. intros w. exists []. cbn. now rewrite app_nil_r. Qed.

Lemma growing_update {E} patch filters : growing (update (E:=E) patch filters).
Proof.
  intros w. unfold update. destruct (updateRows E (store w) patch filters) as [s' r].
  now exists [AUpdate patch filters].
Qed.

Lemma growing_bind {E A B} (c : M E A) (k : A -> M E B) :
  growing c -> (forall a, growing (k a)) -> growing (bind c k).
Proof.
  intros Hc Hk w. unfold bind. destruct (Hc w) as [l Hl].
  destruct (c w) as [w' [a|msg]]; cbn [fst] in *.
  - destruct (Hk a w') as [l' Hl']. exists (l ++ l'). now rewrite Hl', Hl, app_assoc.
  - now exists l.
Qed.

Lemma growing_tryCatch {E A} (c : M E A) (h : jstring -> M E A) :
  growing c -> (forall msg, growing (h msg)) -> growing (tryCatch c h).
Proof.
  intros Hc Hh w. unfold tryCatch. destruct (Hc w) as [l Hl].
  destruct (c w) as [w' [a|msg]]; cbn [fst] in *.
  - now exists l.
  - destruct (Hh msg w') as [l' Hl']. exists (l ++ l'). now rewrite Hl', Hl, app_assoc.
Qed.

Ltac grow :=
  repeat match goal with
         | |- growing (ret _) => apply growing_ret
         | |- growing (select _) => apply growing_select
         | |- growing (update _ _) => apply growing_update
         | |- growing (@now _) => apply growing_now
         | |- growing (bind _ _) => apply growing_bind
         | |- growing (tryCatch _ _) => apply growing_tryCatch
         | |- forall _, _ => intro
         | |- growing (match ?x with _ => _ end) => destruct x
         | |- growing (if ?x then _ else _) => destruct x
         end.

Lemma growing_autoFix {E} repo n id nb : growing (autoFix (E:=E) repo n id nb).
Proof. unfold autoFix. cbv zeta. grow. Qed.

Lemma growing_autoMove {E} repo n id : growing (autoMove (E:=E) repo n id).
Proof. unfold autoMove. grow. Qed.

(** The readiness the auto-fix hands back is that of the body it hands
    back. *)
Lemma autoFix_shape {E} repo n id nb (w w1 : World E) b r f :
  autoFix repo n id nb w = (w1, Returned (b, r, f)) -> r = evaluateTicketReady b.
Proof.
  assert (Hret : forall (b0 : jstring) (f0 : bool) (w0 : World E),
             ret (b0, evaluateTicketReady b0, f0) w0 = (w1, Returned (b, r, f)) ->
             r = evaluateTicketReady b).
  { intros b0 f0 w0 H. apply ret_inv in H. destruct H as [_ H].
    apply pair_equal_spec in H. destruct H as [H _].
    apply pair_equal_spec in H. destruct H as [H1 H2]. now subst. }
  unfold autoFix. cbv zeta.
  destruct (ready (evaluateTicketReady nb)); [apply Hret|].
  destruct (nonEmpty _ && _ && _); [|apply Hret].
  destruct (exec acRegex nb); [|apply Hret].
  destruct (ready (evaluateTicketReady _)); [|apply Hret].
  intros H. apply bind_inv in H. destruct H as [w' [err [_ H]]].
  destruct err; revert H; apply Hret.
Qed.

Section Loop.
Variable E : Env.
Variables (input : CreateInput) (nb repo prefix slug now0 : jstring) (startNum : Z).

(** A success of the retry loop: what it says and what was inserted. *)
Lemma attempts_ok : forall rem att last (w w1 : World E) cs,
  (1 <= att)%Z -> (att + Z.of_nat rem = 11)%Z ->
  createAttempts rem att input nb repo prefix slug now0 startNum last w
  = (w1, Returned (Ok cs)) ->
  cs_id cs = idOf (cs_ticket_number cs)
  /\ cs_display_id cs = prefix ++ u "-" ++ cs_id cs
  /\ cs_filename cs = cs_id cs ++ u "-" ++ slug ++ u ".md"
  /\ cs_filePath cs = u "supabase:tickets/" ++ cs_display_id cs
  /\ cs_repo_full_name cs = repo
  /\ flagsAgree cs
  /\ exists row, In (AInsert row) (accesses w1) /\ rowOfCreated cs row.
Proof.
  induction rem as [|rem IH]; intros att last w w1 cs Hatt Hsum; cbn [createAttempts].
  - intros H. apply ret_inv in H. destruct H as [_ H]. unfold failWith in H. discriminate H.
  - cbv zeta. destruct (0 <? length _)%nat.
    { intros H. apply ret_inv in H. destruct H as [_ H]. discriminate H. }
    intros H. apply bind_inv in H. destruct H as [w2 [pk1 [Hpk H]]].
    apply bind_inv in H. destruct H as [w3 [r [Hins H]]].
    apply bind_inv in H. destruct H as [w4 [insertError [Hins2 H]]].
    destruct insertError as [e|].
    + destruct (negb (isUniqueViolation e)).
      * apply ret_inv in H. destruct H as [_ H]. unfold failWith in H. discriminate H.
      * apply IH in H; [exact H | lia | lia].
    + apply bind_inv in H. destruct H as [w5 [[[finalBodyMd readiness] autoFixed] [Hfix H]]].
      apply bind_inv in H. destruct H as [w6 [[movedToTodo moveError] [Hmove H]]].
      apply ret_inv in H. destruct H as [Hw H].
      assert (Hcs : cs = mkCreateSuccess (padStart0 4 (numToString (jsSub (jsAdd startNum att) 1)))
                       (prefix ++ u "-" ++ padStart0 4 (numToString (jsSub (jsAdd startNum att) 1)))
                       (jsSub (jsAdd startNum att) 1) repo
                       (padStart0 4 (numToString (jsSub (jsAdd startNum att) 1)) ++ u "-" ++ slug
                        ++ u ".md")
                       (u "supabase:tickets/" ++ prefix ++ u "-"
                        ++ padStart0 4 (numToString (jsSub (jsAdd startNum att) 1)))
                       (flagField (1 <? att)%Z)
                       (if (1 <? att)%Z then Some att else None)
                       (ready readiness)
                       (match missingItems readiness with [] => None | l => Some l end)
                       (flagField autoFixed) (flagField movedToTodo)
                       (if truthyStr moveError then moveError else None)).
      { symmetry. now injection H. }
      clear H. subst cs w1. cbn [cs_id cs_display_id cs_filename cs_filePath cs_repo_full_name
                                 cs_ticket_number].
      repeat (split; [reflexivity|]). split.
      * unfold flagsAgree. cbn [cs_ready cs_missingItems cs_movedToTodo cs_attempts cs_retried].
        apply autoFix_shape in Hfix. subst readiness. split; [|split].
        -- rewrite ready_missing. destruct (missingItems _); split; intros H;
             try reflexivity; discriminate H.
        -- destruct (ready (evaluateTicketReady finalBodyMd)); [reflexivity|].
           apply ret_inv in Hmove. destruct Hmove as [_ Hmove].
           apply pair_equal_spec in Hmove. destruct Hmove as [<- _]. discriminate.
        -- destruct (Z.ltb_spec 1 att); cbn [flagField]; [|reflexivity].
           split; [reflexivity|]. unfold MAX_CREATE_TICKET_RETRIES. lia.
      * assert (Hgrow : exists l, accesses w6 = accesses w4 ++ l).
        { destruct (growing_autoFix repo (jsSub (jsAdd startNum att) 1)
                      (padStart0 4 (numToString (jsSub (jsAdd startNum att) 1)))
                      (normalizeTitleLineInBody nb
                         (prefix ++ u "-" ++ padStart0 4 (numToString (jsSub (jsAdd startNum att) 1))))
                      w4) as [l1 Hl1].
          rewrite Hfix in Hl1. cbn [fst] in Hl1.
          destruct (ready readiness).
          - destruct (growing_autoMove repo (jsSub (jsAdd startNum att) 1)
                        (padStart0 4 (numToString (jsSub (jsAdd startNum att) 1))) w5) as [l2 Hl2].
            rewrite Hmove in Hl2. cbn [fst] in Hl2. exists (l1 ++ l2).
            now rewrite Hl2, Hl1, app_assoc.
          - apply ret_inv in Hmove. destruct Hmove as [-> _]. now exists l1. }
        destruct Hgrow as [l Hl].
        assert (Hrow : exists row, In (AInsert row) (accesses w4)
                       /\ Row.id row = Some (padStart0 4 (numToString (jsSub (jsAdd startNum att) 1)))
                       /\ Row.filename row
                          = Some (padStart0 4 (numToString (jsSub (jsAdd startNum att) 1)) ++ u "-"
                                  ++ slug ++ u ".md")
                       /\ Row.kanban_column_id row = Some COL_UNASSIGNED
                       /\ Row.kanban_position row = Some 0%Z).
        { unfold insert in Hins.
          destruct (insertRow E (store w2) _) as [s3 r3] eqn:Hi in Hins.
          apply pair_equal_spec in Hins. destruct Hins as [Hw3 Hr3].
          destruct r as [e|].
          - destruct (isUnknownColumnError e).
            + apply bind_inv in Hins2. destruct Hins2 as [w3' [pk2 [_ Hins2]]].
              unfold insert in Hins2.
              destruct (insertRow E (store w3') _) as [s4 r4] in Hins2.
              apply pair_equal_spec in Hins2. destruct Hins2 as [Hw4 _].
              eexists. split; [rewrite <- Hw4; cbn [accesses]; apply in_or_app; right; now left|].
              repeat split.
            + apply ret_inv in Hins2. destruct Hins2 as [_ Hins2]. discriminate Hins2.
          - apply ret_inv in Hins2. destruct Hins2 as [-> _].
            eexists. split; [rewrite <- Hw3; cbn [accesses]; apply in_or_app; right; now left|].
            repeat split. }
        destruct Hrow as [row [Hin Hrow]]. exists row. split; [|exact Hrow].
        rewrite Hl. apply in_or_app. now left.
Qed.

End Loop.

End CreatedFacts.

(** ** File names of the sync script *)

Module SyncFacts.
Import RegexFacts.

(** [p{n}] takes the next [n] units when they are all in the class, and
    fails otherwise. *)
Lemma times_class {R} (p : jchar -> bool) (k : mstate -> option R) : forall n bef s cps,
  rmatch (times n (Chr p)) (MState bef s cps) k
  = if (n <=? length s)%nat && forallb p (firstn n s)
    then k (MState (rev (firstn n s) ++ bef) (skipn n s) cps)
    else None.
Proof.
  induction n as [|n IH]; intros bef s cps; cbn [times].
  - rewrite rmatch_eps. reflexivity.
  - rewrite rmatch_seq. destruct s as [|c s]; [reflexivity|].
    rewrite rmatch_chr. cbn [firstn forallb length skipn].
    change (S n <=? S (length s))%nat with (n <=? length s)%nat.
    destruct (p c); [|now rewrite andb_false_r].
    rewrite IH. cbn [andb rev]. rewrite <- app_assoc. reflexivity.
Qed.

(** A pattern anchored at the start matches nowhere else. *)
Lemma anchored_later r : forall s pre,
  pre <> [] -> search (Seq (Bol false) r) pre s = None.
Proof.
  assert (Hat : forall s pre, pre <> [] -> attempt (Seq (Bol false) r) pre s = None).
  { intros s pre Hpre. unfold attempt. rewrite rmatch_seq, ReadyFacts.rmatch_bol.
    cbn [before]. destruct pre; [congruence | reflexivity]. }
  induction s as [|c s IH]; intros pre Hpre; cbn [search]; rewrite Hat by exact Hpre.
  - reflexivity.
  - apply IH. discriminate.
Qed.

Lemma anchored_exec r s : exec (Seq (Bol false) r) s = attempt (Seq (Bol false) r) [] s.
Proof.
  unfold exec. destruct s as [|c s]; cbn [search];
    destruct (attempt (Seq (Bol false) r) [] _); try reflexivity.
  apply anchored_later. discriminate.
Qed.

End SyncFacts.

(** ** Values with nothing to redact *)

Module PlainFacts.
Import RegexFacts.

Lemma startsWith_app p tail : startsWith p (p ++ tail) = true.
Proof. induction p as [|c p IH]; [now destruct tail|]. cbn. now rewrite N.eqb_refl. Qed.

Lemma includes_here p s : startsWith p s = true -> includes p s = true.
Proof. intros H. destruct s; cbn [includes]; now rewrite H. Qed.

Lemma includes_later p g : forall s, includes p s = true -> includes p (g ++ s) = true.
Proof.
  induction g as [|c g IH]; intros s H; [exact H|]. cbn [app includes].
  rewrite (IH s H). apply orb_true_r.
Qed.

Lemma includes_at p g tail : includes p (g ++ p ++ tail) = true.
Proof. apply includes_later, includes_here, startsWith_app. Qed.

(** No match, no replacement. *)
Lemma replaceAll_none n r tpl s : search r [] s = None -> replaceAll n r tpl s = s.
Proof. intros H. unfold replaceAll. cbn [replaceFrom]. now rewrite H. Qed.

(** A pattern that starts with a literal matches only where the literal
    stands. *)
Lemma search_lit_first l r s :
  includes l s = false -> search (Seq (lit l) r) [] s = None.
Proof.
  intros Hno. destruct (search (Seq (lit l) r) [] s) as [m|] eqn:Hs; [|reflexivity].
  destruct (search_some _ _ _ _ Hs) as [g [Hsplit [_ [Hat _]]]].
  unfold attempt in Hat. rewrite rmatch_seq in Hat.
  apply RedactFacts.lit_inv in Hat. destruct Hat as [tail [Ht _]].
  rewrite Hsplit, Ht, includes_at in Hno. discriminate.
Qed.

Lemma canon_exact x c :
  isUpper x = false -> isLower x = false -> N.eqb (canon x) (canon c) = true -> c = x.
Proof.
  unfold canon, upperAscii. intros Hu Hl H. rewrite Hl in H. apply N.eqb_eq in H.
  destruct (isLower c) eqn:Hc; [|now symmetry].
  exfalso. unfold isLower, isUpper, inRange in *.
  apply andb_true_iff in Hc. destruct Hc as [H1 H2]. apply N.leb_le in H1, H2.
  assert (Hx : ((65 <=? x) && (x <=? 90))%N = true).
  { apply andb_true_iff. split; apply N.leb_le; lia. }
  congruence.
Qed.

(** A literal under the [i] flag matches unit by unit, up to case. *)
Lemma lit_i_inv {R} (k : mstate -> option R) res : forall l bef s cps,
  rmatch (lit_i l) (MState bef s cps) k = Some res ->
  exists m tail, s = m ++ tail
                 /\ Forall2 (fun x c => N.eqb (canon x) (canon c) = true) l m
                 /\ k (MState (rev m ++ bef) tail cps) = Some res.
Proof.
  unfold lit_i. induction l as [|c l IH]; intros bef s cps H.
  - exists [], s. repeat split; [constructor | exact H].
  - destruct l as [|d l].
    + cbn [map seqs] in H. destruct s as [|x s]; [discriminate|].
      rewrite rmatch_chr in H. destruct (N.eqb (canon c) (canon x)) eqn:Hx; [|discriminate].
      exists [x], s. repeat split; [repeat constructor; exact Hx | exact H].
    + change (seqs (map (fun c0 => Chr (fun d0 => N.eqb (canon c0) (canon d0))) (c :: d :: l)))
        with (Seq (Chr (fun d0 => N.eqb (canon c) (canon d0)))
                  (seqs (map (fun c0 => Chr (fun d0 => N.eqb (canon c0) (canon d0))) (d :: l))))
        in H.
      rewrite rmatch_seq in H. destruct s as [|x s]; [discriminate|].
      rewrite rmatch_chr in H. destruct (N.eqb (canon c) (canon x)) eqn:Hx; [|discriminate].
      apply IH in H. destruct H as [m [tail [Hs [Hall Hk]]]].
      exists (x :: m), tail. split; [now rewrite Hs|]. split; [now constructor|].
      cbn [rev]. now rewrite <- app_assoc.
Qed.

(** The URL pattern matches only where a scheme separator stands. *)
Lemma search_url s :
  includes (u "://") s = false -> search Redact.SUPABASE_URL_PATTERN [] s = None.
Proof.
  intros Hno. destruct (search Redact.SUPABASE_URL_PATTERN [] s) as [m|] eqn:Hs;
    [|reflexivity].
  destruct (search_some _ _ _ _ Hs) as [g [Hsplit [_ [Hat _]]]].
  unfold attempt, Redact.SUPABASE_URL_PATTERN in Hat.
  cbn [seqs] in Hat. rewrite rmatch_seq in Hat.
  apply lit_i_inv in Hat. destruct Hat as [h [tail [Ht [Hall _]]]].
  rewrite Hsplit, Ht in Hno. clear Hsplit Ht Hs.
  change (u "https://") with [104; 116; 116; 112; 115; 58; 47; 47]%N in Hall.
  inversion Hall as [|? c1 ? h1 _ Hall1]; subst.
  inversion Hall1 as [|? c2 ? h2 _ Hall2]; subst.
  inversion Hall2 as [|? c3 ? h3 _ Hall3]; subst.
  inversion Hall3 as [|? c4 ? h4 _ Hall4]; subst.
  inversion Hall4 as [|? c5 ? h5 _ Hall5]; subst.
  inversion Hall5 as [|? c6 ? h6 H6 Hall6]; subst.
  inversion Hall6 as [|? c7 ? h7 H7 Hall7]; subst.
  inversion Hall7 as [|? c8 ? h8 H8 Hall8]; subst.
  inversion Hall8; subst.
  apply canon_exact in H6; [|reflexivity|reflexivity].
  apply canon_exact in H7; [|reflexivity|reflexivity].
  apply canon_exact in H8; [|reflexivity|reflexivity].
  subst c6 c7 c8.
  change ([c1; c2; c3; c4; c5; 58; 47; 47]%N ++ tail)
    with ([c1; c2; c3; c4; c5] ++ u "://" ++ tail) in Hno.
  rewrite app_assoc, includes_at in Hno. discriminate.
Qed.

Lemma redactString_plain s : plainString s = true -> Redact.redactString s = s.
Proof.
  unfold plainString. intros H. apply andb_true_iff in H. destruct H as [H H3].
  apply andb_true_iff in H. destruct H as [H1 H2].
  apply negb_true_iff in H1, H2, H3. unfold Redact.redactString.
  rewrite (replaceAll_none 0 Redact.OPENAI_KEY_PATTERN);
    [|now apply search_lit_first].
  rewrite (replaceAll_none 0 Redact.JWT_PATTERN);
    [|unfold Redact.JWT_PATTERN; cbn [seqs]; now apply search_lit_first].
  apply replaceAll_none. now apply search_url.
Qed.

(** Induction on a value through the values it holds. *)
Lemma json_nested (P : Redact.json -> Prop) :
  P Redact.JNull -> (forall b, P (Redact.JBool b)) -> (forall z, P (Redact.JNum z)) ->
  (forall s, P (Redact.JStr s)) ->
  (forall items, Forall P items -> P (Redact.JArr items)) ->
  (forall entries, Forall (fun kv => P (snd kv)) entries -> P (Redact.JObj entries)) ->
  forall v, P v.
Proof.
  intros Hnull Hbool Hnum Hstr Harr Hobj. fix IH 1. intros [|b|z|s|items|entries].
  - exact Hnull.
  - apply Hbool.
  - apply Hnum.
  - apply Hstr.
  - apply Harr. induction items as [|v items IHi]; constructor; [apply IH | exact IHi].
  - apply Hobj. induction entries as [|[k v] entries IHe]; constructor;
      [apply IH | exact IHe].
Qed.

Lemma redactValue_plain : forall v key,
  plainValue v = true -> Redact.sensitiveString v key = false ->
  Redact.redactValue v key = v.
Proof.
  induction v as [|b|z|s|items IH|entries IH] using json_nested; intros key Hp Hs.
  - now destruct key as [[|c k]|].
  - now destruct key as [[|c k]|].
  - now destruct key as [[|c k]|].
  - cbn [Redact.redactValue]. rewrite Hs. f_equal. now apply redactString_plain.
  - rewrite RedactFacts.redactValue_arr. f_equal. cbn [plainValue] in Hp.
    induction items as [|v items IHi]; [reflexivity|].
    cbn [forallb] in Hp. apply andb_true_iff in Hp. destruct Hp as [Hv Hi].
    inversion IH as [|? ? Hv' Hi']; subst. cbn [map]. f_equal.
    + apply Hv'; [exact Hv | reflexivity].
    + now apply IHi.
  - rewrite RedactFacts.redactValue_obj. f_equal. cbn [plainValue] in Hp.
    induction entries as [|[k v] entries IHe]; [reflexivity|].
    cbn [forallb fst snd] in Hp. apply andb_true_iff in Hp. destruct Hp as [Hkv He].
    apply andb_true_iff in Hkv. destruct Hkv as [Hkv Hv].
    apply andb_true_iff in Hkv. destruct Hkv as [Hk Hsens].
    apply negb_true_iff in Hsens.
    inversion IH as [|? ? Hv' He']; subst. cbn [redactEntries]. rewrite Hk. f_equal.
    + f_equal. now apply Hv'.
    + now apply IHe.
Qed.

End PlainFacts.

(** ** Blank report bodies *)

Module QaFacts.

Lemma trimStart_blank s : trimStart s = [] <-> forallb isWs s = true.
Proof.
  induction s as [|c s IH]; cbn [trimStart forallb]; [tauto|].
  destruct (isWs c); cbn [andb]; [exact IH|]. split; discriminate.
Qed.

Lemma trimStart_head s c t : trimStart s = c :: t -> isWs c = false.
Proof.
  induction s as [|x s IH]; cbn [trimStart]; [discriminate|].
  destruct (isWs x) eqn:Hx; [exact IH|]. intros H. injection H as <- _. exact Hx.
Qed.

(** [trim] leaves nothing exactly of the strings of white space. *)
Lemma trim_blank s : trim s = [] <-> forallb isWs s = true.
Proof.
  unfold trim, trimEnd. split.
  - intros H. apply (f_equal (@rev jchar)) in H. rewrite rev_involutive in H. cbn [rev] in H.
    apply trimStart_blank in H. rewrite PathFacts.forallb_rev in H.
    destruct (trimStart s) as [|c t] eqn:Ht; [now apply trimStart_blank|].
    apply trimStart_head in Ht. cbn [forallb] in H. rewrite Ht in H. discriminate.
  - intros H. apply trimStart_blank in H. now rewrite H.
Qed.

End QaFacts.

(** ** What a creation writes *)

Module CreateWrites.

Local Opaque evaluateTicketReady normalizeTitleLineInBody.

Lemma bind_cases {E A B} (c : M E A) (k : A -> M E B) (w w1 : World E) o :
  bind c k w = (w1, o) ->
  (exists msg, c w = (w1, Thrown msg) /\ o = Thrown msg)
  \/ exists w2 a, c w = (w2, Returned a) /\ k a w2 = (w1, o).
Proof.
  unfold bind. destruct (c w) as [w2 [a|msg]]; intros H.
  - right. now exists w2, a.
  - left. apply pair_equal_spec in H. destruct H as [<- <-]. now exists msg.
Qed.

Lemma ret_world {E A} (a : A) (w w1 : World E) o : ret a w = (w1, o) -> w1 = w.
Proof. unfold ret. intros H. apply pair_equal_spec in H. now destruct H. Qed.

Lemma reader_writes {E A} (c : M E A) (w w1 : World E) o :
  reader c -> c w = (w1, o) -> writes (accesses w1) = writes (accesses w).
Proof.
  intros Hc H. specialize (Hc w). rewrite H in Hc. cbn [fst] in Hc.
  now apply WriteFacts.reads_writes in Hc.
Qed.

(** The auto-fix writes at most once: the body of the row just made. *)
Lemma autoFix_writes {E} repo n id nb (w w1 : World E) o :
  autoFix repo n id nb w = (w1, o) ->
  writes (accesses w1) = writes (accesses w)
  \/ exists body, writes (accesses w1)
                  = writes (accesses w) ++ [AUpdate (bodyPatch body) (createdRowFilter repo n id)].
Proof.
  assert (Hret : forall (x : jstring * ReadyCheckResult * bool) (w0 : World E),
             writes (accesses w0) = writes (accesses w)
             \/ (exists body, writes (accesses w0)
                   = writes (accesses w) ++ [AUpdate (bodyPatch body) (createdRowFilter repo n id)]) ->
             ret x w0 = (w1, o) ->
             writes (accesses w1) = writes (accesses w)
             \/ exists body, writes (accesses w1)
                  = writes (accesses w) ++ [AUpdate (bodyPatch body) (createdRowFilter repo n id)]).
  { intros x w0 H0 H. apply ret_world in H. now subst w1. }
  unfold autoFix. cbv zeta.
  destruct (ready (evaluateTicketReady nb)); [apply Hret; now left|].
  destruct (nonEmpty _ && _ && _); [|apply Hret; now left].
  destruct (exec acRegex nb); [|apply Hret; now left].
  destruct (ready (evaluateTicketReady _)); [|apply Hret; now left].
  intros H. apply bind_cases in H. destruct H as [[msg [Hu _]] | [w2 [err [Hu H]]]];
    apply WriteFacts.update_step in Hu; destruct Hu as [_ [_ Hu]].
  - right. eexists. exact Hu.
  - destruct err; revert H; apply Hret; right; eexists; exact Hu.
Qed.

(** The auto-move writes at most once: it moves the row just made to To
    Do, at a position of at least 1. *)
Lemma autoMove_writes {E} repo n id (w w1 : World E) o :
  autoMove repo n id w = (w1, o) ->
  writes (accesses w1) = writes (accesses w)
  \/ exists patch, movesToTodo patch
       /\ writes (accesses w1) = writes (accesses w) ++ [AUpdate patch (createdRowFilter repo n id)].
Proof.
  unfold autoMove, tryCatch.
  match goal with |- context [bind ?c ?k w] => destruct (bind c k w) as [w2 o2] eqn:Hb end.
  assert (Hin : writes (accesses w2) = writes (accesses w)
                \/ exists patch, movesToTodo patch
                     /\ writes (accesses w2)
                        = writes (accesses w) ++ [AUpdate patch (createdRowFilter repo n id)]).
  { apply bind_cases in Hb. destruct Hb as [[msg [Hs _]] | [w3 [todoR [Hs Hb]]]].
    - left. eapply reader_writes; [apply WriteFacts.reader_select | exact Hs].
    - apply (reader_writes _ _ _ _ (WriteFacts.reader_select _)) in Hs.
      apply bind_cases in Hb. destruct Hb as [[msg [Hp _]] | [w4 [pos [Hp Hb]]]].
      + left. rewrite <- Hs. eapply reader_writes; [|exact Hp].
        destruct (error todoR) as [e|]; [|apply WriteFacts.reader_ret].
        destruct (isUnknownColumnError e); [|apply WriteFacts.reader_ret].
        apply WriteFacts.reader_bind; [apply WriteFacts.reader_select|].
        intros legacy. destruct (error legacy); apply WriteFacts.reader_ret.
      + assert (Hw4 : writes (accesses w4) = writes (accesses w)).
        { rewrite <- Hs. eapply reader_writes; [|exact Hp].
          destruct (error todoR) as [e|]; [|apply WriteFacts.reader_ret].
          destruct (isUnknownColumnError e); [|apply WriteFacts.reader_ret].
          apply WriteFacts.reader_bind; [apply WriteFacts.reader_select|].
          intros legacy. destruct (error legacy); apply WriteFacts.reader_ret. }
        assert (Hpos : forall p, pos = inr p -> (1 <= p)%Z).
        { intros p ->. revert Hp. destruct (error todoR) as [e|].
          - destruct (isUnknownColumnError e).
            + intros Hp. apply bind_cases in Hp.
              destruct Hp as [[msg [_ Hp]] | [w5 [legacy [_ Hp]]]]; [discriminate Hp|].
              destruct (error legacy); apply CreatedFacts.ret_inv in Hp;
                destruct Hp as [_ Hp]; [discriminate Hp|].
              injection Hp as <-. apply WriteFacts.maxPosition_pos.
            + intros Hp. apply CreatedFacts.ret_inv in Hp. destruct Hp as [_ Hp].
              discriminate Hp.
          - intros Hp. apply CreatedFacts.ret_inv in Hp. destruct Hp as [_ Hp].
            injection Hp as <-. apply WriteFacts.maxPosition_pos. }
        destruct pos as [moveError|p].
        * left. apply ret_world in Hb. now subst w2.
        * specialize (Hpos p eq_refl).
          apply bind_cases in Hb. destruct Hb as [[msg [Hn _]] | [w5 [now' [Hn Hb]]]];
            [rewrite WriteFacts.now_step in Hn; apply pair_equal_spec in Hn;
             destruct Hn as [_ Hn]; discriminate Hn|].
          rewrite WriteFacts.now_step in Hn. apply pair_equal_spec in Hn.
          destruct Hn as [Hw5 _].
          assert (Hw5' : writes (accesses w5) = writes (accesses w))
            by (rewrite <- Hw5; exact Hw4).
          apply bind_cases in Hb. destruct Hb as [[msg [Hu _]] | [w6 [err [Hu Hb]]]].
          -- apply WriteFacts.update_step in Hu. destruct Hu as [_ [_ Hu]].
             right. eexists. split; [|rewrite Hu, Hw5'; reflexivity].
             split; [reflexivity|]. now exists p.
          -- apply WriteFacts.update_step in Hu. destruct Hu as [_ [_ Hu]].
             assert (w2 = w6) by (destruct err; apply ret_world in Hb; exact Hb). subst w6.
             right. eexists. split; [|rewrite Hu, Hw5'; reflexivity].
             split; [reflexivity|]. now exists p. }
  destruct o2 as [a|msg]; intros H.
  - apply pair_equal_spec in H. destruct H as [<- _]. exact Hin.
  - apply ret_world in H. subst w1. exact Hin.
Qed.

Lemma uuid_writes {E} (w w1 : World E) o :
  uuid w = (w1, o) -> writes (accesses w1) = writes (accesses w).
Proof. unfold uuid. intros H. apply pair_equal_spec in H. destruct H as [<- _]. reflexivity. Qed.

Lemma insert_writes {E} row (w w1 : World E) o :
  insert row w = (w1, o) -> writes (accesses w1) = writes (accesses w) ++ [AInsert row].
Proof.
  unfold insert. destruct (insertRow E (store w) row) as [s' r]. intros H.
  apply pair_equal_spec in H. destruct H as [<- _]. cbn [accesses].
  unfold writes. now rewrite filter_app.
Qed.

(** What a run of [create_ticket] has written: rows inserted, then updates
    of the row made for [n]. *)
Definition written {E} (repo : jstring) (w w1 : World E) (o : Outcome (Result CreateSuccess))
    (bound : nat) : Prop :=
  exists inserts updates n,
    writes (accesses w1) = writes (accesses w) ++ map AInsert inserts ++ updates
    /\ (length inserts <= bound)%nat /\ (length updates <= 2)%nat
    /\ Forall (ownUpdate repo n) updates
    /\ (updates <> [] -> exists row, In row inserts /\ Row.id row = Some (idOf n))
    /\ (forall cs, o = Returned (Ok cs) -> cs_ticket_number cs = n /\ inserts <> []).

Lemma written_nothing {E} repo (w w1 : World E) o bound :
  writes (accesses w1) = writes (accesses w) ->
  (forall cs, o <> Returned (Ok cs)) ->
  written repo w w1 o bound.
Proof.
  intros Hw Ho. exists [], [], 0%Z. cbn [map app length]. rewrite app_nil_r.
  split; [exact Hw|]. split; [lia|]. split; [lia|]. split; [constructor|].
  split; [congruence|]. intros cs Hcs. now apply Ho in Hcs.
Qed.

Lemma written_inserts {E} repo (w w1 : World E) o bound rows :
  writes (accesses w1) = writes (accesses w) ++ map AInsert rows ->
  (length rows <= bound)%nat ->
  (forall cs, o <> Returned (Ok cs)) ->
  written repo w w1 o bound.
Proof.
  intros Hw Hb Ho. exists rows, [], 0%Z. rewrite app_nil_r.
  split; [exact Hw|]. split; [exact Hb|]. split; [cbn; lia|]. split; [constructor|].
  split; [congruence|]. intros cs Hcs. now apply Ho in Hcs.
Qed.

Lemma written_more {E} repo (w w0 w1 : World E) o bound rows :
  writes (accesses w0) = writes (accesses w) ++ map AInsert rows ->
  written repo w0 w1 o bound ->
  written repo w w1 o (length rows + bound).
Proof.
  intros Hw [inserts [updates [n [Hw1 [Hb [Hu [Hown [Hrow Hcs]]]]]]]].
  exists (rows ++ inserts), updates, n. rewrite Hw1, Hw, map_app, <- !app_assoc.
  split; [reflexivity|]. split; [rewrite length_app; lia|]. split; [exact Hu|].
  split; [exact Hown|]. split.
  - intros Hne. destruct (Hrow Hne) as [row [Hin Hid]]. exists row.
    split; [apply in_or_app; now right | exact Hid].
  - intros cs Ho. destruct (Hcs cs Ho) as [Hn Hi]. split; [exact Hn|].
    intros Happ. apply app_eq_nil in Happ. now destruct Happ.
Qed.

Section Loop.
Variable E : Env.
Variables (input : CreateInput) (nb repo prefix slug now0 : jstring) (startNum : Z).

Lemma attempts_writes : forall rem att last (w w1 : World E) o,
  createAttempts rem att input nb repo prefix slug now0 startNum last w = (w1, o) ->
  written repo w w1 o (2 * rem).
Proof.
  induction rem as [|rem IH]; intros att last w w1 o; cbn [createAttempts].
  - intros H. unfold ret in H. apply pair_equal_spec in H. destruct H as [<- <-].
    apply written_nothing; [reflexivity | discriminate].
  - cbv zeta. destruct (0 <? length _)%nat.
    { intros H. unfold ret in H. apply pair_equal_spec in H. destruct H as [<- <-].
      apply written_nothing; [reflexivity | discriminate]. }
    intros H. apply bind_cases in H. destruct H as [[msg [Hpk ->]] | [w2 [pk1 [Hpk H]]]].
    { apply written_nothing; [now apply uuid_writes in Hpk | discriminate]. }
    apply uuid_writes in Hpk.
    apply bind_cases in H. destruct H as [[msg [Hins ->]] | [w3 [r [Hins H]]]].
    { apply insert_writes in Hins. rewrite Hpk in Hins.
      eapply (written_inserts repo w w1 _ _ [_]); [exact Hins | cbn; lia | discriminate]. }
    apply insert_writes in Hins. rewrite Hpk in Hins.
    match type of Hins with _ = _ ++ [AInsert ?row] => set (row1 := row) in * end.
    apply bind_cases in H. destruct H as [[msg [Hins2 ->]] | [w4 [insertError [Hins2 H]]]].
    { destruct r as [e|]; [|apply ret_world in Hins2; subst w3;
        eapply (written_inserts repo w w1 _ _ [_]); [exact Hins | cbn; lia | discriminate]].
      destruct (isUnknownColumnError e);
        [|apply ret_world in Hins2; subst w3;
          eapply (written_inserts repo w w1 _ _ [_]); [exact Hins | cbn; lia | discriminate]].
      apply bind_cases in Hins2.
      destruct Hins2 as [[msg' [Hpk2 _]] | [w3' [pk2 [Hpk2 Hins2]]]].
      - apply uuid_writes in Hpk2. rewrite Hins in Hpk2.
        eapply (written_inserts repo w w1 _ _ [_]); [exact Hpk2 | cbn; lia | discriminate].
      - apply uuid_writes in Hpk2. apply insert_writes in Hins2.
        rewrite Hpk2, Hins, <- app_assoc in Hins2.
        eapply (written_inserts repo w w1 _ _ [_; _]); [exact Hins2 | cbn; lia | discriminate]. }
    assert (Hrows : exists rows, writes (accesses w4) = writes (accesses w) ++ map AInsert rows
                                 /\ (1 <= length rows <= 2)%nat
                                 /\ (insertError = None ->
                                     exists row, In row rows
                                       /\ Row.id row
                                          = Some (padStart0 4 (numToString (jsSub (jsAdd startNum att) 1))))).
    { destruct r as [e|].
      - destruct (isUnknownColumnError e).
        + apply bind_cases in Hins2.
          destruct Hins2 as [[msg' [_ Hx]] | [w3' [pk2 [Hpk2 Hins2]]]]; [discriminate Hx|].
          apply uuid_writes in Hpk2. apply insert_writes in Hins2.
          rewrite Hpk2, Hins, <- app_assoc in Hins2.
          eexists [_; _]. split; [exact Hins2|]. split; [cbn; lia|].
          intros _. eexists. split; [right; left; reflexivity | reflexivity].
        + apply CreatedFacts.ret_inv in Hins2. destruct Hins2 as [-> <-].
          exists [row1]. split; [exact Hins|]. split; [cbn; lia | discriminate].
      - apply CreatedFacts.ret_inv in Hins2. destruct Hins2 as [-> <-].
        exists [row1]. split; [exact Hins|]. split; [cbn; lia|].
        intros _. exists row1. split; [now left | reflexivity]. }
    clear Hins Hins2. destruct Hrows as [rows [Hw4 [Hlen Hrow]]].
    destruct insertError as [e|].
    + destruct (negb (isUniqueViolation e)).
      * apply ret_world in H as Hw. unfold ret in H. apply pair_equal_spec in H.
        destruct H as [_ <-]. subst w1.
        apply (written_inserts repo w w4 _ _ rows); [exact Hw4 | lia | discriminate].
      * apply IH in H. apply (written_more repo w w4 w1 o (2 * rem) rows Hw4) in H.
        destruct H as [inserts [updates [n H]]]. exists inserts, updates, n.
        destruct H as [H1 [H2 H3]]. split; [exact H1|]. split; [lia | exact H3].
    + destruct (Hrow eq_refl) as [row [Hin Hid]].
      set (cand := (jsSub (jsAdd startNum att) 1)) in *.
      assert (Hshape : forall (w5 : World E) updates,
                 writes (accesses w5) = writes (accesses w4) ++ updates ->
                 (length updates <= 2)%nat -> Forall (ownUpdate repo cand) updates ->
                 (forall cs, o = Returned (Ok cs) -> cs_ticket_number cs = cand) ->
                 w1 = w5 -> written repo w w1 o (2 * S rem)).
      { intros w5 updates Hw5 Hl Hown Hcs ->. exists rows, updates, cand.
        rewrite Hw5, Hw4, <- app_assoc. split; [reflexivity|]. split; [lia|].
        split; [exact Hl|]. split; [exact Hown|]. split.
        - intros _. now exists row.
        - intros cs Ho. split; [now apply Hcs|]. intros ->. cbn in Hlen. lia. }
      apply bind_cases in H. destruct H as [[msg [Hfix ->]] | [w5 [fixed [Hfix H]]]].
      { apply autoFix_writes in Hfix. destruct Hfix as [Hfix | [body Hfix]].
        - apply (Hshape w1 []); [now rewrite app_nil_r | cbn; lia | constructor
                                 | discriminate | reflexivity].
        - eapply (Hshape w1 [_]); [exact Hfix | cbn; lia | | discriminate | reflexivity].
          constructor; [|constructor]. eexists. split; [reflexivity|]. left. now exists body. }
      destruct fixed as [[finalBodyMd readiness] autoFixed].
      assert (Hups : exists ups, writes (accesses w5) = writes (accesses w4) ++ ups
                                 /\ (length ups <= 1)%nat /\ Forall (ownUpdate repo cand) ups).
      { apply autoFix_writes in Hfix. destruct Hfix as [Hfix | [body Hfix]].
        - exists []. rewrite app_nil_r. repeat split; [exact Hfix | cbn; lia | constructor].
        - eexists [_]. split; [exact Hfix|]. split; [cbn; lia|].
          constructor; [|constructor]. eexists. split; [reflexivity|]. left. now exists body. }
      clear Hfix. destruct Hups as [ups [Hw5 [Hl5 Hown5]]].
      apply bind_cases in H. destruct H as [[msg [Hmove ->]] | [w6 [moved [Hmove H]]]].
      { assert (Hw1 : exists ups', writes (accesses w1) = writes (accesses w5) ++ ups'
                                   /\ (length ups' <= 1)%nat
                                   /\ Forall (ownUpdate repo cand) ups').
        { destruct (ready readiness).
          - apply autoMove_writes in Hmove. destruct Hmove as [Hm | [patch [Hp Hm]]].
            + exists []. rewrite app_nil_r. repeat split; [exact Hm | cbn; lia | constructor].
            + eexists [_]. split; [exact Hm|]. split; [cbn; lia|].
              constructor; [|constructor]. exists patch. split; [reflexivity | now right].
          - apply ret_world in Hmove. subst w1. exists []. rewrite app_nil_r.
            repeat split; [cbn; lia | constructor]. }
        destruct Hw1 as [ups' [Hw1 [Hl1 Hown1]]].
        apply (Hshape w1 (ups ++ ups')); [rewrite Hw1, Hw5, app_assoc; reflexivity
                                         | rewrite length_app; lia
                                         | apply Forall_app; now split
                                         | discriminate | reflexivity]. }
      assert (Hw6 : exists ups', writes (accesses w6) = writes (accesses w5) ++ ups'
                                 /\ (length ups' <= 1)%nat
                                 /\ Forall (ownUpdate repo cand) ups').
      { destruct (ready readiness).
        - apply autoMove_writes in Hmove. destruct Hmove as [Hm | [patch [Hp Hm]]].
          + exists []. rewrite app_nil_r. repeat split; [exact Hm | cbn; lia | constructor].
          + eexists [_]. split; [exact Hm|]. split; [cbn; lia|].
            constructor; [|constructor]. exists patch. split; [reflexivity | now right].
        - apply ret_world in Hmove. subst w6. exists []. rewrite app_nil_r.
          repeat split; [cbn; lia | constructor]. }
      clear Hmove. destruct Hw6 as [ups' [Hw6 [Hl6 Hown6]]].
      destruct moved as [movedToTodo moveError].
      apply ret_world in H as Hw. unfold ret in H. apply pair_equal_spec in H.
      destruct H as [_ Ho].
      apply (Hshape w6 (ups ++ ups')); [rewrite Hw6, Hw5, app_assoc; reflexivity
                                       | rewrite length_app; lia
                                       | apply Forall_app; now split
                                       | | exact Hw].
      intros cs Hcs. rewrite <- Ho in Hcs. injection Hcs as <-. reflexivity.
Qed.

End Loop.

(** The body of [create_ticket]: reads, then the loop. *)
Lemma body_writes {E} projectId input (w w1 : World E) o :
  createTicketBody projectId input w = (w1, o) ->
  written (projectRepo projectId LEGACY_REPO) w w1 o (2 * MAX_CREATE_TICKET_RETRIES).
Proof.
  unfold createTicketBody. cbv zeta.
  destruct (0 <? length (matchG PLACEHOLDER_RE (trim (ci_body_md input))))%nat.
  { intros H. unfold ret in H. apply pair_equal_spec in H. destruct H as [<- <-].
    apply written_nothing; [reflexivity | discriminate]. }
  assert (Hgo : forall startNum (w0 : World E),
             writes (accesses w0) = writes (accesses w) ->
             bind (@now E)
                  (fun now0 => createAttempts MAX_CREATE_TICKET_RETRIES 1 input
                     (normalizeBodyForReady (trim (ci_body_md input)))
                     (projectRepo projectId LEGACY_REPO)
                     (repoHintPrefix (projectRepo projectId LEGACY_REPO))
                     (slugFromTitle (ci_title input)) now0 startNum None) w0
             = (w1, o) ->
             written (projectRepo projectId LEGACY_REPO) w w1 o
                     (2 * MAX_CREATE_TICKET_RETRIES)).
  { intros startNum w0 Hw0 H. apply bind_cases in H.
    destruct H as [[msg [Hn _]] | [w2 [now0 [Hn H]]]];
      rewrite WriteFacts.now_step in Hn; apply pair_equal_spec in Hn; destruct Hn as [Hw2 Hn];
      [discriminate Hn|].
    apply attempts_writes in H.
    destruct H as [inserts [updates [n [H1 H2]]]]. exists inserts, updates, n.
    split; [|exact H2]. rewrite H1, <- Hw2. cbn [accesses]. now rewrite Hw0. }
  intros H. apply bind_cases in H. destruct H as [[msg [Hs ->]] | [w2 [r [Hs H]]]].
  { apply written_nothing; [|discriminate].
    eapply reader_writes; [apply WriteFacts.reader_select | exact Hs]. }
  apply (reader_writes _ _ _ _ (WriteFacts.reader_select _)) in Hs.
  destruct (error r) as [e|].
  - destruct (negb (isUnknownColumnError e)).
    { apply ret_world in H as Hw. unfold ret in H. apply pair_equal_spec in H.
      destruct H as [_ <-]. subst w1. apply written_nothing; [exact Hs | discriminate]. }
    apply bind_cases in H. destruct H as [[msg [Hl ->]] | [w3 [legacy [Hl H]]]].
    { apply written_nothing; [|discriminate]. rewrite <- Hs.
      eapply reader_writes; [apply WriteFacts.reader_select | exact Hl]. }
    apply (reader_writes _ _ _ _ (WriteFacts.reader_select _)) in Hl.
    destruct (error legacy).
    { apply ret_world in H as Hw. unfold ret in H. apply pair_equal_spec in H.
      destruct H as [_ <-]. subst w1. apply written_nothing; [congruence | discriminate]. }
    revert H. apply Hgo. congruence.
  - revert H. apply Hgo. exact Hs.
Qed.

End CreateWrites.

(** ** Slugs *)

Module SlugFacts.
Import RegexFacts.

(** Replacing every run of the class [q] by one unit [d]: [inRun] tells
    that the run under way has been replaced already. *)
Fixpoint collapse (q : jchar -> bool) (d : jchar) (inRun : bool) (s : jstring) : jstring :=
  match s with
  | [] => []
  | c :: t =>
      if q c then (if inRun then collapse q d true t else d :: collapse q d true t)
      else c :: collapse q d false t
  end.

Lemma collapse_gap q d g : forall x,
  forallb (fun c => negb (q c)) g = true ->
  collapse q d false (g ++ x) = g ++ collapse q d false x.
Proof.
  induction g as [|c g IH]; intros x H; [reflexivity|]. cbn [forallb] in H.
  apply andb_true_iff in H. destruct H as [Hc H]. apply negb_true_iff in Hc.
  cbn [app collapse]. rewrite Hc. now rewrite IH.
Qed.

Lemma collapse_run q d run : forall tail,
  forallb q run = true ->
  match tail with [] => True | c :: _ => q c = false end ->
  collapse q d true (run ++ tail) = collapse q d false tail.
Proof.
  induction run as [|c run IH]; intros tail H Ht.
  - cbn [app]. destruct tail as [|c t]; [reflexivity|]. cbn [collapse]. now rewrite Ht.
  - cbn [forallb] in H. apply andb_true_iff in H. destruct H as [Hc H].
    cbn [app collapse]. rewrite Hc. now apply IH.
Qed.

(** Any string starts with its longest run of the class. *)
Lemma span (q : jchar -> bool) : forall l,
  exists run tail, l = run ++ tail /\ forallb q run = true
                   /\ match tail with [] => True | c :: _ => q c = false end.
Proof.
  induction l as [|c l [run [tail [Hl [Hr Ht]]]]].
  - exists (@nil jchar), (@nil jchar). repeat split.
  - destruct (q c) eqn:Hc.
    + exists (c :: run), tail. rewrite Hl. repeat split; [|exact Ht]. cbn. now rewrite Hc.
    + exists (@nil jchar), (c :: l). repeat split. exact Hc.
Qed.

Lemma attempt_plus_run (q : jchar -> bool) pre c run tail :
  q c = true -> forallb q run = true ->
  match tail with [] => True | x :: _ => q x = false end ->
  attempt (plus true (Chr q)) pre (c :: run ++ tail)
  = Some (RMatch (rev pre) (c :: run) tail []).
Proof.
  intros Hc Hrun Htail. unfold attempt, plus. rewrite rmatch_seq, rmatch_chr, Hc.
  apply rmatch_star_run; [exact Htail | exact Hrun|]. cbn [rest caps].
  replace (length (c :: run ++ tail) - length tail)%nat with (length (c :: run))
    by (cbn [length]; rewrite length_app; lia).
  change (c :: run ++ tail) with ((c :: run) ++ tail).
  now rewrite firstn_app, Nat.sub_diag, firstn_all, app_nil_r.
Qed.

Lemma replaceFrom_plus q d : N.eqb d 36 = false -> forall fuel pre s,
  (length s < fuel)%nat ->
  replaceFrom fuel 0 (plus true (Chr q)) [d] pre s = collapse q d false s.
Proof.
  intros Hd. induction fuel as [|f IH]; intros pre s Hf; [lia|].
  cbn [replaceFrom]. destruct (search (plus true (Chr q)) pre s) as [m|] eqn:Hm.
  - destruct (search_some _ _ _ _ Hm) as [g [Hsplit [Hb [Hat Hnone]]]].
    assert (Hg : forallb (fun c => negb (q c)) g = true).
    { apply forallb_forall. intros x Hx. apply in_split in Hx.
      destruct Hx as [g1 [g2 Hx]]. specialize (Hnone g1 (x :: g2) Hx ltac:(discriminate)).
      cbn [app] in Hnone.
      pose proof (PrefixFacts.attempt_plus_class q (rev g1 ++ pre)
                    (x :: g2 ++ m_text m ++ m_after m)) as Ha.
      cbv beta iota in Ha. destruct (q x); [|reflexivity].
      destruct Ha as [m' [Ha _]]. congruence. }
    remember (m_text m ++ m_after m) as s' eqn:Hs'.
    pose proof (PrefixFacts.attempt_plus_class q (rev g ++ pre) s') as Hfirst.
    destruct s' as [|c t]; [congruence|]. destruct (q c) eqn:Hc; [|congruence]. clear Hfirst.
    destruct (span q t) as [run [tail [Ht [Hrun Htail]]]]. subst t.
    rewrite attempt_plus_run in Hat by assumption. injection Hat as Hm'.
    rewrite Hsplit, Hb, RedactFacts.skipn_rev_app. rewrite <- Hm'.
    cbn [m_text m_after m_before].
    rewrite RedactFacts.expand_plain by (cbn; now rewrite Hd).
    rewrite collapse_gap by exact Hg. f_equal. cbn [app collapse]. rewrite Hc. f_equal.
    rewrite collapse_run by assumption. apply IH.
    rewrite Hsplit, length_app in Hf. cbn [length] in Hf. rewrite length_app in Hf. lia.
  - rewrite <- (app_nil_r s) at 2. rewrite collapse_gap; [cbn; now rewrite app_nil_r|].
    apply forallb_forall. intros x Hx. apply in_split in Hx.
    destruct Hx as [g1 [g2 Hx]]. pose proof (search_none _ _ _ Hm g1 (x :: g2) Hx) as Hn.
    pose proof (PrefixFacts.attempt_plus_class q (rev g1 ++ pre) (x :: g2)) as Ha.
    cbv beta iota in Ha. destruct (q x); [|reflexivity].
    destruct Ha as [m' [Ha _]]. congruence.
Qed.

Lemma replaceAll_plus q d s :
  N.eqb d 36 = false -> replaceAll 0 (plus true (Chr q)) [d] s = collapse q d false s.
Proof. intros Hd. unfold replaceAll. apply replaceFrom_plus; [exact Hd | lia]. Qed.

(** After the runs of hyphens are collapsed no two hyphens are left in a
    row; a string that continues a run does not start with one. *)
Lemma collapse_hyphens : forall s b,
  noDoubleHyphen (collapse (N.eqb 45) 45 b s) = true
  /\ (b = true -> startsPlain (collapse (N.eqb 45) 45 b s) = true).
Proof.
  induction s as [|c s IH]; intros b; [split; reflexivity|]. cbn [collapse].
  destruct (N.eqb 45 c) eqn:Hc.
  - destruct b.
    + apply IH.
    + destruct (IH true) as [H1 H2]. specialize (H2 eq_refl). split; [|discriminate].
      cbn [noDoubleHyphen]. rewrite H1, andb_true_r. cbn [N.eqb Pos.eqb andb].
      destruct (collapse (N.eqb 45) 45 true s) as [|x t]; [reflexivity|].
      cbn [startsPlain] in H2. exact H2.
  - destruct (IH false) as [H1 _]. rewrite N.eqb_sym in Hc. split.
    + cbn [noDoubleHyphen]. rewrite Hc, H1. reflexivity.
    + intros _. cbn [startsPlain]. now rewrite Hc.
Qed.

(** The last step of [slugFromTitle]: [/^-|-$/g]. *)
Definition edgeRe : re := Alt (Seq (Bol false) (chr 45)) (Seq (chr 45) (Eol false)).

(** The string without its last unit, when that is a hyphen. *)
Fixpoint lastHyphen (s : jstring) : option jstring :=
  match s with
  | [] => None
  | c :: t =>
      match t with
      | [] => if N.eqb 45 c then Some [] else None
      | _ :: _ => option_map (cons c) (lastHyphen t)
      end
  end.

Definition stripTail (s : jstring) : jstring :=
  match lastHyphen s with Some front => front | None => s end.

Lemma attempt_edge pre s :
  attempt edgeRe pre s
  = match s with
    | c :: t =>
        if N.eqb 45 c then
          match pre, t with
          | [], _ => Some (RMatch [] [c] t [])
          | _ :: _, [] => Some (RMatch (rev pre) [c] [] [])
          | _ :: _, _ :: _ => None
          end
        else None
    | [] => None
    end.
Proof.
  unfold attempt, edgeRe. rewrite rmatch_alt, !rmatch_seq, ReadyFacts.rmatch_bol.
  cbn [before]. unfold chr. destruct s as [|c t].
  - destruct pre; reflexivity.
  - rewrite !rmatch_chr. destruct (N.eqb 45 c); [|now destruct pre].
    rewrite ReadyFacts.rmatch_eol. cbn [rest caps length].
    replace (S (length t) - length t)%nat with 1%nat by lia. cbn [firstn].
    destruct pre as [|p pre]; [reflexivity|]. destruct t as [|x t]; [|reflexivity].
    reflexivity.
Qed.

Lemma search_edge_later : forall s pre,
  pre <> [] ->
  search edgeRe pre s
  = match lastHyphen s with
    | Some front => Some (RMatch (rev pre ++ front) [45%N] [] [])
    | None => None
    end.
Proof.
  induction s as [|c s IH]; intros pre Hpre; cbn [search lastHyphen].
  - rewrite attempt_edge. reflexivity.
  - rewrite attempt_edge. destruct pre as [|p pre]; [congruence|].
    destruct s as [|x s].
    + destruct (N.eqb 45 c) eqn:Hc.
      * apply N.eqb_eq in Hc. subst c. now rewrite app_nil_r.
      * cbn [search]. rewrite attempt_edge. reflexivity.
    + replace (if N.eqb 45 c then None else None) with (@None rmatchResult)
        by (destruct (N.eqb 45 c); reflexivity).
      rewrite IH by discriminate. destruct (lastHyphen (x :: s)) as [front|]; [|reflexivity].
      cbn [option_map rev]. now rewrite <- app_assoc.
Qed.

Lemma replaceFrom_edge_later fuel pre s :
  pre <> [] -> (length s < fuel)%nat ->
  replaceFrom fuel 0 edgeRe [] pre s = stripTail s.
Proof.
  intros Hpre Hf. destruct fuel as [|f]; [lia|]. cbn [replaceFrom].
  rewrite search_edge_later by exact Hpre. unfold stripTail.
  destruct (lastHyphen s) as [front|]; [|reflexivity].
  cbn [m_before m_text m_after expand app]. rewrite RedactFacts.skipn_rev_app.
  destruct f as [|f]; [now rewrite app_nil_r|]. cbn [replaceFrom search].
  rewrite attempt_edge. now rewrite app_nil_r.
Qed.

(** The last step removes one hyphen at the start and one at the end. *)
Lemma replaceAll_edge s :
  replaceAll 0 edgeRe [] s
  = match s with
    | c :: t => if N.eqb 45 c then stripTail t else stripTail s
    | [] => []
    end.
Proof.
  unfold replaceAll. cbn [replaceFrom]. destruct s as [|c t].
  - cbn [search]. rewrite attempt_edge. reflexivity.
  - cbn [search]. rewrite attempt_edge. destruct (N.eqb 45 c) eqn:Hc.
    + cbn [m_before m_text m_after expand app skipn length rev].
      apply replaceFrom_edge_later; [discriminate | cbn; lia].
    + rewrite search_edge_later by discriminate. unfold stripTail. cbn [lastHyphen].
      destruct t as [|x t].
      * rewrite Hc. reflexivity.
      * destruct (lastHyphen (x :: t)) as [front|]; [|reflexivity].
        cbn [option_map m_before m_text m_after expand app skipn length rev].
        destruct (length (x :: t)) as [|n] eqn:Hl; [discriminate Hl|].
        cbn [replaceFrom search]. rewrite attempt_edge. now rewrite app_nil_r.
Qed.

Lemma lastHyphen_spec : forall s front, lastHyphen s = Some front -> s = front ++ [45%N].
Proof.
  induction s as [|c s IH]; intros front; cbn [lastHyphen]; [discriminate|].
  destruct s as [|x s].
  - destruct (N.eqb 45 c) eqn:Hc; [|discriminate]. apply N.eqb_eq in Hc.
    intros H. injection H as <-. now subst c.
  - destruct (lastHyphen (x :: s)) as [f|]; [|discriminate].
    intros H. injection H as <-. cbn [app]. f_equal. now apply IH.
Qed.

Lemma lastHyphen_none : forall s, lastHyphen s = None -> endsPlain s = true.
Proof.
  unfold endsPlain. induction s as [|c s IH]; cbn [lastHyphen]; [reflexivity|].
  destruct s as [|x s].
  - destruct (N.eqb 45 c) eqn:Hc; [discriminate|]. intros _. cbn. now rewrite N.eqb_sym, Hc.
  - destruct (lastHyphen (x :: s)) as [f|] eqn:Hl; [discriminate|]. intros _.
    specialize (IH eq_refl). cbn [rev] in *.
    destruct (rev s ++ [x]) as [|y l] eqn:Hr; [now destruct (rev s)|]. exact IH.
Qed.

Lemma noDouble_app a : forall b,
  noDoubleHyphen (a ++ b) = true -> noDoubleHyphen a = true /\ noDoubleHyphen b = true.
Proof.
  induction a as [|x a IH]; intros b H; [now split|]. cbn [app noDoubleHyphen] in *.
  apply andb_true_iff in H. destruct H as [Hx H]. destruct (IH b H) as [Ha Hb].
  split; [|exact Hb]. rewrite Ha, andb_true_r.
  destruct a as [|y a]; [|exact Hx]. now rewrite andb_false_r.
Qed.

Lemma noDouble_last front :
  noDoubleHyphen (front ++ [45%N]) = true -> endsPlain front = true.
Proof.
  unfold endsPlain. induction front as [|c front IH]; [reflexivity|].
  cbn [app noDoubleHyphen]. intros H. apply andb_true_iff in H. destruct H as [Hc H].
  specialize (IH H). cbn [rev]. destruct front as [|x front].
  - cbn [app] in Hc. cbn. now rewrite andb_true_r in Hc.
  - cbn [rev] in *. destruct (rev front ++ [x]) as [|y l] eqn:Hr; [now destruct (rev front)|].
    exact IH.
Qed.

Lemma startsPlain_front front tail :
  startsPlain (front ++ tail) = true -> tail <> [] -> noDoubleHyphen (front ++ tail) = true ->
  startsPlain front = true.
Proof. destruct front; [reflexivity | intros H _ _; exact H]. Qed.

(** What is left after the last step, of a string without two hyphens in a
    row. *)
Lemma edge_clean s :
  noDoubleHyphen s = true ->
  let out := replaceAll 0 edgeRe [] s in
  noDoubleHyphen out = true /\ startsPlain out = true /\ endsPlain out = true.
Proof.
  intros Hs. cbv zeta. rewrite replaceAll_edge.
  assert (Htail : forall t, noDoubleHyphen t = true -> startsPlain t = true ->
                            noDoubleHyphen (stripTail t) = true
                            /\ startsPlain (stripTail t) = true
                            /\ endsPlain (stripTail t) = true).
  { intros t Ht Hst. unfold stripTail. destruct (lastHyphen t) as [front|] eqn:Hl.
    - apply lastHyphen_spec in Hl. subst t. split; [now apply noDouble_app in Ht|].
      split; [|now apply noDouble_last].
      destruct front; [reflexivity | exact Hst].
    - split; [exact Ht|]. split; [exact Hst | now apply lastHyphen_none]. }
  destruct s as [|c t]; [repeat split|].
  destruct (N.eqb 45 c) eqn:Hc.
  - cbn [noDoubleHyphen] in Hs. apply andb_true_iff in Hs. destruct Hs as [Hc' Ht].
    apply Htail; [exact Ht|]. rewrite N.eqb_sym in Hc. rewrite Hc in Hc'.
    destruct t as [|x t]; [reflexivity|]. exact Hc'.
  - apply Htail; [exact Hs|]. cbn [startsPlain]. now rewrite N.eqb_sym, Hc.
Qed.

End SlugFacts.

(** ** Ids read back *)

Module RoundTrip.

(** The printable ASCII range holds no white space and no line
    terminator. *)
Lemma printable_plain c :
  (33 <= c <= 126)%N -> isWs c = false /\ isLineTerminator c = false.
Proof.
  intros Hc. unfold isWs, isLineTerminator, inRange. split;
    repeat match goal with |- (_ || _)%bool = false => apply orb_false_intro end;
    try (apply N.eqb_neq; lia);
    apply andb_false_iff; ((left; apply N.leb_gt; lia) || (right; apply N.leb_gt; lia)).
Qed.

Lemma prefixChar_printable c : prefixChar c = true -> (33 <= c <= 126)%N.
Proof.
  unfold prefixChar, isUpper, isDigit, inRange. intros H. apply orb_true_iff in H.
  destruct H as [H | H]; apply andb_true_iff in H; destruct H as [H1 H2];
    apply N.leb_le in H1, H2; lia.
Qed.

Lemma digit_printable c : isDigit c = true -> (33 <= c <= 126)%N.
Proof.
  unfold isDigit, inRange. intros H. apply andb_true_iff in H. destruct H as [H1 H2].
  apply N.leb_le in H1, H2. lia.
Qed.

(** [trim] leaves a string alone that starts and ends on a unit that is no
    white space. *)
Lemma trim_plain s :
  match s with c :: _ => isWs c = false | [] => True end ->
  match rev s with c :: _ => isWs c = false | [] => True end ->
  trim s = s.
Proof.
  intros Hfirst Hlast. unfold trim, trimEnd.
  assert (Hs : trimStart s = s) by (destruct s as [|c t]; [reflexivity | cbn; now rewrite Hfirst]).
  rewrite Hs.
  assert (Hr : trimStart (rev s) = rev s)
    by (destruct (rev s) as [|c t]; [reflexivity | cbn; now rewrite Hlast]).
  rewrite Hr. apply rev_involutive.
Qed.

(** The prefix of a repository: not empty, upper-case letters and digits. *)
Lemma prefix_chars repoFullName :
  repoHintPrefix repoFullName <> []
  /\ forallb prefixChar (repoHintPrefix repoFullName) = true.
Proof.
  unfold repoHintPrefix. cbv zeta.
  set (repo := lastOr repoFullName (splitOn 47 [] repoFullName)).
  destruct (pickToken _) as [t'|] eqn:Hp.
  - apply PrefixFacts.pickToken_spec in Hp. destruct Hp as [t [Hin [Ht' Hlen]]].
    subst t'. split.
    + destruct t; [cbn in Hlen; lia | discriminate].
    + apply in_rev in Hin. apply filter_In in Hin. destruct Hin as [Hin _].
      pose proof (PrefixFacts.splitRe_gaps (fun c => negb (isLower c || isDigit c))
                    (toLowerCase repo)) as Hg.
      rewrite Forall_forall in Hg. specialize (Hg t Hin).
      unfold toUpperCase. rewrite PrefixFacts.forallb_map_comp.
      rewrite forallb_forall in Hg. apply forallb_forall.
      intros c Hc. apply PrefixFacts.upper_of_lower_digit.
      specialize (Hg c Hc). now rewrite negb_involutive in Hg.
  - rewrite ReplaceFacts.replaceAll_class.
    set (letters := toUpperCase (filter _ repo)).
    assert (Hl : forallb isUpper letters = true).
    { subst letters. unfold toUpperCase. rewrite PrefixFacts.forallb_map_comp.
      apply forallb_forall. intros c Hc. apply filter_In in Hc. destruct Hc as [_ Hc].
      rewrite negb_involutive in Hc. now apply PrefixFacts.upper_of_alpha. }
    assert (H4 : forallb isUpper (firstn 4 letters) = true).
    { rewrite <- (firstn_skipn 4 letters), forallb_app in Hl.
      apply andb_true_iff in Hl. now destruct Hl. }
    destruct (firstn 4 letters) as [|c l] eqn:Hf; [split; [discriminate | reflexivity]|].
    cbn [orElse]. split; [discriminate|]. unfold toUpperCase.
    rewrite PrefixFacts.forallb_map_comp. rewrite forallb_forall in H4.
    apply forallb_forall. intros x Hx. unfold prefixChar.
    rewrite (PrefixFacts.upper_of_upper x (H4 x Hx)). reflexivity.
Qed.

(** The ids of the numbers 1 to 9999, checked one by one: four digits that
    read back as the number. *)
Definition idReadsBack (n : Z) : bool :=
  allDigits (idOf n) && (length (idOf n) =? 4)%nat && (parseDigits (idOf n) =? n)%Z.

Fixpoint allFrom (count : nat) (n : Z) : bool :=
  match count with
  | O => true
  | S count' => idReadsBack n && allFrom count' (n + 1)
  end.

Lemma allFrom_spec : forall count start,
  allFrom count start = true ->
  forall n, (start <= n < start + Z.of_nat count)%Z -> idReadsBack n = true.
Proof.
  induction count as [|count IH]; intros start H n Hn; [lia|].
  cbn [allFrom] in H. apply andb_true_iff in H. destruct H as [H0 H].
  destruct (Z.eq_dec n start) as [-> | Hne]; [exact H0|].
  apply (IH (start + 1)%Z H). lia.
Qed.

Lemma ids_read_back : allFrom (N.to_nat 9999) 1 = true.
Proof. vm_compute. reflexivity. Qed.

Lemma id_reads_back n :
  (1 <= n <= 9999)%Z ->
  allDigits (idOf n) = true /\ length (idOf n) = 4%nat /\ parseDigits (idOf n) = n.
Proof.
  intros Hn. pose proof (allFrom_spec _ _ ids_read_back n) as H.
  rewrite N_nat_Z in H. specialize (H ltac:(lia)). unfold idReadsBack in H.
  apply andb_true_iff in H. destruct H as [H H3].
  apply andb_true_iff in H. destruct H as [H1 H2].
  apply Nat.eqb_eq in H2. apply Z.eqb_eq in H3. now repeat split.
Qed.

End RoundTrip.

(** ** Reported placeholders *)

Module TokenFacts.
Import RegexFacts.

Local Opaque evaluateTicketReady normalizeTitleLineInBody normalizeBodyForReady.

(** Every match of the placeholder pattern is a placeholder token. *)
Lemma matches_tokens : forall fuel pre s,
  Forall (fun m => isToken (m_text m)) (matchesFrom fuel PLACEHOLDER_RE pre s).
Proof.
  induction fuel as [|f IH]; intros pre s; cbn [matchesFrom]; [constructor|].
  destruct (search PLACEHOLDER_RE pre s) as [m|] eqn:Hm; [|constructor].
  destruct (search_some _ _ _ _ Hm) as [g [_ [_ [Hat _]]]].
  apply ReadyFacts.attempt_token_inv in Hat. constructor; [exact Hat|].
  destruct (m_text m); [destruct (m_after m); [constructor | apply IH] | apply IH].
Qed.

(** The list a rejection reports: not empty, without duplicates, tokens
    only. *)
Definition tokensOnly (l : list jstring) : Prop := l <> [] /\ NoDup l /\ Forall isToken l.

Lemma found_tokens s :
  (0 <? length (matchG PLACEHOLDER_RE s))%nat = true ->
  tokensOnly (uniq [] (matchG PLACEHOLDER_RE s)).
Proof.
  intros H. split; [|split].
  - apply ToolFacts.uniq_nonempty. destruct (matchG PLACEHOLDER_RE s); [discriminate H|].
    discriminate.
  - apply SortFacts.uniq_NoDup.
  - apply Forall_forall. intros t Ht. apply SortFacts.uniq_in in Ht. destruct Ht as [Ht _].
    unfold matchG, matchAll in Ht. apply in_map_iff in Ht. destruct Ht as [m [<- Hm]].
    pose proof (matches_tokens (S (length s)) [] s) as Hall.
    rewrite Forall_forall in Hall. now apply Hall.
Qed.

(** A result that reports detected placeholders reports tokens. *)
Definition reportsTokens {A} (out : Result A) : Prop :=
  forall f l, out = Fail f -> f_detectedPlaceholders f = Some l -> tokensOnly l.

Lemma reports_ok {A} (a : A) : reportsTokens (Ok a).
Proof. intros f l H. discriminate H. Qed.

Lemma reports_plain {A} msg : reportsTokens (failWith (A:=A) msg).
Proof. intros f l H Hl. unfold failWith in H. injection H as <-. discriminate Hl. Qed.

Lemma reports_rejection {A} what tail s :
  (0 <? length (matchG PLACEHOLDER_RE s))%nat = true ->
  reportsTokens (A:=A) (Fail (placeholderRejection what tail (uniq [] (matchG PLACEHOLDER_RE s)))).
Proof.
  intros Hs f l H Hl. injection H as <-. cbn [placeholderRejection f_detectedPlaceholders] in Hl.
  injection Hl as <-. now apply found_tokens.
Qed.

Lemma ret_reports {E A} (x : Result A) (w w1 : World E) out :
  reportsTokens x -> ret x w = (w1, Returned out) -> reportsTokens out.
Proof. intros Hx H. apply CreatedFacts.ret_inv in H. destruct H as [_ <-]. exact Hx. Qed.

Section Runs.
Variable E : Env.

Lemma attempts_report (input : CreateInput) (nb repo prefix slug now0 : jstring) (startNum : Z) :
  forall rem att last (w w1 : World E) out,
    createAttempts rem att input nb repo prefix slug now0 startNum last w
    = (w1, Returned out) ->
    reportsTokens out.
Proof.
  induction rem as [|rem IH]; intros att last w w1 out; cbn [createAttempts].
  - apply ret_reports, reports_plain.
  - cbv zeta. destruct (0 <? length _)%nat eqn:Hp.
    { apply ret_reports. now apply reports_rejection. }
    intros H. apply CreatedFacts.bind_inv in H. destruct H as [w2 [pk1 [_ H]]].
    apply CreatedFacts.bind_inv in H. destruct H as [w3 [r [_ H]]].
    apply CreatedFacts.bind_inv in H. destruct H as [w4 [insertError [_ H]]].
    destruct insertError as [e|].
    + destruct (negb (isUniqueViolation e)); [revert H; apply ret_reports, reports_plain|].
      now apply IH in H.
    + apply CreatedFacts.bind_inv in H. destruct H as [w5 [[[b rd] fx] [_ H]]].
      apply CreatedFacts.bind_inv in H. destruct H as [w6 [[mv me] [_ H]]].
      revert H. apply ret_reports, reports_ok.
Qed.

Lemma create_body_reports projectId input (w w1 : World E) out :
  createTicketBody projectId input w = (w1, Returned out) -> reportsTokens out.
Proof.
  unfold createTicketBody. cbv zeta.
  destruct (0 <? length (matchG PLACEHOLDER_RE (trim (ci_body_md input))))%nat eqn:Hp.
  { apply ret_reports. now apply reports_rejection. }
  assert (Hgo : forall startNum (w0 : World E),
             bind (@now E)
                  (fun now0 => createAttempts MAX_CREATE_TICKET_RETRIES 1 input
                     (normalizeBodyForReady (trim (ci_body_md input)))
                     (projectRepo projectId LEGACY_REPO)
                     (repoHintPrefix (projectRepo projectId LEGACY_REPO))
                     (slugFromTitle (ci_title input)) now0 startNum None) w0
             = (w1, Returned out) -> reportsTokens out).
  { intros startNum w0 H. apply CreatedFacts.bind_inv in H. destruct H as [w' [now0 [_ H]]].
    now apply attempts_report in H. }
  intros H. apply CreatedFacts.bind_inv in H. destruct H as [w2 [r [_ H]]].
  destruct (error r) as [e|].
  - destruct (negb (isUnknownColumnError e)); [revert H; apply ret_reports, reports_plain|].
    apply CreatedFacts.bind_inv in H. destruct H as [w3 [legacy [_ H]]].
    destruct (error legacy); [revert H; apply ret_reports, reports_plain|].
    revert H. apply Hgo.
  - revert H. apply Hgo.
Qed.

Lemma update_body_reports projectId input (w w1 : World E) out :
  updateTicketBodyBody projectId input w = (w1, Returned out) -> reportsTokens out.
Proof.
  unfold updateTicketBodyBody. cbv zeta.
  destruct (0 <? length (matchG PLACEHOLDER_RE (trim (ui_body_md input))))%nat eqn:Hp.
  { apply ret_reports. now apply reports_rejection. }
  destruct (noTicketNumber (parseTicketNumber (ui_ticket_id input)));
    [apply ret_reports, reports_plain|].
  intros H. apply CreatedFacts.bind_inv in H. destruct H as [w2 [r [_ H]]].
  destruct (error r) as [fe|]; [revert H; apply ret_reports, reports_plain|].
  destruct (data r) as [row|]; [|revert H; apply ret_reports, reports_plain].
  destruct (0 <? length (matchG PLACEHOLDER_RE _))%nat eqn:Hp2 in H.
  { revert H. apply ret_reports. now apply reports_rejection. }
  apply CreatedFacts.bind_inv in H. destruct H as [w3 [err [_ H]]].
  destruct err; revert H; apply ret_reports; [apply reports_plain | apply reports_ok].
Qed.

End Runs.

End TokenFacts.

(* ================================================================== *)
(** * The claims *)
(* ================================================================== *)

(** C1 (as amended). [create_ticket] asks the store for the highest ticket
    number of the repository and, as long as the numbers stay below [2^53],
    starts from one past it (from 1 when there is none).  When the store
    refuses the first [k] candidates for uniqueness and the body passes both
    placeholder checks, the tool has tried exactly the candidates
    [startNum], [startNum + 1], ... in turn; for [k < 10] the next candidate
    is taken and the result is a success whose ticket number is
    [startNum + k], marked as retried after [k + 1] attempts when [k > 0];
    for [k = 10] the result is the failure that says no ticket ID could be
    reserved after 10 attempts, with the text of the last error. *)
Theorem create_ticket_retries_next_candidate
    (E : Env) (projectId : option jstring) (input : CreateInput) (w : World E)
    (rows0 : list Row.t) (k : nat) (errs : nat -> PgError) :
  let repo := projectRepo projectId LEGACY_REPO in
  let startNum := nextNumber rows0 in
  healthy E ->
  matchG PLACEHOLDER_RE (trim (ci_body_md input)) = [] ->
  selectRows E (store w) (topNumberQuery repo) = Returned (mkResp (Some rows0) None) ->
  (Z.abs startNum + 10 < two53)%Z ->
  (k <= 10)%nat ->
  (forall j, (j < k)%nat ->
             rejectsAt E (store w) repo (startNum + Z.of_nat j) (errs j)) ->
  ((k < 10)%nat -> acceptsAt E (store w) repo (startNum + Z.of_nat k)) ->
  (forall j, (j <= k)%nat -> (j < 10)%nat ->
             matchG PLACEHOLDER_RE
               (storedBody (ci_body_md input) repo (startNum + Z.of_nat j)) = []) ->
  exists w' out,
    create_ticket projectId input w = (pushed w' (CallCreateTicket input out), Returned out)
    /\ toolCalls w' = toolCalls w
    /\ insertedNumbers (accesses w')
       = insertedNumbers (accesses w) ++ candidates startNum (Nat.min (S k) 10)
    /\ ((k < 10)%nat ->
        exists cs, out = Ok cs
          /\ cs_ticket_number cs = (startNum + Z.of_nat k)%Z
          /\ cs_retried cs = flagField (0 <? k)%nat
          /\ cs_attempts cs = (if (0 <? k)%nat then Some (Z.of_nat k + 1)%Z else None))
    /\ (k = 10%nat -> out = failWith (exhausted (lastMessage (Some (errs 9%nat))))).
Proof.
  intros repo startNum Hh Hpre Hsel Hsmall Hk Hrej Hacc Hnorm.
  rewrite (CreateFacts.create_ticket_run E projectId input w rows0 Hpre Hsel).
  fold repo. fold startNum. rewrite (DoubleFacts.toDouble_small startNum) by lia.
  assert (Hs : forall j, (j < 10)%nat ->
                         candidateAt startNum (1 + Z.of_nat j) = (startNum + Z.of_nat j)%Z).
  { intros j Hj. rewrite CreateFacts.candidateAt_small by lia. lia. }
  destruct (CreateFacts.attempts_run E Hh input
              (normalizeBodyForReady (trim (ci_body_md input))) repo (repoHintPrefix repo)
              (slugFromTitle (ci_title input)) (nowISO E (ticks w)) startNum k
              MAX_CREATE_TICKET_RETRIES 1%Z None
              (mkWorld E (store w) (accesses w ++ [ASelect (topNumberQuery repo)])
                       (toolCalls w) (S (ticks w))) errs)
    as [w' [out [Hrun [Ht [Hi [Hok Hex]]]]]].
  - exact Hk.
  - intros j Hj. rewrite Hs by lia. now apply Hrej.
  - intros j Hj1 Hj2. unfold MAX_CREATE_TICKET_RETRIES in Hj2. rewrite Hs by lia.
    now apply Hnorm.
  - intros Hlt. unfold MAX_CREATE_TICKET_RETRIES in Hlt. rewrite Hs by lia. now apply Hacc.
  - rewrite Hrun. exists w', out. split; [reflexivity|]. split; [exact Ht|]. split.
    + rewrite Hi. cbn [accesses]. rewrite CreateFacts.insertedNumbers_app. simpl flat_map.
      rewrite app_nil_r. f_equal. unfold triedFrom, candidates. apply map_ext_in.
      intros j Hj. apply in_seq in Hj. apply Hs. unfold MAX_CREATE_TICKET_RETRIES in Hj. lia.
    + split.
      * intros Hlt. destruct (Hok Hlt) as [cs [Ho [Hn [Hr Ha]]]]. exists cs.
        rewrite Hs in Hn by lia. split; [exact Ho|]. split; [exact Hn|].
        rewrite Hr, Ha. destruct k; [now split|].
        replace (1 <? 1 + Z.of_nat (S k))%Z with true by (symmetry; apply Z.ltb_lt; lia).
        cbn [Nat.ltb Nat.leb flagField]. split; [reflexivity|]. f_equal. lia.
      * intros Hk10. rewrite (Hex Hk10). subst k. reflexivity.
Qed.

(** The repository [acme/web] holds the tickets 7, 12 and 3, and the id of
    13 is held by another repository: 13 is tried and refused, 14 is taken.
    With the ids of 13 to 22 held, all ten attempts are refused. *)
Lemma create_ticket_retries_next_candidate_witness :
  (exists cs,
     snd (create_ticket (E:=Mem.env) (Some (u "acme/web")) fixLogin
                        (Mem.world (webTickets ++ [heldElsewhere 13])))
     = Returned (Ok cs)
     /\ cs_ticket_number cs = 14%Z /\ cs_retried cs = Some true /\ cs_attempts cs = Some 2%Z)
  /\ snd (create_ticket (E:=Mem.env) (Some (u "acme/web")) fixLogin
                        (Mem.world (webTickets ++ map heldElsewhere (candidates 13 10))))
     = Returned (failWith (exhausted (u "duplicate key value violates unique constraint"))).
Proof.
  assert (Hrej : forall table n,
             existsb (fun r => Mem.optEqb (Some (idOf n)) (Row.id r)) table = true ->
             rejectsAt Mem.env table (u "acme/web") n Mem.duplicateKey).
  { intros table n Hn. split; [reflexivity|]. split; [reflexivity|].
    intros row [Hid [Hrepo Hnum]]. cbn [insertRow Mem.env]. unfold Mem.insertRow.
    replace (existsb (Mem.clashes row) table) with true; [reflexivity|].
    symmetry. apply existsb_exists. apply existsb_exists in Hn.
    destruct Hn as [r [Hin Hr]]. exists r. split; [exact Hin|].
    unfold Mem.clashes. rewrite Hid, Hr. reflexivity. }
  split.
  - destruct (create_ticket_retries_next_candidate Mem.env (Some (u "acme/web")) fixLogin
                (Mem.world (webTickets ++ [heldElsewhere 13]))
                (Mem.run (webTickets ++ [heldElsewhere 13]) (topNumberQuery (u "acme/web")))
                1 (fun _ => Mem.duplicateKey))
      as [w' [out [Hrun [_ [_ [Hok _]]]]]].
    + exact mem_healthy.
    + vm_compute; reflexivity.
    + vm_compute; reflexivity.
    + vm_compute; reflexivity.
    + lia.
    + intros j Hj. assert (j = 0)%nat by lia. subst j. apply Hrej. vm_compute; reflexivity.
    + intros _ row [Hid [Hrepo Hnum]]. cbn [insertRow Mem.env store Mem.world].
      unfold Mem.insertRow.
      replace (existsb (Mem.clashes row) (webTickets ++ [heldElsewhere 13])) with false;
        [eexists; reflexivity|].
      symmetry. unfold Mem.clashes. rewrite Hid, Hrepo, Hnum. vm_compute. reflexivity.
    + intros j Hj _. destruct j as [|[|j]]; [vm_compute; reflexivity ..|lia].
    + destruct (Hok ltac:(lia)) as [cs [Ho [Hn [Hr Ha]]]]. exists cs. rewrite Hrun.
      subst out. repeat split; assumption.
  - destruct (create_ticket_retries_next_candidate Mem.env (Some (u "acme/web")) fixLogin
                (Mem.world (webTickets ++ map heldElsewhere (candidates 13 10)))
                (Mem.run (webTickets ++ map heldElsewhere (candidates 13 10))
                         (topNumberQuery (u "acme/web")))
                10 (fun _ => Mem.duplicateKey))
      as [w' [out [Hrun [_ [_ [_ Hex]]]]]].
    + exact mem_healthy.
    + vm_compute; reflexivity.
    + vm_compute; reflexivity.
    + vm_compute; reflexivity.
    + lia.
    + intros j Hj. apply Hrej.
      do 10 (destruct j as [|j]; [vm_compute; reflexivity|]). lia.
    + lia.
    + intros j _ Hj.
      do 10 (destruct j as [|j]; [vm_compute; reflexivity|]). lia.
    + rewrite Hrun, (Hex eq_refl). reflexivity.
Defined.

(** C1, as stated, fails from [2^53] on: with the ticket [2^53] as the
    highest of the repository, the sum [2^53 + 1] is again [2^53], the
    first candidate is [2^53 - 1], and it is taken at the first attempt: the
    new ticket is numbered below the highest one, not one past it. *)
Lemma create_ticket_past_safe_range_counterexample :
  let table := [webTicket two53 COL_UNASSIGNED 0] in
  nextNumber (Mem.run table (topNumberQuery (u "acme/web"))) = (two53 + 1)%Z
  /\ exists cs,
       snd (create_ticket (E:=Mem.env) (Some (u "acme/web")) fixLogin (Mem.world table))
       = Returned (Ok cs)
       /\ cs_ticket_number cs = (two53 - 1)%Z
       /\ cs_retried cs = None
       /\ cs_ticket_number cs <> (two53 + 1)%Z.
Proof.
  cbv zeta. split; [vm_compute; reflexivity|].
  eexists. split; [vm_compute; reflexivity|].
  cbn [cs_ticket_number cs_retried]. repeat split. discriminate.
Qed.






(** C4. A body that holds a placeholder token is rejected by [create_ticket]
    and by [update_ticket_body] with the detected tokens listed; the only
    change to the world is the record pushed on the Tool Call Record: the
    store is the same and no call was made on it. *)
Theorem placeholder_bodies_rejected_before_store
    (E : Env) (projectId : option jstring) (title ticket_id body_md : jstring) (w : World E) :
  containsToken body_md ->
  let found := uniq [] (matchG PLACEHOLDER_RE (trim body_md)) in
  let fc := placeholderRejection (u "creation") [] found in
  let fu := placeholderRejection (u "update") [] found in
  found <> []
  /\ f_detectedPlaceholders fc = Some found
  /\ f_detectedPlaceholders fu = Some found
  /\ create_ticket projectId (mkCreateInput title body_md) w
     = (pushed w (CallCreateTicket (mkCreateInput title body_md) (Fail fc)), Returned (Fail fc))
  /\ update_ticket_body projectId (mkUpdateInput ticket_id body_md) w
     = (pushed w (CallUpdateTicketBody (mkUpdateInput ticket_id body_md) (Fail fu)),
        Returned (Fail fu)).
Proof.
  intros Htok found fc fu.
  pose proof (PlaceholderFacts.token_detected _ Htok) as Hne.
  split; [now apply ToolFacts.uniq_nonempty|].
  split; [reflexivity|]. split; [reflexivity|]. split.
  - now apply (ToolFacts.create_ticket_rejects E projectId (mkCreateInput title body_md) w).
  - now apply (ToolFacts.update_ticket_body_rejects E projectId (mkUpdateInput ticket_id body_md) w).
Qed.

Lemma placeholder_bodies_rejected_before_store_witness :
  containsToken templateBody
  /\ store (fst (create_ticket (E:=Mem.env) None (mkCreateInput (u "Fix login") templateBody)
                               (Mem.world [])))
     = []
  /\ accesses (fst (update_ticket_body (E:=Mem.env) None (mkUpdateInput (u "0012") templateBody)
                                       (Mem.world [])))
     = [].
Proof.
  assert (H : containsToken templateBody).
  { exists (u "## Goal (one sentence)" ++ [10%N; 10%N]), (u "<what we want to achieve>").
    eexists. split; [reflexivity|].
    exists (u "what we want to achieve"). repeat split. discriminate. }
  destruct (placeholder_bodies_rejected_before_store Mem.env None (u "Fix login") (u "0012")
              templateBody (Mem.world []) H) as [_ [_ [_ [Hc Hu]]]].
  split; [exact H|]. rewrite Hc, Hu. split; reflexivity.
Defined.




(** C6. [sandboxPath] refuses a candidate that lies in the root when the
    first segment below the root begins with two dots: under the root
    [/repo] the candidate [..cache/notes.md] resolves to
    [/repo/..cache/notes.md], which is inside [/repo], and the result is
    [null]. *)
Theorem sandbox_refuses_name_with_leading_dots (cwd : jstring) :
  Path.resolve cwd [u "/repo"; u "..cache/notes.md"] = u "/repo/..cache/notes.md"
  /\ insideRoot cwd (u "/repo") (u "..cache/notes.md") = true
  /\ Path.relative cwd (Path.resolve cwd [u "/repo"])
       (Path.resolve cwd [u "/repo"; u "..cache/notes.md"]) = u "..cache/notes.md"
  /\ sandboxPath cwd (u "/repo") (u "..cache/notes.md") = None.
Proof. repeat split; vm_compute; reflexivity. Qed.

(** C7. The key [token] matches the pattern of the reserved names, whose
    values the source says are always redacted.  A string under that key is
    replaced by the placeholder; an object under it is kept as it is, with
    the string it holds in the clear, and so are an array and a number. *)
Theorem redact_keeps_value_under_token :
  test Redact.SENSITIVE_KEYS (u "token") = true
  /\ Redact.redact (Redact.JObj [ (u "token", Redact.JStr (u "abc")) ])
     = Redact.JObj [ (u "token", Redact.JStr (u "[REDACTED]")) ]
  /\ Redact.redact tokenObject = tokenObject
  /\ valueAt [SKey (u "token"); SKey (u "access")] (Redact.redact tokenObject)
     = Some (Redact.JStr (u "abc"))
  /\ Redact.redact (Redact.JObj [ (u "token", Redact.JArr [Redact.JStr (u "abc")]) ])
     = Redact.JObj [ (u "token", Redact.JArr [Redact.JStr (u "abc")]) ]
  /\ Redact.redact (Redact.JObj [ (u "password", Redact.JNum 12345678) ])
     = Redact.JObj [ (u "password", Redact.JNum 12345678) ].
Proof. repeat split; vm_compute; reflexivity. Qed.

(** C8 (amended). With no pre-built summary and a non-empty history, the
    conversation section shows a suffix of the history, the most recent
    turns; the oldest turns are the ones dropped. The most recent turn is
    always shown; the estimated length of what is shown stays within the
    12,000 budget unless that one turn alone exceeds it; a dropped turn would
    not have fitted; the rendered turns are no longer than the estimate; and
    the section carries the older-messages-omitted note exactly when a turn
    was dropped, with the budget written as the locale of the process
    writes the number 12000. *)
Theorem recent_turns_within_budget (toLocaleString : Z -> jstring)
    (turns : list Context.ConversationTurn) :
  turns <> [] ->
  exists dropped recent,
    turns = dropped ++ recent
    /\ Context.recentTurnsWithinCharBudget turns CONVERSATION_RECENT_MAX_CHARS
       = (recent, Z.of_nat (length dropped))
    /\ recent <> []
    /\ ((sumLen recent <= CONVERSATION_RECENT_MAX_CHARS)%Z \/ length recent = 1%nat)
    /\ (forall older d, dropped = older ++ [d] ->
          (sumLen recent + Context.lineLen d > CONVERSATION_RECENT_MAX_CHARS)%Z)
    /\ (Context.len (join [nl; nl] (map Context.renderTurn recent)) <= sumLen recent)%Z
    /\ Context.conversationSection toLocaleString (Context.mkConfig (Some turns) None)
       = Some (sectionText (toLocaleString 12000%Z) (negb (Nat.eqb (length dropped) 0)) recent).
Proof.
  intros Hne.
  destruct (ContextFacts.takeRecent_spec CONVERSATION_RECENT_MAX_CHARS (rev turns) 0%Z []
              eq_refl (or_introl eq_refl)) as [taken [rest [Ho [Ht [Hi Hm]]]]].
  rewrite app_nil_r in *.
  assert (Hturns : turns = rev rest ++ rev taken).
  { rewrite <- rev_app_distr, <- Ho. now rewrite rev_involutive. }
  assert (Hrec : rev taken <> []).
  { destruct rest as [|d rest'].
    - intros H. apply Hne. rewrite Hturns. simpl. exact H.
    - now destruct (Hm d rest' eq_refl). }
  assert (Hpair : Context.recentTurnsWithinCharBudget turns CONVERSATION_RECENT_MAX_CHARS
                  = (rev taken, Z.of_nat (length (rev rest)))).
  { unfold Context.recentTurnsWithinCharBudget. destruct turns as [|t0 ts]; [congruence|].
    rewrite Ht. f_equal. rewrite Hturns at 1. rewrite length_app. lia. }
  exists (rev rest), (rev taken). repeat split; auto.
  - destruct Hi as [Hi|Hi]; [congruence | exact Hi].
  - intros older d Hd. destruct rest as [|d' rest'].
    + simpl in Hd. destruct older; discriminate.
    + simpl in Hd. apply app_inj_tail in Hd. destruct Hd as [_ Hd]. subst d'.
      now destruct (Hm d rest' eq_refl).
  - apply ContextFacts.join_render_len.
  - unfold Context.conversationSection. cbn [Context.conversationContextPack
      Context.conversationHistory]. destruct turns as [|t0 ts]; [congruence|].
    rewrite Hpair. unfold sectionText. f_equal.
    destruct (length (rev rest)); reflexivity.
Qed.

(** Three turns, the first two of 7,000 characters each: the first is
    dropped, and in the en-US locale the note names the budget as 12,000. *)
Lemma recent_turns_within_budget_witness :
  threeTurns <> []
  /\ Context.enUS 12000 = u "12,000"
  /\ exists first recent,
       threeTurns = [first] ++ recent
       /\ length recent = 2%nat
       /\ Context.conversationSection Context.enUS (Context.mkConfig (Some threeTurns) None)
          = Some (sectionText (u "12,000") true recent).
Proof.
  assert (H : threeTurns <> []) by discriminate.
  destruct (recent_turns_within_budget Context.enUS threeTurns H)
    as [dropped [recent [H1 [H2 [_ [_ [_ [_ H7]]]]]]]].
  split; [exact H|]. split; [reflexivity|].
  assert (Hrun : Context.recentTurnsWithinCharBudget threeTurns CONVERSATION_RECENT_MAX_CHARS
                 = (skipn 1 threeTurns, 1%Z)) by (vm_compute; reflexivity).
  rewrite Hrun in H2. apply pair_equal_spec in H2. destruct H2 as [Hrec Hlen].
  destruct dropped as [|first [|second dropped]]; cbn [length] in Hlen; try lia.
  exists first, recent. split; [exact H1|]. split; [now rewrite <- Hrec|].
  exact H7.
Defined.

(** C8, as stated, fails: one turn longer than the budget is shown whole. *)
Lemma conversation_over_budget_counterexample :
  Context.recentTurnsWithinCharBudget longTurn CONVERSATION_RECENT_MAX_CHARS = (longTurn, 0%Z)
  /\ (Context.len (join [nl; nl] (map Context.renderTurn longTurn))
      > CONVERSATION_RECENT_MAX_CHARS)%Z.
Proof. vm_compute. split; reflexivity. Qed.

(** C9 (amended). When the model's text is empty or blank, the reply is a
    function of the Tool Call Record alone.  The kinds of outcome are
    looked for in a fixed order: a creation rejected for placeholders, an
    update rejected for placeholders, a successful creation, a move to
    To Do, a body update, a sync, a column listing, a repository listing, a
    move to another repository.  The reply describes the earliest record
    of the first kind, in that order, that has a record, whether or not a
    later mutation followed it (not the most recent one); when no kind has
    a record the text is returned as it is.  A text that is not blank is
    returned unchanged. *)
Theorem fallback_reply_first_match (text : jstring) (toolCalls : list ToolCallRecord) :
  (trim text <> [] -> Fallback.finalReply text toolCalls = text)
  /\ (trim text = [] ->
      (forall l1 c l2 k,
          toolCalls = l1 ++ c :: l2 ->
          kindOf c = Some k ->
          (forall x, In x l1 -> kindOf x <> Some k) ->
          (forall x k', In x toolCalls -> kindOf x = Some k' -> (rank k <= rank k')%nat) ->
          Fallback.finalReply text toolCalls = Fallback.describe c)
      /\ ((forall x, In x toolCalls -> kindOf x = None) ->
          Fallback.finalReply text toolCalls = text)).
Proof.
  unfold Fallback.finalReply. split.
  - intros H. destruct (trim text); [congruence | reflexivity].
  - intros H. rewrite H. split.
    + intros l1 c l2 k Hcalls Hc Hl1 Hrank.
      now rewrite (FallbackFacts.firstFound_kind toolCalls l1 c l2 k Hcalls Hc Hl1 Hrank).
    + intros Hnone. now rewrite (FallbackFacts.firstFound_none toolCalls Hnone).
Qed.

(** A turn with a failed sync, then a creation, then a move: the creation
    is described.  A turn with a move and then a rejected update: the
    rejection is described, although it is the later record. *)
Lemma fallback_reply_first_match_witness :
  trim (u "  ") = []
  /\ Fallback.finalReply (u "  ") [CallSyncTickets (failWith (u "boom")); createdFirst; movedLater]
     = Fallback.describe createdFirst
  /\ Fallback.finalReply [] [movedLater; rejectedUpdate] = Fallback.describe rejectedUpdate.
Proof.
  split; [reflexivity|]. split.
  - destruct (fallback_reply_first_match (u "  ")
                [CallSyncTickets (failWith (u "boom")); createdFirst; movedLater]) as [_ H].
    destruct (H eq_refl) as [H1 _].
    apply (H1 [CallSyncTickets (failWith (u "boom"))] createdFirst [movedLater] Created).
    + reflexivity.
    + reflexivity.
    + intros x [<-|[]]. discriminate.
    + intros x k' [<-|[<-|[<-|[]]]] Hk; inversion Hk; cbn; lia.
  - destruct (fallback_reply_first_match [] [movedLater; rejectedUpdate]) as [_ H].
    destruct (H eq_refl) as [H1 _].
    apply (H1 [movedLater] rejectedUpdate [] RejectedUpdate).
    + reflexivity.
    + reflexivity.
    + intros x [<-|[]]. discriminate.
    + intros x k' [<-|[<-|[]]] Hk; inversion Hk; cbn; lia.
Defined.

(** C9, as stated, fails: the reply describes the creation, although the
    move is the most recent successful mutation of the turn. *)
Lemma fallback_not_most_recent_counterexample :
  Fallback.finalReply [] [createdFirst; movedLater] = Fallback.describe createdFirst
  /\ Fallback.finalReply [] [createdFirst; movedLater] <> Fallback.describe movedLater.
Proof. split; [reflexivity | vm_compute; discriminate]. Qed.

(** C10 (amended). A ticket reference is read by its last run of digits, cut
    to its last four (for a reference with no line break before them); when
    that gives nothing or zero, [fetch_ticket_content],
    [kanban_move_ticket_to_todo] and [kanban_move_ticket_to_other_repo_todo]
    answer that the ticket number could not be parsed, and [update_ticket_body]
    answers the same unless the body holds a placeholder token, which it
    rejects first; in each case no call is made on the store. *)
Theorem unparsable_reference_rejected_before_store
    (E : Env) (projectId : option jstring) (ref body_md target : jstring) (n : option Z)
    (w : World E) :
  refersTo ref n ->
  parseTicketNumber ref = n
  /\ (noTicketNumber n = true ->
      let rejected {A} : Result A := failWith (couldNotParse ref) in
      fetch_ticket_content projectId ref w
      = (pushed w (CallFetchTicketContent ref rejected), Returned rejected)
      /\ kanban_move_ticket_to_todo projectId ref w
         = (pushed w (CallKanbanMoveTicketToTodo ref rejected), Returned rejected)
      /\ kanban_move_ticket_to_other_repo_todo projectId (mkMoveOtherInput ref target) w
         = (pushed w (CallKanbanMoveTicketToOtherRepoTodo (mkMoveOtherInput ref target) rejected),
            Returned rejected)
      /\ update_ticket_body projectId (mkUpdateInput ref body_md) w
         = let out :=
             match matchG PLACEHOLDER_RE (trim body_md) with
             | [] => rejected
             | found => Fail (placeholderRejection (u "update") [] (uniq [] found))
             end in
           (pushed w (CallUpdateTicketBody (mkUpdateInput ref body_md) out), Returned out)).
Proof.
  intros Href. pose proof (RejectFacts.refersTo_parse _ _ Href) as Hp.
  split; [exact Hp|]. intros Hn rejected. rewrite <- Hp in Hn.
  split; [now apply RejectFacts.fetch_unparsable|].
  split; [now apply RejectFacts.move_unparsable|].
  split; [now apply (RejectFacts.move_other_unparsable projectId (mkMoveOtherInput ref target))|].
  destruct (matchG PLACEHOLDER_RE (trim body_md)) as [|x xs] eqn:Hm.
  - now apply (RejectFacts.update_unparsable projectId (mkUpdateInput ref body_md)).
  - cbv zeta. rewrite <- Hm.
    apply (ToolFacts.update_ticket_body_rejects E projectId (mkUpdateInput ref body_md) w).
    simpl. rewrite Hm. discriminate.
Qed.

Lemma unparsable_reference_rejected_before_store_witness :
  refersTo (u "PRJ-0000") (Some 0%Z)
  /\ parseTicketNumber (u "PRJ-0000") = Some 0%Z
  /\ accesses (fst (fetch_ticket_content (E:=Mem.env) None (u "PRJ-0000") (Mem.world []))) = [].
Proof.
  assert (H : refersTo (u "PRJ-0000") (Some 0%Z)).
  { right. exists (u "0000"). split; [|reflexivity].
    exists (u "PRJ-"), []. repeat split; try reflexivity; simpl; auto. }
  destruct (unparsable_reference_rejected_before_store Mem.env None (u "PRJ-0000")
              sampleBody (u "acme/web") (Some 0%Z) (Mem.world []) H) as [Hp Hr].
  destruct (Hr eq_refl) as [Hf _].
  split; [exact H|]. split; [exact Hp|]. rewrite Hf. reflexivity.
Defined.

(** C10, the counterexamples: for the reference [0000] and a body that holds
    a placeholder token, [update_ticket_body] answers with the placeholder
    rejection, whose text does not say that the number could not be parsed;
    and the reference made of the line [12] followed by the line [0000],
    whose last digits are [0000], is read as ticket 12 and looked up in the
    store. *)
Lemma reference_rejection_counterexample :
  (parseTicketNumber (u "0000") = Some 0%Z
   /\ snd (update_ticket_body (E:=Mem.env) None (mkUpdateInput (u "0000") (u "<x>"))
                              (Mem.world []))
      = Returned (Fail (placeholderRejection (u "update") [] [u "<x>"]))
   /\ includes (u "Could not parse ticket number")
               (f_error (placeholderRejection (u "update") [] [u "<x>"])) = false)
  /\ (let ref := u "12" ++ nl :: u "0000" in
      parseTicketNumber ref = Some 12%Z
      /\ accesses (fst (fetch_ticket_content (E:=Mem.env) None ref (Mem.world [])))
         = [AMaybeSingle (legacyRowQuery [c_id; c_title; c_body_md; c_kanban_column_id]
                                         (u "0012"))]).
Proof. vm_compute. repeat split. Qed.

(* ================================================================== *)
(** * Further properties *)
(* ================================================================== *)

(** The result of [sandboxPath], in full: the resolved candidate when it
    lies in the resolved root and its first segment below the root does not
    begin with two dots, and [null] otherwise. In particular a candidate
    that resolves outside the root is never returned. *)
Theorem sandboxPath_characterised (cwd repoRoot relativeOrAbsolute : jstring) :
  sandboxPath cwd repoRoot relativeOrAbsolute
  = if insideRoot cwd repoRoot relativeOrAbsolute
       && negb (dotted (below cwd repoRoot relativeOrAbsolute))
    then Some (Path.resolve cwd [repoRoot; orElse relativeOrAbsolute (u ".")])
    else None.
Proof.
  unfold sandboxPath, insideRoot, below, Path.relative, Path.resolve.
  set (segsA := Path.resolveSegments cwd [repoRoot; orElse relativeOrAbsolute (u ".")]).
  set (segsR := Path.resolveSegments cwd [repoRoot]).
  assert (HA : forallb plainSegment segsA = true) by apply PathFacts.resolveSegments_plainSegment.
  assert (HR : forallb plainSegment segsR = true) by apply PathFacts.resolveSegments_plainSegment.
  rewrite !PathFacts.resolve_again by assumption.
  destruct (jstr_eqb _ _) eqn:Heq.
  - apply jstr_eqb_eq in Heq.
    assert (Hsame : segsR = segsA).
    { rewrite <- (PathFacts.resolve_again cwd segsR HR),
              <- (PathFacts.resolve_again cwd segsA HA). now rewrite Heq. }
    rewrite Hsame, PathFacts.segPrefix_refl, skipn_all. reflexivity.
  - pose proof (PathFacts.stripCommon_spec segsR segsA) as Hs.
    destruct (Path.stripCommon segsR segsA) as [up down].
    destruct Hs as [Hin Hout].
    destruct (segPrefix segsR segsA) eqn:Hp.
    + destruct (Hin eq_refl) as [Hup Hdown]. subst up. rewrite <- Hdown.
      cbn [map app andb]. destruct down as [|d ds]; [reflexivity|].
      assert (Hd : plainSegment d = true).
      { assert (Hall : forallb plainSegment (d :: ds) = true).
        { rewrite Hdown. rewrite <- (firstn_skipn (length segsR) segsA) in HA.
          rewrite forallb_app in HA. apply andb_true_iff in HA. now destruct HA. }
        simpl in Hall. apply andb_true_iff in Hall. now destruct Hall. }
      destruct (PathFacts.startsWith_dots_join d ds Hd) as [Hdots Habs].
      rewrite Hdots, Habs, orb_false_r. unfold dotted.
      now destruct (startsWith (u "..") d).
    + destruct up as [|x up]; [now specialize (Hout eq_refl)|].
      rewrite PathFacts.startsWith_dots_up. reflexivity.
Qed.

(** [PLACEHOLDER_RE] finds a match in a string exactly when the string holds
    a placeholder token: an opening angle bracket, one or more letters,
    digits, white space, hyphens or underscores, and a closing bracket. *)
Theorem placeholder_pattern_exact (s : jstring) :
  matchG PLACEHOLDER_RE s <> [] <-> containsToken s.
Proof.
  split.
  - intros H. destruct (search PLACEHOLDER_RE [] s) as [m|] eqn:Hs.
    + destruct (RegexFacts.search_some _ _ _ _ Hs) as [g [Hsplit [_ [Hat _]]]].
      exists g, (m_text m), (m_after m). split; [exact Hsplit|].
      now apply ReadyFacts.attempt_token_inv in Hat.
    + apply RegexFacts.matchG_empty in Hs. congruence.
  - intros H Hn. now apply ReadyFacts.no_match_iff_no_token in Hn.
Qed.

(** A ticket reference never parses to a number outside 0..9999: the
    pattern captures at most four digits. *)
Theorem parseTicketNumber_bounds (ref : jstring) (n : Z) :
  parseTicketNumber ref = Some n -> (0 <= n <= 9999)%Z.
Proof.
  unfold parseTicketNumber. destruct (trim ref) as [|c s]; [discriminate|].
  destruct (exec TICKET_NUMBER_RE (c :: s)) as [m|] eqn:He; [|discriminate].
  destruct (NumberFacts.ticket_number_capture _ _ He) as [d [Hg [Hd Hl]]].
  rewrite Hg. intros H. inversion H; subst n. unfold parseDigits.
  pose proof (NumberFacts.parseDigits_from d 0%Z Hd ltac:(lia)) as Hb.
  assert (Hp : (10 ^ Z.of_nat (length d) <= 10 ^ 4)%Z)
    by (apply Z.pow_le_mono_r; lia).
  change (10 ^ 4)%Z with 10000%Z in Hp. lia.
Qed.

Lemma parseTicketNumber_bounds_witness :
  parseTicketNumber (u "HAL-0012") = Some 12%Z /\ (0 <= 12 <= 9999)%Z.
Proof.
  split; [reflexivity|].
  exact (parseTicketNumber_bounds (u "HAL-0012") 12%Z eq_refl).
Defined.

(** The readiness result is consistent with itself: a body is ready exactly
    when no item is reported missing, [ready] is the conjunction of the five
    checklist results, and each failed check adds one item to the list, in
    the order goal, deliverable, acceptance criteria, constraints,
    non-goals, placeholders. *)
Theorem ready_iff_nothing_missing (body : jstring) :
  let r := evaluateTicketReady body in
  let c := checklistResults r in
  (ready r = true <-> missingItems r = [])
  /\ ready r = goal c && deliverable c && acceptanceCriteria c && constraintsNonGoals c
               && noPlaceholders c
  /\ (goal c = false <->
      In (u "Goal (one sentence) missing or placeholder") (missingItems r))
  /\ (acceptanceCriteria c = false <->
      In (u "Acceptance criteria checkboxes missing") (missingItems r)).
Proof.
  unfold evaluateTicketReady. cbv zeta.
  cbn [ready missingItems checklistResults goal deliverable acceptanceCriteria
       constraintsNonGoals noPlaceholders].
  set (msg := u "Unresolved placeholders: " ++ _).
  assert (Hmsg1 : msg <> u "Goal (one sentence) missing or placeholder").
  { subst msg. intros H. apply (f_equal (fun l => nth 0 l 0%N)) in H. discriminate H. }
  assert (Hmsg2 : msg <> u "Acceptance criteria checkboxes missing").
  { subst msg. intros H. apply (f_equal (fun l => nth 0 l 0%N)) in H. discriminate H. }
  generalize dependent msg. intros msg Hmsg1 Hmsg2.
  destruct ((0 <? length (sectionContent (trim body) T_GOAL))%nat
            && (length (matchG PLACEHOLDER_RE (sectionContent (trim body) T_GOAL)) =? 0)%nat
            && negb (test wholeBracketRe (trim (sectionContent (trim body) T_GOAL))));
  destruct ((0 <? length (sectionContent (trim body) T_DELIVERABLE))%nat
            && (length (matchG PLACEHOLDER_RE (sectionContent (trim body) T_DELIVERABLE))
                =? 0)%nat);
  destruct (test checkboxRe (sectionContent (trim body) T_AC));
  destruct (0 <? length (sectionContent (trim body) T_CONSTRAINTS))%nat;
  destruct (0 <? length (sectionContent (trim body) T_NONGOALS))%nat;
  destruct (length (matchG PLACEHOLDER_RE (trim body)) =? 0)%nat;
  cbn [pushUnless app andb];
  (split; [split; intros H; try reflexivity; try discriminate H|]);
  (split; [reflexivity|]);
  (split; split; intros H; try reflexivity; try discriminate H;
    try (left; reflexivity);
    try (cbn [In] in H;
         repeat match type of H with
                | _ \/ _ => destruct H as [H|H]
                end; try contradiction; try discriminate H;
         try (symmetry in H; contradiction));
    try (cbn [In]; tauto)).
Qed.

(** [redact] keeps the shape of the value: at every place of the input that
    is not reached through a [__proto__] key, the output has a value of the
    same kind; numbers, booleans and null are unchanged, an array keeps its
    length, an object keeps its keys in their order, less [__proto__], and a
    string stays a string; and nothing appears where the input has nothing. *)
Theorem redact_keeps_shape (v : Redact.json) (path : list step) :
  noProto path = true ->
  match valueAt path v with
  | None => valueAt path (Redact.redact v) = None
  | Some Redact.JNull => valueAt path (Redact.redact v) = Some Redact.JNull
  | Some (Redact.JBool b) => valueAt path (Redact.redact v) = Some (Redact.JBool b)
  | Some (Redact.JNum z) => valueAt path (Redact.redact v) = Some (Redact.JNum z)
  | Some (Redact.JStr _) => exists s', valueAt path (Redact.redact v) = Some (Redact.JStr s')
  | Some (Redact.JArr items) =>
      exists items', valueAt path (Redact.redact v) = Some (Redact.JArr items')
                     /\ length items' = length items
  | Some (Redact.JObj es) =>
      exists es', valueAt path (Redact.redact v) = Some (Redact.JObj es')
                  /\ map fst es' = filter Redact.ownKey (map fst es)
  end.
Proof.
  intros Hp. unfold Redact.redact.
  assert (H : valueAt path (Redact.redactValue v None)
              = option_map (fun v' => Redact.redactValue v' (lastKey path)) (valueAt path v)).
  { rewrite (RedactFacts.valueAt_redacted path v None Hp). destruct path; reflexivity. }
  rewrite H. destruct (valueAt path v) as [x|]; [|reflexivity].
  cbn [option_map]. destruct x.
  - destruct (lastKey path) as [[|? ?]|]; reflexivity.
  - destruct (lastKey path) as [[|? ?]|]; reflexivity.
  - destruct (lastKey path) as [[|? ?]|]; reflexivity.
  - destruct (lastKey path) as [[|c k]|]; cbn [Redact.redactValue Redact.sensitiveString];
      try (eexists; reflexivity).
    destruct (test Redact.SENSITIVE_KEYS (c :: k)); eexists; reflexivity.
  - rewrite RedactFacts.redactValue_arr. eexists. split; [reflexivity|]. apply length_map.
  - rewrite RedactFacts.redactValue_obj. eexists. split; [reflexivity|].
    apply RedactShape.redactEntries_keys.
Qed.

Lemma redact_keeps_shape_witness :
  exists items',
    valueAt [SKey (u "input")] (Redact.redact capturedRequest) = Some (Redact.JArr items')
    /\ length items' = 1%nat.
Proof. exact (redact_keeps_shape capturedRequest [SKey (u "input")] eq_refl). Defined.

(** [fetch_ticket_content] never throws and never writes: every call returns
    a result, pushes exactly one record carrying that result, and leaves the
    store, the clock and the write calls as they were. *)
Theorem fetch_ticket_content_only_reads
    (E : Env) (projectId : option jstring) (ref : jstring) (w : World E) :
  exists w1 out,
    fetch_ticket_content projectId ref w
    = (pushed w1 (CallFetchTicketContent ref out), Returned out)
    /\ onlyReads w w1.
Proof.
  unfold fetch_ticket_content.
  destruct (WriteFacts.wrapped_total (fetchTicketContentBody projectId ref)
              (CallFetchTicketContent ref) w) as [w1 [out [Hrun Hbody]]].
  exists w1, out. split; [exact Hrun|].
  pose proof (WriteFacts.fetch_body_reads projectId ref w) as Hr.
  destruct Hbody as [Hb|[msg [Hb _]]]; now rewrite Hb in Hr.
Qed.

(** [update_ticket_body] never throws and writes at most once: every call
    returns a result and pushes one record with it; the only write it can
    make is one update that sets the body alone, to a text in which no
    placeholder token is left; a success is returned only after that update,
    and its [ready] and [missingItems] are those of the text written: the
    list of missing items in full, or no list when nothing is missing. *)
Theorem update_ticket_body_writes_once
    (E : Env) (projectId : option jstring) (input : UpdateInput) (w : World E) :
  exists w1 out,
    update_ticket_body projectId input w
    = (pushed w1 (CallUpdateTicketBody input out), Returned out)
    /\ toolCalls w1 = toolCalls w
    /\ ((writes (accesses w1) = writes (accesses w) /\ success out = false)
        \/ exists body filters,
             writes (accesses w1) = writes (accesses w) ++ [AUpdate (bodyPatch body) filters]
             /\ matchG PLACEHOLDER_RE body = []
             /\ forall us, out = Ok us ->
                           us_ready us = ready (evaluateTicketReady body)
                           /\ ((missingItems (evaluateTicketReady body) = []
                                /\ us_missingItems us = None)
                               \/ (missingItems (evaluateTicketReady body) <> []
                                   /\ us_missingItems us
                                      = Some (missingItems (evaluateTicketReady body))))).
Proof.
  unfold update_ticket_body.
  destruct (WriteFacts.wrapped_total (updateTicketBodyBody projectId input)
              (CallUpdateTicketBody input) w) as [w1 [out [Hrun Hbody]]].
  exists w1, out. split; [exact Hrun|].
  destruct Hbody as [Hb|[msg [Hb Hout]]];
    destruct (WriteFacts.update_body_writes _ _ _ _ _ Hb) as [Ht Hw]; (split; [exact Ht|]).
  - destruct Hw as [[Hw Hno]|[body [filters [Hw [Hph Hok]]]]].
    + left. split; [exact Hw|]. destruct out as [us|f]; [|reflexivity].
      now specialize (Hno us).
    + right. exists body, filters. split; [exact Hw|]. split; [exact Hph|].
      intros us Hus. apply Hok. now rewrite Hus.
  - subst out. destruct Hw as [[Hw _]|[body [filters [Hw [Hph _]]]]].
    + left. split; [exact Hw | reflexivity].
    + right. exists body, filters. split; [exact Hw|]. split; [exact Hph|].
      intros us Hus. discriminate Hus.
Qed.

(** The two move tools never throw and write at most once: every call
    returns a result and pushes one record with it; the only write either
    can make is one update that sets the column to [col-todo] and the
    position to at least 1; a success is returned only after that update.
    The update of the cross-repository tool also re-keys the ticket: it
    sets the repository to the trimmed target, a ticket number, and the
    display id made of the target's prefix and that number. *)
Theorem move_tools_write_once
    (E : Env) (projectId : option jstring) (ticket_id target : jstring) (w : World E) :
  (exists w1 out,
     kanban_move_ticket_to_todo projectId ticket_id w
     = (pushed w1 (CallKanbanMoveTicketToTodo ticket_id out), Returned out)
     /\ toolCalls w1 = toolCalls w
     /\ ((writes (accesses w1) = writes (accesses w) /\ success out = false)
         \/ exists patch filters,
              writes (accesses w1) = writes (accesses w) ++ [AUpdate patch filters]
              /\ movesToTodo patch))
  /\ (exists w1 out,
        kanban_move_ticket_to_other_repo_todo projectId (mkMoveOtherInput ticket_id target) w
        = (pushed w1 (CallKanbanMoveTicketToOtherRepoTodo (mkMoveOtherInput ticket_id target)
                        out),
           Returned out)
        /\ toolCalls w1 = toolCalls w
        /\ ((writes (accesses w1) = writes (accesses w) /\ success out = false)
            \/ exists patch filters,
                 writes (accesses w1) = writes (accesses w) ++ [AUpdate patch filters]
                 /\ movesToTodo patch
                 /\ Row.repo_full_name patch = Some (trim target)
                 /\ exists n, Row.ticket_number patch = Some n
                      /\ Row.display_id patch = Some (displayIdOf (trim target) n))).
Proof.
  split.
  - unfold kanban_move_ticket_to_todo.
    destruct (WriteFacts.wrapped_total (kanbanMoveTicketToTodoBody projectId ticket_id)
                (CallKanbanMoveTicketToTodo ticket_id) w) as [w1 [out [Hrun Hbody]]].
    exists w1, out. split; [exact Hrun|].
    destruct Hbody as [Hb|[msg [Hb Hout]]];
      destruct (WriteFacts.move_body_writes _ _ _ _ _ Hb) as [Ht Hw]; (split; [exact Ht|]).
    + destruct Hw as [[Hw Hno]|Hw]; [|now right].
      left. split; [exact Hw|]. destruct out as [x|f]; [|reflexivity]. now specialize (Hno x).
    + rewrite Hout. destruct Hw as [[Hw _]|Hw]; [|now right]. left. now split.
  - unfold kanban_move_ticket_to_other_repo_todo.
    destruct (WriteFacts.wrapped_total
                (kanbanMoveTicketToOtherRepoTodoBody projectId
                   (mkMoveOtherInput ticket_id target))
                (CallKanbanMoveTicketToOtherRepoTodo (mkMoveOtherInput ticket_id target)) w)
      as [w1 [out [Hrun Hbody]]].
    exists w1, out. split; [exact Hrun|].
    destruct Hbody as [Hb|[msg [Hb Hout]]];
      destruct (WriteFacts.move_other_body_writes _ _ _ _ _ Hb) as [Ht Hw];
      (split; [exact Ht|]).
    + destruct Hw as [[Hw Hno]|Hw]; [|now right].
      left. split; [exact Hw|]. destruct out as [x|f]; [|reflexivity]. now specialize (Hno x).
    + rewrite Hout. destruct Hw as [[Hw _]|Hw]; [|now right]. left. now split.
Qed.

(** The slug of a title is a clean file-name part: it is never empty, it
    holds only lower-case ASCII letters, digits and hyphens, it neither
    starts nor ends with a hyphen, and it has no two hyphens in a row. *)
Theorem slugFromTitle_safe (title : jstring) :
  slugFromTitle title <> []
  /\ forallb slugChar (slugFromTitle title) = true
  /\ startsPlain (slugFromTitle title) = true
  /\ endsPlain (slugFromTitle title) = true
  /\ noDoubleHyphen (slugFromTitle title) = true.
Proof.
  unfold slugFromTitle. cbv zeta. rewrite ReplaceFacts.replaceAll_class.
  set (kept := filter _ _).
  assert (Hkept : forallb slugChar kept = true).
  { subst kept. apply ReplaceFacts.forallb_filter_impl.
    intros c. unfold slugChar. now rewrite negb_involutive. }
  change (replaceAll 0 (plus true (chr 45)) (u "-") kept)
    with (replaceAll 0 (plus true (Chr (N.eqb 45))) [45%N] kept).
  rewrite SlugFacts.replaceAll_plus by reflexivity.
  change (Alt (Seq (Bol false) (chr 45)) (Seq (chr 45) (Eol false))) with SlugFacts.edgeRe.
  destruct (SlugFacts.collapse_hyphens kept false) as [Hno _].
  assert (Hcol : forallb slugChar (SlugFacts.collapse (N.eqb 45) 45 false kept) = true).
  { rewrite <- (SlugFacts.replaceAll_plus (N.eqb 45) 45 kept) by reflexivity.
    apply ReplaceFacts.replaceAll_forall; try reflexivity. exact Hkept. }
  destruct (SlugFacts.edge_clean _ Hno) as [H1 [H2 H3]].
  set (out := replaceAll 0 SlugFacts.edgeRe [] _) in *.
  assert (Hout : forallb slugChar out = true).
  { subst out. apply ReplaceFacts.replaceAll_forall; try reflexivity. exact Hcol. }
  destruct out as [|c o]; [repeat split; discriminate|].
  cbn [orElse]. repeat split; try assumption. discriminate.
Qed.

(** The display-id prefix of a repository is one to six characters long and
    holds only upper-case ASCII letters and digits, whatever the repository
    name. *)
Theorem repoHintPrefix_safe (repoFullName : jstring) :
  (1 <= length (repoHintPrefix repoFullName) <= 6)%nat
  /\ forallb prefixChar (repoHintPrefix repoFullName) = true.
Proof.
  unfold repoHintPrefix. cbv zeta.
  set (repo := lastOr repoFullName (splitOn 47 [] repoFullName)).
  destruct (pickToken _) as [t'|] eqn:Hp.
  - apply PrefixFacts.pickToken_spec in Hp. destruct Hp as [t [Hin [Ht' Hlen]]].
    subst t'. unfold toUpperCase. rewrite length_map. split; [lia|].
    apply in_rev in Hin. apply filter_In in Hin. destruct Hin as [Hin _].
    pose proof (PrefixFacts.splitRe_gaps (fun c => negb (isLower c || isDigit c))
                  (toLowerCase repo)) as Hg.
    rewrite Forall_forall in Hg. specialize (Hg t Hin).
    rewrite PrefixFacts.forallb_map_comp. rewrite forallb_forall in Hg. apply forallb_forall.
    intros c Hc. apply PrefixFacts.upper_of_lower_digit.
    specialize (Hg c Hc). now rewrite negb_involutive in Hg.
  - rewrite ReplaceFacts.replaceAll_class.
    set (letters := toUpperCase (filter _ repo)).
    assert (Hl : forallb isUpper letters = true).
    { subst letters. unfold toUpperCase. rewrite PrefixFacts.forallb_map_comp. apply forallb_forall.
      intros c Hc. apply filter_In in Hc. destruct Hc as [_ Hc].
      rewrite negb_involutive in Hc. now apply PrefixFacts.upper_of_alpha. }
    assert (H4 : forallb isUpper (firstn 4 letters) = true).
    { rewrite <- (firstn_skipn 4 letters), forallb_app in Hl.
      apply andb_true_iff in Hl. now destruct Hl. }
    pose proof (length_firstn 4 letters) as Hlen.
    pose proof (Nat.le_min_l 4 (length letters)) as Hmin.
    destruct (firstn 4 letters) as [|c l] eqn:Hf.
    + split; [simpl; lia | reflexivity].
    + cbn [orElse]. unfold toUpperCase. rewrite length_map. split; [cbn [length] in Hlen |- *; lia|].
      rewrite PrefixFacts.forallb_map_comp. rewrite forallb_forall in H4. apply forallb_forall.
      intros x Hx. unfold prefixChar.
      rewrite (PrefixFacts.upper_of_upper x (H4 x Hx)). reflexivity.
Qed.

(** [list_available_repos] never writes and never throws, and it records
    its result once. A successful result lists the repositories in strictly
    ascending order of code units, so without duplicates, with their count;
    the names listed are exactly the non-empty trimmed [repo_full_name]
    values of the rows the store answered with. *)
Theorem list_available_repos_sorted_distinct (E : Env) (w : World E) :
  exists w1 out,
    list_available_repos w = (pushed w1 (CallListAvailableRepos out), Returned out)
    /\ onlyReads w w1
    /\ forall rs, out = Ok rs ->
         ascending (rs_repos rs) /\ NoDup (rs_repos rs)
         /\ rs_count rs = Z.of_nat (length (rs_repos rs))
         /\ forall name, In name (rs_repos rs) <-> (name <> [] /\ listedUnder w name).
Proof.
  unfold list_available_repos.
  destruct (WriteFacts.wrapped_total (listAvailableReposBody (E:=E))
              CallListAvailableRepos w) as [w1 [out [Hrun Hbody]]].
  exists w1, out. split; [exact Hrun|].
  unfold listAvailableReposBody, bind, select in Hbody.
  assert (Hlog : onlyReads w (logged (ASelect reposQuery) w))
    by (apply MonadFacts.onlyReads_logged; [apply MonadFacts.onlyReads_refl | reflexivity]).
  destruct (selectRows E (store w) reposQuery) as [resp|msg] eqn:Hsel.
  - destruct (error resp) as [e|] eqn:He.
    + destruct (isUnknownColumnError e); unfold ret in Hbody;
        (destruct Hbody as [Hb | [m [Hb _]]]; [|discriminate]);
        injection Hb as Hw Ho; subst w1 out; (split; [exact Hlog|]);
        intros rs Hrs; [|discriminate].
      injection Hrs as Hrs. subst rs. cbn [rs_repos rs_count].
      repeat split; try constructor; try contradiction.
      intros [_ [resp' [rows [row [repo [Hs' [He' _]]]]]]].
      rewrite Hsel in Hs'. injection Hs' as Hs'. subst resp'. congruence.
    + unfold ret in Hbody. destruct Hbody as [Hb | [m [Hb _]]]; [|discriminate].
      injection Hb as Hw Ho. subst w1 out. split; [exact Hlog|].
      intros rs Hrs. injection Hrs as Hrs. subst rs. cbn [rs_repos rs_count].
      assert (Hasc : ascending (sortStrings (repoNames (orNil (data resp)))))
        by apply SortFacts.sortStrings_ascending, SortFacts.uniq_NoDup.
      split; [exact Hasc|]. split; [now apply SortFacts.ascending_NoDup|].
      split; [reflexivity|]. intros name.
      rewrite SortFacts.sortStrings_in, SortFacts.repoNames_in. split.
      * intros [Hne [row [repo [Hrow [Hr Ht]]]]]. split; [exact Hne|].
        destruct (data resp) as [rows|] eqn:Hd; [|contradiction].
        now exists resp, rows, row, repo.
      * intros [Hne [resp' [rows [row [repo [Hs' [_ [Hd [Hrow [Hr Ht]]]]]]]]]].
        rewrite Hsel in Hs'. injection Hs' as Hs'. subst resp'.
        split; [exact Hne|]. rewrite Hd. now exists row, repo.
  - destruct Hbody as [Hb | [m [Hb Ho]]]; [discriminate|].
    injection Hb as Hw Hm. subst w1 m out. split; [exact Hlog|]. discriminate.
Qed.

(** Once its store client exists, [checkUnassignedTickets] returns a result
    whatever the store answers or throws, and it never inserts. Its writes
    are updates that move rows to To Do, in runs within one repository; a
    run starts at a position of 1 or higher and gives each next row the
    position of a counter that is increased by 1, so that below [2^53] the
    positions of a run are consecutive integers; every row it
    updates was read from the store, was in Unassigned (or in no column)
    and has a ready body. Every id it reports as moved is that of a row it
    updated, every ticket it reports as not ready is an Unassigned row
    whose body is not ready, and a result with an error lists nothing. *)
Theorem check_unassigned_moves_only_ready (E : Env) (w : World E) :
  exists w1 res,
    checkUnassignedTickets w = (w1, Returned res)
    /\ toolCalls w1 = toolCalls w
    /\ (exists segments,
         writes (accesses w1)
         = writes (accesses w) ++ moves (nowISO E (ticks w)) (flat_map segmentMoves segments)
         /\ Forall (fun sg => (1 <= fst sg)%Z
                              /\ ((fst sg + Z.of_nat (length (snd sg)) < two53)%Z ->
                                  segmentMoves sg = consecutive (fst sg) (snd sg))
                              /\ exists repo, Forall (fun row => movable w row
                                                                 /\ repoOf row = repo) (snd sg))
                   segments
         /\ forall m, In m (cu_moved res) ->
              exists sg row, In sg segments /\ In row (snd sg) /\ m = shownId row)
    /\ (forall e, In e (cu_notReady res) ->
          exists row, readFrom w row /\ unassignedRow row = true /\ readyRow row = false
                      /\ e = reportOf row)
    /\ (cu_error res <> None -> cu_moved res = [] /\ cu_notReady res = []).
Proof.
  unfold checkUnassignedTickets, tryCatch.
  pose proof (CheckFacts.body_run E w) as [Ht [segments [Hw [Hsegs0 Hres]]]].
  assert (Hsegs : Forall (fun sg => (1 <= fst sg)%Z
                    /\ ((fst sg + Z.of_nat (length (snd sg)) < two53)%Z ->
                        segmentMoves sg = consecutive (fst sg) (snd sg))
                    /\ exists repo, Forall (fun row => movable w row /\ repoOf row = repo)
                                           (snd sg)) segments).
  { revert Hsegs0. apply Forall_impl. intros sg [Hpos Hrepo].
    split; [exact Hpos|]. split; [|exact Hrepo].
    intros Hb. now apply CheckFacts.numbered_consecutive. }
  destruct (checkUnassignedBody w) as [w1 [res|msg]]; cbn [fst snd] in *.
  - exists w1, res. split; [reflexivity|]. split; [exact Ht|].
    destruct Hres as [[rows [Hrows [[He [Hmap [[sub [Hm Hsub]] Hnr]]] | Herr]]] | Herr].
    + split; [|split].
      * exists segments. split; [exact Hw|]. split; [exact Hsegs|].
        intros m Hin. rewrite Hm in Hin. cbn [app] in Hin.
        destruct (Hsub m Hin) as [g [row [Hg [Hrow [Hr Hs]]]]].
        assert (Hseg : In (filter readyRow (snd g)) (map snd segments)).
        { rewrite Hmap. apply in_map_iff. now exists g. }
        apply in_map_iff in Hseg. destruct Hseg as [sg [Hsg Hin']].
        exists sg, row. split; [exact Hin'|]. split; [|exact Hs].
        rewrite Hsg. apply filter_In. now split.
      * intros e Hin. rewrite Hnr in Hin. cbn [app] in Hin.
        apply in_flat_map in Hin. destruct Hin as [g [Hg Hin]].
        apply in_map_iff in Hin. destruct Hin as [row [Hrow Hin]].
        apply filter_In in Hin. destruct Hin as [Hin Hr].
        destruct (CheckFacts.groupByRepo_in _ _ _ Hg Hin) as [Hin' _].
        apply filter_In in Hin'. destruct Hin' as [Hin' Hu].
        exists row. split; [|split; [exact Hu|split; [|now symmetry]]].
        -- destruct Hrows as [q [resp [Hq [Hsel [_ Hd]]]]].
           destruct (data resp) as [rows'|] eqn:Hd'; cbn [orNil] in Hd; subst rows;
             [|contradiction].
           now exists q, resp, rows'.
        -- now destruct (readyRow row).
      * intros Hne. contradiction.
    + destruct Herr as [_ [Hm Hn]]. split; [|split].
      * exists segments. split; [exact Hw|]. split; [exact Hsegs|].
        intros m Hin. rewrite Hm in Hin. contradiction.
      * intros e Hin. rewrite Hn in Hin. contradiction.
      * intros _. now split.
    + destruct Herr as [_ [Hm Hn]]. split; [|split].
      * exists segments. split; [exact Hw|]. split; [exact Hsegs|].
        intros m Hin. rewrite Hm in Hin. contradiction.
      * intros e Hin. rewrite Hn in Hin. contradiction.
      * intros _. now split.
  - exists w1, (mkCheckUnassignedResult [] [] (Some msg)). split; [reflexivity|].
    split; [exact Ht|]. split; [|split].
    + exists segments. split; [exact Hw|]. split; [exact Hsegs|]. intros m [].
    + intros e [].
    + intros _. now split.
Qed.

(** When [checkUnassignedTickets] returns without an error, it has dealt
    with every Unassigned row of the tickets it read: each ready row was
    updated to To Do at a position of at least 1, each row that is not
    ready is in the not-ready list with its missing items, and there are
    exactly as many updates and reports as there are such rows. *)
Theorem check_unassigned_covers_all (E : Env) (w w1 : World E) (res : CheckUnassignedResult) :
  checkUnassignedTickets w = (w1, Returned res) ->
  cu_error res = None ->
  allChecked w w1 res.
Proof.
  unfold checkUnassignedTickets, tryCatch. intros Hrun Herr.
  pose proof (CheckFacts.body_run E w) as [_ [segments [Hw [Hsegs Hres]]]].
  destruct (checkUnassignedBody w) as [w1' [res'|msg]]; cbn [fst snd] in *.
  - apply pair_equal_spec in Hrun. destruct Hrun as [-> Hr].
    assert (res' = res) by congruence. subst res'.
    destruct Hres as [[rows [Hrows [[_ [Hmap [_ Hnr]]] | [Hne _]]]] | [Hne _]];
      try contradiction.
    exists rows. split; [exact Hrows|].
    set (groups := groupByRepo (filter unassignedRow rows)) in *.
    cbn [app] in Hnr. split; [|split; [|split]].
    + intros row Hin Hu Hr'.
      destruct (CheckFacts.groupByRepo_has (filter unassignedRow rows) row) as [g [Hg Hrow]];
        [apply filter_In; now split|].
      assert (Hseg : In (filter readyRow (snd g)) (map snd segments)).
      { rewrite Hmap. apply in_map_iff. now exists g. }
      apply in_map_iff in Hseg. destruct Hseg as [sg [Hsg Hin']].
      rewrite Forall_forall in Hsegs. destruct (Hsegs sg Hin') as [Hpos _].
      destruct (CheckFacts.numbered_has row (snd sg) (fst sg) Hpos) as [p [Hp Hnum]].
      { rewrite Hsg. apply filter_In. now split. }
      exists p. split; [exact Hp|].
      assert (Hmv : In (AUpdate (todoPatch p (nowISO E (ticks w))) (rowKey row))
                       (writes (accesses w1))).
      { rewrite Hw. apply in_or_app. right. unfold moves. apply in_map_iff.
        exists (row, p). split; [reflexivity|]. apply in_flat_map. now exists sg. }
      unfold writes in Hmv. apply filter_In in Hmv. now destruct Hmv.
    + intros row Hin Hu Hr'. rewrite Hnr. apply in_flat_map.
      destruct (CheckFacts.groupByRepo_has (filter unassignedRow rows) row) as [g [Hg Hrow]];
        [apply filter_In; now split|].
      exists g. split; [exact Hg|]. apply in_map. apply filter_In. split; [exact Hrow|].
      now rewrite Hr'.
    + rewrite Hnr, CheckFacts.flat_map_length_map. subst groups.
      now rewrite CheckFacts.groupByRepo_count, CheckFacts.filter_filter.
    + rewrite Hw, length_app. f_equal. unfold moves.
      rewrite length_map, CheckFacts.segments_length, Hmap, CheckFacts.concat_filtered.
      subst groups. now rewrite CheckFacts.groupByRepo_count, CheckFacts.filter_filter.
  - apply pair_equal_spec in Hrun. destruct Hrun as [_ Hr]. unfold ret in Hr.
    assert (res = mkCheckUnassignedResult [] [] (Some msg)) by congruence. subst res.
    discriminate.
Qed.

Lemma check_unassigned_covers_all_witness :
  exists w1 res,
    checkUnassignedTickets (Mem.world [waitingTicket; heldElsewhere 7]) = (w1, Returned res)
    /\ cu_error res = None
    /\ allChecked (Mem.world [waitingTicket; heldElsewhere 7]) w1 res.
Proof.
  exists (fst (checkUnassignedTickets (Mem.world [waitingTicket; heldElsewhere 7]))).
  exists (match snd (checkUnassignedTickets (Mem.world [waitingTicket; heldElsewhere 7])) with
          | Returned res => res
          | Thrown msg => mkCheckUnassignedResult [] [] (Some msg)
          end).
  assert (Hrun : forall r : World Mem.env * Outcome CheckUnassignedResult,
             r = checkUnassignedTickets (Mem.world [waitingTicket; heldElsewhere 7]) ->
             cu_error (match snd r with
                       | Returned res => res
                       | Thrown msg => mkCheckUnassignedResult [] [] (Some msg)
                       end) = None ->
             r = (fst r, Returned (match snd r with
                                   | Returned res => res
                                   | Thrown msg => mkCheckUnassignedResult [] [] (Some msg)
                                   end))).
  { intros [w1 [res|msg]] _; cbn [fst snd]; [reflexivity | discriminate]. }
  assert (Herr : cu_error (match snd (checkUnassignedTickets
                                        (Mem.world [waitingTicket; heldElsewhere 7])) with
                           | Returned res => res
                           | Thrown msg => mkCheckUnassignedResult [] [] (Some msg)
                           end) = None) by (vm_compute; reflexivity).
  split; [exact (Hrun _ eq_refl Herr)|]. split; [exact Herr|].
  exact (check_unassigned_covers_all Mem.env _ _ _ (Hrun _ eq_refl Herr) Herr).
Defined.

(** What a successful [create_ticket] guarantees, whatever the store did on
    the way: the id is the ticket number padded to four digits, the display
    id is the repository prefix, a hyphen and the id, the file name is the
    id, a hyphen, the title's slug and [.md], and the path names the display
    id; [ready] holds exactly when no missing item is listed, a ticket is
    reported as moved to To Do only when it is ready, [retried] and
    [attempts] come together with between 2 and 10 attempts; and a row with
    this id and file name was inserted into Unassigned at position 0. *)
Theorem created_ticket_identity (E : Env) (projectId : option jstring) (input : CreateInput)
    (w w1 : World E) (cs : CreateSuccess) :
  create_ticket projectId input w = (w1, Returned (Ok cs)) ->
  createdAs (projectRepo projectId LEGACY_REPO) input cs
  /\ flagsAgree cs
  /\ exists row, In (AInsert row) (accesses w1) /\ rowOfCreated cs row.
Proof.
  intros Hrun. unfold create_ticket in Hrun.
  destruct (WriteFacts.wrapped_total (createTicketBody projectId input)
              (CallCreateTicket input) w) as [w2 [out [Hw Hbody]]].
  rewrite Hw in Hrun. apply pair_equal_spec in Hrun. destruct Hrun as [Hw1 Hout].
  assert (out = Ok cs) by now injection Hout. subst out w1. clear Hout Hw.
  destruct Hbody as [Hbody | [msg [_ Hf]]]; [|discriminate Hf].
  cbn [pushed accesses].
  assert (Hgo : forall startNum (w0 : World E),
             bind (@now E)
                  (fun now0 => createAttempts MAX_CREATE_TICKET_RETRIES 1 input
                     (normalizeBodyForReady (trim (ci_body_md input)))
                     (projectRepo projectId LEGACY_REPO)
                     (repoHintPrefix (projectRepo projectId LEGACY_REPO))
                     (slugFromTitle (ci_title input)) now0 startNum None) w0
             = (w2, Returned (Ok cs)) ->
             createdAs (projectRepo projectId LEGACY_REPO) input cs
             /\ flagsAgree cs
             /\ exists row, In (AInsert row) (accesses w2) /\ rowOfCreated cs row).
  { intros startNum w0 H. apply CreatedFacts.bind_inv in H. destruct H as [w' [now0 [_ H]]].
    apply CreatedFacts.attempts_ok in H; [|lia | reflexivity].
    destruct H as [H1 [H2 [H3 [H4 [H5 [H6 H7]]]]]].
    split; [|split; [exact H6 | exact H7]].
    unfold createdAs, displayIdOf. rewrite <- H1. repeat split; assumption. }
  unfold createTicketBody in Hbody. cbv zeta in Hbody.
  destruct (0 <? length (matchG PLACEHOLDER_RE (trim (ci_body_md input))))%nat.
  { apply CreatedFacts.ret_inv in Hbody. destruct Hbody as [_ Hbody]. discriminate Hbody. }
  apply CreatedFacts.bind_inv in Hbody. destruct Hbody as [w3 [r [_ Hbody]]].
  destruct (error r) as [e|].
  - destruct (negb (isUnknownColumnError e)).
    { apply CreatedFacts.ret_inv in Hbody. destruct Hbody as [_ Hbody].
      unfold failWith in Hbody. discriminate Hbody. }
    apply CreatedFacts.bind_inv in Hbody. destruct Hbody as [w4 [legacy [_ Hbody]]].
    destruct (error legacy).
    { apply CreatedFacts.ret_inv in Hbody. destruct Hbody as [_ Hbody].
      unfold failWith in Hbody. discriminate Hbody. }
    revert Hbody. apply Hgo.
  - revert Hbody. apply Hgo.
Qed.

Lemma created_ticket_identity_witness :
  exists w1 cs,
    create_ticket (E:=Mem.env) (Some (u "acme/web")) fixLogin (Mem.world [qaTicket])
    = (w1, Returned (Ok cs))
    /\ cs_display_id cs = u "WEB-0013"
    /\ createdAs (u "acme/web") fixLogin cs
    /\ flagsAgree cs
    /\ exists row, In (AInsert row) (accesses w1) /\ rowOfCreated cs row.
Proof.
  assert (Hrun : forall r : World Mem.env * Outcome (Result CreateSuccess),
             r = create_ticket (Some (u "acme/web")) fixLogin (Mem.world [qaTicket]) ->
             forall cs, snd r = Returned (Ok cs) -> r = (fst r, Returned (Ok cs))).
  { intros [w1 o] _ cs H. cbn [fst snd] in *. now rewrite H. }
  assert (Hok : exists cs,
             snd (create_ticket (E:=Mem.env) (Some (u "acme/web")) fixLogin
                    (Mem.world [qaTicket])) = Returned (Ok cs)
             /\ cs_display_id cs = u "WEB-0013").
  { eexists. split; vm_compute; reflexivity. }
  destruct Hok as [cs [Hcs Hid]].
  exists (fst (create_ticket (E:=Mem.env) (Some (u "acme/web")) fixLogin (Mem.world [qaTicket]))).
  exists cs. split; [exact (Hrun _ eq_refl cs Hcs)|]. split; [exact Hid|].
  exact (created_ticket_identity Mem.env (Some (u "acme/web")) fixLogin _ _ cs
           (Hrun _ eq_refl cs Hcs)).
Defined.

(** [extractTicketId] of the sync script reads the id off the first four
    characters of a file name: it returns them when the name has at least
    four characters and the first four are digits, and null otherwise, so a
    file whose name does not start with four digits is skipped. *)
Theorem extractTicketId_first_four (filename : jstring) :
  SyncScript.extractTicketId filename
  = if (4 <=? length filename)%nat && forallb isDigit (firstn 4 filename)
    then Some (firstn 4 filename)
    else None.
Proof.
  unfold SyncScript.extractTicketId, SyncScript.TICKET_ID_RE.
  rewrite SyncFacts.anchored_exec. unfold attempt.
  rewrite RegexFacts.rmatch_seq, ReadyFacts.rmatch_bol. cbn [before].
  rewrite RegexFacts.rmatch_grp. unfold digit. rewrite SyncFacts.times_class.
  destruct ((4 <=? length filename)%nat && forallb isDigit (firstn 4 filename)) eqn:Hc;
    [|reflexivity].
  cbn [before rest caps]. unfold group. cbn [m_caps find fst snd Nat.eqb].
  unfold consumed. cbn [rest]. apply andb_true_iff in Hc. destruct Hc as [Hlen _].
  apply Nat.leb_le in Hlen. rewrite length_skipn.
  replace (length filename - (length filename - 4))%nat with 4%nat by lia. reflexivity.
Qed.

(** [redact] changes nothing it has no reason to: a value in which no
    string holds [sk-], [eyJ] or a scheme separator, no string sits under a
    reserved key name and no key is [__proto__] comes back as it was. *)
Theorem redact_keeps_plain (v : Redact.json) :
  plainValue v = true -> Redact.redact v = v.
Proof.
  intros H. unfold Redact.redact. apply PlainFacts.redactValue_plain; [exact H|].
  now destruct v.
Qed.

Lemma redact_keeps_plain_witness : Redact.redact statusReport = statusReport.
Proof. exact (redact_keeps_plain statusReport eq_refl). Defined.

(** [insert_qa_artifact] checks the report before it sends anything: a body
    of white space only, or one that is just [placeholder], [todo] or [tbd]
    in any letter case once trimmed, is refused and no request is made.
    Every other body leads to exactly one request, to the [insert-qa]
    endpoint of the configured API, carrying the ticket id, the title and
    the body as given; and the tool reports success exactly when that
    request was answered with an ok status and a JSON body whose [success]
    field is truthy. It never throws. *)
Theorem qa_report_checked_before_sending (numberText : Z -> jstring)
    (config : QaTools.QaToolsConfig) (fetch : QaTools.Request -> Outcome QaTools.Response)
    (input : QaTools.QaArtifactInput) :
  let run := QaTools.insert_qa_artifact numberText config fetch input in
  if blankBody (QaTools.qa_body_md input) || stubBody (QaTools.qa_body_md input)
  then fst run = [] /\ QaTools.qaSuccess (snd run) = false
  else exists request,
      fst run = [request]
      /\ QaTools.rq_url request = QaTools.apiUrl config ++ u "/api/artifacts/insert-qa"
      /\ firstn 3 (QaTools.rq_body request)
         = [(u "ticketId", QaTools.qa_ticket_id input); (u "title", QaTools.qa_title input);
            (u "body_md", QaTools.qa_body_md input)]
      /\ (QaTools.qaSuccess (snd run) = true <->
          exists response result,
            fetch request = Returned response /\ QaTools.rs_ok response = true
            /\ QaTools.rs_json response = Returned result
            /\ QaTools.truthyField (u "success") result = true).
Proof.
  cbv zeta. unfold QaTools.insert_qa_artifact, blankBody, stubBody.
  set (body := QaTools.qa_body_md input).
  assert (Hblank : negb (nonEmpty body) || negb (nonEmpty (trim body)) = forallb isWs body).
  { destruct (forallb isWs body) eqn:Hb.
    - apply QaFacts.trim_blank in Hb. rewrite Hb. apply orb_true_r.
    - destruct (trim body) as [|c t] eqn:Ht.
      + apply QaFacts.trim_blank in Ht. congruence.
      + destruct body; [discriminate Hb | reflexivity]. }
  rewrite Hblank. destruct (forallb isWs body); cbn [orb]; [split; reflexivity|].
  cbn [existsb]. rewrite orb_false_r, orb_assoc.
  destruct (jstr_eqb (toLowerCase (trim body)) (u "placeholder")
            || jstr_eqb (toLowerCase (trim body)) (u "todo")
            || jstr_eqb (toLowerCase (trim body)) (u "tbd")); [split; reflexivity|].
  cbv zeta. eexists. cbn [fst snd]. split; [reflexivity|]. cbn [QaTools.rq_url QaTools.rq_body].
  split; [reflexivity|]. split; [reflexivity|].
  destruct (fetch _) as [response|msg].
  - destruct (QaTools.rs_ok response) eqn:Hok; cbn [negb].
    + destruct (QaTools.rs_json response) as [result|msg] eqn:Hjson.
      * destruct (QaTools.truthyField (u "success") result) eqn:Hs.
        -- assert (Hnn : result <> Redact.JNull) by (intros ->; discriminate Hs).
           destruct result; try contradiction; cbn [negb QaTools.qaSuccess];
             (split; [intros _; eexists _, _; repeat split; eassumption | reflexivity]).
        -- destruct result; cbn [negb QaTools.qaSuccess QaTools.unavailable];
             (split; [discriminate|]); intros [r' [v' [Hr [_ [Hj Ht]]]]];
             injection Hr as <-; rewrite Hjson in Hj; injection Hj as <-; congruence.
      * cbn [QaTools.unavailable QaTools.qaSuccess]. split; [discriminate|].
        intros [r' [v' [Hr [_ [Hj _]]]]]. injection Hr as <-. congruence.
    + cbn [QaTools.qaSuccess]. split; [discriminate|].
      intros [r' [v' [Hr [Hok' _]]]]. injection Hr as <-. congruence.
  - cbn [QaTools.unavailable QaTools.qaSuccess]. split; [discriminate|].
    intros [r' [v' [Hr _]]]. discriminate Hr.
Qed.

(** What [create_ticket] writes, whatever the store answers: it inserts at
    most twenty candidate rows (two per attempt), and after them it makes
    at most two updates, each of which sets the body or moves the row to To
    Do at a position of at least 1, and each of which is addressed to the
    row it created, by repository and number or by id. It never updates
    before a row with that id was inserted, and a success is the success of
    that row. *)
Theorem create_ticket_updates_own_row (E : Env) (projectId : option jstring)
    (input : CreateInput) (w : World E) :
  exists w1 out,
    create_ticket projectId input w = (pushed w1 (CallCreateTicket input out), Returned out)
    /\ exists inserts updates n,
         writes (accesses w1) = writes (accesses w) ++ map AInsert inserts ++ updates
         /\ (length inserts <= 2 * MAX_CREATE_TICKET_RETRIES)%nat
         /\ (length updates <= 2)%nat
         /\ Forall (ownUpdate (projectRepo projectId LEGACY_REPO) n) updates
         /\ (updates <> [] -> exists row, In row inserts /\ Row.id row = Some (idOf n))
         /\ (forall cs, out = Ok cs -> cs_ticket_number cs = n /\ inserts <> []).
Proof.
  unfold create_ticket.
  destruct (WriteFacts.wrapped_total (createTicketBody projectId input)
              (CallCreateTicket input) w) as [w1 [out [Hrun Hbody]]].
  exists w1, out. split; [exact Hrun|].
  destruct Hbody as [Hbody | [msg [Hbody Hout]]];
    apply CreateWrites.body_writes in Hbody;
    destruct Hbody as [inserts [updates [n [H1 [H2 [H3 [H4 [H5 H6]]]]]]]];
    exists inserts, updates, n; repeat (split; [assumption|]).
  - intros cs Hcs. apply H6. now rewrite Hcs.
  - intros cs Hcs. rewrite Hout in Hcs. discriminate Hcs.
Qed.

(** The ids [create_ticket] hands out can be given back to the ticket
    tools: for every repository and every ticket number from 1 to 9999, the
    reference parser reads the number back from the display id (prefix,
    hyphen, four digits) and from the bare four-digit id, and the tools do
    not take it for an unparsable reference. *)
Theorem display_id_round_trip (repoFullName : jstring) (n : Z) :
  (1 <= n <= 9999)%Z ->
  parseTicketNumber (displayIdOf repoFullName n) = Some n
  /\ parseTicketNumber (idOf n) = Some n
  /\ noTicketNumber (parseTicketNumber (displayIdOf repoFullName n)) = false.
Proof.
  intros Hn. destruct (RoundTrip.id_reads_back n Hn) as [Hd [Hlen Hval]].
  destruct (RoundTrip.prefix_chars repoFullName) as [Hne Hpre].
  assert (Hlast : match rev (idOf n) with c :: _ => isWs c = false | [] => True end).
  { destruct (rev (idOf n)) as [|c t] eqn:Hr; [exact I|].
    assert (Hc : isDigit c = true).
    { unfold allDigits in Hd. rewrite <- PathFacts.forallb_rev, Hr in Hd.
      cbn [forallb] in Hd. apply andb_true_iff in Hd. now destruct Hd. }
    now apply RoundTrip.digit_printable, RoundTrip.printable_plain in Hc. }
  assert (Hdisplay : parseTicketNumber (displayIdOf repoFullName n) = Some n).
  { rewrite <- Hval at 2.
    apply (TicketRefFacts.parse_last_run _ (repoHintPrefix repoFullName ++ u "-") (idOf n) []).
    - rewrite app_nil_r, <- app_assoc. unfold displayIdOf. apply RoundTrip.trim_plain.
      + destruct (repoHintPrefix repoFullName) as [|c p]; [congruence|].
        cbn [forallb] in Hpre. apply andb_true_iff in Hpre. destruct Hpre as [Hc _].
        cbn [app]. now apply RoundTrip.prefixChar_printable, RoundTrip.printable_plain in Hc.
      + rewrite !rev_app_distr.
        destruct (rev (idOf n)) as [|c t] eqn:Hr; [|exact Hlast].
        apply (f_equal (@length jchar)) in Hr. rewrite length_rev, Hlen in Hr. discriminate Hr.
    - unfold singleLine. rewrite forallb_app. apply andb_true_iff. split; [|reflexivity].
      rewrite forallb_forall in Hpre. apply forallb_forall. intros c Hc.
      apply Hpre, RoundTrip.prefixChar_printable, RoundTrip.printable_plain in Hc.
      destruct Hc as [_ Hc]. now rewrite Hc.
    - exact Hd.
    - lia.
    - reflexivity.
    - now left. }
  split; [exact Hdisplay|]. split.
  - rewrite <- Hval at 2.
    apply (TicketRefFacts.parse_last_run _ [] (idOf n) []).
    + rewrite app_nil_r. cbn [app]. apply RoundTrip.trim_plain; [|exact Hlast].
      destruct (idOf n) as [|c t] eqn:Hi; [exact I|].
      unfold allDigits in Hd. cbn [forallb] in Hd. apply andb_true_iff in Hd.
      destruct Hd as [Hc _].
      now apply RoundTrip.digit_printable, RoundTrip.printable_plain in Hc.
    + reflexivity.
    + exact Hd.
    + lia.
    + reflexivity.
    + now left.
  - rewrite Hdisplay. unfold noTicketNumber. apply Z.eqb_neq. lia.
Qed.

Lemma display_id_round_trip_witness :
  parseTicketNumber (displayIdOf (u "acme/web") 13) = Some 13%Z
  /\ parseTicketNumber (idOf 13) = Some 13%Z
  /\ noTicketNumber (parseTicketNumber (displayIdOf (u "acme/web") 13)) = false.
Proof. apply display_id_round_trip. lia. Defined.

(** Whenever [create_ticket] or [update_ticket_body] fails and reports
    detected placeholders, the list it reports is not empty, has no
    duplicates, and holds placeholder tokens only: an angle bracket pair
    around one or more letters, digits, white space, hyphens or
    underscores. *)
Theorem detected_placeholders_are_tokens (E : Env) (projectId : option jstring)
    (created : CreateInput) (updated : UpdateInput) (w w1 : World E)
    (f : Failure) (found : list jstring) :
  create_ticket projectId created w = (w1, Returned (Fail f))
  \/ update_ticket_body projectId updated w = (w1, Returned (Fail f)) ->
  f_detectedPlaceholders f = Some found ->
  found <> [] /\ NoDup found /\ Forall isToken found.
Proof.
  intros Hrun Hfound.
  assert (Hwrap : forall A (body : M E (Result A)) rec,
             bind (tryCatch body (fun msg => ret (failWith msg)))
                  (fun out => bind (push (rec out)) (fun _ => ret out)) w
             = (w1, Returned (Fail f)) ->
             (forall w2 out, body w = (w2, Returned out) -> TokenFacts.reportsTokens out) ->
             TokenFacts.tokensOnly found).
  { intros A body rec H Hbody.
    destruct (WriteFacts.wrapped_total body rec w) as [w2 [out [Hw Hb]]].
    rewrite Hw in H. apply pair_equal_spec in H. destruct H as [_ H].
    assert (Hout : out = Fail f) by now injection H.
    destruct Hb as [Hb | [msg [_ Hm]]].
    - exact (Hbody w2 out Hb f found Hout Hfound).
    - rewrite Hm in Hout. unfold failWith in Hout. injection Hout as <-. discriminate Hfound. }
  destruct Hrun as [Hrun | Hrun].
  - apply (Hwrap _ (createTicketBody projectId created) (CallCreateTicket created) Hrun).
    intros w2 out. apply TokenFacts.create_body_reports.
  - apply (Hwrap _ (updateTicketBodyBody projectId updated) (CallUpdateTicketBody updated) Hrun).
    intros w2 out. apply TokenFacts.update_body_reports.
Qed.

Lemma detected_placeholders_are_tokens_witness :
  exists f found,
    snd (create_ticket (E:=Mem.env) None (mkCreateInput (u "Fix login") templateBody)
                       (Mem.world [])) = Returned (Fail f)
    /\ f_detectedPlaceholders f = Some found
    /\ found = [u "<what we want to achieve>"; u "<AC 1>"]
    /\ NoDup found /\ Forall isToken found.
Proof.
  assert (Hrun : forall r : World Mem.env * Outcome (Result CreateSuccess),
             r = create_ticket None (mkCreateInput (u "Fix login") templateBody) (Mem.world []) ->
             forall f, snd r = Returned (Fail f) -> r = (fst r, Returned (Fail f))).
  { intros [w1 o] _ f H. cbn [fst snd] in *. now rewrite H. }
  assert (Hf : exists f found,
             snd (create_ticket (E:=Mem.env) None (mkCreateInput (u "Fix login") templateBody)
                    (Mem.world [])) = Returned (Fail f)
             /\ f_detectedPlaceholders f = Some found
             /\ found = [u "<what we want to achieve>"; u "<AC 1>"]).
  { eexists _, _. split; [vm_compute; reflexivity|]. split; reflexivity. }
  destruct Hf as [f [found [Hf [Hd Hl]]]]. exists f, found.
  split; [exact Hf|]. split; [exact Hd|]. split; [exact Hl|].
  exact (proj2 (detected_placeholders_are_tokens Mem.env None
                  (mkCreateInput (u "Fix login") templateBody) (mkUpdateInput [] []) _ _ f found
                  (or_introl (Hrun _ eq_refl f Hf)) Hd)).
Defined.
